(** * EngineView: the map layer's use of the grid pathfinder

    A shallow embedding of [src/js/traviso/EngineView.js]: the bookkeeping
    of object references per cell, the construction of the map, and the
    movement of objects along paths.  The pathfinder, the move engine, the
    tile and object views live in other files; they appear here as
    collaborators whose calls are recorded in a log, and whose answers are
    parameters of the development. *)

From Stdlib Require Import ZArith QArith Bool Lia.
From stdpp Require Import base option list functions gmap strings.
From stdpp Require Import sorting.

Local Open Scope Z_scope.

(** ** Data *)

(** A map location [{ c: ..., r: ... }]. *)
Record Pos := mkPos { pos_c : Z; pos_r : Z }.

Global Instance Pos_eq_dec : EqDecision Pos.
Proof. solve_decision. Defined.

(** Object views are JavaScript objects: they are compared by reference
    ([indexOf], [===]) and mutated in place, so they live in a store and are
    named by their address. *)
Abbreviation ObjId := nat (only parsing).

(** What a path is made of.  [solve] and [getAdjacentOpenCells] answer with
    the pathfinder's grid nodes; [moveCurrentControllableToObj] also passes
    a tile where a path item is expected.  Both carry a [mapPos]; there is
    one node and one tile per cell, so the pair of kind and location stands
    for the identity of the item. *)
Inductive ItemKind := GridNode | TileItem.

Global Instance ItemKind_eq_dec : EqDecision ItemKind.
Proof. solve_decision. Defined.

Record PathItem := mkItem { item_kind : ItemKind; item_mapPos : Pos }.

Global Instance PathItem_eq_dec : EqDecision PathItem.
Proof. solve_decision. Defined.

Abbreviation Direction := Z (only parsing).

Module TileView.
Record t := mk { mapPos : Pos; isMovableTo : bool }.
Definition asItem (tile : t) : PathItem := mkItem TileItem (mapPos tile).
End TileView.

Module ObjectView.
Record t := mk {
  mapPos : Pos;
  columnSpan : Z;
  rowSpan : Z;
  isMovableTo : bool;
  isFloorObject : bool;
  noTransparency : bool;
  alpha : Q;
  currentInteractionOffset : option Pos;
  currentPath : option (list PathItem);
  currentPathStep : Z;
  currentTarget : option (Z * Z);
  currentTargetTile : option PathItem;
  currentDirection : Direction
}.

Definition set_mapPos (p : Pos) (o : t) : t :=
  mk p (columnSpan o) (rowSpan o) (isMovableTo o) (isFloorObject o)
     (noTransparency o) (alpha o)
     (currentInteractionOffset o) (currentPath o) (currentPathStep o)
     (currentTarget o) (currentTargetTile o) (currentDirection o).
Definition set_alpha (value : Q) (o : t) : t :=
  mk (mapPos o) (columnSpan o) (rowSpan o) (isMovableTo o) (isFloorObject o)
     (noTransparency o) value
     (currentInteractionOffset o) (currentPath o) (currentPathStep o)
     (currentTarget o) (currentTargetTile o) (currentDirection o).
Definition set_currentPath (p : option (list PathItem)) (o : t) : t :=
  mk (mapPos o) (columnSpan o) (rowSpan o) (isMovableTo o) (isFloorObject o)
     (noTransparency o) (alpha o)
     (currentInteractionOffset o) p (currentPathStep o)
     (currentTarget o) (currentTargetTile o) (currentDirection o).
Definition set_currentPathStep (n : Z) (o : t) : t :=
  mk (mapPos o) (columnSpan o) (rowSpan o) (isMovableTo o) (isFloorObject o)
     (noTransparency o) (alpha o)
     (currentInteractionOffset o) (currentPath o) n
     (currentTarget o) (currentTargetTile o) (currentDirection o).
Definition set_currentTarget (x : option (Z * Z)) (o : t) : t :=
  mk (mapPos o) (columnSpan o) (rowSpan o) (isMovableTo o) (isFloorObject o)
     (noTransparency o) (alpha o)
     (currentInteractionOffset o) (currentPath o) (currentPathStep o)
     x (currentTargetTile o) (currentDirection o).
Definition set_currentTargetTile (x : option PathItem) (o : t) : t :=
  mk (mapPos o) (columnSpan o) (rowSpan o) (isMovableTo o) (isFloorObject o)
     (noTransparency o) (alpha o)
     (currentInteractionOffset o) (currentPath o) (currentPathStep o)
     (currentTarget o) x (currentDirection o).
Definition set_currentDirection (d : Direction) (o : t) : t :=
  mk (mapPos o) (columnSpan o) (rowSpan o) (isMovableTo o) (isFloorObject o)
     (noTransparency o) (alpha o)
     (currentInteractionOffset o) (currentPath o) (currentPathStep o)
     (currentTarget o) (currentTargetTile o) d.
End ObjectView.

(** The part of [config] that the modelled methods read. *)
Inductive PfAlgorithm := ASTAR_ORTHOGONAL | ASTAR_DIAGONAL.

Global Instance PfAlgorithm_eq_dec : EqDecision PfAlgorithm.
Proof. solve_decision. Defined.

Record Config := mkConfig {
  pathFindingType : PfAlgorithm;
  pathFindingClosest : bool;
  instantObjectRelocation : bool;
  changeTransperancies : bool;
  highlightPath : bool;
  tileHighlightAnimated : bool;
  checkPathOnEachTile : bool;
  objectReachedDestinationCallback : bool
}.

Definition set_instantObjectRelocation (b : bool) (cfg : Config) : Config :=
  mkConfig (pathFindingType cfg) (pathFindingClosest cfg) b
           (changeTransperancies cfg) (highlightPath cfg)
           (tileHighlightAnimated cfg) (checkPathOnEachTile cfg)
           (objectReachedDestinationCallback cfg).

Definition set_checkPathOnEachTile (b : bool) (cfg : Config) : Config :=
  mkConfig (pathFindingType cfg) (pathFindingClosest cfg)
           (instantObjectRelocation cfg) (changeTransperancies cfg)
           (highlightPath cfg) (tileHighlightAnimated cfg) b
           (objectReachedDestinationCallback cfg).

(** The map data handed over by the loader. *)
Record ControllableLocation := mkLoc { columnIndex : Z; rowIndex : Z }.

(** How a call ends: with a value, with a JavaScript exception, or cut off
    by the bound on nested calls. *)
Inductive Exn :=
| TypeError (what : string)
| Error (message : string).

Inductive Outcome (A : Type) :=
| Val (a : A)
| Throw (e : Exn)
| OutOfFuel.
Arguments Val {A} a.
Arguments Throw {A} e.
Arguments OutOfFuel {A}.

Section Engine.

(** The raw descriptions a [TileView] and an [ObjectView] are built from. *)
Context {TileData ObjData : Type}.

Record MapData := mkMapData {
  groundMapData : list (list (option TileData));
  objectsMapData : list (list (option ObjData));
  initialControllableLocation : option ControllableLocation
}.

(** The instance made by [new TRAVISO.PathFinding(columns, rows, options)]. *)
Record PathFinding := mkPathFinding {
  pf_columns : Z; pf_rows : Z; pf_diagonal : bool; pf_closest : bool
}.

(** Every call on a collaborator, in program order. *)
Inductive Event :=
| PF_new (p : PathFinding)
| PF_setCell (c r w : Z)
| PF_setDynamicCell (c r w : Z)
| PF_isCellFilled (c r : Z)
| PF_solve (a1 a2 a3 a4 : Z)
| PF_getAdjacentOpenCells (c r columnSpan rowSpan : Z)
| PF_destroy
| ME_prepareForMove (o : ObjId) (path : list PathItem) (speed : option Z)
| ME_setMoveParameters (o : ObjId) (pos : Pos)
| ME_addMovable (o : ObjId)
| ME_removeMovable (o : ObjId)
| ME_destroy
| Tile_setHighlighted (r c : Z) (on : bool)
| Tile_destroy (r c : Z)
| Obj_destroy (o : ObjId)
| Obj_changeVisualToDirection (o : ObjId) (d : Direction) (moving : bool)
| Callback_objectReachedDestination (o : ObjId).

(** ** The engine's state *)

Record EngineView := mkEngine {
  config : option Config;
  mapData : option MapData;
  mapSizeR : Z;
  mapSizeC : Z;
  tileArray : option (gmap Z (gmap Z TileView.t));
  objArray : option (gmap Z (gmap Z (list ObjId)));
  pathFinding : option PathFinding;
  moveEngine : bool;
  currentControllable : option ObjId;
  objects : ObjId -> ObjectView.t;
  nextObject : ObjId;
  log : list Event
}.

Definition set_config (v : option Config) (s : EngineView) : EngineView :=
  mkEngine v (mapData s) (mapSizeR s) (mapSizeC s) (tileArray s) (objArray s)
           (pathFinding s) (moveEngine s) (currentControllable s) (objects s)
           (nextObject s) (log s).
Definition set_mapData (v : option MapData) (s : EngineView) : EngineView :=
  mkEngine (config s) v (mapSizeR s) (mapSizeC s) (tileArray s) (objArray s)
           (pathFinding s) (moveEngine s) (currentControllable s) (objects s)
           (nextObject s) (log s).
Definition set_mapSize (rows cols : Z) (s : EngineView) : EngineView :=
  mkEngine (config s) (mapData s) rows cols (tileArray s) (objArray s)
           (pathFinding s) (moveEngine s) (currentControllable s) (objects s)
           (nextObject s) (log s).
Definition set_tileArray (v : option (gmap Z (gmap Z TileView.t)))
    (s : EngineView) : EngineView :=
  mkEngine (config s) (mapData s) (mapSizeR s) (mapSizeC s) v (objArray s)
           (pathFinding s) (moveEngine s) (currentControllable s) (objects s)
           (nextObject s) (log s).
Definition set_objArray (v : option (gmap Z (gmap Z (list ObjId))))
    (s : EngineView) : EngineView :=
  mkEngine (config s) (mapData s) (mapSizeR s) (mapSizeC s) (tileArray s) v
           (pathFinding s) (moveEngine s) (currentControllable s) (objects s)
           (nextObject s) (log s).
Definition set_pathFinding (v : option PathFinding) (s : EngineView)
    : EngineView :=
  mkEngine (config s) (mapData s) (mapSizeR s) (mapSizeC s) (tileArray s)
           (objArray s) v (moveEngine s) (currentControllable s) (objects s)
           (nextObject s) (log s).
Definition set_moveEngine (v : bool) (s : EngineView) : EngineView :=
  mkEngine (config s) (mapData s) (mapSizeR s) (mapSizeC s) (tileArray s)
           (objArray s) (pathFinding s) v (currentControllable s) (objects s)
           (nextObject s) (log s).
Definition set_currentControllable (v : option ObjId) (s : EngineView)
    : EngineView :=
  mkEngine (config s) (mapData s) (mapSizeR s) (mapSizeC s) (tileArray s)
           (objArray s) (pathFinding s) (moveEngine s) v (objects s)
           (nextObject s) (log s).
Definition set_objects (v : ObjId -> ObjectView.t) (n : ObjId)
    (s : EngineView) : EngineView :=
  mkEngine (config s) (mapData s) (mapSizeR s) (mapSizeC s) (tileArray s)
           (objArray s) (pathFinding s) (moveEngine s) (currentControllable s)
           v n (log s).
Definition set_log (v : list Event) (s : EngineView) : EngineView :=
  mkEngine (config s) (mapData s) (mapSizeR s) (mapSizeC s) (tileArray s)
           (objArray s) (pathFinding s) (moveEngine s) (currentControllable s)
           (objects s) (nextObject s) v.

(** ** Computations: state, exceptions, and a bound on nested calls *)

Definition M (A : Type) : Type := EngineView -> Outcome A * EngineView.

Definition ret {A} (a : A) : M A := fun s => (Val a, s).
Definition throw {A} (e : Exn) : M A := fun s => (Throw e, s).
Definition diverge {A} : M A := fun s => (OutOfFuel, s).
Definition bind {A B} (m : M A) (k : A -> M B) : M B :=
  fun s =>
    match m s with
    | (Val a, s') => k a s'
    | (Throw e, s') => (Throw e, s')
    | (OutOfFuel, s') => (OutOfFuel, s')
    end.

Notation "x <~ m ;; k" := (bind m (fun x => k))
  (at level 100, m at next level, right associativity).
Notation "m ;;; k" := (bind m (fun _ => k))
  (at level 100, right associativity).

Definition get : M EngineView := fun s => (Val s, s).
Definition modify (f : EngineView -> EngineView) : M unit :=
  fun s => (Val tt, f s).
Definition emit (e : Event) : M unit :=
  modify (fun s => set_log (log s ++ [e]) s).
Definition when (b : bool) (m : M unit) : M unit :=
  if b then m else ret tt.

(** Reading a property of [null] or [undefined] throws a TypeError. *)
Definition deref {A} (what : string) (x : option A) : M A :=
  match x with
  | Some a => ret a
  | None => throw (TypeError what)
  end.

(** [for (k = lo; k < hi; k++) body(k)] and
    [for (m = hi; m > lo; m--) body(m)]. *)
Fixpoint forUpFrom (n : nat) (k : Z) (body : Z -> M unit) : M unit :=
  match n with
  | O => ret tt
  | S n' => body k ;;; forUpFrom n' (k + 1) body
  end.
Definition forUp (lo hi : Z) (body : Z -> M unit) : M unit :=
  forUpFrom (Z.to_nat (hi - lo)) lo body.

Fixpoint forDownFrom (n : nat) (m : Z) (body : Z -> M unit) : M unit :=
  match n with
  | O => ret tt
  | S n' => body m ;;; forDownFrom n' (m - 1) body
  end.
Definition forDown (hi lo : Z) (body : Z -> M unit) : M unit :=
  forDownFrom (Z.to_nat (hi - lo)) hi body.

(** [for each x of xs, in order]. *)
Fixpoint forEach {A} (xs : list A) (body : A -> M unit) : M unit :=
  match xs with
  | [] => ret tt
  | x :: rest => body x ;;; forEach rest body
  end.

(** ** Collaborators *)

(** The answers of the code that is not in this file.  The pathfinder's
    answers may depend on everything that happened before, so they are
    functions of the log. *)
Record Externals := mkExternals {
  solve_answer : list Event -> Z -> Z -> Z -> Z -> option (list PathItem);
  isCellFilled_answer : list Event -> Z -> Z -> bool;
  getAdjacentOpenCells_answer :
    list Event -> Z -> Z -> Z -> Z -> list PathItem;
  getDirBetween : Z -> Z -> Z -> Z -> Direction;
  prepareForMove_effect :
    ObjectView.t -> list PathItem -> option Z -> ObjectView.t;
  setMoveParameters_effect : ObjectView.t -> Pos -> ObjectView.t;
  TileView_isMovableTo : TileData -> bool;
  ObjectView_new : ObjData -> ObjectView.t
}.

Context (X : Externals).

Definition thePathFinding : M PathFinding :=
  s <~ get ;; deref "this.pathFinding" (pathFinding s).
Definition theMoveEngine : M unit :=
  s <~ get ;;
  if moveEngine s then ret tt else throw (TypeError "this.moveEngine").
Definition theConfig : M Config :=
  s <~ get ;; deref "this.config" (config s).

Definition pathFinding_setCell (c r w : Z) : M unit :=
  thePathFinding ;;; emit (PF_setCell c r w).
Definition pathFinding_setDynamicCell (c r w : Z) : M unit :=
  thePathFinding ;;; emit (PF_setDynamicCell c r w).
Definition pathFinding_isCellFilled (c r : Z) : M bool :=
  thePathFinding ;;;
  s <~ get ;;
  emit (PF_isCellFilled c r) ;;;
  ret (isCellFilled_answer X (log s) c r).
Definition pathFinding_solve (a1 a2 a3 a4 : Z) : M (option (list PathItem)) :=
  thePathFinding ;;;
  s <~ get ;;
  emit (PF_solve a1 a2 a3 a4) ;;;
  ret (solve_answer X (log s) a1 a2 a3 a4).
Definition pathFinding_getAdjacentOpenCells (c r cs rs : Z)
    : M (list PathItem) :=
  thePathFinding ;;;
  s <~ get ;;
  emit (PF_getAdjacentOpenCells c r cs rs) ;;;
  ret (getAdjacentOpenCells_answer X (log s) c r cs rs).

Definition moveEngine_removeMovable (obj : ObjId) : M unit :=
  theMoveEngine ;;; emit (ME_removeMovable obj).
Definition moveEngine_addMovable (obj : ObjId) : M unit :=
  theMoveEngine ;;; emit (ME_addMovable obj).

(** The store of object views. *)
Definition readObj (obj : ObjId) : M ObjectView.t :=
  s <~ get ;; ret (objects s obj).
Definition updateObj (obj : ObjId) (f : ObjectView.t -> ObjectView.t)
    : M unit :=
  modify (fun s =>
    set_objects (<[obj := f (objects s obj)]> (objects s)) (nextObject s) s).

Definition moveEngine_prepareForMove (obj : ObjId) (path : list PathItem)
    (speed : option Z) : M unit :=
  theMoveEngine ;;;
  emit (ME_prepareForMove obj path speed) ;;;
  updateObj obj (fun o => prepareForMove_effect X o path speed).
Definition moveEngine_setMoveParameters (obj : ObjId) (pos : Pos) : M unit :=
  theMoveEngine ;;;
  emit (ME_setMoveParameters obj pos) ;;;
  updateObj obj (fun o => setMoveParameters_effect X o pos).

(** ** The arrays of tiles and of object references

    [this.objArray[r][c]]: the array itself may be [null] (after [destroy]),
    a row exists for the indexes filled by [createMap], and a cell of an
    existing row holds an array of references or nothing ([null] or
    [undefined], which the code never tells apart).  Reading a cell of a
    missing row throws; writing a cell of an existing row always succeeds. *)
Definition objCell (pos : Pos) : M (option (list ObjId)) :=
  s <~ get ;;
  rows <~ deref "this.objArray" (objArray s) ;;
  row <~ deref "this.objArray[pos.r]" (rows !! pos_r pos) ;;
  ret (row !! pos_c pos).

Definition setObjCell (pos : Pos) (v : option (list ObjId)) : M unit :=
  s <~ get ;;
  rows <~ deref "this.objArray" (objArray s) ;;
  row <~ deref "this.objArray[pos.r]" (rows !! pos_r pos) ;;
  let row' := match v with
              | Some l => <[pos_c pos := l]> row
              | None => delete (pos_c pos) row
              end in
  modify (set_objArray (Some (<[pos_r pos := row']> rows))).

Definition tileCell (r c : Z) : M (option TileView.t) :=
  s <~ get ;;
  rows <~ deref "this.tileArray" (tileArray s) ;;
  row <~ deref "this.tileArray[r]" (rows !! r) ;;
  ret (row !! c).

Definition setTileCell (r c : Z) (v : option TileView.t) : M unit :=
  s <~ get ;;
  rows <~ deref "this.tileArray" (tileArray s) ;;
  row <~ deref "this.tileArray[r]" (rows !! r) ;;
  let row' := match v with
              | Some t => <[c := t]> row
              | None => delete c row
              end in
  modify (set_tileArray (Some (<[r := row']> rows))).

(** [a.indexOf(x)]: the first index of [x], or -1. *)
Fixpoint indexOf {A} `{EqDecision A} (x : A) (a : list A) : Z :=
  match a with
  | [] => -1
  | y :: rest =>
      if decide (y = x) then 0
      else let i := indexOf x rest in if i <? 0 then -1 else i + 1
  end.

(** [a.splice(index, 1)] for an integer index: a negative index counts from
    the end, and nothing is removed past the end. *)
Definition splice1 {A} (index : Z) (a : list A) : list A :=
  let len := Z.of_nat (length a) in
  let start := if index <? 0 then Z.max (len + index) 0 else Z.min index len in
  take (Z.to_nat start) a ++ drop (S (Z.to_nat start)) a.

(** ** Object references per cell *)

Definition addObjRefToSingleLocation (obj : ObjId) (pos : Pos) : M unit :=
  cell <~ objCell pos ;;
  when (bool_decide (cell = None)) (setObjCell pos (Some [])) ;;;
  cell <~ objCell pos ;;
  a <~ deref "this.objArray[pos.r][pos.c]" cell ;;
  let index := indexOf obj a in
  when (index <? 0) (setObjCell pos (Some (a ++ [obj]))) ;;;
  o <~ readObj obj ;;
  when (negb (ObjectView.isMovableTo o))
       (pathFinding_setDynamicCell (pos_c pos) (pos_r pos) 0).

(** The loop over the references that remain in a cell: the first one that
    is not movable-to closes the cell and ends the loop; the cell is opened
    when the last index is reached without finding one. *)
Fixpoint scanRemaining (pos : Pos) (a : list ObjId) : M unit :=
  match a with
  | [] => ret tt
  | x :: rest =>
      o <~ readObj x ;;
      if negb (ObjectView.isMovableTo o)
      then pathFinding_setDynamicCell (pos_c pos) (pos_r pos) 0
      else match rest with
           | [] => pathFinding_setDynamicCell (pos_c pos) (pos_r pos) 1
           | _ :: _ => scanRemaining pos rest
           end
  end.

Definition removeObjRefFromSingleLocation (obj : ObjId) (pos : Pos)
    : M unit :=
  cell <~ objCell pos ;;
  match cell with
  | None => ret tt
  | Some a0 =>
      let index := indexOf obj a0 in
      when (-1 <? index) (setObjCell pos (Some (splice1 index a0))) ;;;
      cell <~ objCell pos ;;
      a <~ deref "this.objArray[pos.r][pos.c]" cell ;;
      if bool_decide (length a = 0%nat)
      then pathFinding_setDynamicCell (pos_c pos) (pos_r pos) 1 ;;;
           setObjCell pos None
      else scanRemaining pos a
  end.

Definition removeAllObjectRefsFromLocation (pos : Pos) : M unit :=
  cell <~ objCell pos ;;
  match cell with
  | None => ret tt
  | Some _ =>
      pathFinding_setDynamicCell (pos_c pos) (pos_r pos) 1 ;;;
      setObjCell pos None
  end.

(** The footprint loops: columns upward from [pos.c], rows downward from
    [pos.r]; the spans are read from the object at every test. *)
Definition overFootprint (obj : ObjId) (pos : Pos) (body : Pos -> M unit)
    : M unit :=
  o <~ readObj obj ;;
  forUp (pos_c pos) (pos_c pos + ObjectView.columnSpan o) (fun k =>
    forDown (pos_r pos) (pos_r pos - ObjectView.rowSpan o) (fun m =>
      body (mkPos k m))).

Definition addObjRefToLocation (obj : ObjId) (pos : Pos) : M unit :=
  overFootprint obj pos (addObjRefToSingleLocation obj).

Definition removeObjRefFromLocation (obj : ObjId) (pos : Pos) : M unit :=
  overFootprint obj pos (removeObjRefFromSingleLocation obj).

Definition arrangeObjLocation (obj : ObjId) (pos : Pos) : M unit :=
  o <~ readObj obj ;;
  removeObjRefFromLocation obj (ObjectView.mapPos o) ;;;
  addObjRefToLocation obj pos ;;;
  updateObj obj (ObjectView.set_mapPos (mkPos (pos_c pos) (pos_r pos))).

(** ** Visual bookkeeping that reads the arrays

    The alpha of an object is a field of its record.  Sprite positions and
    depths are not modelled; what is kept of [arrangeDepthsFromLocation] is
    the order in which it reads [objArray], since a read of a missing row
    throws. *)

Definition changeObjAlphasInLocation (value : Q) (pos : Pos) : M unit :=
  cell <~ objCell pos ;;
  match cell with
  | Some a =>
      forEach a (fun x =>
        o <~ readObj x ;;
        when (negb (ObjectView.isFloorObject o)
              && negb (ObjectView.noTransparency o))
          (updateObj x (ObjectView.set_alpha value)))
  | None => ret tt
  end.

Definition arrangeObjTransperancies (obj : ObjId) (prevPos pos : Pos)
    : M unit :=
  cfg <~ theConfig ;;
  when (changeTransperancies cfg) (
    s <~ get ;;
    when (bool_decide (currentControllable s = Some obj)) (
      when (0 <? pos_c prevPos)
        (changeObjAlphasInLocation 1
           (mkPos (pos_c prevPos - 1) (pos_r prevPos))) ;;;
      when ((0 <? pos_c prevPos) && (pos_r prevPos <? mapSizeR s - 1))
        (changeObjAlphasInLocation 1
           (mkPos (pos_c prevPos - 1) (pos_r prevPos + 1))) ;;;
      when (pos_r prevPos <? mapSizeR s - 1)
        (changeObjAlphasInLocation 1
           (mkPos (pos_c prevPos) (pos_r prevPos + 1))) ;;;
      when (0 <? pos_c pos)
        (changeObjAlphasInLocation 0.7 (mkPos (pos_c pos - 1) (pos_r pos))) ;;;
      when ((0 <? pos_c pos) && (pos_r pos <? mapSizeR s - 1))
        (changeObjAlphasInLocation 0.7
           (mkPos (pos_c pos - 1) (pos_r pos + 1))) ;;;
      when (pos_r pos <? mapSizeR s - 1)
        (changeObjAlphasInLocation 0.7 (mkPos (pos_c pos) (pos_r pos + 1)))) ;;;
    updateObj obj (ObjectView.set_alpha 1)).

Definition arrangeDepthsFromLocation (pos : Pos) : M unit :=
  s <~ get ;;
  forUp (pos_r pos) (mapSizeR s) (fun i =>
    forDown (pos_c pos) (-1) (fun j =>
      objCell (mkPos j i) ;;; ret tt)).

Definition setHighlighted (item : PathItem) (on : bool) : M unit :=
  let pos := item_mapPos item in
  cell <~ tileCell (pos_r pos) (pos_c pos) ;;
  deref "tile" cell ;;;
  emit (Tile_setHighlighted (pos_r pos) (pos_c pos) on).

Definition notIn (item : PathItem) (path : option (list PathItem)) : bool :=
  match path with
  | None => true
  | Some p => indexOf item p =? -1
  end.

Definition arrangePathHighlight (currentPath newPath : option (list PathItem))
    : M unit :=
  match currentPath with
  | Some cp =>
      forEach cp (fun pathItem =>
        when (notIn pathItem newPath) (setHighlighted pathItem false))
  | None => ret tt
  end ;;;
  match newPath with
  | Some np =>
      forEach np (fun pathItem =>
        when (notIn pathItem currentPath) (setHighlighted pathItem true))
  | None => ret tt
  end.

(** ** Moving an object along a path *)

(** The function documented as [stopObject]; the source binds it to
    [EngineView.prototype.f]. *)
Definition f (obj : ObjId) : M unit :=
  updateObj obj (ObjectView.set_currentPath None) ;;;
  updateObj obj (ObjectView.set_currentTarget None) ;;;
  updateObj obj (ObjectView.set_currentTargetTile None) ;;;
  moveEngine_removeMovable obj.

(** [this.stopObject(obj)]: the prototype defines no property of that name
    (see [f]), so the call throws. *)
Definition stopObject (obj : ObjId) : M unit :=
  throw (TypeError "this.stopObject is not a function").

(** [a[i]] for an integer [i]: [undefined] outside the array. *)
Definition jsIndex {A} (a : list A) (i : Z) : option A :=
  if i <? 0 then None else a !! Z.to_nat i.

(** What [checkAndMoveObjectToLocation] returns: [path.length] or [false]. *)
Inductive JsVal := JNum (n : Z) | JBool (b : bool).

Definition truthy (v : JsVal) : bool :=
  match v with
  | JNum n => negb (n =? 0)
  | JBool b => b
  end.

Definition getPath (from to : Pos) : M (option (list PathItem)) :=
  s <~ get ;;
  match pathFinding s with
  | Some _ =>
      pathFinding_solve (pos_c from) (pos_r from) (pos_c to) (pos_r to)
  | None => throw (Error "Path finding hasn't been initialized yet!")
  end.

(** [moveObjThrough], [onObjMoveStepBegin] and
    [checkAndMoveObjectToLocation] call each other; each is written over the
    method it calls, and the knot is tied by a bound on the depth of nested
    calls of [moveObjThrough]. *)
Definition checkAndMoveObjectToLocation_body
    (moveObjThrough : ObjId -> list PathItem -> option Z -> M unit)
    (obj : ObjId) (pos : Pos) (speed : option Z) : M JsVal :=
  o <~ readObj obj ;;
  path <~ getPath (ObjectView.mapPos o) pos ;;
  match path with
  | Some p =>
      moveObjThrough obj p speed ;;;
      ret (JNum (Z.of_nat (length p)))
  | None => ret (JBool false)
  end.

Definition onObjMoveStepBegin_body
    (checkAndMoveObjectToLocation : ObjId -> Pos -> option Z -> M JsVal)
    (obj : ObjId) (pos : Pos) : M bool :=
  o <~ readObj obj ;;
  let d := getDirBetween X (pos_r (ObjectView.mapPos o))
             (pos_c (ObjectView.mapPos o)) (pos_r pos) (pos_c pos) in
  updateObj obj (ObjectView.set_currentDirection d) ;;;
  emit (Obj_changeVisualToDirection obj d true) ;;;
  filled <~ pathFinding_isCellFilled (pos_c pos) (pos_r pos) ;;
  if negb filled
  then
    moveEngine_setMoveParameters obj pos ;;;
    moveEngine_addMovable obj ;;;
    ret true
  else
    moveEngine_removeMovable obj ;;;
    o <~ readObj obj ;;
    cp <~ deref "obj.currentPath" (ObjectView.currentPath o) ;;
    goal <~ deref "obj.currentPath[0]" (head cp) ;;
    checkAndMoveObjectToLocation obj (item_mapPos goal) None ;;;
    ret false.

Definition moveObjThrough_body
    (onObjMoveStepBegin : ObjId -> Pos -> M bool)
    (obj : ObjId) (path : list PathItem) (speed : option Z) : M unit :=
  cfg <~ theConfig ;;
  if instantObjectRelocation cfg
  then
    first <~ deref "path[0]" (head path) ;;
    cell <~ tileCell (pos_r (item_mapPos first)) (pos_c (item_mapPos first)) ;;
    tile <~ deref "tile" cell ;;
    o <~ readObj obj ;;
    arrangeObjTransperancies obj (ObjectView.mapPos o) (TileView.mapPos tile) ;;;
    arrangeObjLocation obj (TileView.mapPos tile) ;;;
    arrangeDepthsFromLocation (TileView.mapPos tile)
  else
    s <~ get ;;
    o <~ readObj obj ;;
    when (highlightPath cfg && bool_decide (currentControllable s = Some obj))
      (arrangePathHighlight (ObjectView.currentPath o) (Some path)) ;;;
    o <~ readObj obj ;;
    when (bool_decide (ObjectView.currentTarget o <> None)) (stopObject obj) ;;;
    moveEngine_prepareForMove obj path speed ;;;
    o <~ readObj obj ;;
    cp <~ deref "obj.currentPath" (ObjectView.currentPath o) ;;
    updateObj obj (ObjectView.set_currentTargetTile
                     (jsIndex cp (ObjectView.currentPathStep o))) ;;;
    o <~ readObj obj ;;
    cp <~ deref "obj.currentPath" (ObjectView.currentPath o) ;;
    next <~ deref "obj.currentPath[obj.currentPathStep]"
              (jsIndex cp (ObjectView.currentPathStep o)) ;;
    onObjMoveStepBegin obj (item_mapPos next) ;;;
    ret tt.

Fixpoint moveObjThrough (fuel : nat) (obj : ObjId) (path : list PathItem)
    (speed : option Z) : M unit :=
  match fuel with
  | O => diverge
  | S fuel' =>
      moveObjThrough_body
        (onObjMoveStepBegin_body
           (checkAndMoveObjectToLocation_body (moveObjThrough fuel')))
        obj path speed
  end.

Definition checkAndMoveObjectToLocation (fuel : nat)
    : ObjId -> Pos -> option Z -> M JsVal :=
  checkAndMoveObjectToLocation_body (moveObjThrough fuel).

Definition onObjMoveStepBegin (fuel : nat) : ObjId -> Pos -> M bool :=
  onObjMoveStepBegin_body (checkAndMoveObjectToLocation fuel).

(** [onObjMoveStepEnd], in the three parts of its body: the branch taken
    while the path has not ended, ... *)
Definition continueAlongPath (fuel : nat) (obj : ObjId) : M unit :=
  cfg <~ theConfig ;;
  o <~ readObj obj ;;
  cp <~ deref "obj.currentPath" (ObjectView.currentPath o) ;;
  if checkPathOnEachTile cfg
  then
    goal <~ deref "obj.currentPath[0]" (head cp) ;;
    checkAndMoveObjectToLocation fuel obj (item_mapPos goal) None ;;;
    ret tt
  else
    let cp' := splice1 (Z.of_nat (length cp) - 1) cp in
    updateObj obj (ObjectView.set_currentPath (Some cp')) ;;;
    moveObjThrough fuel obj cp' None.

(** ... the highlight of the tile the controllable stands on and the
    callback at the end of the path, ... *)
Definition closeStep (pathEnded : bool) (obj : ObjId) : M unit :=
  s <~ get ;;
  when (bool_decide (currentControllable s = Some obj)) (
    o <~ readObj obj ;;
    cell <~ tileCell (pos_r (ObjectView.mapPos o)) (pos_c (ObjectView.mapPos o)) ;;
    deref "tile" cell ;;;
    theConfig ;;;
    emit (Tile_setHighlighted (pos_r (ObjectView.mapPos o))
            (pos_c (ObjectView.mapPos o)) false)) ;;;
  when pathEnded (
    cfg <~ theConfig ;;
    when (objectReachedDestinationCallback cfg)
      (emit (Callback_objectReachedDestination obj))).

(** ... and the whole. *)
Definition onObjMoveStepEnd (fuel : nat) (obj : ObjId) : M unit :=
  updateObj obj (fun o =>
    ObjectView.set_currentPathStep (ObjectView.currentPathStep o - 1) o) ;;;
  updateObj obj (ObjectView.set_currentTarget None) ;;;
  updateObj obj (ObjectView.set_currentTargetTile None) ;;;
  o <~ readObj obj ;;
  let pathEnded := ObjectView.currentPathStep o <? 0 in
  moveEngine_removeMovable obj ;;;
  (if negb pathEnded
   then continueAlongPath fuel obj
   else
     o <~ readObj obj ;;
     emit (Obj_changeVisualToDirection obj (ObjectView.currentDirection o)
             false)) ;;;
  closeStep pathEnded obj.

(** ** Approaching an object *)

(** The loop of [moveCurrentControllableToObj] over the adjacent open cells.
    It either returns from the method ([inl]) or ends with the shortest path
    seen so far ([inr]). *)
Fixpoint approachLoop (fuel : nat) (cellArray : list PathItem)
    (minLength : Z) (minPath : option (list PathItem))
    : M (bool + option (list PathItem)) :=
  match cellArray with
  | [] => ret (inr minPath)
  | cell :: rest =>
      let pos := item_mapPos cell in
      tileCellValue <~ tileCell (pos_r pos) (pos_c pos) ;;
      match tileCellValue with
      | None => approachLoop fuel rest minLength minPath
      | Some tile =>
          s <~ get ;;
          cc <~ deref "this.currentControllable" (currentControllable s) ;;
          cco <~ readObj cc ;;
          if bool_decide (pos_c (TileView.mapPos tile)
                            = pos_c (ObjectView.mapPos cco))
             && bool_decide (pos_r (TileView.mapPos tile)
                               = pos_r (ObjectView.mapPos cco))
          then
            arrangePathHighlight (ObjectView.currentPath cco) None ;;;
            stopObject cc ;;;
            cfg <~ theConfig ;;
            let tempFlagHolder := instantObjectRelocation cfg in
            modify (set_config (Some (set_instantObjectRelocation true cfg))) ;;;
            moveObjThrough fuel cc [TileView.asItem tile] None ;;;
            cfg <~ theConfig ;;
            modify (set_config
                      (Some (set_instantObjectRelocation tempFlagHolder cfg))) ;;;
            cco <~ readObj cc ;;
            emit (Obj_changeVisualToDirection cc
                    (ObjectView.currentDirection cco) false) ;;;
            cfg <~ theConfig ;;
            when (objectReachedDestinationCallback cfg)
              (emit (Callback_objectReachedDestination cc)) ;;;
            ret (inl true)
          else
            path <~ getPath (ObjectView.mapPos cco) (TileView.mapPos tile) ;;
            match path with
            | Some p =>
                if Z.of_nat (length p) <? minLength
                then approachLoop fuel rest (Z.of_nat (length p)) (Some p)
                else approachLoop fuel rest minLength minPath
            | None => approachLoop fuel rest minLength minPath
            end
      end
  end.

(** [moveCurrentControllableToObj] after the preferred interaction point:
    the adjacent open cells, the loop over them, and the move along the
    path that the loop ends with. *)
Definition approachAdjacentCell (fuel : nat) (obj : ObjId)
    (speed : option Z) : M bool :=
  o <~ readObj obj ;;
  cellArray <~ pathFinding_getAdjacentOpenCells
                 (pos_c (ObjectView.mapPos o)) (pos_r (ObjectView.mapPos o))
                 (ObjectView.columnSpan o) (ObjectView.rowSpan o) ;;
  found <~ approachLoop fuel cellArray 3000 None ;;
  match found with
  | inl b => ret b
  | inr (Some minPath) =>
      s <~ get ;;
      cc <~ deref "this.currentControllable" (currentControllable s) ;;
      moveObjThrough fuel cc minPath speed ;;;
      ret true
  | inr None => ret false
  end.

(** Where the preferred interaction point of an object lies. *)
Definition interactionPoint (o : ObjectView.t) (offset : Pos) : Pos :=
  mkPos (pos_c (ObjectView.mapPos o) + pos_c offset)
        (pos_r (ObjectView.mapPos o) + pos_r offset).

Definition moveCurrentControllableToObj (fuel : nat) (obj : ObjId)
    (speed : option Z) : M bool :=
  s <~ get ;;
  cc <~ match currentControllable s with
        | Some cc => ret cc
        | None => throw (Error "TRAVISO: currentControllable is not defined!")
        end ;;
  o <~ readObj obj ;;
  moved <~ match ObjectView.currentInteractionOffset o with
           | Some offset =>
               let targetPos := interactionPoint o offset in
               v <~ checkAndMoveObjectToLocation fuel cc targetPos speed ;;
               ret (truthy v)
           | None => ret false
           end ;;
  if (moved : bool) then ret true
  else approachAdjacentCell fuel obj speed.

(** ** Building and releasing the map *)

(** [d[i][j]] on an array of arrays whose row [i] exists: a missing column
    reads as [undefined], which is falsy like an empty entry. *)
Definition entry {A} (row : list (option A)) (j : Z) : option A :=
  mjoin (jsIndex row j).

(** The loops of [createMap]: the rows of the two arrays, ... *)
Definition createRows (rows : Z) : M unit :=
  forUp 0 rows (fun i =>
    modify (fun s =>
      set_tileArray (Some (<[i := ∅]> (default ∅ (tileArray s)))) s) ;;;
    modify (fun s =>
      set_objArray (Some (<[i := ∅]> (default ∅ (objArray s)))) s)).

(** ... the tiles, row by row and from the last column to the first, ... *)
Definition createTile (ground : list (list (option TileData))) (i j : Z)
    : M unit :=
  setTileCell i j None ;;;
  groundRow <~ deref "groundMapData[i]" (jsIndex ground i) ;;
  match entry groundRow j with
  | Some data =>
      let tile := TileView.mk (mkPos j i) (TileView_isMovableTo X data) in
      setTileCell i j (Some tile) ;;;
      when (negb (TileView.isMovableTo tile)) (pathFinding_setCell j i 0)
  | None => pathFinding_setCell j i 0
  end.

Definition createTiles (ground : list (list (option TileData)))
    (rows cols : Z) : M unit :=
  forUp 0 rows (fun i =>
    forDown (cols - 1) (-1) (fun j => createTile ground i j)).

(** ... and the objects, in the same order. *)
Definition placeObject (objs : list (list (option ObjData)))
    (icl : option ControllableLocation) (i j : Z) : M unit :=
  setObjCell (mkPos j i) None ;;;
  objRow <~ deref "objectsMapData[i]" (jsIndex objs i) ;;
  match entry objRow j with
  | Some data =>
      s <~ get ;;
      let obj := nextObject s in
      modify (set_objects
                (<[obj := ObjectView.set_mapPos (mkPos j i)
                            (ObjectView_new X data)]> (objects s))
                (S obj)) ;;;
      o <~ readObj obj ;;
      addObjRefToLocation obj (ObjectView.mapPos o) ;;;
      when (match icl with
            | Some l => bool_decide (columnIndex l = j)
                        && bool_decide (rowIndex l = i)
            | None => false
            end)
           (modify (set_currentControllable (Some obj)))
  | None => ret tt
  end.

Definition placeObjects (objs : list (list (option ObjData)))
    (icl : option ControllableLocation) (rows cols : Z) : M unit :=
  forUp 0 rows (fun i =>
    forDown (cols - 1) (-1) (fun j => placeObject objs icl i j)).

(** The part of [createMap] that touches the arrays, the pathfinder and the
    store of objects; containers, sprites, zoom and camera are left out. *)
Definition createMap : M unit :=
  theConfig ;;;
  s <~ get ;;
  md <~ deref "this.mapData" (mapData s) ;;
  let ground := groundMapData md in
  let objs := objectsMapData md in
  let icl := initialControllableLocation md in
  row0 <~ deref "groundMapData[0]" (head ground) ;;
  let rows := Z.of_nat (length ground) in
  let cols := Z.of_nat (length row0) in
  modify (set_mapSize rows cols) ;;;
  modify (set_tileArray (Some ∅)) ;;;
  modify (set_objArray (Some ∅)) ;;;
  createRows rows ;;;
  cfg <~ theConfig ;;
  let pf := mkPathFinding cols rows
              (bool_decide (pathFindingType cfg = ASTAR_DIAGONAL))
              (pathFindingClosest cfg) in
  emit (PF_new pf) ;;;
  modify (set_pathFinding (Some pf)) ;;;
  createTiles ground rows cols ;;;
  placeObjects objs icl rows cols.

(** [destroy], as far as the modelled fields go, in the order of the
    source. *)
Definition destroy : M unit :=
  theMoveEngine ;;;
  emit ME_destroy ;;;
  modify (set_moveEngine false) ;;;
  s <~ get ;;
  forUp 0 (mapSizeR s) (fun i =>
    forDown (mapSizeC s - 1) (-1) (fun j =>
      item <~ tileCell i j ;;
      when (bool_decide (item <> None)) (emit (Tile_destroy i j)) ;;;
      setTileCell i j None ;;;
      item <~ objCell (mkPos j i) ;;
      match item with
      | Some a => forEach a (fun o => emit (Obj_destroy o))
      | None => ret tt
      end ;;;
      setObjCell (mkPos j i) None)) ;;;
  thePathFinding ;;;
  emit PF_destroy ;;;
  modify (set_pathFinding None) ;;;
  modify (set_currentControllable None) ;;;
  modify (set_tileArray None) ;;;
  modify (set_objArray None) ;;;
  modify (set_config None) ;;;
  s <~ get ;;
  deref "this.mapData" (mapData s) ;;;
  modify (set_mapData None).

End Engine.

(** * The methods around the bookkeeping

    The public methods that read the two arrays and the controllable, put
    an object on the map and take it off, and send an object to a tile or
    the controllable to a location.  As before,
    the display list is left out: sprite positions and the children of
    [objContainer] are not part of the state. *)

Section Interface.

Context {TileData ObjData : Type} (X : @Externals TileData ObjData).

#[local] Notation "x <~ m ;; k" := (bind m (fun x => k))
  (at level 100, m at next level, right associativity).
#[local] Notation "m ;;; k" := (bind m (fun _ => k))
  (at level 100, right associativity).

(** [getTileAtRowAndColumn], [getObjectsAtRowAndColumn] and
    [getObjectsAtLocation] index the arrays without a test. *)
Definition getTileAtRowAndColumn (r c : Z)
    : @M TileData ObjData (option TileView.t) :=
  tileCell r c.

Definition getObjectsAtRowAndColumn (r c : Z)
    : @M TileData ObjData (option (list ObjId)) :=
  objCell (mkPos c r).

Definition getObjectsAtLocation (pos : Pos)
    : @M TileData ObjData (option (list ObjId)) :=
  objCell pos.

Definition getCurrentControllable : @M TileData ObjData (option ObjId) :=
  s <~ get ;; ret (currentControllable s).

(** [addObjectToLocation]: the object is given its place, referenced on
    the cells it covers, and the depths are arranged from its place, or from
    the last column of row 0 for a floor object. *)
Definition addObjectToLocation (obj : ObjId) (pos : Pos)
    : @M TileData ObjData ObjId :=
  updateObj obj (ObjectView.set_mapPos (mkPos (pos_c pos) (pos_r pos))) ;;;
  o <~ readObj obj ;;
  addObjRefToLocation obj (ObjectView.mapPos o) ;;;
  s <~ get ;;
  o <~ readObj obj ;;
  arrangeDepthsFromLocation
    (if ObjectView.isFloorObject o
     then mkPos (mapSizeC s - 1) 0
     else ObjectView.mapPos o) ;;;
  ret obj.

(** [createAndAddObjectToLocation]: [new TRAVISO.ObjectView(this, type)]
    makes an object that no reference names yet. *)
Definition createAndAddObjectToLocation (type : ObjData) (pos : Pos)
    : @M TileData ObjData ObjId :=
  s <~ get ;;
  let obj := nextObject s in
  modify (set_objects (<[obj := ObjectView_new X type]> (objects s))
            (S obj)) ;;;
  addObjectToLocation obj pos.

(** [removeObjectFromLocation]: [pos || obj.mapPos]. *)
Definition removeObjectFromLocation (obj : ObjId) (pos : option Pos)
    : @M TileData ObjData unit :=
  o <~ readObj obj ;;
  removeObjRefFromLocation obj (default (ObjectView.mapPos o) pos).

Definition checkAndMoveObjectToTile (fuel : nat) (obj : ObjId)
    (tile : TileView.t) (speed : option Z) : @M TileData ObjData JsVal :=
  if TileView.isMovableTo tile
  then checkAndMoveObjectToLocation X fuel obj (TileView.mapPos tile) speed
  else ret (JBool false).

Definition moveCurrentControllableToLocation (fuel : nat) (pos : Pos)
    (speed : option Z) : @M TileData ObjData JsVal :=
  s <~ get ;;
  match currentControllable s with
  | Some cc => checkAndMoveObjectToLocation X fuel cc pos speed
  | None => throw (Error "TRAVISO: currentControllable is not defined!")
  end.

End Interface.


(** * Vocabulary of the properties *)

Section Vocabulary.

Context {TileData ObjData : Type} (X : @Externals TileData ObjData).

Abbreviation M := (@M TileData ObjData).
Abbreviation EngineView := (@EngineView TileData ObjData).

(** ** Cells and the references in them *)

(** The list without the first occurrence of [x]. *)
Fixpoint withoutFirst {A} `{EqDecision A} (x : A) (l : list A) : list A :=
  match l with
  | [] => []
  | y :: rest => if decide (y = x) then rest else y :: withoutFirst x rest
  end.

(** What the loop over the remaining references tells the pathfinder. *)
Definition allMovableTo (s : EngineView) (a : list nat) : bool :=
  forallb (fun x => ObjectView.isMovableTo (objects s x)) a.

(** A row of [objArray], and a cell of it. *)
Definition rowAt (s : EngineView) (r : Z) : option (gmap Z (list nat)) :=
  match objArray s with
  | Some rows => rows !! r
  | None => None
  end.

Definition cellAt (s : EngineView) (pos : Pos) : option (list nat) :=
  match rowAt s (pos_r pos) with
  | Some row => row !! pos_c pos
  | None => None
  end.

(** Two states that differ at most in [objArray] and in the log. *)
Definition sameButRefs (s s' : EngineView) : Prop :=
  config s' = config s /\ mapData s' = mapData s /\
  mapSizeR s' = mapSizeR s /\ mapSizeC s' = mapSizeC s /\
  tileArray s' = tileArray s /\ pathFinding s' = pathFinding s /\
  moveEngine s' = moveEngine s /\
  currentControllable s' = currentControllable s /\
  objects s' = objects s /\ nextObject s' = nextObject s.

(** One cell changed, the others and the set of rows kept. *)
Definition cellSetTo (s s' : EngineView) (pos : Pos)
    (v : option (list nat)) : Prop :=
  cellAt s' pos = v /\
  (forall p, p <> pos -> cellAt s' p = cellAt s p) /\
  (forall r, is_Some (rowAt s' r) <-> is_Some (rowAt s r)).

(** ** Specifications of computations *)

(** From a state in [P], [m] returns a value and a state in [Q], or ends
    otherwise in a state in [I]. *)
Definition triple {A} (P : EngineView -> Prop) (m : M A)
    (Q : A -> EngineView -> Prop) (I : EngineView -> Prop) : Prop :=
  forall s, P s ->
    match m s with
    | (Val a, s') => Q a s'
    | (_, s') => I s'
    end.

(** [m] keeps [P], however it ends. *)
Definition preserves {A} (P : EngineView -> Prop) (m : M A) : Prop :=
  triple P m (fun _ => P) P.

(** [P] looks at [objArray] and at the log only, and survives the growth
    of the log. *)
Definition steady (P : EngineView -> Prop) : Prop :=
  (forall s s', objArray s' = objArray s -> log s' = log s -> P s -> P s') /\
  (forall e s, P s -> P (set_log (log s ++ [e]) s)).

(** No cell holds a reference twice. *)
Definition noDuplicates (s : EngineView) : Prop :=
  forall pos a, cellAt s pos = Some a -> NoDup a.

(** ** The footprint of an object *)

(** [n] integers upward from [k], and [n] integers downward from [m]. *)
Fixpoint upFrom (n : nat) (k : Z) : list Z :=
  match n with
  | O => []
  | S n' => k :: upFrom n' (k + 1)
  end.

Fixpoint downFrom (n : nat) (m : Z) : list Z :=
  match n with
  | O => []
  | S n' => m :: downFrom n' (m - 1)
  end.

(** The cells of the rectangle, column by column. *)
Definition footprint (pos : Pos) (columnSpan rowSpan : Z) : list Pos :=
  k ← upFrom (Z.to_nat columnSpan) (pos_c pos);
  mkPos k <$> downFrom (Z.to_nat rowSpan) (pos_r pos).

(** The cell after a reference has been added to it, and after one has
    been removed from it. *)
Definition addedTo (obj : nat) (v : option (list nat)) : option (list nat) :=
  let a := default [] v in
  Some (if bool_decide (obj ∈ a) then a else a ++ [obj]).

Definition removedFrom (obj : nat) (v : option (list nat))
    : option (list nat) :=
  match withoutFirst obj (default [] v) with
  | [] => None
  | x :: rest => Some (x :: rest)
  end.

(** ** Asking for a path *)

(** The claim as the specification words it: [solve] is handed the rows
    before the columns. *)
Definition delegatesRowFirst (s : EngineView) (from to : Pos) : Prop :=
  log (getPath X from to s).2
  = log s ++ [PF_solve (pos_r from) (pos_c from) (pos_r to) (pos_c to)].

(** ** Building the map *)

(** The calls that write the pathfinder's static layer. *)
Definition isSetCell (e : @Event) : Prop :=
  exists c r w, e = PF_setCell c r w.

(** The log grew from [l0] by events that are not [setCell] calls. *)
Definition grewWithoutSetCell (l0 : list Event) (s : EngineView) : Prop :=
  exists evs, log s = l0 ++ evs /\ Forall (fun e => ~ isSetCell e) evs.

(** Whether the tile of a cell closes it: no tile data, or a tile that
    cannot be moved onto. *)
Definition groundAt (ground : list (list (option TileData))) (i j : Z)
    : option TileData :=
  match jsIndex ground i with
  | Some row => entry row j
  | None => None
  end.

Definition closedByTile (ground : list (list (option TileData))) (i j : Z)
    : bool :=
  match groundAt ground i j with
  | Some data => negb (TileView_isMovableTo X data)
  | None => true
  end.

Definition tileCall (ground : list (list (option TileData))) (p : Pos)
    : list Event :=
  if closedByTile ground (pos_r p) (pos_c p)
  then [PF_setCell (pos_c p) (pos_r p) 0]
  else [].

(** The cells in the order of the loops: rows upward, columns downward. *)
Definition cellsInOrder (rows cols : Z) : list Pos :=
  i ← upFrom (Z.to_nat rows) 0;
  (fun j => mkPos j i) <$> downFrom (Z.to_nat cols) (cols - 1).

(** The state in which the tiles are created: a pathfinder, and a row of
    [tileArray] for every row of the map. *)
Definition readyForTiles (rows : Z) (s : EngineView) : Prop :=
  is_Some (pathFinding s) /\
  exists t, tileArray s = Some t /\ forall i, 0 <= i < rows -> is_Some (t !! i).

(** ** Movement *)

(** The log of [s] starts with [l0]. *)
Definition extends (l0 : list Event) (s : EngineView) : Prop :=
  exists evs, log s = l0 ++ evs.

(** The state in which [checkAndMoveObjectToLocation] has its answer from
    [solve]. *)
Definition solved (s : EngineView) (obj : nat) (pos : Pos) : EngineView :=
  let from := ObjectView.mapPos (objects s obj) in
  set_log (log s ++ [PF_solve (pos_c from) (pos_r from)
                       (pos_c pos) (pos_r pos)]) s.

(** The answer of [solve] to that call. *)
Definition pathFound (s : EngineView) (obj : nat) (pos : Pos)
    : option (list PathItem) :=
  let from := ObjectView.mapPos (objects s obj) in
  solve_answer X (log s) (pos_c from) (pos_r from) (pos_c pos) (pos_r pos).

(** How a caller that ignores the value of a call goes on: with [b] when
    the call returned, and as the call ended otherwise. *)
Definition andThen {A B} (b : B) (r : Outcome A * EngineView)
    : Outcome B * EngineView :=
  match r with
  | (Val _, s') => (Val b, s')
  | (Throw e, s') => (Throw e, s')
  | (OutOfFuel, s') => (OutOfFuel, s')
  end.

(** The state in which [onObjMoveStepBegin] decides: the object has been
    turned toward [pos] and the pathfinder has been asked about [pos]. *)
Definition turned (s : EngineView) (obj : nat) (pos : Pos) : EngineView :=
  let o := objects s obj in
  let d := getDirBetween X (pos_r (ObjectView.mapPos o))
             (pos_c (ObjectView.mapPos o)) (pos_r pos) (pos_c pos) in
  set_log (log s ++ [Obj_changeVisualToDirection obj d true])
    (set_objects (<[obj := ObjectView.set_currentDirection d o]> (objects s))
       (nextObject s) s).

(** The answer of the pathfinder, and the state after the question. *)
Definition reportedFilled (s : EngineView) (obj : nat) (pos : Pos) : bool :=
  isCellFilled_answer X (log (turned s obj pos)) (pos_c pos) (pos_r pos).

Definition asked (s : EngineView) (obj : nat) (pos : Pos) : EngineView :=
  set_log (log (turned s obj pos) ++ [PF_isCellFilled (pos_c pos) (pos_r pos)])
    (turned s obj pos).


(** The state reached when the step has been counted and the object taken
    from the move engine. *)
Definition stepEnded (s : EngineView) (obj : nat) : EngineView :=
  let f1 := <[obj := ObjectView.set_currentPathStep
                       (ObjectView.currentPathStep (objects s obj) - 1)
                       (objects s obj)]> (objects s) in
  let f2 := <[obj := ObjectView.set_currentTarget None (f1 obj)]> f1 in
  let f3 := <[obj := ObjectView.set_currentTargetTile None (f2 obj)]> f2 in
  set_log (log s ++ [ME_removeMovable obj])
    (set_objects f3 (nextObject s) s).

(** The state reached at the end of the path: the object stands still. *)
Definition stopped (s : EngineView) (obj : nat) : EngineView :=
  set_log (log (stepEnded s obj)
             ++ [Obj_changeVisualToDirection obj
                   (ObjectView.currentDirection (objects s obj)) false])
    (stepEnded s obj).

(** The state in which the object goes on along its shortened path. *)
Definition shortened (s : EngineView) (obj : nat) (cp' : list PathItem)
    : EngineView :=
  set_objects
    (<[obj := ObjectView.set_currentPath (Some cp')
                (objects (stepEnded s obj) obj)]> (objects (stepEnded s obj)))
    (nextObject s) (stepEnded s obj).

(** The claim as the specification words it: an empty path from [solve]
    means that nothing has to move; the caller answers with something other
    than [false] and nothing happens beyond the call of [solve]. *)
Definition emptyPathMeansNoMovement (fuel : nat) (s : EngineView)
    (obj : nat) (pos : Pos) (speed : option Z) : Prop :=
  pathFound s obj pos = Some [] ->
  exists v,
    checkAndMoveObjectToLocation X fuel obj pos speed s
    = (Val v, solved s obj pos) /\
    v <> JBool false.

(** ** Approaching an object *)

Definition tileAt (tiles : gmap Z (gmap Z TileView.t)) (p : Pos)
    : option TileView.t :=
  match tiles !! pos_r p with
  | Some row => row !! pos_c p
  | None => None
  end.

(** The paths that [solve] answers with, one call for every cell that has a
    tile, each call made after the ones before it. *)
Fixpoint pathsFound (tiles : gmap Z (gmap Z TileView.t)) (from : Pos)
    (l : list Event) (cells : list PathItem) : list (list PathItem) :=
  match cells with
  | [] => []
  | cell :: rest =>
      match tileAt tiles (item_mapPos cell) with
      | None => pathsFound tiles from l rest
      | Some tile =>
          let to := TileView.mapPos tile in
          let l' := l ++ [PF_solve (pos_c from) (pos_r from)
                            (pos_c to) (pos_r to)] in
          match solve_answer X l (pos_c from) (pos_r from)
                  (pos_c to) (pos_r to) with
          | Some p => p :: pathsFound tiles from l' rest
          | None => pathsFound tiles from l' rest
          end
      end
  end.

(** The log after those calls. *)
Fixpoint logAfterSearch (tiles : gmap Z (gmap Z TileView.t)) (from : Pos)
    (l : list Event) (cells : list PathItem) : list Event :=
  match cells with
  | [] => l
  | cell :: rest =>
      match tileAt tiles (item_mapPos cell) with
      | None => logAfterSearch tiles from l rest
      | Some tile =>
          let to := TileView.mapPos tile in
          logAfterSearch tiles from
            (l ++ [PF_solve (pos_c from) (pos_r from) (pos_c to) (pos_r to)])
            rest
      end
  end.

(** The shortest of the paths shorter than [minLength], the first one of
    that length; [minPath] when there is none. *)
Fixpoint pick (minLength : Z) (minPath : option (list PathItem))
    (paths : list (list PathItem)) : option (list PathItem) :=
  match paths with
  | [] => minPath
  | p :: rest =>
      if Z.of_nat (length p) <? minLength
      then pick (Z.of_nat (length p)) (Some p) rest
      else pick minLength minPath rest
  end.

End Vocabulary.

(** * Vocabulary of the further properties *)

Section Placement.

Context {TileData ObjData : Type}.

(** The references a cell holds; none when it holds no list. *)
Definition refs (s : @EngineView TileData ObjData) (p : Pos) : list nat :=
  default [] (cellAt s p).

(** The cells an object covers where it stands. *)
Definition footprintOf (s : @EngineView TileData ObjData) (obj : nat)
    : list Pos :=
  let o := objects s obj in
  footprint (ObjectView.mapPos o) (ObjectView.columnSpan o)
    (ObjectView.rowSpan o).

(** The object is referenced on the cells it covers and nowhere else. *)
Definition placed (s : @EngineView TileData ObjData) (obj : nat) : Prop :=
  forall p, obj ∈ refs s p <-> p ∈ footprintOf s obj.

End Placement.

(** ** What the pathfinder has been told *)

Section Told.

Context {TileData ObjData : Type}.

(** The value last passed to [setDynamicCell] for a cell since the
    pathfinder was made, and 1 when none was passed: the calls of
    [setDynamicCell] in this file pass 0 to close a cell and 1 to open it. *)
Definition heard (c r : Z) (acc : option Z) (e : Event) : option Z :=
  match e with
  | PF_new _ => None
  | PF_destroy => None
  | PF_setDynamicCell c' r' w =>
      if bool_decide (c' = c /\ r' = r) then Some w else acc
  | _ => acc
  end.

Definition lastDynamic (l : list Event) (p : Pos) : option Z :=
  foldl (heard (pos_c p) (pos_r p)) None l.

Definition dynamicValue (l : list Event) (p : Pos) : Z :=
  default 1 (lastDynamic l p).

(** What the references of a cell ask for: 0 when one of the objects
    cannot be moved onto, 1 otherwise. *)
Definition wanted (s : @EngineView TileData ObjData) (p : Pos) : Z :=
  if allMovableTo s (refs s p) then 1 else 0.

(** The dynamic layer says of every cell what its references ask for. *)
Definition mirrors (s : @EngineView TileData ObjData) : Prop :=
  forall p, dynamicValue (log s) p = wanted s p.

(** The engine has a pathfinder, and its dynamic layer mirrors the
    references. *)
Definition served (s : @EngineView TileData ObjData) : Prop :=
  mirrors s /\ is_Some (pathFinding s).

End Told.

(** ** What a movement may do *)

Section Movement.

Context {TileData ObjData : Type} (X : @Externals TileData ObjData).

(** The calls the movement methods make on their own: they ask the
    pathfinder, drive the move engine, highlight tiles, turn the object and
    call back; they make and destroy nothing and write no layer. *)
Definition movementEvent (e : Event) : Prop :=
  match e with
  | PF_new _ | PF_setCell _ _ _ | PF_setDynamicCell _ _ _ | PF_destroy
  | ME_destroy | Tile_destroy _ _ | Obj_destroy _ => False
  | _ => True
  end.

(** The same, with the dynamic layer written where references move. *)
Definition quietEvent (e : Event) : Prop :=
  match e with
  | PF_new _ | PF_setCell _ _ _ | PF_destroy
  | ME_destroy | Tile_destroy _ _ | Obj_destroy _ => False
  | _ => True
  end.

(** The changes the movement methods make to the record of an object,
    apart from its place. *)
Inductive movementUpdate : (ObjectView.t -> ObjectView.t) -> Prop :=
| turns d : movementUpdate (ObjectView.set_currentDirection d)
| aims v : movementUpdate (ObjectView.set_currentTargetTile v)
| targets v : movementUpdate (ObjectView.set_currentTarget v)
| follows v : movementUpdate (ObjectView.set_currentPath v)
| steps :
    movementUpdate (fun o =>
      ObjectView.set_currentPathStep (ObjectView.currentPathStep o - 1) o)
| prepared path speed :
    movementUpdate (fun o => prepareForMove_effect X o path speed)
| parametered pos :
    movementUpdate (fun o => setMoveParameters_effect X o pos).

(** What [changeObjAlphasInLocation] may do to a record: nothing, or set
    the alpha of an object that is neither a floor object nor marked
    [noTransparency] to 1 or to 0.7. *)
Definition fadedOnly (o o' : ObjectView.t) : Prop :=
  o' = o \/
  (ObjectView.isFloorObject o = false /\ ObjectView.noTransparency o = false /\
   (o' = ObjectView.set_alpha 1 o \/ o' = ObjectView.set_alpha 0.7 o)).

(** Whether moving [obj] arranges the transparencies around it: objects
    are relocated at once, [changeTransperancies] is set, and [obj] is the
    controllable. *)
Definition relocatesWithTransparency (s : @EngineView TileData ObjData)
    (obj : nat) : bool :=
  match config s with
  | Some cfg =>
      instantObjectRelocation cfg && changeTransperancies cfg
      && bool_decide (currentControllable s = Some obj)
  | None => false
  end.

(** From [s] to [t], nothing has changed but the record of [obj], the
    references to [obj], the alpha of other objects where transparencies
    are arranged, and the log, which has grown by quiet events. *)
Definition movedOnly (obj : nat) (s t : @EngineView TileData ObjData)
    : Prop :=
  config t = config s /\ mapData t = mapData s /\
  mapSizeR t = mapSizeR s /\ mapSizeC t = mapSizeC s /\
  tileArray t = tileArray s /\ pathFinding t = pathFinding s /\
  moveEngine t = moveEngine s /\
  currentControllable t = currentControllable s /\
  nextObject t = nextObject s /\
  ((forall x, x <> obj -> fadedOnly (objects s x) (objects t x)) /\
   (relocatesWithTransparency s obj = false ->
    forall x, x <> obj -> objects t x = objects s x)) /\
  (forall x p, x <> obj -> x ∈ refs t p <-> x ∈ refs s p) /\
  exists evs, log t = log s ++ evs /\ Forall quietEvent evs.

(** Two states that differ at most in the records of the objects. *)
Definition sameButObjects (s t : @EngineView TileData ObjData) : Prop :=
  config t = config s /\ mapData t = mapData s /\
  mapSizeR t = mapSizeR s /\ mapSizeC t = mapSizeC s /\
  tileArray t = tileArray s /\ objArray t = objArray s /\
  pathFinding t = pathFinding s /\ moveEngine t = moveEngine s /\
  currentControllable t = currentControllable s /\
  nextObject t = nextObject s /\ log t = log s.

(** From [s] to [t], nothing has changed but the alpha of objects. *)
Definition fadedFrom (s t : @EngineView TileData ObjData) : Prop :=
  sameButObjects s t /\
  forall x, fadedOnly (objects s x) (objects t x).

End Movement.


(** ** The array of tiles *)

Section Tiles.

Context {TileData ObjData : Type}.

(** A row of [tileArray], and the tile of a cell. *)
Definition tileRowAt (s : @EngineView TileData ObjData) (r : Z)
    : option (gmap Z TileView.t) :=
  match tileArray s with
  | Some rows => rows !! r
  | None => None
  end.

Definition tileOf (s : @EngineView TileData ObjData) (p : Pos)
    : option TileView.t :=
  match tileRowAt s (pos_r p) with
  | Some row => row !! pos_c p
  | None => None
  end.

End Tiles.

(** ** The map as [createMap] leaves it *)

Section Built.

Context {TileData ObjData : Type} (X : @Externals TileData ObjData).

(** The order in which [createMap] visits the cells: the rows upward, and
    the columns of a row from the last to the first. *)
Definition visitedBefore (p q : Pos) : Prop :=
  pos_r p < pos_r q \/ (pos_r p = pos_r q /\ pos_c q < pos_c p).

(** [d[r][c]] for the map data: nothing where the row or the column is
    missing. *)
Definition dataAt {A} (d : list (list (option A))) (p : Pos) : option A :=
  match jsIndex d (pos_r p) with
  | Some row => entry row (pos_c p)
  | None => None
  end.

(** The object [createMap] makes from the data of a cell. *)
Definition objectAt (q : Pos) (data : ObjData) : ObjectView.t :=
  ObjectView.set_mapPos q (ObjectView_new X data).

(** The object was made from the data of a cell of the map. *)
Definition madeFrom (objs : list (list (option ObjData))) (rows cols : Z)
    (s : @EngineView TileData ObjData) (x : nat) : Prop :=
  exists q data,
    q ∈ cellsInOrder rows cols /\ dataAt objs q = Some data /\
    objects s x = objectAt q data.

(** The objects map has the row of the cell, and every cell that the
    object made from its data would cover is in a row that is not above the
    first. *)
Definition fitsAt (objs : list (list (option ObjData))) (q : Pos) : Prop :=
  is_Some (jsIndex objs (pos_r q)) /\
  match dataAt objs q with
  | Some data =>
      Forall (fun p => 0 <= pos_r p)
        (footprint q (ObjectView.columnSpan (ObjectView_new X data))
           (ObjectView.rowSpan (ObjectView_new X data)))
  | None => True
  end.

#[global] Instance fitsAt_dec objs q : Decision (fitsAt objs q).
Proof. unfold fitsAt. destruct (dataAt objs q); apply _. Defined.

(** Every cell an object made on the map would cover is in a row that is
    not above the first. *)
Definition fits (objs : list (list (option ObjData))) (rows cols : Z)
    : Prop :=
  forall q data p,
    q ∈ cellsInOrder rows cols -> dataAt objs q = Some data ->
    p ∈ footprint q (ObjectView.columnSpan (ObjectView_new X data))
          (ObjectView.rowSpan (ObjectView_new X data)) ->
    0 <= pos_r p.

(** What holds while the objects are placed, with the cells in [rest] still
    to be visited: the rows of [objArray] are those of the map, the dynamic
    layer mirrors the references, the references name the objects made
    since [n0] only, every such object was made from the data of a
    visited cell and is referenced exactly on the cells it covers, every
    visited cell with data has its object, the objects were made in the
    order of the cells, and no cell holds an empty list. *)
Definition built (objs : list (list (option ObjData))) (rows cols : Z)
    (n0 : nat) (rest : list Pos) (s : @EngineView TileData ObjData) : Prop :=
  is_Some (pathFinding s) /\
  (forall i, is_Some (rowAt s i) <-> 0 <= i < rows) /\
  mirrors s /\
  (n0 <= nextObject s)%nat /\
  (forall p x, x ∈ refs s p -> (n0 <= x < nextObject s)%nat) /\
  (forall x, (n0 <= x < nextObject s)%nat ->
     placed s x /\ madeFrom objs rows cols s x /\
     Forall (visitedBefore (ObjectView.mapPos (objects s x))) rest) /\
  (forall q data,
     q ∈ cellsInOrder rows cols -> q ∉ rest -> dataAt objs q = Some data ->
     exists x, (n0 <= x < nextObject s)%nat /\
               objects s x = objectAt q data) /\
  (forall x y, (n0 <= x < y)%nat -> (y < nextObject s)%nat ->
     visitedBefore (ObjectView.mapPos (objects s x))
       (ObjectView.mapPos (objects s y))) /\
  (forall p, cellAt s p <> Some []).

(** The cell named by [initialControllableLocation]. *)
Definition controllableCell (icl : option ControllableLocation)
    : option Pos :=
  (fun l => mkPos (columnIndex l) (rowIndex l)) <$> icl.

(** The controllable is the object made on the initial location, once that
    cell has been visited and when the map has an object there; until
    then, and when the map has no object there, it is [c0]. *)
Definition controllableSet (objs : list (list (option ObjData)))
    (icl : option ControllableLocation) (rows cols : Z) (n0 : nat)
    (c0 : option nat) (rest : list Pos) (s : @EngineView TileData ObjData)
    : Prop :=
  (forall p data,
     controllableCell icl = Some p ->
     p ∈ cellsInOrder rows cols -> p ∉ rest -> dataAt objs p = Some data ->
     exists x, currentControllable s = Some x /\
               (n0 <= x < nextObject s)%nat /\
               objects s x = objectAt p data) /\
  ((forall p data,
      controllableCell icl = Some p ->
      p ∈ cellsInOrder rows cols -> dataAt objs p = Some data -> p ∈ rest) ->
   currentControllable s = c0).

(** The tile [createMap] makes for a cell of the ground map: none where
    the ground map has no data. *)
Definition tileFor (ground : list (list (option TileData))) (p : Pos)
    : option TileView.t :=
  (fun data => TileView.mk p (TileView_isMovableTo X data))
    <$> groundAt ground (pos_r p) (pos_c p).

(** From [s0] to [s], objects have been made and referenced, and nothing
    else has changed but the log and the controllable. *)
Definition objectsAdded (s0 s : @EngineView TileData ObjData) : Prop :=
  config s = config s0 /\ mapData s = mapData s0 /\
  mapSizeR s = mapSizeR s0 /\ mapSizeC s = mapSizeC s0 /\
  moveEngine s = moveEngine s0 /\ pathFinding s = pathFinding s0 /\
  tileArray s = tileArray s0 /\
  (nextObject s0 <= nextObject s)%nat /\
  forall x, (x < nextObject s0)%nat -> objects s x = objects s0 x.

(** From [s0] to [s], nothing has changed but the two arrays and the
    log; nothing but the array of tiles and the log. *)
Definition sameButArrays (s0 s : @EngineView TileData ObjData) : Prop :=
  config s = config s0 /\ mapData s = mapData s0 /\
  mapSizeR s = mapSizeR s0 /\ mapSizeC s = mapSizeC s0 /\
  moveEngine s = moveEngine s0 /\ pathFinding s = pathFinding s0 /\
  objects s = objects s0 /\ nextObject s = nextObject s0 /\
  currentControllable s = currentControllable s0.

Definition sameButTiles (s0 s : @EngineView TileData ObjData) : Prop :=
  sameButArrays s0 s /\ objArray s = objArray s0.

End Built.

(** ** What [destroy] releases *)

Section Released.

Context {TileData ObjData : Type}.

(** The calls [destroy] makes for a cell: on its tile when it has one, and
    on every reference it holds. *)
Definition destroyedAt (s : @EngineView TileData ObjData) (p : Pos)
    : list Event :=
  match tileOf s p with
  | Some _ => [Tile_destroy (pos_r p) (pos_c p)]
  | None => []
  end ++ (Obj_destroy <$> refs s p).

(** The body of the loops of [destroy], for one cell. *)
Definition destroyCell (i j : Z) : @M TileData ObjData unit :=
  bind (tileCell i j) (fun item =>
  bind (when (bool_decide (item <> None)) (emit (Tile_destroy i j))) (fun _ =>
  bind (setTileCell i j None) (fun _ =>
  bind (objCell (mkPos j i)) (fun item =>
  bind (match item with
        | Some a => forEach a (fun o => emit (Obj_destroy o))
        | None => ret tt
        end) (fun _ =>
  setObjCell (mkPos j i) None))))).

(** The engine after [destroy]: no move engine, no pathfinder, no arrays,
    no controllable, no configuration and no map data. *)
Definition gone (s : @EngineView TileData ObjData) : Prop :=
  moveEngine s = false /\ pathFinding s = None /\
  currentControllable s = None /\ tileArray s = None /\
  objArray s = None /\ config s = None /\ mapData s = None.

(** The engine that [destroy] can release: it has a move engine, a
    pathfinder, map data, and a row in both arrays for every cell of the
    map. *)
Definition whole (s : @EngineView TileData ObjData) : Prop :=
  moveEngine s = true /\ is_Some (pathFinding s) /\ is_Some (mapData s) /\
  forall p, p ∈ cellsInOrder (mapSizeR s) (mapSizeC s) ->
    is_Some (tileRowAt s (pos_r p)) /\ is_Some (rowAt s (pos_r p)).

End Released.

(** ** The highlight of a path *)

Section Highlight.

Context {TileData ObjData : Type}.

(** The items of a path that are not in another; a missing path has no
    items. *)
Definition onlyIn (p q : option (list PathItem)) : list PathItem :=
  filter (fun item => item ∉ default [] q) (default [] p).

(** The calls of [setHighlighted] on the tiles of the items, in their
    order. *)
Definition highlightCalls (on : bool) (items : list PathItem)
    : list (@Event) :=
  (fun item =>
     Tile_setHighlighted (pos_r (item_mapPos item)) (pos_c (item_mapPos item))
       on) <$> items.

End Highlight.

(** ** The transparency of the objects in front of the controllable *)

Section Occlusion.

Context {TileData ObjData : Type}.

(** The cells in front of a place, in the order in which
    [arrangeObjTransperancies] visits them: to the left, to the left and
    below, and below, as far as the map goes. *)
Definition inFrontOf (s : @EngineView TileData ObjData) (p : Pos)
    : list Pos :=
  (if 0 <? pos_c p then [mkPos (pos_c p - 1) (pos_r p)] else [])
  ++ (if (0 <? pos_c p) && (pos_r p <? mapSizeR s - 1)
      then [mkPos (pos_c p - 1) (pos_r p + 1)] else [])
  ++ (if pos_r p <? mapSizeR s - 1
      then [mkPos (pos_c p) (pos_r p + 1)] else []).

(** Whether one of the cells references the object. *)
Definition referencedIn (s : @EngineView TileData ObjData)
    (cells : list Pos) (x : nat) : bool :=
  existsb (fun p => bool_decide (x ∈ refs s p)) cells.

(** Whether [changeObjAlphasInLocation] changes the alpha of an object. *)
Definition fades (o : ObjectView.t) : bool :=
  negb (ObjectView.isFloorObject o) && negb (ObjectView.noTransparency o).

(** The record of an object other than the controllable when the
    transparencies have been arranged for the controllable that goes from
    [prevPos] to [pos]: alpha 0.7 in front of [pos], alpha 1 in front of
    [prevPos] only, and as before elsewhere. *)
Definition arranged (s : @EngineView TileData ObjData) (prevPos pos : Pos)
    (x : nat) : ObjectView.t :=
  let o := objects s x in
  if fades o then
    if referencedIn s (inFrontOf s pos) x then ObjectView.set_alpha 0.7 o
    else if referencedIn s (inFrontOf s prevPos) x
         then ObjectView.set_alpha 1 o
         else o
  else o.

End Occlusion.

(** ** The steps of a walk *)

Section Walking.

Context {TileData ObjData : Type} (X : @Externals TileData ObjData).

(** The calls by which [moveObjThrough] takes the highlight from the path
    the object has and gives it to the path it is handed: none unless
    [highlightPath] is set and the object is the controllable. *)
Definition pathSwitch (s : @EngineView TileData ObjData) (obj : nat)
    (path : list PathItem) : list (@Event) :=
  match config s with
  | Some cfg =>
      if highlightPath cfg && bool_decide (currentControllable s = Some obj)
      then
        let cp := ObjectView.currentPath (objects s obj) in
        highlightCalls false (onlyIn cp (Some path))
        ++ highlightCalls true (onlyIn (Some path) cp)
      else []
  | None => []
  end.

(** The item at the step of the path of an object. *)
Definition nextItem (o : ObjectView.t) : option PathItem :=
  match ObjectView.currentPath o with
  | Some cp => jsIndex cp (ObjectView.currentPathStep o)
  | None => None
  end.

(** The record of an object that the move engine has prepared for a path;
    its target tile is the item at its step. *)
Definition preparedFor (o : ObjectView.t) (path : list PathItem)
    (speed : option Z) : ObjectView.t :=
  let o1 := prepareForMove_effect X o path speed in
  ObjectView.set_currentTargetTile (nextItem o1) o1.

(** The state in which the object sets out along a path: the highlight has
    been switched and the move engine has prepared the object. *)
Definition setOut (s : @EngineView TileData ObjData) (obj : nat)
    (path : list PathItem) (speed : option Z) : @EngineView TileData ObjData :=
  let f1 := <[obj := prepareForMove_effect X (objects s obj) path speed]>
              (objects s) in
  set_objects
    (<[obj := preparedFor (objects s obj) path speed]> f1)
    (nextObject s)
    (set_log (log s ++ pathSwitch s obj path
                ++ [ME_prepareForMove obj path speed]) s).

(** The object can set out along [path] toward [next]: objects are not
    relocated at once, the move engine and the pathfinder are there, the
    tiles whose highlight is switched exist, the object has no target, the
    move engine leaves the object on a path whose item at the step is
    [next], and the pathfinder reports the cell of [next] open. *)
Definition setsOutToward (s : @EngineView TileData ObjData) (obj : nat)
    (path : list PathItem) (speed : option Z) (next : PathItem) : Prop :=
  (exists cfg, config s = Some cfg /\ instantObjectRelocation cfg = false) /\
  moveEngine s = true /\ is_Some (pathFinding s) /\
  (forall r c on, Tile_setHighlighted r c on ∈ pathSwitch s obj path ->
     is_Some (tileOf s (mkPos c r))) /\
  ObjectView.currentTarget (objects s obj) = None /\
  nextItem (prepareForMove_effect X (objects s obj) path speed) = Some next /\
  reportedFilled X (setOut s obj path speed) obj (item_mapPos next) = false.

(** The log when the step toward [pos] has begun: the object has been
    turned, the pathfinder asked about the cell, and the object handed to
    the move engine. *)
Definition stepBegun (s : @EngineView TileData ObjData) (obj : nat)
    (pos : Pos) : list (@Event) :=
  log (asked X s obj pos) ++ [ME_setMoveParameters obj pos; ME_addMovable obj].

(** The call that takes the highlight from the tile the controllable stands
    on, and the call that tells the game that an object has arrived. *)
Definition unhighlight (s : @EngineView TileData ObjData) (obj : nat)
    : list (@Event) :=
  if bool_decide (currentControllable s = Some obj)
  then let pos := ObjectView.mapPos (objects s obj) in
       [Tile_setHighlighted (pos_r pos) (pos_c pos) false]
  else [].

Definition reached (cfg : Config) (obj : nat) : list (@Event) :=
  if objectReachedDestinationCallback cfg
  then [Callback_objectReachedDestination obj]
  else [].

(** The controllable stands on a tile. *)
Definition onATile (s : @EngineView TileData ObjData) (obj : nat) : Prop :=
  currentControllable s = Some obj ->
  is_Some (tileOf s (ObjectView.mapPos (objects s obj))).

End Walking.


(** * A small map

    Three rows and three columns.  The ground has no tile at row 0,
    column 2, and a tile that cannot be moved onto at row 1, column 1.  A
    box one column wide and two rows high stands at row 1, column 2; the
    controllable stands at row 2, column 0. *)

Module Demo.

(** Modelled from the spec: the Grid Store keeps a static and a dynamic
    flag per cell, each decided by the last call that set it, and a cell is
    blocked when either flag says so. *)
Definition staticBlocked (l : list Event) (c r : Z) : bool :=
  foldl (fun b e =>
           match e with
           | PF_setCell c' r' w =>
               if (c' =? c) && (r' =? r) then w =? 0 else b
           | _ => b
           end) false l.

Definition dynamicBlocked (l : list Event) (c r : Z) : bool :=
  foldl (fun b e =>
           match e with
           | PF_setDynamicCell c' r' w =>
               if (c' =? c) && (r' =? r) then w =? 0 else b
           | _ => b
           end) false l.

Definition isBlocked (l : list Event) (c r : Z) : bool :=
  staticBlocked l c r || dynamicBlocked l c r.

(** The size of the grid, from the construction of the pathfinder. *)
Definition gridSize (l : list Event) : Z * Z :=
  foldl (fun sz e =>
           match e with
           | PF_new p => (pf_columns p, pf_rows p)
           | _ => sz
           end) (0, 0) l.

Definition inGrid (l : list Event) (c r : Z) : bool :=
  (0 <=? c) && (c <? (gridSize l).1) && (0 <=? r) && (r <? (gridSize l).2).

(** Modelled from the spec: [solve] answers with an empty path when the
    source is the target.  For the other requests this solver knows one
    way only, the jump to a target that is open. *)
Definition solve (l : list Event) (c1 r1 c2 r2 : Z)
    : option (list PathItem) :=
  if (c1 =? c2) && (r1 =? r2) then Some []
  else if isBlocked l c2 r2 then None
  else Some [mkItem GridNode (mkPos c2 r2)].

(** Modelled from the spec: the cells that border the footprint
    [[c, c + columnSpan) x (r - rowSpan, r]], without the corners, that lie
    in the grid and are open. *)
Definition adjacentOpenCells (l : list Event) (c r columnSpan rowSpan : Z)
    : list PathItem :=
  let cols := upFrom (Z.to_nat columnSpan) c in
  let rows := downFrom (Z.to_nat rowSpan) r in
  let border :=
    ((fun m => mkPos (c - 1) m) <$> rows)
    ++ ((fun m => mkPos (c + columnSpan) m) <$> rows)
    ++ ((fun k => mkPos k (r - rowSpan)) <$> cols)
    ++ ((fun k => mkPos k (r + 1)) <$> cols) in
  mkItem GridNode <$>
    filter (fun p => inGrid l (pos_c p) (pos_r p) = true
                     /\ isBlocked l (pos_c p) (pos_r p) = false) border.

(** An object as described in the map data: its spans and whether it can be
    moved onto. *)
Definition newObject (data : Z * Z * bool) : ObjectView.t :=
  ObjectView.mk (mkPos 0 0) data.1.1 data.1.2 data.2 false false 1 None None
    0 None None 0.

(** The move engine of the demonstration keeps the path on the object and
    starts at its last element. *)
Definition world (solver : list Event -> Z -> Z -> Z -> Z ->
                           option (list PathItem))
    : @Externals bool (Z * Z * bool) :=
  mkExternals solver
    isBlocked
    adjacentOpenCells
    (fun r1 c1 r2 c2 => 3 * (r2 - r1) + (c2 - c1))
    (fun o path speed =>
       ObjectView.set_currentPathStep (Z.of_nat (length path) - 1)
         (ObjectView.set_currentPath (Some path) o))
    (fun o pos => ObjectView.set_currentTarget (Some (pos_c pos, pos_r pos)) o)
    id
    newObject.

Definition X : Externals := world solve.

(** Modelled from the spec: a solver for maps of one row.  The only way
    between two cells of a row runs along the row; the path lists its
    cells from the target back to the cell next to the source, and there is
    no path when one of them is blocked or outside the grid. *)
Definition alongRow (l : list Event) (c1 r1 c2 r2 : Z)
    : option (list PathItem) :=
  if (c1 =? c2) && (r1 =? r2) then Some []
  else if negb (r1 =? r2) then None
  else
    let way := if c1 <? c2
               then downFrom (Z.to_nat (c2 - c1)) c2
               else upFrom (Z.to_nat (c1 - c2)) c2 in
    if forallb (fun k => inGrid l k r2 && negb (isBlocked l k r2)) way
    then Some ((fun k => mkItem GridNode (mkPos k r2)) <$> way)
    else None.

Definition corridorX : Externals := world alongRow.

Definition theConfig : Config :=
  mkConfig ASTAR_ORTHOGONAL false false true true true true true.

Definition theMapData : @MapData bool (Z * Z * bool) :=
  mkMapData
    [ [Some true; Some true; None];
      [Some true; Some false; Some true];
      [Some true; Some true; Some true] ]
    [ [None; None; None];
      [None; None; Some (1, 2, false)];
      [Some (1, 1, false); None; None] ]
    (Some (mkLoc 0 2)).

Definition loaded : EngineView :=
  mkEngine (Some theConfig) (Some theMapData) 0 0 None None None true None
    (fun _ => newObject (1, 1, true)) 0 [].

Definition ready : EngineView := (createMap X loaded).2.

(** A corridor: one row and 3002 columns, every cell with a tile that can
    be moved onto.  The controllable stands at column 0 and a box of one
    cell at column 3001, so that the cell next to the box is 3000 steps
    away. *)
Definition corridorMapData : @MapData bool (Z * Z * bool) :=
  mkMapData
    [ replicate 3002 (Some true) ]
    [ [Some (1, 1, false)] ++ replicate 3000 None ++ [Some (1, 1, false)] ]
    (Some (mkLoc 0 0)).

Definition corridor : EngineView :=
  (createMap corridorX (set_mapData (Some corridorMapData) loaded)).2.

Definition box : nat := 0.
Definition controllable : nat := 1.

End Demo.

(** ** States of the small map *)

(** The controllable has been sent one cell away, to row 1 of column 0. *)
Definition moving : EngineView :=
  (checkAndMoveObjectToLocation Demo.X 2 Demo.controllable (mkPos 0 1) None
     Demo.ready).2.

(** The tiles of a state, and the paths found from the controllable to the
    open cells next to the box. *)
Definition tilesOf (s : @EngineView bool (Z * Z * bool))
    : gmap Z (gmap Z TileView.t) :=
  default ∅ (tileArray s).

Definition foundAround (W : @Externals bool (Z * Z * bool))
    (s : @EngineView bool (Z * Z * bool))
    : list (list PathItem) :=
  let o := objects s Demo.box in
  let c := pos_c (ObjectView.mapPos o) in
  let r := pos_r (ObjectView.mapPos o) in
  let columnSpan := ObjectView.columnSpan o in
  let rowSpan := ObjectView.rowSpan o in
  pathsFound W (tilesOf s)
    (ObjectView.mapPos (objects s Demo.controllable))
    (log s ++ [PF_getAdjacentOpenCells c r columnSpan rowSpan])
    (getAdjacentOpenCells_answer W (log s) c r columnSpan rowSpan).

(** A controllable that can be moved onto leaves its own cell open.  The
    map data put it on the cell below the box, at row 2 of column 2; asked
    to approach the box, it finds itself on one of the adjacent cells, and
    the call of [stopObject] in that branch throws. *)
Definition standing : EngineView :=
  let md := mkMapData (groundMapData Demo.theMapData)
              [ [None; None; None];
                [None; None; Some (1, 2, false)];
                [None; None; Some (1, 1, true)] ]
              (Some (mkLoc 2 2)) in
  (createMap Demo.X (set_mapData (Some md) Demo.loaded)).2.

(** ** The controllable on its way *)

(** The way up the first column, from the far cell to the near one. *)
Definition node (c r : Z) : PathItem := mkItem GridNode (mkPos c r).

Definition twoUp : list PathItem := [node 0 0; node 0 1].

(** The controllable has been sent along [twoUp] and is on its first
    step. *)
Definition walking : EngineView :=
  (moveObjThrough Demo.X 1 Demo.controllable twoUp None Demo.ready).2.

(** The same where the path is not sought again on every tile. *)
Definition strolling : EngineView :=
  set_config (Some (set_checkPathOnEachTile false Demo.theConfig)) walking.




(** ** More states of the small map *)

(** An object that is not on the map: the next one to be made. *)
Definition spare : nat := 2.

(** The small map with objects relocated at once. *)
Definition hasty : EngineView :=
  set_config (Some (set_instantObjectRelocation true Demo.theConfig))
    Demo.ready.

(** A map whose box, two rows high, stands on the first row. *)
Definition crowdedMapData : @MapData bool (Z * Z * bool) :=
  mkMapData (groundMapData Demo.theMapData)
    [ [None; None; Some (1, 2, false)];
      [None; None; None];
      [Some (1, 1, false); None; None] ]
    (initialControllableLocation Demo.theMapData).

Definition crowded : EngineView :=
  set_mapData (Some crowdedMapData) Demo.loaded.

(** * Properties *)

Section Facts.

Context {TileData ObjData : Type} (X : @Externals TileData ObjData).

Abbreviation M := (@M TileData ObjData).
Abbreviation EngineView := (@EngineView TileData ObjData).

Implicit Types s : EngineView.
Implicit Types P : EngineView -> Prop.

#[local] Abbreviation triple := (@triple TileData ObjData).
#[local] Abbreviation preserves := (@preserves TileData ObjData).
#[local] Abbreviation steady := (@steady TileData ObjData).
#[local] Abbreviation noDuplicates := (@noDuplicates TileData ObjData).

(** ** Running computations step by step *)

Lemma log_set_log l (s : EngineView) : log (set_log l s) = l.
Proof. reflexivity. Qed.

Lemma bind_val {A B} (m : M A) (k : A -> M B) s a s' :
  m s = (Val a, s') -> bind m k s = k a s'.
Proof. unfold bind. intros ->. reflexivity. Qed.

Lemma bind_throw {A B} (m : M A) (k : A -> M B) s e s' :
  m s = (Throw e, s') -> bind m k s = (Throw e, s').
Proof. unfold bind. intros ->. reflexivity. Qed.

Lemma bind_fuel {A B} (m : M A) (k : A -> M B) s s' :
  m s = (OutOfFuel, s') -> bind m k s = (OutOfFuel, s').
Proof. unfold bind. intros ->. reflexivity. Qed.

Lemma bind_assoc {A B C} (m : M A) (k : A -> M B) (h : B -> M C) s :
  bind (bind m k) h s = bind m (fun a => bind (k a) h) s.
Proof. unfold bind. destruct (m s) as [[a|e|] s1]; reflexivity. Qed.

Lemma bind_congr {A B} (m : M A) (k1 k2 : A -> M B) s :
  (forall a s', k1 a s' = k2 a s') -> bind m k1 s = bind m k2 s.
Proof. intros H. unfold bind. destruct (m s) as [[a|e|] s1]; auto. Qed.

Lemma bind_inv {A B} (m : M A) (k : A -> M B) s b s2 :
  bind m k s = (Val b, s2) ->
  exists a s1, m s = (Val a, s1) /\ k a s1 = (Val b, s2).
Proof.
  unfold bind. destruct (m s) as [[a|e|] s1]; intros H; try discriminate.
  eauto.
Qed.

Lemma objCell_run (s : EngineView) pos rows row :
  objArray s = Some rows -> rows !! pos_r pos = Some row ->
  objCell pos s = (Val (row !! pos_c pos), s).
Proof.
  intros Ha Hr. unfold objCell, bind, get, deref, ret. rewrite Ha, Hr.
  reflexivity.
Qed.

Lemma setObjCell_run (s : EngineView) pos v rows row :
  objArray s = Some rows -> rows !! pos_r pos = Some row ->
  setObjCell pos v s =
    (Val tt,
     set_objArray
       (Some (<[pos_r pos :=
                 match v with
                 | Some l => <[pos_c pos := l]> row
                 | None => delete (pos_c pos) row
                 end]> rows)) s).
Proof.
  intros Ha Hr. unfold setObjCell, bind, get, deref, ret, modify.
  rewrite Ha, Hr. reflexivity.
Qed.

Lemma setDynamicCell_run (s : EngineView) c r w pf :
  pathFinding s = Some pf ->
  pathFinding_setDynamicCell c r w s =
    (Val tt, set_log (log s ++ [PF_setDynamicCell c r w]) s).
Proof.
  intros Hp. unfold pathFinding_setDynamicCell, thePathFinding, bind, get,
    deref, ret, emit, modify. rewrite Hp. reflexivity.
Qed.

(** ** The references that remain in a cell *)

Lemma indexOf_bounds {A} `{EqDecision A} (x : A) (l : list A) :
  -1 <= indexOf x l < Z.of_nat (length l).
Proof.
  induction l as [|y l IH]; simpl; [lia|].
  destruct (decide (y = x)); [lia|].
  destruct (indexOf x l <? 0) eqn:E; lia.
Qed.

Lemma indexOf_absent {A} `{EqDecision A} (x : A) (l : list A) :
  indexOf x l < 0 <-> x ∉ l.
Proof.
  induction l as [|y l IH]; simpl.
  - split; [intros _; apply not_elem_of_nil | lia].
  - destruct (decide (y = x)) as [->|Hne].
    + split; [lia | intros Hn; exfalso; apply Hn; left].
    + rewrite not_elem_of_cons.
      destruct (indexOf x l <? 0) eqn:E.
      * apply Z.ltb_lt in E. split; [intros _; split; [congruence | tauto] | lia].
      * apply Z.ltb_ge in E. split; [lia | intros [_ Hn]; apply IH in Hn; lia].
Qed.

Lemma splice1_cons_succ {A} (y : A) (l : list A) (i : Z) :
  0 <= i -> splice1 (i + 1) (y :: l) = y :: splice1 i l.
Proof.
  intros Hi. unfold splice1. simpl length.
  replace (i + 1 <? 0) with false by (symmetry; apply Z.ltb_ge; lia).
  replace (i <? 0) with false by (symmetry; apply Z.ltb_ge; lia).
  replace (Z.to_nat (Z.min (i + 1) (Z.of_nat (S (length l)))))
    with (S (Z.to_nat (Z.min i (Z.of_nat (length l))))) by lia.
  reflexivity.
Qed.

Lemma splice1_indexOf {A} `{EqDecision A} (x : A) (l : list A) :
  (if -1 <? indexOf x l then splice1 (indexOf x l) l else l)
  = withoutFirst x l.
Proof.
  induction l as [|y l IH]; [reflexivity|].
  simpl indexOf. simpl withoutFirst.
  destruct (decide (y = x)).
  - simpl. unfold splice1. simpl. destruct l; reflexivity.
  - pose proof (indexOf_bounds x l) as Hb.
    destruct (indexOf x l <? 0) eqn:E.
    + apply Z.ltb_lt in E. simpl.
      replace (-1 <? indexOf x l) with false in IH
        by (symmetry; apply Z.ltb_ge; lia).
      congruence.
    + apply Z.ltb_ge in E.
      replace (-1 <? indexOf x l) with true in IH
        by (symmetry; apply Z.ltb_lt; lia).
      replace (-1 <? indexOf x l + 1) with true
        by (symmetry; apply Z.ltb_lt; lia).
      rewrite splice1_cons_succ by lia. congruence.
Qed.

Lemma scanRemaining_run (s : EngineView) pos a pf :
  pathFinding s = Some pf -> a <> [] ->
  scanRemaining pos a s =
    (Val tt,
     set_log (log s ++ [PF_setDynamicCell (pos_c pos) (pos_r pos)
                          (if allMovableTo s a then 1 else 0)]) s).
Proof.
  intros Hp. induction a as [|x a IH]; [congruence|]. intros _.
  simpl scanRemaining. unfold bind at 1, readObj, bind at 1, get, ret.
  unfold allMovableTo. simpl forallb.
  destruct (ObjectView.isMovableTo (objects s x)); simpl.
  - destruct a as [|y a].
    + simpl. eapply setDynamicCell_run; eauto.
    + apply IH. congruence.
  - eapply setDynamicCell_run; eauto.
Qed.

(** ** Views of the state *)

Lemma sameButRefs_refl s : sameButRefs s s.
Proof. repeat split. Qed.

Lemma sameButRefs_trans s1 s2 s3 :
  sameButRefs s1 s2 -> sameButRefs s2 s3 -> sameButRefs s1 s3.
Proof.
  unfold sameButRefs. intros H1 H2.
  decompose [and] H1. decompose [and] H2.
  repeat split; congruence.
Qed.

Lemma cellAt_insert_row (s : EngineView) rows row pos v :
  objArray s = Some rows -> rows !! pos_r pos = Some row ->
  cellSetTo s
    (set_objArray
       (Some (<[pos_r pos :=
                 match v with
                 | Some l => <[pos_c pos := l]> row
                 | None => delete (pos_c pos) row
                 end]> rows)) s)
    pos v.
Proof.
  intros Ha Hr. unfold cellSetTo, cellAt, rowAt. simpl. rewrite Ha.
  split; [|split].
  - rewrite lookup_insert_eq. destruct v.
    + apply lookup_insert_eq.
    + apply lookup_delete_eq.
  - intros [c r] Hne. simpl.
    destruct (decide (pos_r pos = r)) as [<-|Hr'].
    + rewrite lookup_insert_eq, Hr.
      assert (pos_c pos <> c) by (destruct pos; simpl in *; congruence).
      destruct v; [apply lookup_insert_ne | apply lookup_delete_ne]; done.
    + rewrite lookup_insert_ne by done. reflexivity.
  - intros r. destruct (decide (pos_r pos = r)) as [<-|Hr'].
    + rewrite lookup_insert_eq, Hr. split; eauto.
    + rewrite lookup_insert_ne by done. reflexivity.
Qed.

Lemma cellSetTo_same (s : EngineView) pos :
  cellSetTo s s pos (cellAt s pos).
Proof. repeat split; auto. Qed.

Lemma cellSetTo_trans s1 s2 s3 pos v w :
  cellSetTo s1 s2 pos v -> cellSetTo s2 s3 pos w -> cellSetTo s1 s3 pos w.
Proof.
  intros (_ & H1 & H1') (H2 & H3 & H3'). split; [done|]. split.
  - intros p Hp. rewrite H3, H1; done.
  - intros r. rewrite H3', H1'. done.
Qed.

Lemma cellSetTo_ext s1 s1' s2 s2' pos v :
  objArray s1' = objArray s1 -> objArray s2' = objArray s2 ->
  cellSetTo s1 s2 pos v -> cellSetTo s1' s2' pos v.
Proof.
  unfold cellSetTo, cellAt, rowAt. intros -> ->. done.
Qed.

Lemma rowAt_cases (s : EngineView) r row :
  rowAt s r = Some row ->
  exists rows, objArray s = Some rows /\ rows !! r = Some row.
Proof. unfold rowAt. destruct (objArray s); [eauto|discriminate]. Qed.

(** ** One reference, one cell *)

Lemma addObjRefToSingleLocation_spec (s : EngineView) obj pos row pf :
  rowAt s (pos_r pos) = Some row ->
  pathFinding s = Some pf ->
  exists s',
    addObjRefToSingleLocation obj pos s = (Val tt, s') /\
    log s' = log s ++
      (if ObjectView.isMovableTo (objects s obj) then []
       else [PF_setDynamicCell (pos_c pos) (pos_r pos) 0]) /\
    sameButRefs s s' /\
    cellSetTo s s' pos
      (Some (let a := default [] (cellAt s pos) in
             if bool_decide (obj ∈ a) then a else a ++ [obj])).
Proof.
  intros Hrow Hpf.
  destruct (rowAt_cases _ _ _ Hrow) as (rows & Ha & Hr).
  assert (Hcell : cellAt s pos = row !! pos_c pos).
  { unfold cellAt. rewrite Hrow. reflexivity. }
  unfold addObjRefToSingleLocation.
  erewrite bind_val by (eapply objCell_run; eauto).
  (* the cell is created when it is empty *)
  set (a := default [] (row !! pos_c pos)).
  set (s1 := if bool_decide (row !! pos_c pos = None)
             then set_objArray (Some (<[pos_r pos := <[pos_c pos := []]> row]> rows)) s
             else s).
  assert (H1 : when (bool_decide (row !! pos_c pos = None))
                 (setObjCell pos (Some [])) s = (Val tt, s1)).
  { subst s1. case_bool_decide; simpl; [|reflexivity].
    erewrite setObjCell_run by eauto. reflexivity. }
  assert (C1 : cellSetTo s s1 pos (Some a)).
  { subst s1 a. case_bool_decide as E.
    - rewrite E. simpl. apply (cellAt_insert_row s rows row pos (Some [])); done.
    - destruct (row !! pos_c pos) eqn:E'; [|done]. simpl.
      rewrite <- Hcell. apply cellSetTo_same. }
  assert (F1 : sameButRefs s s1 /\ log s1 = log s).
  { subst s1. case_bool_decide; split; try apply sameButRefs_refl; done. }
  erewrite bind_val by exact H1.
  destruct C1 as (C1a & C1b & C1c).
  assert (Hrow1 : is_Some (rowAt s1 (pos_r pos))) by (apply C1c; eauto).
  destruct Hrow1 as [row1 Hrow1].
  destruct (rowAt_cases _ _ _ Hrow1) as (rows1 & Ha1 & Hr1).
  assert (Hc1 : row1 !! pos_c pos = Some a).
  { unfold cellAt in C1a. rewrite Hrow1 in C1a. done. }
  erewrite bind_val by (eapply objCell_run; eauto).
  rewrite Hc1. simpl deref. erewrite bind_val by reflexivity.
  set (s2 := if indexOf obj a <? 0
             then set_objArray
                    (Some (<[pos_r pos := <[pos_c pos := a ++ [obj]]> row1]> rows1)) s1
             else s1).
  assert (H2 : when (indexOf obj a <? 0) (setObjCell pos (Some (a ++ [obj]))) s1
               = (Val tt, s2)).
  { subst s2. destruct (indexOf obj a <? 0); simpl; [|reflexivity].
    erewrite setObjCell_run by eauto. reflexivity. }
  erewrite bind_val by exact H2.
  assert (C2 : cellSetTo s1 s2 pos
                 (Some (if bool_decide (obj ∈ a) then a else a ++ [obj]))).
  { subst s2. destruct (indexOf obj a <? 0) eqn:E.
    - apply Z.ltb_lt, indexOf_absent in E.
      rewrite bool_decide_eq_false_2 by done.
      apply (cellAt_insert_row s1 rows1 row1 pos (Some (a ++ [obj]))); done.
    - apply Z.ltb_ge in E.
      rewrite bool_decide_eq_true_2.
      + rewrite <- C1a. apply cellSetTo_same.
      + destruct (decide (obj ∈ a)) as [|Hn]; [done|].
        apply indexOf_absent in Hn. lia. }
  assert (F2 : sameButRefs s1 s2 /\ log s2 = log s1).
  { subst s2. destruct (indexOf obj a <? 0); split;
      try apply sameButRefs_refl; done. }
  destruct F1 as [F1 L1]. destruct F2 as [F2 L2].
  pose proof (sameButRefs_trans _ _ _ F1 F2) as F.
  assert (Hobj : objects s2 = objects s) by apply F.
  assert (Hpf2 : pathFinding s2 = Some pf).
  { destruct F as (_ & _ & _ & _ & _ & -> & _). done. }
  unfold bind at 1, readObj, bind at 1, get, ret. rewrite Hobj.
  destruct (ObjectView.isMovableTo (objects s obj)); simpl.
  - exists s2. rewrite app_nil_r. split; [done|]. split; [congruence|].
    split; [done|]. rewrite Hcell. fold a.
    eapply cellSetTo_trans; [split; [exact C1a|split; [exact C1b|exact C1c]]|].
    exact C2.
  - erewrite setDynamicCell_run by eauto.
    eexists. split; [reflexivity|]. simpl. split; [congruence|]. split.
    + destruct F as (?&?&?&?&?&?&?&?&?&?). repeat split; done.
    + rewrite Hcell. fold a.
      eapply cellSetTo_ext with (s1 := s) (s2 := s2); [done|done|].
      eapply cellSetTo_trans; [split; [exact C1a|split; [exact C1b|exact C1c]]|].
      exact C2.
Qed.

Lemma removeObjRefFromSingleLocation_spec (s : EngineView) obj pos row a0 pf :
  rowAt s (pos_r pos) = Some row ->
  row !! pos_c pos = Some a0 ->
  pathFinding s = Some pf ->
  let remaining := withoutFirst obj a0 in
  exists s',
    removeObjRefFromSingleLocation obj pos s = (Val tt, s') /\
    log s' = log s ++
      [PF_setDynamicCell (pos_c pos) (pos_r pos)
         (if allMovableTo s remaining then 1 else 0)] /\
    sameButRefs s s' /\
    cellSetTo s s' pos
      (match remaining with [] => None | _ :: _ => Some remaining end).
Proof.
  intros Hrow Hc Hpf remaining.
  destruct (rowAt_cases _ _ _ Hrow) as (rows & Ha & Hr).
  assert (Hcell : cellAt s pos = Some a0).
  { unfold cellAt. rewrite Hrow. done. }
  unfold removeObjRefFromSingleLocation.
  erewrite bind_val by (eapply objCell_run; eauto).
  rewrite Hc.
  set (s1 := if -1 <? indexOf obj a0
             then set_objArray
                    (Some (<[pos_r pos :=
                             <[pos_c pos := splice1 (indexOf obj a0) a0]> row]> rows)) s
             else s).
  assert (H1 : when (-1 <? indexOf obj a0)
                 (setObjCell pos (Some (splice1 (indexOf obj a0) a0))) s
               = (Val tt, s1)).
  { subst s1. destruct (-1 <? indexOf obj a0); simpl; [|reflexivity].
    erewrite setObjCell_run by eauto. reflexivity. }
  erewrite bind_val by exact H1.
  assert (C1 : cellSetTo s s1 pos (Some remaining)).
  { subst s1 remaining. rewrite <- splice1_indexOf.
    destruct (-1 <? indexOf obj a0).
    - apply (cellAt_insert_row s rows row pos (Some _)); done.
    - rewrite <- Hcell. apply cellSetTo_same. }
  assert (F1 : sameButRefs s s1 /\ log s1 = log s).
  { subst s1. destruct (-1 <? indexOf obj a0); split;
      try apply sameButRefs_refl; done. }
  destruct F1 as [F1 L1].
  pose proof C1 as (C1a & C1b & C1c).
  assert (Hrow1 : is_Some (rowAt s1 (pos_r pos))) by (apply C1c; eauto).
  destruct Hrow1 as [row1 Hrow1].
  destruct (rowAt_cases _ _ _ Hrow1) as (rows1 & Ha1 & Hr1).
  assert (Hc1 : row1 !! pos_c pos = Some remaining).
  { unfold cellAt in C1a. rewrite Hrow1 in C1a. done. }
  erewrite bind_val by (eapply objCell_run; eauto).
  rewrite Hc1. simpl deref. erewrite bind_val by reflexivity.
  assert (Hpf1 : pathFinding s1 = Some pf).
  { destruct F1 as (_ & _ & _ & _ & _ & -> & _). done. }
  assert (Hobj : objects s1 = objects s) by apply F1.
  destruct remaining as [|x rest] eqn:Erem.
  - rewrite bool_decide_eq_true_2 by done.
    erewrite bind_val by (eapply setDynamicCell_run; eauto).
    erewrite setObjCell_run by (simpl; eauto).
    eexists. split; [reflexivity|]. simpl. split; [congruence|]. split.
    + destruct F1 as (?&?&?&?&?&?&?&?&?&?). repeat split; done.
    + eapply cellSetTo_trans; [exact C1|].
      eapply cellSetTo_ext;
        [| |apply (cellAt_insert_row s1 rows1 row1 pos None); done]; done.
  - rewrite bool_decide_eq_false_2 by done.
    erewrite scanRemaining_run by (eauto; done).
    eexists. split; [reflexivity|]. simpl. split.
    + unfold allMovableTo. rewrite L1, Hobj. reflexivity.
    + split.
      * destruct F1 as (?&?&?&?&?&?&?&?&?&?). repeat split; done.
      * eapply cellSetTo_ext; [| |exact C1]; done.
Qed.

Lemma removeObjRefFromSingleLocation_empty (s : EngineView) obj pos row :
  rowAt s (pos_r pos) = Some row ->
  row !! pos_c pos = None ->
  removeObjRefFromSingleLocation obj pos s = (Val tt, s).
Proof.
  intros Hrow Hc.
  destruct (rowAt_cases _ _ _ Hrow) as (rows & Ha & Hr).
  unfold removeObjRefFromSingleLocation.
  erewrite bind_val by (eapply objCell_run; eauto).
  rewrite Hc. reflexivity.
Qed.

(** C1. Removing a reference from a cell that holds a list tells the
    pathfinder, once, whether the cell is open: it is when no reference
    remains, and otherwise exactly when every remaining object can be moved
    onto.  Adding a reference closes the cell when the added object cannot be
    moved onto, and tells the pathfinder nothing otherwise. *)
Theorem C1_dynamic_layer_follows_references
    (s : EngineView) obj pos row pf :
  rowAt s (pos_r pos) = Some row ->
  pathFinding s = Some pf ->
  (forall a, row !! pos_c pos = Some a ->
     let remaining := withoutFirst obj a in
     exists s',
       removeObjRefFromSingleLocation obj pos s = (Val tt, s') /\
       (remaining = [] ->
          log s' = log s ++ [PF_setDynamicCell (pos_c pos) (pos_r pos) 1]) /\
       (remaining <> [] ->
          (exists x, x ∈ remaining /\
                     ObjectView.isMovableTo (objects s x) = false) ->
          log s' = log s ++ [PF_setDynamicCell (pos_c pos) (pos_r pos) 0]) /\
       (remaining <> [] ->
          (forall x, x ∈ remaining ->
                     ObjectView.isMovableTo (objects s x) = true) ->
          log s' = log s ++ [PF_setDynamicCell (pos_c pos) (pos_r pos) 1]))
  /\
  (exists s',
     addObjRefToSingleLocation obj pos s = (Val tt, s') /\
     (ObjectView.isMovableTo (objects s obj) = false ->
        log s' = log s ++ [PF_setDynamicCell (pos_c pos) (pos_r pos) 0]) /\
     (ObjectView.isMovableTo (objects s obj) = true -> log s' = log s)).
Proof.
  intros Hrow Hpf. split.
  - intros a Ha remaining.
    destruct (removeObjRefFromSingleLocation_spec s obj pos row a pf Hrow Ha Hpf)
      as (s' & Hrun & Hlog & _ & _).
    fold remaining in Hlog.
    exists s'. split; [done|]. split; [|split].
    + intros E. rewrite Hlog, E. reflexivity.
    + intros _ (x & Hx & Hmov). rewrite Hlog.
      replace (allMovableTo s remaining) with false; [done|].
      symmetry. apply not_true_is_false. intros Hall.
      unfold allMovableTo in Hall.
      apply list_elem_of_In in Hx.
      pose proof (proj1 (List.forallb_forall _ _) Hall x Hx). congruence.
    + intros _ Hall. rewrite Hlog.
      replace (allMovableTo s remaining) with true; [done|].
      symmetry. unfold allMovableTo. apply List.forallb_forall.
      intros x Hx. apply Hall, list_elem_of_In, Hx.
  - destruct (addObjRefToSingleLocation_spec s obj pos row pf Hrow Hpf)
      as (s' & Hrun & Hlog & _ & _).
    exists s'. split; [done|]. split.
    + intros E. rewrite E in Hlog. done.
    + intros E. rewrite E, app_nil_r in Hlog. done.
Qed.

(** ** A small program logic

    [triple P m Q I]: from a state in [P], the computation [m] ends with a
    value [a] in a state in [Q a], or ends otherwise (an exception, or the
    bound on nested calls) in a state in [I]. *)

Lemma triple_bind {A B} P (m : M A) Q (k : A -> M B) R I :
  triple P m Q I -> (forall a, triple (Q a) (k a) R I) ->
  triple P (bind m k) R I.
Proof.
  intros Hm Hk s HP. unfold bind. specialize (Hm s HP).
  destruct (m s) as [[a|e|] s1]; try done. apply Hk, Hm.
Qed.

Lemma triple_weaken {A} (P P' : EngineView -> Prop) (m : M A)
    (Q Q' : A -> EngineView -> Prop) (I I' : EngineView -> Prop) :
  (forall s, P' s -> P s) -> (forall a s, Q a s -> Q' a s) ->
  (forall s, I s -> I' s) ->
  triple P m Q I -> triple P' m Q' I'.
Proof.
  intros HP HQ HI Hm s Hs. specialize (Hm s (HP s Hs)).
  destruct (m s) as [[a|e|] s1]; auto.
Qed.

Lemma triple_ret {A} (P : EngineView -> Prop) (a : A) I :
  triple P (ret a) (fun x s => x = a /\ P s) I.
Proof. intros s HP. simpl. done. Qed.

Lemma triple_get P I :
  triple P get (fun x s => x = s /\ P s) I.
Proof. intros s HP. simpl. done. Qed.

Lemma triple_throw {A} (P : EngineView -> Prop) e Q :
  triple P (@throw _ _ A e) Q P.
Proof. intros s HP. simpl. done. Qed.

Lemma triple_diverge {A} (P : EngineView -> Prop) Q :
  triple P (@diverge _ _ A) Q P.
Proof. intros s HP. simpl. done. Qed.

Lemma triple_deref {A} (P : EngineView -> Prop) what (x : option A) :
  triple P (deref what x) (fun a s => x = Some a /\ P s) P.
Proof. intros s HP. destruct x; simpl; done. Qed.

Lemma triple_modify (P Q : EngineView -> Prop) g I :
  (forall s, P s -> Q (g s)) ->
  triple P (modify g) (fun _ => Q) I.
Proof. intros H s HP. simpl. auto. Qed.

Lemma preserves_bind {A B} P (m : M A) (k : A -> M B) :
  preserves P m -> (forall a, preserves P (k a)) -> preserves P (bind m k).
Proof. intros Hm Hk. eapply triple_bind; [exact Hm|exact Hk]. Qed.

Lemma preserves_ret {A} P (a : A) : preserves P (ret a).
Proof. intros s HP. done. Qed.

Lemma preserves_get P : preserves P get.
Proof. intros s HP. done. Qed.

Lemma preserves_throw {A} P e : preserves P (@throw _ _ A e).
Proof. intros s HP. done. Qed.

Lemma preserves_diverge {A} P : preserves P (@diverge _ _ A).
Proof. intros s HP. done. Qed.

Lemma preserves_deref {A} P what (x : option A) : preserves P (deref what x).
Proof. intros s HP. destruct x; done. Qed.

Lemma preserves_when P b m : preserves P m -> preserves P (when b m).
Proof. destruct b; [done|]. intros _. apply preserves_ret. Qed.

Lemma preserves_modify P g :
  (forall s, P s -> P (g s)) -> preserves P (modify g).
Proof. intros H s HP. simpl. auto. Qed.

Lemma preserves_forUpFrom P n k body :
  (forall i, preserves P (body i)) -> preserves P (forUpFrom n k body).
Proof.
  intros Hb. revert k. induction n as [|n IH]; intros k; simpl.
  - apply preserves_ret.
  - apply preserves_bind; [apply Hb | intros _; apply IH].
Qed.

Lemma preserves_forUp P lo hi body :
  (forall i, preserves P (body i)) -> preserves P (forUp lo hi body).
Proof. apply preserves_forUpFrom. Qed.

Lemma preserves_forDownFrom P n k body :
  (forall i, preserves P (body i)) -> preserves P (forDownFrom n k body).
Proof.
  intros Hb. revert k. induction n as [|n IH]; intros k; simpl.
  - apply preserves_ret.
  - apply preserves_bind; [apply Hb | intros _; apply IH].
Qed.

Lemma preserves_forDown P hi lo body :
  (forall i, preserves P (body i)) -> preserves P (forDown hi lo body).
Proof. apply preserves_forDownFrom. Qed.

Lemma preserves_forEach {A} P (xs : list A) body :
  (forall x, preserves P (body x)) -> preserves P (forEach xs body).
Proof.
  intros Hb. induction xs as [|x xs IH]; simpl.
  - apply preserves_ret.
  - apply preserves_bind; [apply Hb | intros _; apply IH].
Qed.

(** ** Properties of the state that calls on collaborators keep

    A property is steady when it looks at [objArray] and at the log only,
    and holds on to a log that grows. *)

Section Steady.

Context (P : EngineView -> Prop) (HP : steady P).

Lemma preserves_keeping {A} (m : M A) :
  (forall s, objArray (m s).2 = objArray s /\ log (m s).2 = log s) ->
  preserves P m.
Proof.
  intros H s Hs. destruct (H s) as [H1 H2].
  destruct (m s) as [[a|e|] s1]; simpl in *; eapply HP; eauto.
Qed.

Lemma preserves_emit e : preserves P (emit e).
Proof. apply preserves_modify. intros s. apply HP. Qed.

Lemma preserves_updateObj obj g : preserves P (updateObj obj g).
Proof. apply preserves_modify. intros s. apply HP; done. Qed.

Lemma preserves_readObj obj : preserves P (readObj obj).
Proof. apply preserves_keeping. done. Qed.

Lemma preserves_thePathFinding : preserves P thePathFinding.
Proof.
  apply preserves_keeping. intros s. unfold thePathFinding, bind, get, deref.
  destruct (pathFinding s); done.
Qed.

Lemma preserves_theMoveEngine : preserves P theMoveEngine.
Proof.
  apply preserves_keeping. intros s. unfold theMoveEngine, bind, get.
  destruct (moveEngine s); done.
Qed.

Lemma preserves_theConfig : preserves P theConfig.
Proof.
  apply preserves_keeping. intros s. unfold theConfig, bind, get, deref.
  destruct (config s); done.
Qed.

Lemma preserves_setDynamicCell c r w :
  preserves P (pathFinding_setDynamicCell c r w).
Proof.
  apply preserves_bind; [apply preserves_thePathFinding|].
  intros _. apply preserves_emit.
Qed.

Lemma preserves_setCell c r w : preserves P (pathFinding_setCell c r w).
Proof.
  apply preserves_bind; [apply preserves_thePathFinding|].
  intros _. apply preserves_emit.
Qed.

Lemma preserves_objCell pos : preserves P (objCell pos).
Proof.
  apply preserves_keeping. intros s. unfold objCell, bind, get, deref.
  simpl. destruct (objArray s) as [rows|] eqn:E; simpl; [|done].
  destruct (rows !! pos_r pos); done.
Qed.

Lemma preserves_tileCell r c : preserves P (tileCell r c).
Proof.
  apply preserves_keeping. intros s. unfold tileCell, bind, get, deref.
  simpl. destruct (tileArray s) as [rows|] eqn:E; simpl; [|done].
  destruct (rows !! r); done.
Qed.

Lemma preserves_setTileCell r c v : preserves P (setTileCell r c v).
Proof.
  apply preserves_keeping. intros s. unfold setTileCell, bind, get, deref.
  simpl. destruct (tileArray s) as [rows|] eqn:E; simpl; [|done].
  destruct (rows !! r); done.
Qed.

End Steady.

(** ** No reference twice in a cell *)

Lemma noDuplicates_steady : steady noDuplicates.
Proof.
  split.
  - intros s s' E _ H pos a. unfold cellAt, rowAt. rewrite E. apply H.
  - intros e s H. exact H.
Qed.

Lemma triple_objCell (P : EngineView -> Prop) pos :
  triple P (objCell pos)
    (fun v s => P s /\ cellAt s pos = v /\ is_Some (rowAt s (pos_r pos))) P.
Proof.
  intros s Hs. unfold objCell, bind, get, deref, cellAt, rowAt. simpl.
  destruct (objArray s) as [rows|] eqn:Ha; simpl; [|done].
  destruct (rows !! pos_r pos) eqn:E; simpl; [|done].
  rewrite Ha, E. eauto.
Qed.

Lemma triple_setObjCell_noDuplicates pos v :
  (forall l, v = Some l -> NoDup l) ->
  triple noDuplicates (setObjCell pos v) (fun _ => noDuplicates) noDuplicates.
Proof.
  intros Hv s Hs. unfold setObjCell, bind, get, deref. simpl.
  destruct (objArray s) as [rows|] eqn:Ha; simpl; [|done].
  destruct (rows !! pos_r pos) as [row|] eqn:Hr; simpl; [|done].
  destruct (cellAt_insert_row s rows row pos v Ha Hr) as (C1 & C2 & _).
  intros p a Hp. destruct (decide (p = pos)) as [->|Hne].
  - rewrite C1 in Hp. auto.
  - rewrite C2 in Hp by done. eapply Hs; eauto.
Qed.

Lemma withoutFirst_sublist {A} `{EqDecision A} (x : A) (l : list A) :
  withoutFirst x l `sublist_of` l.
Proof.
  induction l as [|y l IH]; simpl; [done|].
  destruct (decide (y = x)).
  - by apply sublist_cons.
  - by apply sublist_skip.
Qed.

Lemma preserves_scanRemaining (P : EngineView -> Prop) pos a :
  steady P -> preserves P (scanRemaining pos a).
Proof.
  intros HP. induction a as [|x a IH]; simpl.
  - apply preserves_ret.
  - apply preserves_bind; [by apply preserves_readObj|]. intros o.
    destruct (negb (ObjectView.isMovableTo o)).
    + by apply preserves_setDynamicCell.
    + destruct a; [by apply preserves_setDynamicCell | apply IH].
Qed.

Lemma addObjRefToSingleLocation_noDuplicates obj pos :
  preserves noDuplicates (addObjRefToSingleLocation obj pos).
Proof.
  pose proof noDuplicates_steady as HP.
  unfold addObjRefToSingleLocation.
  apply preserves_bind; [by apply preserves_objCell|]. intros cell0.
  apply preserves_bind.
  { apply preserves_when, triple_setObjCell_noDuplicates.
    intros l [= <-]. apply NoDup_nil_2. }
  intros _.
  eapply triple_bind; [apply triple_objCell|]. intros cell.
  eapply triple_bind.
  { eapply triple_weaken; [| | |apply (triple_deref
      (fun s => noDuplicates s /\ cellAt s pos = cell))].
    - intros s (H1 & H2 & _). done.
    - intros a s H. exact H.
    - intros s [H _]. exact H. }
  intros a. simpl.
  eapply triple_bind with (Q := fun _ => noDuplicates).
  { intros s (-> & Hnd & Hc).
    destruct (indexOf obj a <? 0) eqn:E; simpl; [|done].
    apply Z.ltb_lt, indexOf_absent in E.
    apply (triple_setObjCell_noDuplicates pos (Some (a ++ [obj]))); [|done].
    intros l [= <-]. apply NoDup_app. split; [eauto|]. split.
    - intros x Hx Hx'. apply list_elem_of_singleton in Hx'. congruence.
    - apply NoDup_singleton. }
  intros _.
  apply preserves_bind; [by apply preserves_readObj|]. intros o.
  apply preserves_when. by apply preserves_setDynamicCell.
Qed.

Lemma removeObjRefFromSingleLocation_noDuplicates obj pos :
  preserves noDuplicates (removeObjRefFromSingleLocation obj pos).
Proof.
  pose proof noDuplicates_steady as HP.
  unfold removeObjRefFromSingleLocation.
  eapply triple_bind; [apply triple_objCell|]. intros [a0|]; simpl.
  - eapply triple_bind with (Q := fun _ => noDuplicates).
    { intros s (Hnd & Hc & _).
      pose proof (splice1_indexOf obj a0) as Hsp.
      destruct (-1 <? indexOf obj a0) eqn:E; simpl; [|done].
      apply (triple_setObjCell_noDuplicates pos (Some _)); [|done].
      intros l [= <-]. rewrite Hsp.
      eapply sublist_NoDup; [|apply withoutFirst_sublist]. eauto. }
    intros _.
    apply preserves_bind; [by apply preserves_objCell|]. intros cell.
    apply preserves_bind; [apply preserves_deref|]. intros a.
    destruct (bool_decide (length a = 0%nat)).
    + apply preserves_bind; [by apply preserves_setDynamicCell|]. intros _.
      apply triple_setObjCell_noDuplicates. done.
    + by apply preserves_scanRemaining.
  - eapply triple_weaken; [| | |apply preserves_ret].
    + intros s (H & _). exact H.
    + done.
    + done.
Qed.

Lemma removeAllObjectRefsFromLocation_noDuplicates pos :
  preserves noDuplicates (removeAllObjectRefsFromLocation pos).
Proof.
  pose proof noDuplicates_steady as HP.
  unfold removeAllObjectRefsFromLocation.
  apply preserves_bind; [by apply preserves_objCell|]. intros [a|].
  - apply preserves_bind; [by apply preserves_setDynamicCell|]. intros _.
    apply triple_setObjCell_noDuplicates. done.
  - apply preserves_ret.
Qed.

Lemma preserves_overFootprint P obj pos body :
  steady P -> (forall p, preserves P (body p)) ->
  preserves P (overFootprint obj pos body).
Proof.
  intros HP Hb. unfold overFootprint.
  apply preserves_bind; [by apply preserves_readObj|]. intros o.
  apply preserves_forUp. intros k. apply preserves_forDown. intros m.
  apply Hb.
Qed.

Lemma arrangeObjLocation_noDuplicates obj pos :
  preserves noDuplicates (arrangeObjLocation obj pos).
Proof.
  pose proof noDuplicates_steady as HP.
  unfold arrangeObjLocation, removeObjRefFromLocation, addObjRefToLocation.
  apply preserves_bind; [by apply preserves_readObj|]. intros o.
  apply preserves_bind.
  { apply preserves_overFootprint; [done|].
    intros p. apply removeObjRefFromSingleLocation_noDuplicates. }
  intros _. apply preserves_bind.
  { apply preserves_overFootprint; [done|].
    intros p. apply addObjRefToSingleLocation_noDuplicates. }
  intros _. by apply preserves_updateObj.
Qed.

(** ** What the movement methods keep

    The movement methods reach [objArray] only through
    [arrangeObjLocation], so they keep every property of [objArray] that
    [arrangeObjLocation] keeps. *)

Ltac keep_step :=
  lazymatch goal with
  | |- preserves _ (ret _) => apply preserves_ret
  | |- preserves _ get => apply preserves_get
  | |- preserves _ (throw _) => apply preserves_throw
  | |- preserves _ diverge => apply preserves_diverge
  | |- preserves _ (deref _ _) => apply preserves_deref
  | |- preserves _ (emit _) => apply preserves_emit; assumption
  | |- preserves _ (updateObj _ _) => apply preserves_updateObj; assumption
  | |- preserves _ (readObj _) => apply preserves_readObj; assumption
  | |- preserves _ thePathFinding =>
      apply preserves_thePathFinding; assumption
  | |- preserves _ theMoveEngine => apply preserves_theMoveEngine; assumption
  | |- preserves _ theConfig => apply preserves_theConfig; assumption
  | |- preserves _ (objCell _) => apply preserves_objCell; assumption
  | |- preserves _ (tileCell _ _) => apply preserves_tileCell; assumption
  | |- preserves _ (setTileCell _ _ _) =>
      apply preserves_setTileCell; assumption
  | |- preserves _ (pathFinding_setDynamicCell _ _ _) =>
      apply preserves_setDynamicCell; assumption
  | |- preserves _ (pathFinding_setCell _ _ _) =>
      apply preserves_setCell; assumption
  | |- preserves _ (when _ _) => apply preserves_when
  | |- preserves _ (forUp _ _ _) => apply preserves_forUp; intros ?
  | |- preserves _ (forDown _ _ _) => apply preserves_forDown; intros ?
  | |- preserves _ (forEach _ _) => apply preserves_forEach; intros ?
  | |- preserves _ (bind _ _) => apply preserves_bind; [|intros ?]
  | |- preserves _ (match ?x with _ => _ end) => destruct x
  end.

Ltac keep := repeat keep_step.

Section Keeping.

Context (P : EngineView -> Prop) (HP : steady P).
Context (Harrange : forall obj pos, preserves P (arrangeObjLocation obj pos)).

Lemma preserves_modify_other g :
  (forall s, objArray (g s) = objArray s /\ log (g s) = log s) ->
  preserves P (modify g).
Proof.
  intros H. apply preserves_modify. intros s. destruct (H s).
  by apply HP.
Qed.

Lemma preserves_isCellFilled c r :
  preserves P (pathFinding_isCellFilled X c r).
Proof. unfold pathFinding_isCellFilled. keep. Qed.

Lemma preserves_solve a1 a2 a3 a4 :
  preserves P (pathFinding_solve X a1 a2 a3 a4).
Proof. unfold pathFinding_solve. keep. Qed.

Lemma preserves_getAdjacentOpenCells c r cs rs :
  preserves P (pathFinding_getAdjacentOpenCells X c r cs rs).
Proof. unfold pathFinding_getAdjacentOpenCells. keep. Qed.

Lemma preserves_getPath from to : preserves P (getPath X from to).
Proof. unfold getPath. keep. apply preserves_solve. Qed.

Lemma preserves_removeMovable obj : preserves P (moveEngine_removeMovable obj).
Proof. unfold moveEngine_removeMovable. keep. Qed.

Lemma preserves_addMovable obj : preserves P (moveEngine_addMovable obj).
Proof. unfold moveEngine_addMovable. keep. Qed.

Lemma preserves_prepareForMove obj path speed :
  preserves P (moveEngine_prepareForMove X obj path speed).
Proof. unfold moveEngine_prepareForMove. keep. Qed.

Lemma preserves_setMoveParameters obj pos :
  preserves P (moveEngine_setMoveParameters X obj pos).
Proof. unfold moveEngine_setMoveParameters. keep. Qed.

Lemma preserves_arrangeObjTransperancies obj prevPos pos :
  preserves P (arrangeObjTransperancies obj prevPos pos).
Proof. unfold arrangeObjTransperancies, changeObjAlphasInLocation. keep. Qed.

Lemma preserves_arrangeDepthsFromLocation pos :
  preserves P (arrangeDepthsFromLocation pos).
Proof. unfold arrangeDepthsFromLocation. keep. Qed.

Lemma preserves_arrangePathHighlight cp np :
  preserves P (arrangePathHighlight cp np).
Proof. unfold arrangePathHighlight, setHighlighted. keep. Qed.

Lemma preserves_f obj : preserves P (f obj).
Proof. unfold f. keep. apply preserves_removeMovable. Qed.

Lemma preserves_stopObject obj : preserves P (stopObject obj).
Proof. unfold stopObject. keep. Qed.

Lemma preserves_checkAndMove_body move obj pos speed :
  (forall o p sp, preserves P (move o p sp)) ->
  preserves P (checkAndMoveObjectToLocation_body X move obj pos speed).
Proof.
  intros Hm. unfold checkAndMoveObjectToLocation_body.
  keep; try apply preserves_getPath. apply Hm.
Qed.

Lemma preserves_stepBegin_body check obj pos :
  (forall o p sp, preserves P (check o p sp)) ->
  preserves P (onObjMoveStepBegin_body X check obj pos).
Proof.
  intros Hc. unfold onObjMoveStepBegin_body.
  keep; first [ apply preserves_isCellFilled
              | apply preserves_setMoveParameters
              | apply preserves_addMovable
              | apply preserves_removeMovable
              | apply Hc ].
Qed.

Lemma preserves_moveObjThrough_body begin obj path speed :
  (forall o p, preserves P (begin o p)) ->
  preserves P (moveObjThrough_body X begin obj path speed).
Proof.
  intros Hb. unfold moveObjThrough_body.
  keep; first [ apply preserves_arrangeObjTransperancies
              | apply Harrange
              | apply preserves_arrangeDepthsFromLocation
              | apply preserves_arrangePathHighlight
              | apply preserves_stopObject
              | apply preserves_prepareForMove
              | apply Hb ].
Qed.

Lemma preserves_moveObjThrough fuel obj path speed :
  preserves P (moveObjThrough X fuel obj path speed).
Proof.
  revert obj path speed. induction fuel as [|fuel IH]; intros obj path speed.
  - apply preserves_diverge.
  - simpl. apply preserves_moveObjThrough_body. intros o p.
    apply preserves_stepBegin_body. intros o' p' sp.
    apply preserves_checkAndMove_body. exact IH.
Qed.

Lemma preserves_checkAndMoveObjectToLocation fuel obj pos speed :
  preserves P (checkAndMoveObjectToLocation X fuel obj pos speed).
Proof.
  apply preserves_checkAndMove_body. intros. apply preserves_moveObjThrough.
Qed.

Lemma preserves_onObjMoveStepBegin fuel obj pos :
  preserves P (onObjMoveStepBegin X fuel obj pos).
Proof.
  apply preserves_stepBegin_body. intros.
  apply preserves_checkAndMoveObjectToLocation.
Qed.

Lemma preserves_onObjMoveStepEnd fuel obj :
  preserves P (onObjMoveStepEnd X fuel obj).
Proof.
  unfold onObjMoveStepEnd, continueAlongPath, closeStep.
  keep; first [ apply preserves_removeMovable
              | apply preserves_checkAndMoveObjectToLocation
              | apply preserves_moveObjThrough ].
Qed.

Lemma preserves_approachLoop fuel cells minLength minPath :
  preserves P (approachLoop X fuel cells minLength minPath).
Proof.
  revert minLength minPath.
  induction cells as [|cell rest IH]; intros minLength minPath; simpl.
  - apply preserves_ret.
  - keep; first [ apply IH
                | apply preserves_arrangePathHighlight
                | apply preserves_stopObject
                | apply preserves_moveObjThrough
                | apply preserves_getPath
                | apply preserves_modify_other; done ].
Qed.

Lemma preserves_moveCurrentControllableToObj fuel obj speed :
  preserves P (moveCurrentControllableToObj X fuel obj speed).
Proof.
  unfold moveCurrentControllableToObj, approachAdjacentCell.
  keep; first [ apply preserves_checkAndMoveObjectToLocation
              | apply preserves_getAdjacentOpenCells
              | apply preserves_approachLoop
              | apply preserves_moveObjThrough ].
Qed.

End Keeping.

(** ** The invariant over the life of a map *)

Lemma addObjRefToLocation_noDuplicates obj pos :
  preserves noDuplicates (addObjRefToLocation obj pos).
Proof.
  apply preserves_overFootprint; [apply noDuplicates_steady|].
  intros p. apply addObjRefToSingleLocation_noDuplicates.
Qed.

Lemma removeObjRefFromLocation_noDuplicates obj pos :
  preserves noDuplicates (removeObjRefFromLocation obj pos).
Proof.
  apply preserves_overFootprint; [apply noDuplicates_steady|].
  intros p. apply removeObjRefFromSingleLocation_noDuplicates.
Qed.

Lemma noDuplicates_no_array (s : EngineView) v :
  (forall rows, v = Some rows -> rows = ∅) ->
  noDuplicates (set_objArray v s).
Proof.
  intros Hv pos a. unfold cellAt, rowAt. simpl.
  destruct v as [rows|]; [|done]. rewrite (Hv rows eq_refl).
  rewrite lookup_empty. done.
Qed.

Lemma noDuplicates_new_row (s : EngineView) i :
  noDuplicates s ->
  noDuplicates (set_objArray (Some (<[i := ∅]> (default ∅ (objArray s)))) s).
Proof.
  intros H pos a. unfold cellAt, rowAt. simpl.
  destruct (decide (i = pos_r pos)) as [->|Hne].
  - rewrite lookup_insert_eq, lookup_empty. done.
  - rewrite lookup_insert_ne by done. intros Hc. apply (H pos a).
    unfold cellAt, rowAt. destruct (objArray s); [done|].
    simpl in Hc. rewrite lookup_empty in Hc. done.
Qed.

Lemma createMap_noDuplicates : preserves noDuplicates (createMap X).
Proof.
  pose proof noDuplicates_steady as HP.
  unfold createMap, createRows, createTiles, createTile, placeObjects,
    placeObject. keep;
    first [ apply preserves_modify_other; done
          | apply triple_setObjCell_noDuplicates; done
          | apply addObjRefToLocation_noDuplicates
          | idtac ].
  - apply preserves_modify. intros s _. apply noDuplicates_no_array.
    intros rows [= <-]. done.
  - apply preserves_modify. intros s. apply noDuplicates_new_row.
Qed.

Lemma destroy_noDuplicates : preserves noDuplicates destroy.
Proof.
  pose proof noDuplicates_steady as HP.
  unfold destroy. keep;
    first [ apply preserves_modify_other; done
          | apply triple_setObjCell_noDuplicates; done
          | idtac ].
  apply preserves_modify. intros s _. apply noDuplicates_no_array. done.
Qed.

(** [preserves], spelled out on one run. *)
Lemma preserves_run {A} (P : EngineView -> Prop) (m : M A) s :
  preserves P m -> P s -> P (m s).2.
Proof.
  intros H Hs. specialize (H s Hs). destruct (m s) as [[a|e|] s']; exact H.
Qed.

(** C10. No cell of [objArray] holds the same object twice, and every
    method that writes to [objArray] keeps it so, however the method ends:
    a reference is appended only when the object is not in the cell's list
    yet, and a removal leaves a sublist. *)
Theorem C10_no_reference_twice (s : EngineView) :
  noDuplicates s ->
  (forall obj pos,
     noDuplicates (addObjRefToSingleLocation obj pos s).2 /\
     noDuplicates (removeObjRefFromSingleLocation obj pos s).2 /\
     noDuplicates (addObjRefToLocation obj pos s).2 /\
     noDuplicates (removeObjRefFromLocation obj pos s).2 /\
     noDuplicates (arrangeObjLocation obj pos s).2) /\
  (forall pos, noDuplicates (removeAllObjectRefsFromLocation pos s).2) /\
  noDuplicates (createMap X s).2 /\
  noDuplicates (destroy s).2 /\
  (forall fuel obj path speed,
     noDuplicates (moveObjThrough X fuel obj path speed s).2) /\
  (forall fuel obj, noDuplicates (onObjMoveStepEnd X fuel obj s).2) /\
  (forall fuel obj speed,
     noDuplicates (moveCurrentControllableToObj X fuel obj speed s).2) /\
  (forall obj pos row pf,
     rowAt s (pos_r pos) = Some row -> pathFinding s = Some pf ->
     let a := default [] (cellAt s pos) in
     cellAt (addObjRefToSingleLocation obj pos s).2 pos
       = Some (if bool_decide (obj ∈ a) then a else a ++ [obj]) /\
     forall a0, cellAt s pos = Some a0 ->
       exists a1,
         default [] (cellAt (removeObjRefFromSingleLocation obj pos s).2 pos)
           = a1 /\ a1 `sublist_of` a0).
Proof.
  intros H.
  pose proof noDuplicates_steady as HP.
  pose proof arrangeObjLocation_noDuplicates as Harr.
  repeat split.
  - apply preserves_run; [apply addObjRefToSingleLocation_noDuplicates|done].
  - apply preserves_run;
      [apply removeObjRefFromSingleLocation_noDuplicates|done].
  - apply preserves_run; [apply addObjRefToLocation_noDuplicates|done].
  - apply preserves_run; [apply removeObjRefFromLocation_noDuplicates|done].
  - apply preserves_run; [apply arrangeObjLocation_noDuplicates|done].
  - intros pos. apply preserves_run;
      [apply removeAllObjectRefsFromLocation_noDuplicates|done].
  - apply preserves_run; [apply createMap_noDuplicates|done].
  - apply preserves_run; [apply destroy_noDuplicates|done].
  - intros. apply preserves_run; [by apply preserves_moveObjThrough|done].
  - intros. apply preserves_run; [by apply preserves_onObjMoveStepEnd|done].
  - intros. apply preserves_run;
      [by apply preserves_moveCurrentControllableToObj|done].
  - destruct (addObjRefToSingleLocation_spec s obj pos row pf)
      as (s' & -> & _ & _ & Hc & _); done.
  - intros a0 Ha0.
    assert (Hc : row !! pos_c pos = Some a0).
    { unfold cellAt in Ha0. rewrite H0 in Ha0. done. }
    destruct (removeObjRefFromSingleLocation_spec s obj pos row a0 pf)
      as (s' & -> & _ & _ & Hc' & _); try done.
    simpl. rewrite Hc'. eexists. split; [reflexivity|].
    pose proof (withoutFirst_sublist obj a0).
    destruct (withoutFirst obj a0); [apply sublist_nil_l|done].
Qed.

(** ** The footprint of an object *)

Lemma elem_of_upFrom n k x : x ∈ upFrom n k <-> k <= x < k + Z.of_nat n.
Proof.
  revert k. induction n as [|n IH]; intros k; simpl.
  - rewrite elem_of_nil. lia.
  - rewrite elem_of_cons, IH. lia.
Qed.

Lemma elem_of_downFrom n m x : x ∈ downFrom n m <-> m - Z.of_nat n < x <= m.
Proof.
  revert m. induction n as [|n IH]; intros m; simpl.
  - rewrite elem_of_nil. lia.
  - rewrite elem_of_cons, IH. lia.
Qed.

Lemma NoDup_upFrom n k : NoDup (upFrom n k).
Proof.
  revert k. induction n as [|n IH]; intros k; simpl; constructor; [|apply IH].
  rewrite elem_of_upFrom. lia.
Qed.

Lemma NoDup_downFrom n m : NoDup (downFrom n m).
Proof.
  revert m. induction n as [|n IH]; intros m; simpl; constructor; [|apply IH].
  rewrite elem_of_downFrom. lia.
Qed.

Lemma elem_of_footprint pos cs rs k m :
  mkPos k m ∈ footprint pos cs rs <->
  pos_c pos <= k < pos_c pos + cs /\ pos_r pos - rs < m <= pos_r pos.
Proof.
  unfold footprint. rewrite list_elem_of_bind. split.
  - intros (k' & Hm & Hk). apply list_elem_of_fmap in Hm as (m' & [= -> ->] & Hm).
    apply elem_of_upFrom in Hk. apply elem_of_downFrom in Hm. lia.
  - intros [Hk Hm]. exists k. split.
    + apply list_elem_of_fmap. exists m. split; [done|].
      apply elem_of_downFrom. lia.
    + apply elem_of_upFrom. lia.
Qed.

Lemma NoDup_footprint pos cs rs : NoDup (footprint pos cs rs).
Proof.
  unfold footprint. apply NoDup_bind.
  - intros k1 k2 p _ _ H1 H2.
    apply list_elem_of_fmap in H1 as (m1 & -> & _).
    apply list_elem_of_fmap in H2 as (m2 & [= -> _] & _). done.
  - intros k _. apply NoDup_fmap_2_strong; [|apply NoDup_downFrom].
    intros m1 m2 _ _ [= ->]. done.
  - apply NoDup_upFrom.
Qed.

Lemma forEach_app {A} (xs ys : list A) (body : A -> M unit) s :
  forEach (xs ++ ys) body s
  = bind (forEach xs body) (fun _ => forEach ys body) s.
Proof.
  revert s. induction xs as [|x xs IH]; intros s; simpl.
  - unfold bind, ret. reflexivity.
  - rewrite bind_assoc. apply bind_congr. intros _ s'. apply IH.
Qed.

Lemma forUpFrom_forEach n k (body : Z -> M unit) s :
  forUpFrom n k body s = forEach (upFrom n k) body s.
Proof.
  revert k s. induction n as [|n IH]; intros k s; simpl; [done|].
  apply bind_congr. intros _ s'. apply IH.
Qed.

Lemma forDownFrom_forEach {A} n m (g : Z -> A) (body : A -> M unit) s :
  forDownFrom n m (fun i => body (g i)) s
  = forEach (g <$> downFrom n m) body s.
Proof.
  revert m s. induction n as [|n IH]; intros m s; simpl; [done|].
  apply bind_congr. intros _ s'. apply IH.
Qed.

Lemma forEach_bind_list {A B} (xs : list A) (g : A -> list B)
    (body : B -> M unit) s :
  forEach xs (fun x => forEach (g x) body) s = forEach (xs ≫= g) body s.
Proof.
  revert s. induction xs as [|x xs IH]; intros s; simpl; [done|].
  rewrite forEach_app. apply bind_congr. intros _ s'. apply IH.
Qed.

Lemma forEach_ext {A} (xs : list A) (b1 b2 : A -> M unit) s :
  (forall x s, b1 x s = b2 x s) -> forEach xs b1 s = forEach xs b2 s.
Proof.
  intros H. revert s. induction xs as [|x xs IH]; intros s; simpl; [done|].
  unfold bind. rewrite H. destruct (b2 x s) as [[[]|e|] s1]; try reflexivity.
  apply IH.
Qed.

Lemma overFootprint_forEach obj pos (body : Pos -> M unit) (s : EngineView) :
  overFootprint obj pos body s
  = forEach (footprint pos (ObjectView.columnSpan (objects s obj))
               (ObjectView.rowSpan (objects s obj))) body s.
Proof.
  unfold overFootprint, bind at 1, readObj, bind at 1, get, ret.
  unfold forUp, forDown, footprint. rewrite forUpFrom_forEach.
  rewrite <- forEach_bind_list.
  replace (pos_c pos + ObjectView.columnSpan (objects s obj) - pos_c pos)
    with (ObjectView.columnSpan (objects s obj)) by lia.
  replace (pos_r pos - (pos_r pos - ObjectView.rowSpan (objects s obj)))
    with (ObjectView.rowSpan (objects s obj)) by lia.
  apply forEach_ext. intros k s'.
  apply (forDownFrom_forEach _ _ (mkPos k)).
Qed.

(** A single-cell operation that rewrites its cell by [g], run over
    distinct cells whose rows exist. *)
Lemma forEach_cells (op : Pos -> M unit)
    (g : option (list nat) -> option (list nat)) (ps : list Pos) :
  (forall (s : EngineView) p,
     is_Some (rowAt s (pos_r p)) -> is_Some (pathFinding s) ->
     exists s', op p s = (Val tt, s') /\ sameButRefs s s' /\
                cellSetTo s s' p (g (cellAt s p))) ->
  NoDup ps ->
  forall s : EngineView,
    (forall p, p ∈ ps -> is_Some (rowAt s (pos_r p))) ->
    is_Some (pathFinding s) ->
    exists s', forEach ps op s = (Val tt, s') /\ sameButRefs s s' /\
      (forall p, p ∈ ps -> cellAt s' p = g (cellAt s p)) /\
      (forall p, p ∉ ps -> cellAt s' p = cellAt s p) /\
      (forall r, is_Some (rowAt s' r) <-> is_Some (rowAt s r)).
Proof.
  intros Hop Hnd. induction Hnd as [|p ps Hp Hnd IH]; intros s Hrows Hpf.
  - exists s. simpl. split; [done|]. split; [apply sameButRefs_refl|].
    split; [|done]. intros p Hp. apply elem_of_nil in Hp. done.
  - destruct (Hop s p) as (s1 & Hrun & F1 & C1 & C2 & C3); [|done|].
    { apply Hrows. left. }
    destruct (IH s1) as (s2 & Hrun2 & F2 & D1 & D2 & D3).
    { intros q Hq. apply C3, Hrows. by right. }
    { destruct F1 as (_ & _ & _ & _ & _ & -> & _). done. }
    exists s2. simpl. erewrite bind_val by exact Hrun.
    split; [done|]. split; [eapply sameButRefs_trans; eauto|].
    split; [|split].
    + intros q Hq. apply elem_of_cons in Hq as [->|Hq].
      * rewrite D2 by done. done.
      * rewrite D1 by done. rewrite C2; [done|]. intros ->. done.
    + intros q Hq. apply not_elem_of_cons in Hq as [Hne Hq].
      rewrite D2 by done. apply C2. done.
    + intros r. rewrite D3, C3. done.
Qed.

Lemma addObjRefToSingleLocation_cell obj (s : EngineView) p :
  is_Some (rowAt s (pos_r p)) -> is_Some (pathFinding s) ->
  exists s', addObjRefToSingleLocation obj p s = (Val tt, s') /\
             sameButRefs s s' /\ cellSetTo s s' p (addedTo obj (cellAt s p)).
Proof.
  intros [row Hrow] [pf Hpf].
  destruct (addObjRefToSingleLocation_spec s obj p row pf Hrow Hpf)
    as (s' & H1 & _ & H2 & H3).
  exists s'. done.
Qed.

Lemma removeObjRefFromSingleLocation_cell obj (s : EngineView) p :
  is_Some (rowAt s (pos_r p)) -> is_Some (pathFinding s) ->
  exists s', removeObjRefFromSingleLocation obj p s = (Val tt, s') /\
             sameButRefs s s' /\ cellSetTo s s' p (removedFrom obj (cellAt s p)).
Proof.
  intros [row Hrow] [pf Hpf].
  destruct (row !! pos_c p) as [a0|] eqn:Hc.
  - destruct (removeObjRefFromSingleLocation_spec s obj p row a0 pf Hrow Hc Hpf)
      as (s' & H1 & _ & H2 & H3).
    exists s'. split; [done|]. split; [done|].
    unfold removedFrom, cellAt. rewrite Hrow, Hc. simpl.
    destruct (withoutFirst obj a0); done.
  - exists s. split; [by eapply removeObjRefFromSingleLocation_empty|].
    split; [apply sameButRefs_refl|].
    replace (removedFrom obj (cellAt s p)) with (cellAt s p).
    + apply cellSetTo_same.
    + unfold removedFrom, cellAt. rewrite Hrow, Hc. done.
Qed.

(** C6. [addObjRefToLocation] and [removeObjRefFromLocation] run their
    single-cell method over the cells of the footprint: the columns from
    [pos.c] up to [pos.c + columnSpan] (excluded) with the rows from [pos.r]
    down to [pos.r - rowSpan] (excluded), each cell once.  When the rows of
    the footprint exist, every cell of the footprint is rewritten once and no
    other cell changes. *)
Theorem C6_footprint_cells (s : EngineView) obj pos :
  let o := objects s obj in
  let cells := footprint pos (ObjectView.columnSpan o) (ObjectView.rowSpan o) in
  (forall k m,
     mkPos k m ∈ cells <->
     pos_c pos <= k < pos_c pos + ObjectView.columnSpan o /\
     pos_r pos - ObjectView.rowSpan o < m <= pos_r pos) /\
  NoDup cells /\
  addObjRefToLocation obj pos s
    = forEach cells (addObjRefToSingleLocation obj) s /\
  removeObjRefFromLocation obj pos s
    = forEach cells (removeObjRefFromSingleLocation obj) s /\
  ((forall p, p ∈ cells -> is_Some (rowAt s (pos_r p))) ->
   is_Some (pathFinding s) ->
   (exists s',
      addObjRefToLocation obj pos s = (Val tt, s') /\
      (forall p, p ∈ cells -> cellAt s' p = addedTo obj (cellAt s p)) /\
      (forall p, p ∉ cells -> cellAt s' p = cellAt s p)) /\
   (exists s',
      removeObjRefFromLocation obj pos s = (Val tt, s') /\
      (forall p, p ∈ cells -> cellAt s' p = removedFrom obj (cellAt s p)) /\
      (forall p, p ∉ cells -> cellAt s' p = cellAt s p))).
Proof.
  intros o cells. split; [|split; [|split; [|split]]].
  - intros k m. apply elem_of_footprint.
  - apply NoDup_footprint.
  - apply overFootprint_forEach.
  - apply overFootprint_forEach.
  - intros Hrows Hpf. split.
    + destruct (forEach_cells (addObjRefToSingleLocation obj) (addedTo obj) cells
                  (addObjRefToSingleLocation_cell obj)
                  (NoDup_footprint _ _ _) s Hrows Hpf)
        as (s' & Hrun & _ & H1 & H2 & _).
      exists s'. unfold addObjRefToLocation.
      rewrite overFootprint_forEach. done.
    + destruct (forEach_cells (removeObjRefFromSingleLocation obj)
                  (removedFrom obj) cells
                  (removeObjRefFromSingleLocation_cell obj)
                  (NoDup_footprint _ _ _) s Hrows Hpf)
        as (s' & Hrun & _ & H1 & H2 & _).
      exists s'. unfold removeObjRefFromLocation.
      rewrite overFootprint_forEach. done.
Qed.

(** ** Asking for a path *)

(** C2 (amended). [getPath] hands the request to the pathfinder's [solve]
    with the column before the row, for the source and then for the target,
    and answers what [solve] answers. *)
Theorem C2_getPath_delegates_column_first (s : EngineView) from to pf :
  pathFinding s = Some pf ->
  getPath X from to s
  = (Val (solve_answer X (log s) (pos_c from) (pos_r from)
            (pos_c to) (pos_r to)),
     set_log (log s ++ [PF_solve (pos_c from) (pos_r from)
                          (pos_c to) (pos_r to)]) s).
Proof.
  intros Hpf. unfold getPath, bind, get. simpl. rewrite Hpf.
  unfold pathFinding_solve, thePathFinding, bind, get, deref, emit, modify, ret.
  simpl. rewrite Hpf. reflexivity.
Qed.

(** ** After [destroy] *)

Lemma destroy_clears_pathFinding (s s' : EngineView) :
  destroy s = (Val tt, s') -> pathFinding s' = None.
Proof.
  unfold destroy. intros H.
  repeat (apply bind_inv in H as (? & ? & ? & H)).
  unfold modify, get, deref in *.
  repeat match goal with
         | E : forUp _ _ _ _ = _ |- _ => clear E
         | E : thePathFinding _ = _ |- _ => clear E
         | E : theMoveEngine _ = _ |- _ => clear E
         | E : emit _ _ = _ |- _ => clear E
         | E : match ?x with _ => _ end _ = (Val _, _) |- _ =>
             destruct x; [|discriminate]
         | E : ret _ _ = (Val _, _) |- _ => injection E as ? ?; subst
         | E : (_, _) = (Val _, _) |- _ => injection E as ? ?; subst
         end.
  injection H as <-. reflexivity.
Qed.

(** C9. Once [destroy] has run, [getPath] throws the error "Path finding
    hasn't been initialized yet!" whatever the locations are; it does not
    answer with a missing path. *)
Theorem C9_getPath_after_destroy (s s' : EngineView) from to :
  destroy s = (Val tt, s') ->
  getPath X from to s'
  = (Throw (Error "Path finding hasn't been initialized yet!"), s').
Proof.
  intros H. apply destroy_clears_pathFinding in H.
  unfold getPath, bind, get. simpl. rewrite H. reflexivity.
Qed.

(** ** Building the map: the static layer *)

Lemma grewWithoutSetCell_start (s : EngineView) :
  grewWithoutSetCell (log s) s.
Proof. exists []. rewrite app_nil_r. done. Qed.

Lemma grewWithoutSetCell_same l0 (s s' : EngineView) :
  log s' = log s -> grewWithoutSetCell l0 s -> grewWithoutSetCell l0 s'.
Proof. intros E (evs & H1 & H2). exists evs. rewrite E. done. Qed.

Lemma grewWithoutSetCell_emit l0 e :
  ~ isSetCell e -> preserves (grewWithoutSetCell l0) (emit e).
Proof.
  intros He. apply preserves_modify. intros s (evs & H1 & H2).
  exists (evs ++ [e]). simpl. rewrite H1, app_assoc. split; [done|].
  apply Forall_app. split; [done|]. by apply Forall_singleton.
Qed.

Lemma preserves_quiet {A} l0 (m : M A) :
  (forall s, log (m s).2 = log s) -> preserves (grewWithoutSetCell l0) m.
Proof.
  intros H s Hs. specialize (H s).
  destruct (m s) as [[a|e|] s1]; simpl in *;
    eapply grewWithoutSetCell_same; eauto.
Qed.

Lemma objCell_quiet pos (s : EngineView) : log (objCell pos s).2 = log s.
Proof.
  unfold objCell, bind, get, deref. simpl.
  destruct (objArray s) as [rows|]; simpl; [|done].
  destruct (rows !! pos_r pos); done.
Qed.

Lemma setObjCell_quiet pos v (s : EngineView) :
  log (setObjCell pos v s).2 = log s.
Proof.
  unfold setObjCell, bind, get, deref. simpl.
  destruct (objArray s) as [rows|]; simpl; [|done].
  destruct (rows !! pos_r pos); done.
Qed.

Lemma thePathFinding_quiet (s : EngineView) : log (thePathFinding s).2 = log s.
Proof.
  unfold thePathFinding, bind, get, deref. simpl.
  destruct (pathFinding s); done.
Qed.

Lemma setDynamicCell_grewWithoutSetCell l0 c r w :
  preserves (grewWithoutSetCell l0) (pathFinding_setDynamicCell c r w).
Proof.
  apply preserves_bind; [apply preserves_quiet, thePathFinding_quiet|].
  intros _. apply grewWithoutSetCell_emit. intros (? & ? & ? & [=]).
Qed.

Lemma addObjRefToLocation_grewWithoutSetCell l0 obj pos :
  preserves (grewWithoutSetCell l0) (addObjRefToLocation obj pos).
Proof.
  unfold addObjRefToLocation, overFootprint, addObjRefToSingleLocation.
  apply preserves_bind; [by apply preserves_quiet|]. intros o.
  apply preserves_forUp. intros k. apply preserves_forDown. intros m.
  apply preserves_bind; [apply preserves_quiet, objCell_quiet|]. intros.
  apply preserves_bind.
  { apply preserves_when, preserves_quiet, setObjCell_quiet. }
  intros. apply preserves_bind; [apply preserves_quiet, objCell_quiet|].
  intros. apply preserves_bind; [apply preserves_deref|]. intros.
  apply preserves_bind.
  { apply preserves_when, preserves_quiet, setObjCell_quiet. }
  intros. apply preserves_bind; [by apply preserves_quiet|]. intros.
  apply preserves_when, setDynamicCell_grewWithoutSetCell.
Qed.

Lemma placeObjects_grewWithoutSetCell l0 objs icl rows cols :
  preserves (grewWithoutSetCell l0) (placeObjects X objs icl rows cols).
Proof.
  unfold placeObjects, placeObject.
  apply preserves_forUp. intros i. apply preserves_forDown. intros j.
  apply preserves_bind; [apply preserves_quiet, setObjCell_quiet|]. intros.
  apply preserves_bind; [apply preserves_deref|]. intros objRow.
  destruct (entry objRow j); [|apply preserves_ret].
  apply preserves_bind; [apply preserves_get|]. intros s.
  apply preserves_bind; [by apply preserves_quiet|]. intros.
  apply preserves_bind; [by apply preserves_quiet|]. intros.
  apply preserves_bind; [apply addObjRefToLocation_grewWithoutSetCell|].
  intros. apply preserves_when. by apply preserves_quiet.
Qed.

Lemma elem_of_cellsInOrder rows cols p :
  p ∈ cellsInOrder rows cols <->
  0 <= pos_r p < rows /\ 0 <= pos_c p < cols.
Proof.
  unfold cellsInOrder. rewrite list_elem_of_bind. split.
  - intros (i & Hj & Hi). apply list_elem_of_fmap in Hj as (j & -> & Hj).
    apply elem_of_upFrom in Hi. apply elem_of_downFrom in Hj. simpl. lia.
  - intros [Hi Hj]. exists (pos_r p). split.
    + apply list_elem_of_fmap. exists (pos_c p). split; [by destruct p|].
      apply elem_of_downFrom. lia.
    + apply elem_of_upFrom. lia.
Qed.

Lemma NoDup_cellsInOrder rows cols : NoDup (cellsInOrder rows cols).
Proof.
  unfold cellsInOrder. apply NoDup_bind.
  - intros i1 i2 p _ _ H1 H2.
    apply list_elem_of_fmap in H1 as (j1 & -> & _).
    apply list_elem_of_fmap in H2 as (j2 & [= _ ->] & _). done.
  - intros i _. apply NoDup_fmap_2_strong; [|apply NoDup_downFrom].
    intros j1 j2 _ _ [= ->]. done.
  - apply NoDup_upFrom.
Qed.

Lemma forEach_emits {A} (body : A -> M unit) (ev : A -> list Event)
    (Inv : EngineView -> Prop) (xs : list A) :
  (forall x s, x ∈ xs -> Inv s ->
     exists s', body x s = (Val tt, s') /\ Inv s' /\ log s' = log s ++ ev x) ->
  forall s, Inv s ->
    exists s', forEach xs body s = (Val tt, s') /\ Inv s' /\
               log s' = log s ++ (xs ≫= ev).
Proof.
  induction xs as [|x xs IH]; intros Hb s Hs; simpl.
  - exists s. rewrite app_nil_r. done.
  - destruct (Hb x s) as (s1 & H1 & I1 & L1); [left|done|].
    destruct (IH (fun y t Hy => Hb y t (list_elem_of_further _ _ _ Hy)) s1 I1)
      as (s2 & H2 & I2 & L2).
    exists s2. erewrite bind_val by exact H1. split; [done|]. split; [done|].
    rewrite L2, L1, <- app_assoc. done.
Qed.

Lemma rowLoops_forEach (body : Z -> Z -> M unit) rows cols (s : EngineView) :
  forUp 0 rows (fun i => forDown (cols - 1) (-1) (fun j => body i j)) s
  = forEach (cellsInOrder rows cols) (fun p => body (pos_r p) (pos_c p)) s.
Proof.
  unfold forUp, forDown, cellsInOrder. rewrite forUpFrom_forEach.
  rewrite <- forEach_bind_list.
  replace (rows - 0) with rows by lia.
  replace (cols - 1 - -1) with cols by lia.
  apply forEach_ext. intros i s'.
  apply (forDownFrom_forEach _ _ (fun j => mkPos j i)
           (fun p => body (pos_r p) (pos_c p))).
Qed.

Lemma setTileCell_run (s : EngineView) r c v t row :
  tileArray s = Some t -> t !! r = Some row ->
  setTileCell r c v s
  = (Val tt,
     set_tileArray
       (Some (<[r := match v with
                      | Some x => <[c := x]> row
                      | None => delete c row
                      end]> t)) s).
Proof.
  intros Ht Hr. unfold setTileCell, bind, get, deref, modify. simpl.
  rewrite Ht. simpl. rewrite Hr. reflexivity.
Qed.

Lemma readyForTiles_setTile rows (s : EngineView) r row' t :
  readyForTiles rows s -> tileArray s = Some t ->
  readyForTiles rows (set_tileArray (Some (<[r := row']> t)) s).
Proof.
  intros (Hpf & t' & Ht' & Hrows) Ht. split; [done|].
  assert (t' = t) as -> by congruence.
  eexists. split; [reflexivity|]. intros i Hi.
  destruct (decide (r = i)) as [->|Hne].
  - rewrite lookup_insert_eq. eauto.
  - rewrite lookup_insert_ne by done. auto.
Qed.

Lemma setCell_run (s : EngineView) c r w :
  is_Some (pathFinding s) ->
  pathFinding_setCell c r w s
  = (Val tt, set_log (log s ++ [PF_setCell c r w]) s).
Proof.
  intros [pf Hpf]. unfold pathFinding_setCell, thePathFinding, bind, get,
    deref, emit, modify. simpl. rewrite Hpf. reflexivity.
Qed.

Lemma createTile_run (ground : list (list (option TileData))) rows p
    (s : EngineView) :
  rows = Z.of_nat (length ground) ->
  0 <= pos_r p < rows ->
  readyForTiles rows s ->
  exists s', createTile X ground (pos_r p) (pos_c p) s = (Val tt, s') /\
             readyForTiles rows s' /\ log s' = log s ++ tileCall X ground p.
Proof.
  intros -> Hi Hready.
  pose proof Hready as (Hpf & t & Ht & Hrows).
  destruct (Hrows (pos_r p) Hi) as [row Hrow].
  unfold createTile.
  erewrite bind_val by (eapply setTileCell_run; eauto).
  set (s1 := set_tileArray _ s).
  assert (R1 : readyForTiles (Z.of_nat (length ground)) s1).
  { by apply readyForTiles_setTile. }
  unfold tileCall, closedByTile, groundAt.
  destruct (jsIndex ground (pos_r p)) as [groundRow|] eqn:Eg.
  2:{ unfold jsIndex in Eg.
      replace (pos_r p <? 0) with false in Eg
        by (symmetry; apply Z.ltb_ge; lia).
      apply lookup_ge_None in Eg. lia. }
  simpl deref. erewrite bind_val by reflexivity.
  destruct (entry groundRow (pos_c p)) as [data|] eqn:Ed.
  - pose proof R1 as (_ & t1 & Ht1 & Hrows1).
    destruct (Hrows1 (pos_r p) Hi) as [row1 Hrow1].
    erewrite bind_val by (eapply setTileCell_run; eauto).
    simpl TileView.isMovableTo.
    destruct (TileView_isMovableTo X data); simpl.
    + eexists. split; [reflexivity|]. split.
      * by apply readyForTiles_setTile.
      * simpl. by rewrite app_nil_r.
    + erewrite setCell_run by apply R1.
      eexists. split; [reflexivity|]. split; [|done].
      destruct (readyForTiles_setTile _ s1 (pos_r p)
                  (<[pos_c p := TileView.mk (mkPos (pos_c p) (pos_r p)) false]> row1)
                  t1 R1 Ht1) as (Hp & Ht'). split; done.
  - erewrite setCell_run by apply R1.
    eexists. split; [reflexivity|]. split; [|done].
    destruct R1 as (Hp & Ht'). split; done.
Qed.

Lemma createTiles_run (ground : list (list (option TileData))) rows cols
    (s : EngineView) :
  rows = Z.of_nat (length ground) ->
  readyForTiles rows s ->
  exists s', createTiles X ground rows cols s = (Val tt, s') /\
             log s' = log s ++ (cellsInOrder rows cols ≫= tileCall X ground).
Proof.
  intros Hrows Hready. unfold createTiles.
  rewrite (rowLoops_forEach (createTile X ground)).
  destruct (forEach_emits
              (fun p => createTile X ground (pos_r p) (pos_c p))
              (tileCall X ground) (readyForTiles rows)
              (cellsInOrder rows cols)) with (s := s)
    as (s' & H1 & _ & H2); [|done|eauto].
  intros p t Hp Ht. apply elem_of_cellsInOrder in Hp.
  eapply createTile_run; [done|lia|done].
Qed.

Lemma createRows_run (rows : Z) (s : EngineView) t0 :
  tileArray s = Some t0 ->
  exists s', createRows rows s = (Val tt, s') /\
    log s' = log s /\ config s' = config s /\ pathFinding s' = pathFinding s /\
    exists t, tileArray s' = Some t /\
              forall i, 0 <= i < rows -> is_Some (t !! i).
Proof.
  unfold createRows, forUp. replace (rows - 0) with rows by lia.
  assert (G : forall n k (s : EngineView) t0,
    tileArray s = Some t0 ->
    exists s', forUpFrom n k (fun i =>
        bind (modify (fun s => set_tileArray
                (Some (<[i := ∅]> (default ∅ (tileArray s)))) s))
          (fun _ => modify (fun s => set_objArray
                (Some (<[i := ∅]> (default ∅ (objArray s)))) s))) s
      = (Val tt, s') /\
      log s' = log s /\ config s' = config s /\
      pathFinding s' = pathFinding s /\
      exists t, tileArray s' = Some t /\
        (forall i, is_Some (t0 !! i) -> is_Some (t !! i)) /\
        (forall i, k <= i < k + Z.of_nat n -> is_Some (t !! i))).
  { clear. induction n as [|n IH]; intros k s t0 Ht; simpl.
    - exists s. repeat split; try done. exists t0. split; [done|].
      split; [done|]. intros i. lia.
    - unfold bind at 1, bind at 1, modify at 1 2.
      edestruct IH as (s' & H1 & H2 & H3 & H4 & t & H5 & H6 & H7);
        [|exists s'; split; [exact H1|]].
      { simpl. reflexivity. }
      simpl in *. repeat split; try done. exists t. split; [done|].
      rewrite Ht in *. simpl in *. split.
      + intros i Hi. apply H6.
        destruct (decide (k = i)) as [->|Hne].
        * rewrite lookup_insert_eq. eauto.
        * rewrite lookup_insert_ne by done. done.
      + intros i Hi. destruct (decide (i = k)) as [->|Hne].
        * apply H6. rewrite lookup_insert_eq. eauto.
        * apply H7. lia. }
  intros Ht. destruct (G (Z.to_nat rows) 0 s t0 Ht)
    as (s' & H1 & H2 & H3 & H4 & t & H5 & _ & H7).
  exists s'. repeat split; try done. exists t. split; [done|].
  intros i Hi. apply H7. lia.
Qed.

Lemma theConfig_run (s : EngineView) cfg :
  config s = Some cfg -> theConfig s = (Val cfg, s).
Proof. intros H. unfold theConfig, bind, get, deref. simpl. by rewrite H. Qed.

Lemma elem_of_tileCalls (ground : list (list (option TileData))) rows cols e :
  e ∈ cellsInOrder rows cols ≫= tileCall X ground <->
  exists c r, e = PF_setCell c r 0 /\ 0 <= r < rows /\ 0 <= c < cols /\
              closedByTile X ground r c = true.
Proof.
  rewrite list_elem_of_bind. split.
  - intros (p & He & Hp). apply elem_of_cellsInOrder in Hp.
    unfold tileCall in He.
    destruct (closedByTile X ground (pos_r p) (pos_c p)) eqn:E.
    + apply list_elem_of_singleton in He. exists (pos_c p), (pos_r p).
      repeat split; try done; lia.
    + apply elem_of_nil in He. done.
  - intros (c & r & -> & Hr & Hc & E). exists (mkPos c r). split.
    + unfold tileCall. simpl. rewrite E. apply list_elem_of_singleton. done.
    + apply elem_of_cellsInOrder. done.
Qed.

Lemma NoDup_tileCalls (ground : list (list (option TileData))) rows cols :
  NoDup (cellsInOrder rows cols ≫= tileCall X ground).
Proof.
  apply NoDup_bind; [| |apply NoDup_cellsInOrder].
  - intros p1 p2 e _ _ H1 H2. unfold tileCall in *.
    destruct (closedByTile X ground (pos_r p1) (pos_c p1));
      [|by apply elem_of_nil in H1].
    destruct (closedByTile X ground (pos_r p2) (pos_c p2));
      [|by apply elem_of_nil in H2].
    apply list_elem_of_singleton in H1, H2. subst e.
    injection H2 as ? ?. destruct p1, p2; simpl in *; congruence.
  - intros p _. unfold tileCall.
    destruct (closedByTile X _ _ _); [apply NoDup_singleton|apply NoDup_nil_2].
Qed.

(** C3. While the map is built, the static layer is written for a cell at
    row [r] and column [c] of the map exactly when the ground data has
    nothing at that place or the tile built from it cannot be moved onto;
    the value written is 0, each such cell is written once, and nothing else
    in [createMap] writes the static layer. *)
Theorem C3_static_layer_from_terrain (s : EngineView) cfg md row0 :
  config s = Some cfg ->
  mapData s = Some md ->
  head (groundMapData md) = Some row0 ->
  let ground := groundMapData md in
  let rows := Z.of_nat (length ground) in
  let cols := Z.of_nat (length row0) in
  exists pf calls rest,
    log (createMap X s).2 = log s ++ [PF_new pf] ++ calls ++ rest /\
    NoDup calls /\
    (forall e, e ∈ calls -> isSetCell e) /\
    (forall c r w,
       PF_setCell c r w ∈ calls <->
       w = 0 /\ 0 <= r < rows /\ 0 <= c < cols /\
       (groundAt ground r c = None \/
        exists data, groundAt ground r c = Some data /\
                     TileView_isMovableTo X data = false)) /\
    (forall e, e ∈ rest -> ~ isSetCell e).
Proof.
  intros Hcfg Hmd Hrow0 ground rows cols.
  unfold createMap.
  erewrite bind_val by (by apply theConfig_run).
  unfold bind at 1, get. rewrite Hmd. simpl deref.
  erewrite bind_val by reflexivity.
  rewrite Hrow0. simpl deref.
  erewrite bind_val by reflexivity.
  fold ground rows cols.
  erewrite bind_val by reflexivity.
  erewrite bind_val by reflexivity.
  erewrite bind_val by reflexivity.
  set (s1 := set_objArray _ _).
  destruct (createRows_run rows s1 ∅ eq_refl)
    as (s2 & Hrun2 & L2 & C2 & P2 & t & Ht & Hrows).
  erewrite bind_val by exact Hrun2.
  erewrite bind_val by (apply theConfig_run; rewrite C2; exact Hcfg).
  set (pf := mkPathFinding cols rows _ _).
  erewrite bind_val by reflexivity.
  erewrite bind_val by reflexivity.
  set (s3 := set_pathFinding (Some pf) _).
  assert (R3 : readyForTiles rows s3).
  { split; [by eexists|]. exists t. split; [exact Ht|exact Hrows]. }
  destruct (createTiles_run ground rows cols s3 eq_refl R3)
    as (s4 & Hrun4 & L4).
  erewrite bind_val by exact Hrun4.
  pose proof (preserves_run _ _ s4
                (placeObjects_grewWithoutSetCell (log s4)
                   (objectsMapData md) (initialControllableLocation md)
                   rows cols)
                (grewWithoutSetCell_start s4)) as (rest & Lr & Hrest).
  exists pf, (cellsInOrder rows cols ≫= tileCall X ground), rest.
  split; [|split; [|split; [|split]]].
  - rewrite Lr, L4. subst s3. simpl. rewrite L2. subst s1. simpl.
    rewrite <- !app_assoc. reflexivity.
  - apply NoDup_tileCalls.
  - intros e He. apply elem_of_tileCalls in He as (c & r & -> & _).
    by exists c, r, 0.
  - intros c r w. rewrite elem_of_tileCalls. unfold closedByTile. split.
    + intros (c' & r' & [= -> -> ->] & Hr & Hc & E).
      split; [done|]. split; [lia|]. split; [lia|].
      destruct (groundAt ground r' c') as [data|]; [right|by left].
      exists data. split; [done|]. by apply negb_true_iff.
    + intros (-> & Hr & Hc & E). exists c, r.
      split; [done|]. split; [lia|]. split; [lia|].
      destruct E as [->|(data & -> & ->)]; done.
  - intros e He. by apply (proj1 (Forall_forall _ _) Hrest).
Qed.

(** ** The log only grows *)

Lemma extends_refl (s : EngineView) : extends (log s) s.
Proof. exists []. by rewrite app_nil_r. Qed.

Lemma extends_steady l0 : steady (extends l0).
Proof.
  split.
  - intros s s' _ E (evs & H). exists evs. congruence.
  - intros e s (evs & H). exists (evs ++ [e]). simpl.
    rewrite H, app_assoc. done.
Qed.

Lemma preserves_silent {A} l0 (m : M A) :
  (forall s, log (m s).2 = log s) -> preserves (extends l0) m.
Proof.
  intros H s (evs & Hs). specialize (H s).
  destruct (m s) as [[a|e|] s1]; simpl in *; exists evs; congruence.
Qed.

Lemma arrangeObjLocation_extends l0 obj pos :
  preserves (extends l0) (arrangeObjLocation obj pos).
Proof.
  pose proof (extends_steady l0) as HP.
  assert (Hset : forall p v, preserves (extends l0) (setObjCell p v)).
  { intros. apply preserves_silent, setObjCell_quiet. }
  unfold arrangeObjLocation, removeObjRefFromLocation, addObjRefToLocation.
  apply preserves_bind; [by apply preserves_readObj|]. intros o.
  apply preserves_bind.
  { apply preserves_overFootprint; [done|]. intros p.
    unfold removeObjRefFromSingleLocation. keep; try apply Hset.
    by apply preserves_scanRemaining. }
  intros _. apply preserves_bind.
  { apply preserves_overFootprint; [done|]. intros p.
    unfold addObjRefToSingleLocation. keep; apply Hset. }
  intros _. by apply preserves_updateObj.
Qed.

Lemma moveObjThrough_extends l0 fuel obj path speed :
  preserves (extends l0) (moveObjThrough X fuel obj path speed).
Proof.
  apply preserves_moveObjThrough;
    [apply extends_steady | apply arrangeObjLocation_extends].
Qed.

(** ** Looking for a path and following it *)

Lemma getPath_run (s : EngineView) from to pf :
  pathFinding s = Some pf ->
  getPath X from to s
  = (Val (solve_answer X (log s) (pos_c from) (pos_r from)
            (pos_c to) (pos_r to)),
     set_log (log s ++ [PF_solve (pos_c from) (pos_r from)
                          (pos_c to) (pos_r to)]) s).
Proof.
  intros Hpf. unfold getPath, bind, get. simpl. rewrite Hpf.
  unfold pathFinding_solve, thePathFinding, bind, get, deref, emit, modify, ret.
  simpl. rewrite Hpf. reflexivity.
Qed.

Lemma checkAndMoveObjectToLocation_run fuel (s : EngineView) obj pos speed pf :
  pathFinding s = Some pf ->
  checkAndMoveObjectToLocation X fuel obj pos speed s
  = match pathFound X s obj pos with
    | Some p =>
        bind (moveObjThrough X fuel obj p speed)
          (fun _ => ret (JNum (Z.of_nat (length p)))) (solved s obj pos)
    | None => (Val (JBool false), solved s obj pos)
    end.
Proof.
  intros Hpf. unfold checkAndMoveObjectToLocation,
    checkAndMoveObjectToLocation_body.
  unfold bind at 1, readObj, bind at 1, get, ret.
  erewrite bind_val by (by eapply getPath_run).
  unfold pathFound, solved. destruct (solve_answer _ _ _ _ _ _); reflexivity.
Qed.

Lemma checkAndMoveObjectToLocation_log fuel (s : EngineView) obj pos speed pf :
  pathFinding s = Some pf ->
  extends (log (solved s obj pos))
    (checkAndMoveObjectToLocation X fuel obj pos speed s).2.
Proof.
  intros Hpf. erewrite checkAndMoveObjectToLocation_run by done.
  destruct (pathFound X s obj pos) as [p|]; [|apply extends_refl].
  apply preserves_run; [|apply extends_refl].
  apply preserves_bind; [apply moveObjThrough_extends|].
  intros _. apply preserves_ret.
Qed.

(** ** The beginning of a step *)

Lemma bind_andThen {A B} (m : M A) (b : B) s :
  bind m (fun _ => ret b) s = andThen b (m s).
Proof. unfold bind, andThen, ret. destruct (m s) as [[a|e|] s']; done. Qed.

Lemma setMoveParameters_run (s : EngineView) obj pos :
  moveEngine s = true ->
  moveEngine_setMoveParameters X obj pos s
  = (Val tt,
     set_objects
       (<[obj := setMoveParameters_effect X (objects s obj) pos]> (objects s))
       (nextObject s)
       (set_log (log s ++ [ME_setMoveParameters obj pos]) s)).
Proof.
  intros Hme. unfold moveEngine_setMoveParameters, theMoveEngine, bind, get,
    emit, modify, updateObj. simpl. rewrite Hme. reflexivity.
Qed.

Lemma addMovable_run (s : EngineView) obj :
  moveEngine s = true ->
  moveEngine_addMovable obj s
  = (Val tt, set_log (log s ++ [ME_addMovable obj]) s).
Proof.
  intros Hme. unfold moveEngine_addMovable, theMoveEngine, bind, get, emit,
    modify. simpl. rewrite Hme. reflexivity.
Qed.

Lemma removeMovable_run (s : EngineView) obj :
  moveEngine s = true ->
  moveEngine_removeMovable obj s
  = (Val tt, set_log (log s ++ [ME_removeMovable obj]) s).
Proof.
  intros Hme. unfold moveEngine_removeMovable, theMoveEngine, bind, get, emit,
    modify. simpl. rewrite Hme. reflexivity.
Qed.

Lemma onObjMoveStepBegin_open fuel (s : EngineView) obj pos pf :
  pathFinding s = Some pf -> moveEngine s = true ->
  reportedFilled X s obj pos = false ->
  exists s',
    onObjMoveStepBegin X fuel obj pos s = (Val true, s') /\
    log s' = log (asked X s obj pos)
               ++ [ME_setMoveParameters obj pos; ME_addMovable obj] /\
    objects s' obj
    = setMoveParameters_effect X (objects (asked X s obj pos) obj) pos.
Proof.
  intros Hpf Hme Hopen.
  unfold onObjMoveStepBegin, onObjMoveStepBegin_body.
  unfold bind at 1, readObj, bind at 1, get, ret.
  erewrite bind_val by reflexivity.
  erewrite bind_val by reflexivity.
  fold (turned X s obj pos).
  assert (Hask : pathFinding_isCellFilled X (pos_c pos) (pos_r pos)
                   (turned X s obj pos)
                 = (Val (reportedFilled X s obj pos), asked X s obj pos)).
  { unfold pathFinding_isCellFilled, thePathFinding, bind, get, deref, emit,
      modify, ret. simpl. rewrite Hpf. reflexivity. }
  erewrite bind_val by exact Hask.
  rewrite Hopen. cbv beta. change (negb false) with true. cbv iota.
  erewrite bind_val by (apply setMoveParameters_run; exact Hme).
  erewrite bind_val by (apply addMovable_run; exact Hme).
  eexists. split; [reflexivity|]. simpl. split.
  - rewrite <- !app_assoc. reflexivity.
  - rewrite !fn_lookup_insert. reflexivity.
Qed.


(** ** The end of a step *)

Lemma splice1_last {A} (a : list A) :
  splice1 (Z.of_nat (length a) - 1) a = removelast a.
Proof.
  unfold splice1. destruct a as [|x a]; [reflexivity|].
  replace (Z.of_nat (length (x :: a)) - 1 <? 0) with false
    by (symmetry; apply Z.ltb_ge; simpl length; lia).
  replace (Z.to_nat (Z.min (Z.of_nat (length (x :: a)) - 1)
                       (Z.of_nat (length (x :: a)))))
    with (length a) by (simpl length; lia).
  rewrite drop_ge by (simpl; lia). rewrite app_nil_r.
  revert x. induction a as [|y a IH]; intros x; [reflexivity|].
  simpl length. rewrite firstn_cons.
  change (removelast (x :: y :: a)) with (x :: removelast (y :: a)).
  f_equal. apply IH.
Qed.

Lemma notIn_self (item : PathItem) p : item ∈ p -> notIn item (Some p) = false.
Proof.
  intros Hin. unfold notIn. apply Z.eqb_neq. intros E.
  assert (indexOf item p < 0) as H%indexOf_absent by lia. done.
Qed.

Lemma arrangePathHighlight_same p (s : EngineView) :
  arrangePathHighlight (Some p) (Some p) s = (Val tt, s).
Proof.
  assert (G : forall on xs, (forall x, x ∈ xs -> x ∈ p) ->
    forEach xs (fun pathItem =>
      when (notIn pathItem (Some p)) (setHighlighted pathItem on)) s
    = (Val tt, s)).
  { intros on xs. induction xs as [|x xs IH]; intros Hsub; [reflexivity|].
    pose proof (notIn_self x p (Hsub x ltac:(left))) as Hx.
    unfold notIn in Hx. simpl forEach. cbv beta. rewrite Hx.
    erewrite bind_val by reflexivity.
    apply IH. intros y Hy. apply Hsub. by right. }
  unfold arrangePathHighlight.
  erewrite bind_val by (apply G; done). apply G. done.
Qed.

Lemma stepEnded_object (s : EngineView) obj :
  objects (stepEnded s obj) obj
  = ObjectView.set_currentTargetTile None
      (ObjectView.set_currentTarget None
         (ObjectView.set_currentPathStep
            (ObjectView.currentPathStep (objects s obj) - 1) (objects s obj))).
Proof. unfold stepEnded. simpl. rewrite !fn_lookup_insert. reflexivity. Qed.

Lemma onObjMoveStepEnd_run fuel (s : EngineView) obj :
  moveEngine s = true ->
  onObjMoveStepEnd X fuel obj s
  = if ObjectView.currentPathStep (objects s obj) - 1 <? 0
    then closeStep true obj (stopped s obj)
    else bind (continueAlongPath X fuel obj) (fun _ => closeStep false obj)
           (stepEnded s obj).
Proof.
  intros Hme. unfold onObjMoveStepEnd.
  erewrite bind_val by reflexivity.
  erewrite bind_val by reflexivity.
  erewrite bind_val by reflexivity.
  unfold bind at 1, readObj, bind at 1, get, ret. cbv beta.
  erewrite bind_val by (apply removeMovable_run; exact Hme).
  change (bind
            (if negb (ObjectView.currentPathStep
                        (objects (stepEnded s obj) obj) <? 0)
             then continueAlongPath X fuel obj
             else bind (readObj obj) (fun o =>
                    emit (Obj_changeVisualToDirection obj
                            (ObjectView.currentDirection o) false)))
            (fun _ => closeStep
                        (ObjectView.currentPathStep
                           (objects (stepEnded s obj) obj) <? 0) obj)
            (stepEnded s obj)
          = if ObjectView.currentPathStep (objects s obj) - 1 <? 0
            then closeStep true obj (stopped s obj)
            else bind (continueAlongPath X fuel obj)
                   (fun _ => closeStep false obj) (stepEnded s obj)).
  rewrite stepEnded_object.
  change (ObjectView.currentPathStep
            (ObjectView.set_currentTargetTile None
               (ObjectView.set_currentTarget None
                  (ObjectView.set_currentPathStep
                     (ObjectView.currentPathStep (objects s obj) - 1)
                     (objects s obj)))))
    with (ObjectView.currentPathStep (objects s obj) - 1).
  destruct (ObjectView.currentPathStep (objects s obj) - 1 <? 0);
    [|reflexivity].
  change (negb true) with false. cbv iota.
  unfold bind at 1, bind at 1, readObj, bind at 1, get, ret.
  rewrite stepEnded_object. reflexivity.
Qed.

Lemma stepEnded_facts (s : EngineView) obj :
  ObjectView.currentPathStep (objects (stepEnded s obj) obj)
  = ObjectView.currentPathStep (objects s obj) - 1 /\
  ObjectView.currentPath (objects (stepEnded s obj) obj)
  = ObjectView.currentPath (objects s obj) /\
  ObjectView.currentTarget (objects (stepEnded s obj) obj) = None /\
  ObjectView.currentTargetTile (objects (stepEnded s obj) obj) = None /\
  ObjectView.mapPos (objects (stepEnded s obj) obj)
  = ObjectView.mapPos (objects s obj) /\
  log (stepEnded s obj) = log s ++ [ME_removeMovable obj].
Proof. rewrite stepEnded_object. repeat split. Qed.

Lemma continueAlongPath_run fuel (s1 : EngineView) obj cfg cp :
  config s1 = Some cfg ->
  ObjectView.currentPath (objects s1 obj) = Some cp ->
  continueAlongPath X fuel obj s1
  = if checkPathOnEachTile cfg
    then match cp with
         | goal :: _ =>
             andThen tt
               (checkAndMoveObjectToLocation X fuel obj (item_mapPos goal)
                  None s1)
         | [] => (Throw (TypeError "obj.currentPath[0]"), s1)
         end
    else moveObjThrough X fuel obj (removelast cp) None
           (set_objects
              (<[obj := ObjectView.set_currentPath (Some (removelast cp))
                          (objects s1 obj)]> (objects s1))
              (nextObject s1) s1).
Proof.
  intros Hcfg Hcp. unfold continueAlongPath.
  erewrite bind_val by (by apply theConfig_run).
  unfold bind at 1, readObj, bind at 1, get, ret. cbv beta.
  rewrite Hcp. simpl deref. erewrite bind_val by reflexivity.
  destruct (checkPathOnEachTile cfg).
  - destruct cp as [|goal rest]; [reflexivity|]. simpl head. simpl deref.
    erewrite bind_val by reflexivity. apply bind_andThen.
  - rewrite splice1_last. reflexivity.
Qed.

(** What [moveObjThrough] does first when objects are moved step by step,
    for an object that has no target and whose path is the one given. *)
Lemma moveObjThrough_walk_log fuel (s : EngineView) obj path speed cfg :
  config s = Some cfg -> instantObjectRelocation cfg = false ->
  moveEngine s = true ->
  ObjectView.currentPath (objects s obj) = Some path ->
  ObjectView.currentTarget (objects s obj) = None ->
  extends (log s ++ [ME_prepareForMove obj path speed])
    (moveObjThrough X (S fuel) obj path speed s).2.
Proof.
  intros Hcfg Hinst Hme Hcp Htarget.
  change (moveObjThrough X (S fuel) obj path speed)
    with (moveObjThrough_body X (onObjMoveStepBegin X fuel) obj path speed).
  unfold moveObjThrough_body.
  erewrite bind_val by (by apply theConfig_run).
  rewrite Hinst.
  unfold bind at 1, get at 1. cbv beta.
  unfold bind at 1, readObj at 1, bind at 1, get at 1, ret at 1. cbv beta.
  rewrite Hcp.
  assert (Hhl : forall b, when b (arrangePathHighlight (Some path) (Some path)) s
                          = (Val tt, s)).
  { intros []; [apply arrangePathHighlight_same | reflexivity]. }
  erewrite bind_val by apply Hhl.
  unfold bind at 1, readObj at 1, bind at 1, get at 1, ret at 1. cbv beta.
  rewrite Htarget. rewrite bool_decide_eq_false_2 by (intros H; by apply H).
  erewrite bind_val by reflexivity.
  assert (Hprep : moveEngine_prepareForMove X obj path speed s
    = (Val tt,
       set_objects
         (<[obj := prepareForMove_effect X (objects s obj) path speed]>
            (objects s))
         (nextObject s)
         (set_log (log s ++ [ME_prepareForMove obj path speed]) s))).
  { unfold moveEngine_prepareForMove, theMoveEngine, bind, get, emit, modify,
      updateObj. simpl. rewrite Hme. reflexivity. }
  erewrite bind_val by exact Hprep.
  pose proof (extends_steady (log s ++ [ME_prepareForMove obj path speed]))
    as HP.
  apply preserves_run; [|by exists []; rewrite app_nil_r].
  keep. apply preserves_onObjMoveStepBegin;
    [done | apply arrangeObjLocation_extends].
Qed.

Lemma closeStep_extends l0 b obj : preserves (extends l0) (closeStep b obj).
Proof.
  pose proof (extends_steady l0) as HP. unfold closeStep. keep.
Qed.

Lemma closeStep_objects b obj (s : EngineView) :
  objects (closeStep b obj s).2 = objects s.
Proof.
  apply (preserves_run (fun s' => objects s' = objects s));
    [|reflexivity].
  assert (HP : forall {A} (m : M A),
             (forall t, objects (m t).2 = objects t) ->
             preserves (fun s' => objects s' = objects s) m).
  { intros A m H t Ht. specialize (H t).
    destruct (m t) as [[?|?|] ?]; simpl in *; congruence. }
  unfold closeStep.
  apply preserves_bind; [by apply HP|]. intros s'.
  apply preserves_bind.
  - apply preserves_when.
    apply preserves_bind; [by apply HP|]. intros o.
    apply preserves_bind.
    { apply HP. intros t. unfold tileCell, bind, get, deref. simpl.
      destruct (tileArray t) as [rows|]; simpl; [|done].
      destruct (rows !! _); done. }
    intros cell. apply preserves_bind; [apply preserves_deref|]. intros _.
    apply preserves_bind.
    { apply HP. intros t. unfold theConfig, bind, get, deref. simpl.
      destruct (config t); done. }
    intros _. by apply HP.
  - intros _. apply preserves_when. apply preserves_bind.
    { apply HP. intros t. unfold theConfig, bind, get, deref. simpl.
      destruct (config t); done. }
    intros c. apply preserves_when. by apply HP.
Qed.

Lemma bind_extends {A B} l0 (m : M A) (k : A -> M B) (s : EngineView) :
  extends l0 (m s).2 -> (forall a, preserves (extends l0) (k a)) ->
  extends l0 (bind m k s).2.
Proof.
  intros Hm Hk. unfold bind. destruct (m s) as [[a|e|] s1]; simpl in *; try done.
  by apply preserves_run.
Qed.

Lemma andThen_snd {A B} (b : B) (r : Outcome A * EngineView) :
  (andThen b r).2 = r.2.
Proof. destruct r as [[?|?|] ?]; reflexivity. Qed.

(** ** A path, an empty path, no path *)

(** C5 (amended). [checkAndMoveObjectToLocation] tells a path from no path:
    when [solve] answers with no path, the result is [false] and nothing
    happens beyond the call of [solve]; when [solve] answers with a path,
    that path is handed to [moveObjThrough], and when that returns the
    result is the length of the path, which for a path that is not empty is
    a number other than 0 and so differs from [false]. *)
Theorem C5_path_or_no_path fuel (s : EngineView) obj pos speed pf :
  pathFinding s = Some pf ->
  let run := checkAndMoveObjectToLocation X fuel obj pos speed s in
  (pathFound X s obj pos = None ->
     run = (Val (JBool false), solved s obj pos)) /\
  (forall p, pathFound X s obj pos = Some p ->
     run = andThen (JNum (Z.of_nat (length p)))
             (moveObjThrough X fuel obj p speed (solved s obj pos)) /\
     forall v, run.1 = Val v ->
       v = JNum (Z.of_nat (length p)) /\
       (p <> [] -> v <> JBool false /\ truthy v = true)).
Proof.
  intros Hpf run.
  pose proof (checkAndMoveObjectToLocation_run fuel s obj pos speed pf Hpf)
    as Hrun.
  fold run in Hrun. split.
  - intros Hnone. rewrite Hnone in Hrun. exact Hrun.
  - intros p Hp. rewrite Hp, bind_andThen in Hrun. split; [exact Hrun|].
    intros v Hv. rewrite Hrun in Hv. unfold andThen in Hv.
    destruct (moveObjThrough X fuel obj p speed (solved s obj pos))
      as [[[]|e|] s']; simpl in Hv; try discriminate.
    injection Hv as <-. split; [reflexivity|]. intros Hne.
    split; [discriminate|]. simpl. apply negb_true_iff, Z.eqb_neq.
    destruct p; [done|]. simpl length. lia.
Qed.

(** ** Approaching an object *)

Lemma pick_spec (paths : list (list PathItem)) :
  forall minLength minPath,
    (forall p0, minPath = Some p0 -> Z.of_nat (length p0) = minLength) ->
    match pick minLength minPath paths with
    | Some p =>
        (minPath = Some p \/ p ∈ paths) /\
        Z.of_nat (length p) <= minLength /\
        (minPath = None -> Z.of_nat (length p) < minLength) /\
        forall q, q ∈ paths -> Z.of_nat (length p) <= Z.of_nat (length q)
    | None =>
        minPath = None /\
        forall q, q ∈ paths -> minLength <= Z.of_nat (length q)
    end.
Proof.
  induction paths as [|p rest IH]; intros minLength minPath Hinv; simpl.
  - destruct minPath as [p0|].
    + rewrite (Hinv p0 eq_refl). split; [by left|]. split; [lia|].
      split; [done|]. intros q Hq. by apply elem_of_nil in Hq.
    + split; [done|]. intros q Hq. by apply elem_of_nil in Hq.
  - destruct (Z.of_nat (length p) <? minLength) eqn:E.
    + apply Z.ltb_lt in E.
      specialize (IH (Z.of_nat (length p)) (Some p)).
      destruct (pick (Z.of_nat (length p)) (Some p) rest) as [b|].
      * destruct IH as (H1 & H2 & _ & H4); [by intros ? [= <-]|].
        split; [|split; [lia|split; [lia|]]].
        -- right. destruct H1 as [[= <-]|H1]; [left|by right].
        -- intros q Hq. apply elem_of_cons in Hq as [->|Hq]; [lia|auto].
      * destruct IH as [[=] _]. by intros ? [= <-].
    + apply Z.ltb_ge in E. specialize (IH minLength minPath Hinv).
      destruct (pick minLength minPath rest) as [b|].
      * destruct IH as (H1 & H2 & H3 & H4).
        split; [|split; [lia|split; [done|]]].
        -- destruct H1 as [H1|H1]; [by left|right; by right].
        -- intros q Hq. apply elem_of_cons in Hq as [->|Hq]; [lia|auto].
      * destruct IH as [H1 H2]. split; [done|].
        intros q Hq. apply elem_of_cons in Hq as [->|Hq]; [lia|auto].
Qed.

(** The loop, for a controllable that stands on none of the cells. *)
Lemma approachLoop_run fuel tiles cc pf (cells : list PathItem) :
  forall minLength minPath (s : EngineView),
    tileArray s = Some tiles ->
    currentControllable s = Some cc ->
    pathFinding s = Some pf ->
    (forall cell, cell ∈ cells -> is_Some (tiles !! pos_r (item_mapPos cell))) ->
    (forall cell tile, cell ∈ cells ->
       tileAt tiles (item_mapPos cell) = Some tile ->
       TileView.mapPos tile <> ObjectView.mapPos (objects s cc)) ->
    let from := ObjectView.mapPos (objects s cc) in
    approachLoop X fuel cells minLength minPath s
    = (Val (inr (pick minLength minPath
                   (pathsFound X tiles from (log s) cells))),
       set_log (logAfterSearch tiles from (log s) cells) s).
Proof.
  induction cells as [|cell rest IH];
    intros minLength minPath s Ht Hcc Hpf Hrows Haway from.
  - simpl. destruct s; reflexivity.
  - simpl approachLoop. simpl pathsFound. simpl logAfterSearch.
    unfold tileAt.
    destruct (Hrows cell ltac:(left)) as [row Hrow].
    assert (Hcell : tileCell (pos_r (item_mapPos cell))
                      (pos_c (item_mapPos cell)) s
                    = (Val (row !! pos_c (item_mapPos cell)), s)).
    { unfold tileCell, bind, get, deref, ret. rewrite Ht, Hrow. reflexivity. }
    erewrite bind_val by exact Hcell. rewrite Hrow.
    destruct (row !! pos_c (item_mapPos cell)) as [tile|] eqn:Etile.
    + unfold bind at 1, get at 1. cbv beta. rewrite Hcc. simpl deref.
      erewrite bind_val by reflexivity.
      unfold bind at 1, readObj at 1, bind at 1, get at 1, ret at 1. cbv beta.
      assert (Hne : TileView.mapPos tile <> ObjectView.mapPos (objects s cc)).
      { apply (Haway cell); [left|]. unfold tileAt. by rewrite Hrow. }
      assert (Hstand :
        bool_decide (pos_c (TileView.mapPos tile)
                     = pos_c (ObjectView.mapPos (objects s cc)))
        && bool_decide (pos_r (TileView.mapPos tile)
                        = pos_r (ObjectView.mapPos (objects s cc))) = false).
      { apply andb_false_iff.
        destruct (decide (pos_c (TileView.mapPos tile)
                          = pos_c (ObjectView.mapPos (objects s cc)))) as [E1|E1];
          [right|left; by apply bool_decide_eq_false_2].
        apply bool_decide_eq_false_2. intros E2. apply Hne.
        destruct (TileView.mapPos tile), (ObjectView.mapPos (objects s cc)).
        simpl in *. congruence. }
      rewrite Hstand.
      erewrite bind_val by (by eapply getPath_run).
      fold from.
      set (s' := set_log _ s).
      assert (IH' : forall ml mp,
        approachLoop X fuel rest ml mp s'
        = (Val (inr (pick ml mp (pathsFound X tiles from (log s') rest))),
           set_log (logAfterSearch tiles from (log s') rest) s')).
      { intros ml mp. apply IH; try done.
        - intros c Hc. apply Hrows. by right.
        - intros c t Hc Ht'. apply (Haway c t); [by right|done]. }
      destruct (solve_answer X (log s) _ _ _ _) as [p|]; simpl pick.
      * destruct (Z.of_nat (length p) <? minLength); apply IH'.
      * apply IH'.
    + apply IH; try done.
      * intros c Hc. apply Hrows. by right.
      * intros c t Hc Ht'. apply (Haway c t); [by right|done].
Qed.

Lemma logAfterSearch_grows tiles from cells :
  forall l, exists evs, logAfterSearch tiles from l cells = l ++ evs.
Proof.
  induction cells as [|cell rest IH]; intros l; simpl.
  - exists []. by rewrite app_nil_r.
  - destruct (tileAt tiles (item_mapPos cell)); [|apply IH].
    destruct (IH (l ++ [PF_solve (pos_c from) (pos_r from)
                          (pos_c (TileView.mapPos t))
                          (pos_r (TileView.mapPos t))])) as (evs & ->).
    eexists. rewrite <- app_assoc. reflexivity.
Qed.

(** What [moveCurrentControllableToObj] does for a controllable that stands
    on none of the returned cells, when the target object has no preferred
    interaction point or one toward which no path is found: it asks the
    pathfinder for the open cells next to the object, with the object's
    column, row, column span and row span, and seeks a path to every
    returned cell that has a tile.  [minLength] starts at 3000, so that the
    path taken is the first shortest one among the paths of fewer than 3000
    steps, the one that [pick] keeps; the result is [false], and nothing is
    moved, exactly when every path found has 3000 steps or more. *)
Lemma approach_by_shortest_path
    fuel (s t : EngineView) obj speed cc pf tiles :
  currentControllable s = Some cc ->
  pathFinding s = Some pf ->
  tileArray s = Some tiles ->
  (ObjectView.currentInteractionOffset (objects s obj) = None /\ t = s) \/
  (exists offset,
     ObjectView.currentInteractionOffset (objects s obj) = Some offset /\
     pathFound X s cc (interactionPoint (objects s obj) offset) = None /\
     t = solved s cc (interactionPoint (objects s obj) offset)) ->
  let o := objects s obj in
  let query :=
    PF_getAdjacentOpenCells (pos_c (ObjectView.mapPos o))
      (pos_r (ObjectView.mapPos o)) (ObjectView.columnSpan o)
      (ObjectView.rowSpan o) in
  let cells :=
    getAdjacentOpenCells_answer X (log t) (pos_c (ObjectView.mapPos o))
      (pos_r (ObjectView.mapPos o)) (ObjectView.columnSpan o)
      (ObjectView.rowSpan o) in
  let from := ObjectView.mapPos (objects s cc) in
  let found := pathsFound X tiles from (log t ++ [query]) cells in
  let t' := set_log (logAfterSearch tiles from (log t ++ [query]) cells) t in
  let run := moveCurrentControllableToObj X fuel obj speed s in
  (forall cell, cell ∈ cells -> is_Some (tiles !! pos_r (item_mapPos cell))) ->
  (forall cell tile, cell ∈ cells ->
     tileAt tiles (item_mapPos cell) = Some tile ->
     TileView.mapPos tile <> from) ->
  extends (log s) t /\ extends (log t ++ [query]) t' /\
  match pick 3000 None found with
  | Some p =>
      p ∈ found /\ Z.of_nat (length p) < 3000 /\
      (forall q, q ∈ found -> Z.of_nat (length p) <= Z.of_nat (length q)) /\
      run = andThen true (moveObjThrough X fuel cc p speed t')
  | None =>
      (forall q, q ∈ found -> 3000 <= Z.of_nat (length q)) /\
      run = (Val false, t')
  end /\
  (run.1 = Val false <->
   forall q, q ∈ found -> 3000 <= Z.of_nat (length q)).
Proof.
  intros Hcc Hpf Ht Hstart o query cells from found t' run Hrows Haway.
  assert (Hsame : objects t = objects s /\ currentControllable t = Some cc /\
                  pathFinding t = Some pf /\ tileArray t = Some tiles /\
                  extends (log s) t).
  { destruct Hstart as [[_ ->]|(offset & _ & _ & ->)].
    - repeat split; try done. apply extends_refl.
    - repeat split; try done. eexists. reflexivity. }
  destruct Hsame as (Hobj & Hcc' & Hpf' & Ht' & Hext).
  assert (Hhead : run = approachAdjacentCell X fuel obj speed t).
  { subst run. unfold moveCurrentControllableToObj.
    unfold bind at 1, get at 1. cbv beta. rewrite Hcc.
    erewrite bind_val by reflexivity.
    unfold bind at 1, readObj at 1, bind at 1, get at 1, ret at 1. cbv beta.
    destruct Hstart as [[Hoff ->]|(offset & Hoff & Hnone & ->)]; rewrite Hoff.
    - erewrite bind_val by reflexivity. reflexivity.
    - cbv zeta.
      erewrite bind_val.
      2:{ erewrite bind_val; [reflexivity|].
          erewrite checkAndMoveObjectToLocation_run by exact Hpf.
          rewrite Hnone. reflexivity. }
      reflexivity. }
  assert (Hrun : run = match pick 3000 None found with
                       | Some p =>
                           andThen true (moveObjThrough X fuel cc p speed t')
                       | None => (Val false, t')
                       end).
  { rewrite Hhead. unfold approachAdjacentCell.
    unfold bind at 1, readObj at 1, bind at 1, get at 1, ret at 1. cbv beta.
    rewrite Hobj. fold o.
    assert (Hq : pathFinding_getAdjacentOpenCells X
                   (pos_c (ObjectView.mapPos o)) (pos_r (ObjectView.mapPos o))
                   (ObjectView.columnSpan o) (ObjectView.rowSpan o) t
                 = (Val cells, set_log (log t ++ [query]) t)).
    { unfold pathFinding_getAdjacentOpenCells, thePathFinding, bind, get,
        deref, emit, modify, ret. simpl. rewrite Hpf'. reflexivity. }
    erewrite bind_val by exact Hq.
    erewrite bind_val
      by (apply (approachLoop_run fuel tiles cc pf cells 3000 None
                   (set_log (log t ++ [query]) t));
          try done; simpl; rewrite Hobj; done).
    change (objects (set_log (log t ++ [query]) t)) with (objects t).
    rewrite Hobj. fold from.
    change (set_log _ (set_log (log t ++ [query]) t)) with t'.
    change (pathsFound X tiles from _ cells) with found.
    destruct (pick 3000 None found) as [p|]; [|reflexivity].
    unfold bind at 1, get at 1. cbv beta.
    change (currentControllable t') with (currentControllable t).
    rewrite Hcc'. simpl deref. erewrite bind_val by reflexivity.
    apply bind_andThen. }
  split; [exact Hext|]. split.
  { subst t'. destruct (logAfterSearch_grows tiles from cells
                          (log t ++ [query])) as (evs & Hevs).
    exists evs. exact Hevs. }
  pose proof (pick_spec found 3000 None ltac:(intros ? [=])) as Hpick.
  destruct (pick 3000 None found) as [p|].
  - destruct Hpick as ([[=]|Hin] & _ & Hlt & Hmin).
    split; [repeat split; auto|].
    rewrite Hrun. split.
    + intros Hf. unfold andThen in Hf.
      destruct (moveObjThrough X fuel cc p speed t') as [[?|?|] ?];
        discriminate.
    + intros Hall. specialize (Hall p Hin). specialize (Hlt eq_refl). lia.
  - destruct Hpick as [_ Hall]. split; [done|].
    rewrite Hrun. done.
Qed.

End Facts.

(** * Objects and their references

    What the public methods do to the references of an object, and what
    the movement methods leave alone. *)

Section Bookkeeping.

Context {TileData ObjData : Type} (X : @Externals TileData ObjData).

Abbreviation M := (@M TileData ObjData).
Abbreviation EngineView := (@EngineView TileData ObjData).

Implicit Types s t : EngineView.

(** ** Lists of references *)

Lemma withoutFirst_absent {A} `{EqDecision A} (x : A) (l : list A) :
  x ∉ l -> withoutFirst x l = l.
Proof.
  induction l as [|y l IH]; intros Hx; simpl; [done|].
  apply not_elem_of_cons in Hx as [Hne Hx].
  destruct (decide (y = x)) as [->|_]; [done|]. by rewrite IH.
Qed.

Lemma withoutFirst_other {A} `{EqDecision A} (x y : A) (l : list A) :
  y <> x -> y ∈ withoutFirst x l <-> y ∈ l.
Proof.
  intros Hne. induction l as [|z l IH]; simpl; [done|].
  destruct (decide (z = x)) as [->|Hz].
  - rewrite elem_of_cons. split; [auto|]. intros [->|Hy]; [done|done].
  - rewrite !elem_of_cons, IH. done.
Qed.

Lemma withoutFirst_gone {A} `{EqDecision A} (x : A) (l : list A) :
  NoDup l -> x ∉ withoutFirst x l.
Proof.
  induction 1 as [|y l Hy Hl IH]; simpl; [apply not_elem_of_nil|].
  destruct (decide (y = x)) as [->|Hne]; [done|].
  apply not_elem_of_cons. split; [congruence|done].
Qed.


Lemma refs_addedTo obj (v : option (list nat)) :
  default [] (addedTo obj v)
  = if bool_decide (obj ∈ default [] v)
    then default [] v else default [] v ++ [obj].
Proof. reflexivity. Qed.

Lemma refs_removedFrom obj (v : option (list nat)) :
  default [] (removedFrom obj v) = withoutFirst obj (default [] v).
Proof.
  unfold removedFrom. by destruct (withoutFirst obj (default [] v)).
Qed.

Lemma refs_row s p : refs s p <> [] -> is_Some (rowAt s (pos_r p)).
Proof.
  unfold refs, cellAt. destruct (rowAt s (pos_r p)); [eauto|done].
Qed.

(** ** Loops that only read *)

Lemma forUpFrom_idle n k (body : Z -> M unit) s :
  (forall i, k <= i < k + Z.of_nat n -> body i s = (Val tt, s)) ->
  forUpFrom n k body s = (Val tt, s).
Proof.
  revert k. induction n as [|n IH]; intros k Hbody; simpl; [done|].
  erewrite bind_val by (apply Hbody; lia).
  apply IH. intros i Hi. apply Hbody. lia.
Qed.

Lemma forDownFrom_idle n m (body : Z -> M unit) s :
  (forall i, m - Z.of_nat n < i <= m -> body i s = (Val tt, s)) ->
  forDownFrom n m body s = (Val tt, s).
Proof.
  revert m. induction n as [|n IH]; intros m Hbody; simpl; [done|].
  erewrite bind_val by (apply Hbody; lia).
  apply IH. intros i Hi. apply Hbody. lia.
Qed.

Lemma objCell_read s pos :
  is_Some (rowAt s (pos_r pos)) -> objCell pos s = (Val (cellAt s pos), s).
Proof.
  intros [row Hrow]. destruct (rowAt_cases _ _ _ Hrow) as (rows & Ha & Hr).
  rewrite (objCell_run _ _ _ _ Ha Hr). unfold cellAt. by rewrite Hrow.
Qed.

Lemma arrangeDepthsFromLocation_run pos s :
  (forall i, pos_r pos <= i < mapSizeR s -> is_Some (rowAt s i)) ->
  arrangeDepthsFromLocation pos s = (Val tt, s).
Proof.
  intros Hrows. unfold arrangeDepthsFromLocation.
  erewrite bind_val by reflexivity. unfold forUp.
  apply forUpFrom_idle. intros i Hi. unfold forDown.
  apply forDownFrom_idle. intros j _.
  erewrite bind_val by (apply objCell_read; apply Hrows; simpl; lia).
  reflexivity.
Qed.

(** ** References over a footprint *)

Lemma addObjRefToLocation_run obj pos s :
  let cells := footprint pos (ObjectView.columnSpan (objects s obj))
                 (ObjectView.rowSpan (objects s obj)) in
  (forall p, p ∈ cells -> is_Some (rowAt s (pos_r p))) ->
  is_Some (pathFinding s) ->
  exists s',
    addObjRefToLocation obj pos s = (Val tt, s') /\ sameButRefs s s' /\
    (forall p, p ∈ cells -> cellAt s' p = addedTo obj (cellAt s p)) /\
    (forall p, p ∉ cells -> cellAt s' p = cellAt s p) /\
    (forall r, is_Some (rowAt s' r) <-> is_Some (rowAt s r)).
Proof.
  intros cells Hrows Hpf. unfold addObjRefToLocation.
  rewrite overFootprint_forEach.
  apply (forEach_cells (addObjRefToSingleLocation obj) (addedTo obj));
    [|apply NoDup_footprint|done|done].
  intros t p. apply addObjRefToSingleLocation_cell.
Qed.

Lemma removeObjRefFromLocation_run obj pos s :
  let cells := footprint pos (ObjectView.columnSpan (objects s obj))
                 (ObjectView.rowSpan (objects s obj)) in
  (forall p, p ∈ cells -> is_Some (rowAt s (pos_r p))) ->
  is_Some (pathFinding s) ->
  exists s',
    removeObjRefFromLocation obj pos s = (Val tt, s') /\ sameButRefs s s' /\
    (forall p, p ∈ cells -> cellAt s' p = removedFrom obj (cellAt s p)) /\
    (forall p, p ∉ cells -> cellAt s' p = cellAt s p) /\
    (forall r, is_Some (rowAt s' r) <-> is_Some (rowAt s r)).
Proof.
  intros cells Hrows Hpf. unfold removeObjRefFromLocation.
  rewrite overFootprint_forEach.
  apply (forEach_cells (removeObjRefFromSingleLocation obj)
           (removedFrom obj));
    [|apply NoDup_footprint|done|done].
  intros t p. apply removeObjRefFromSingleLocation_cell.
Qed.

(** ** Objects put on the map, moved and taken off *)

Lemma mkPos_eta pos : mkPos (pos_c pos) (pos_r pos) = pos.
Proof. by destruct pos. Qed.

Lemma updateObj_run obj g s :
  updateObj obj g s
  = (Val tt, set_objects (<[obj := g (objects s obj)]> (objects s))
               (nextObject s) s).
Proof. reflexivity. Qed.

(** The state in which the object has been given its place. *)
Lemma addObjectToLocation_run s obj pos :
  let o := objects s obj in
  let cells := footprint pos (ObjectView.columnSpan o) (ObjectView.rowSpan o) in
  let s0 := set_objects (<[obj := ObjectView.set_mapPos pos o]> (objects s))
              (nextObject s) s in
  is_Some (pathFinding s) ->
  (forall p, p ∈ cells -> is_Some (rowAt s (pos_r p))) ->
  (forall i, (if ObjectView.isFloorObject o then 0 else pos_r pos) <= i
             < mapSizeR s -> is_Some (rowAt s i)) ->
  exists s',
    addObjectToLocation obj pos s = (Val obj, s') /\ sameButRefs s0 s' /\
    (forall p, p ∈ cells -> cellAt s' p = addedTo obj (cellAt s p)) /\
    (forall p, p ∉ cells -> cellAt s' p = cellAt s p) /\
    (forall r, is_Some (rowAt s' r) <-> is_Some (rowAt s r)).
Proof.
  intros o cells s0 Hpf Hrows Hdepth. unfold addObjectToLocation.
  rewrite mkPos_eta.
  erewrite bind_val by apply updateObj_run. fold o. fold s0.
  erewrite bind_val by reflexivity.
  assert (Ho : objects s0 obj = ObjectView.set_mapPos pos o)
    by apply fn_lookup_insert.
  rewrite Ho. simpl ObjectView.mapPos.
  destruct (addObjRefToLocation_run obj pos s0)
    as (s1 & Hrun & Hsame & Hin & Hout & Hr).
  { rewrite Ho. exact Hrows. }
  { exact Hpf. }
  rewrite Ho in Hin, Hout. simpl in Hin, Hout.
  erewrite bind_val by exact Hrun.
  erewrite bind_val by reflexivity.
  erewrite bind_val by reflexivity.
  assert (Hobj : objects s1 = objects s0) by apply Hsame.
  assert (HR : mapSizeR s1 = mapSizeR s) by apply Hsame.
  rewrite Hobj, Ho. simpl ObjectView.isFloorObject. simpl ObjectView.mapPos.
  erewrite bind_val.
  2:{ apply arrangeDepthsFromLocation_run. intros i Hi. apply Hr.
      apply Hdepth. rewrite HR in Hi.
      destruct (ObjectView.isFloorObject o); exact Hi. }
  exists s1. split; [reflexivity|]. split; [exact Hsame|].
  split; [exact Hin|]. split; [exact Hout|exact Hr].
Qed.

Lemma removeObjectFromLocation_run s obj pos :
  let o := objects s obj in
  let cells := footprintOf s obj in
  default (ObjectView.mapPos o) pos = ObjectView.mapPos o ->
  is_Some (pathFinding s) ->
  (forall p, p ∈ cells -> is_Some (rowAt s (pos_r p))) ->
  exists s',
    removeObjectFromLocation obj pos s = (Val tt, s') /\ sameButRefs s s' /\
    (forall p, p ∈ cells -> cellAt s' p = removedFrom obj (cellAt s p)) /\
    (forall p, p ∉ cells -> cellAt s' p = cellAt s p) /\
    (forall r, is_Some (rowAt s' r) <-> is_Some (rowAt s r)).
Proof.
  intros o cells Hpos Hpf Hrows. unfold removeObjectFromLocation.
  erewrite bind_val by reflexivity. fold o. rewrite Hpos.
  apply removeObjRefFromLocation_run; done.
Qed.

Lemma placed_rows s obj p :
  placed s obj -> p ∈ footprintOf s obj -> is_Some (rowAt s (pos_r p)).
Proof.
  intros Hpl Hp. apply refs_row. apply Hpl in Hp.
  intros E. rewrite E in Hp. by apply elem_of_nil in Hp.
Qed.

(** References of the other objects, and their placement, when the cells
    change by the removal and the addition of [obj] only. *)
Lemma placed_other s s' obj x :
  x <> obj -> objects s' x = objects s x ->
  (forall p, refs s' p
             = withoutFirst obj (refs s p) \/
             refs s' p = withoutFirst obj (refs s p) ++ [obj]) ->
  placed s x -> placed s' x.
Proof.
  intros Hne Hobj Hrefs Hpl p. unfold footprintOf. rewrite Hobj.
  rewrite <- (Hpl p).
  destruct (Hrefs p) as [-> | ->].
  - by apply withoutFirst_other.
  - rewrite elem_of_app, list_elem_of_singleton.
    rewrite withoutFirst_other by done. split; [|auto].
    intros [H|H]; [done|congruence].
Qed.

Lemma addObjectToLocation_placed s obj pos :
  let o := objects s obj in
  let cells := footprint pos (ObjectView.columnSpan o) (ObjectView.rowSpan o) in
  is_Some (pathFinding s) ->
  (forall p, p ∈ cells -> is_Some (rowAt s (pos_r p))) ->
  (forall i, (if ObjectView.isFloorObject o then 0 else pos_r pos) <= i
             < mapSizeR s -> is_Some (rowAt s i)) ->
  (forall p, obj ∉ refs s p) ->
  exists s',
    addObjectToLocation obj pos s = (Val obj, s') /\
    objects s' = <[obj := ObjectView.set_mapPos pos o]> (objects s) /\
    (forall p, refs s' p
               = refs s p ++ (if bool_decide (p ∈ cells) then [obj] else [])) /\
    placed s' obj /\
    (forall x, x <> obj -> placed s x -> placed s' x).
Proof.
  intros o cells Hpf Hrows Hdepth Hfresh.
  destruct (addObjectToLocation_run s obj pos Hpf Hrows Hdepth)
    as (s' & Hrun & Hsame & Hin & Hout & _).
  assert (Hobj : objects s'
                 = <[obj := ObjectView.set_mapPos pos o]> (objects s))
    by apply Hsame.
  assert (Hrefs : forall p,
             refs s' p
             = refs s p ++ (if bool_decide (p ∈ cells) then [obj] else [])).
  { intros p. unfold refs. case_bool_decide as Hp.
    - rewrite (Hin p Hp), refs_addedTo.
      rewrite bool_decide_eq_false_2 by apply Hfresh. done.
    - rewrite (Hout p Hp). by rewrite app_nil_r. }
  exists s'. split; [exact Hrun|]. split; [exact Hobj|].
  split; [exact Hrefs|]. split.
  - intros p. unfold footprintOf. rewrite Hobj, fn_lookup_insert. simpl.
    fold cells. rewrite Hrefs, elem_of_app. case_bool_decide as Hp.
    + rewrite list_elem_of_singleton. split; auto.
    + split; [|done]. intros [H|H]; [by apply Hfresh in H|].
      by apply elem_of_nil in H.
  - intros x Hne. apply placed_other with (obj := obj); [done| |].
    + rewrite Hobj. by apply fn_lookup_insert_ne.
    + intros p. rewrite Hrefs, (withoutFirst_absent obj) by apply Hfresh.
      case_bool_decide; [by right|left; by rewrite app_nil_r].
Qed.

(** X1. [addObjectToLocation] gives the object its place and appends a
    reference to it on every cell it covers there, and on no other cell;
    an object that no cell referenced is then referenced exactly on the
    cells it covers, [getObjectsAtLocation] returns it last on each of
    them, and the other objects stay as they were. *)
Theorem addObjectToLocation_places s obj pos :
  let o := objects s obj in
  let cells := footprint pos (ObjectView.columnSpan o) (ObjectView.rowSpan o) in
  is_Some (pathFinding s) ->
  (forall p, p ∈ cells -> is_Some (rowAt s (pos_r p))) ->
  (forall i, (if ObjectView.isFloorObject o then 0 else pos_r pos) <= i
             < mapSizeR s -> is_Some (rowAt s i)) ->
  (forall p, obj ∉ refs s p) ->
  exists s',
    addObjectToLocation obj pos s = (Val obj, s') /\
    objects s' = <[obj := ObjectView.set_mapPos pos o]> (objects s) /\
    (forall p, refs s' p
               = refs s p ++ (if bool_decide (p ∈ cells) then [obj] else [])) /\
    (forall p, p ∈ cells ->
       getObjectsAtLocation p s' = (Val (Some (refs s p ++ [obj])), s')) /\
    placed s' obj /\
    (forall x, x <> obj -> placed s x -> placed s' x).
Proof.
  intros o cells Hpf Hrows Hdepth Hfresh.
  destruct (addObjectToLocation_placed s obj pos Hpf Hrows Hdepth Hfresh)
    as (s' & Hrun & Hobj & Hrefs & Hpl & Hothers).
  destruct (addObjectToLocation_run s obj pos Hpf Hrows Hdepth)
    as (s'' & Hrun' & _ & Hin & _ & Hr).
  assert (s'' = s') as -> by congruence.
  exists s'. split; [exact Hrun|]. split; [exact Hobj|].
  split; [exact Hrefs|]. split; [|by split].
  intros p Hp. unfold getObjectsAtLocation.
  rewrite objCell_read by (by apply Hr, Hrows).
  rewrite (Hin p Hp). unfold addedTo. fold (refs s p).
  by rewrite bool_decide_eq_false_2.
Qed.

(** X2. [createAndAddObjectToLocation] makes a new object and puts it on
    the map: when the references name objects made before only, the new
    object is referenced exactly on the cells it covers, last on each of
    them, and the other objects stay as they were. *)
Theorem createAndAddObjectToLocation_places s type pos :
  let obj := nextObject s in
  let o := ObjectView_new X type in
  let cells := footprint pos (ObjectView.columnSpan o) (ObjectView.rowSpan o) in
  is_Some (pathFinding s) ->
  (forall p, p ∈ cells -> is_Some (rowAt s (pos_r p))) ->
  (forall i, (if ObjectView.isFloorObject o then 0 else pos_r pos) <= i
             < mapSizeR s -> is_Some (rowAt s i)) ->
  (forall p x, x ∈ refs s p -> (x < nextObject s)%nat) ->
  exists s',
    createAndAddObjectToLocation X type pos s = (Val obj, s') /\
    nextObject s' = S obj /\
    objects s' obj = ObjectView.set_mapPos pos o /\
    (forall x, x <> obj -> objects s' x = objects s x) /\
    (forall p, refs s' p
               = refs s p ++ (if bool_decide (p ∈ cells) then [obj] else [])) /\
    (forall p x, x ∈ refs s' p -> (x < nextObject s')%nat) /\
    placed s' obj /\
    (forall x, x <> obj -> placed s x -> placed s' x).
Proof.
  intros obj o cells Hpf Hrows Hdepth Hold.
  unfold createAndAddObjectToLocation.
  erewrite bind_val by reflexivity. erewrite bind_val by reflexivity.
  fold obj o.
  set (s0 := set_objects (<[obj := o]> (objects s)) (S obj) s).
  assert (Ho : objects s0 obj = o) by apply fn_lookup_insert.
  assert (Hfresh : forall p, obj ∉ refs s0 p).
  { intros p Hp. apply Hold in Hp. unfold obj in Hp. lia. }
  destruct (addObjectToLocation_placed s0 obj pos)
    as (s' & Hrun & Hobj & Hrefs & Hpl & Hothers).
  { exact Hpf. }
  { rewrite Ho. exact Hrows. }
  { rewrite Ho. exact Hdepth. }
  { exact Hfresh. }
  rewrite Ho in Hobj, Hrefs. fold cells in Hrefs.
  destruct (addObjectToLocation_run s0 obj pos)
    as (s'' & Hrun' & Hsame & _).
  { exact Hpf. }
  { rewrite Ho. exact Hrows. }
  { rewrite Ho. exact Hdepth. }
  assert (s'' = s') as -> by congruence.
  assert (Hnext : nextObject s' = S obj).
  { replace (nextObject s') with (nextObject s0); [done|].
    symmetry. apply Hsame. }
  exists s'. split; [exact Hrun|]. split; [exact Hnext|]. split.
  { rewrite Hobj. apply fn_lookup_insert. }
  split.
  { intros x Hne. rewrite Hobj. simpl. by rewrite !fn_lookup_insert_ne. }
  split; [exact Hrefs|]. split; [|split; [exact Hpl|]].
  - intros p x. rewrite Hrefs, Hnext, elem_of_app. intros [Hx|Hx].
    + apply Hold in Hx. unfold obj. lia.
    + case_bool_decide; [|by apply elem_of_nil in Hx].
      apply list_elem_of_singleton in Hx. lia.
  - intros x Hne Hx. apply Hothers; [done|].
    intros p. unfold footprintOf. simpl.
    rewrite fn_lookup_insert_ne by done. apply Hx.
Qed.

(** X3. [removeObjectFromLocation], called without a location or with the
    object's own, takes the first reference to the object from every cell
    the object covers; when no cell holds a reference twice and the object
    is referenced exactly on the cells it covers, no reference to it is
    left, and the other objects stay as they were. *)
Theorem removeObjectFromLocation_unplaces s obj pos :
  default (ObjectView.mapPos (objects s obj)) pos
  = ObjectView.mapPos (objects s obj) ->
  noDuplicates s -> placed s obj -> is_Some (pathFinding s) ->
  exists s',
    removeObjectFromLocation obj pos s = (Val tt, s') /\
    objects s' = objects s /\
    (forall p, refs s' p = withoutFirst obj (refs s p)) /\
    (forall p, obj ∉ refs s' p) /\
    (forall x, x <> obj -> placed s x -> placed s' x).
Proof.
  intros Hpos Hnd Hpl Hpf.
  destruct (removeObjectFromLocation_run s obj pos Hpos Hpf)
    as (s' & Hrun & Hsame & Hin & Hout & _).
  { intros p. by apply placed_rows. }
  assert (Hobj : objects s' = objects s) by apply Hsame.
  assert (Hrefs : forall p, refs s' p = withoutFirst obj (refs s p)).
  { intros p. unfold refs.
    destruct (decide (p ∈ footprintOf s obj)) as [Hp|Hp].
    - by rewrite (Hin p Hp), refs_removedFrom.
    - rewrite (Hout p Hp). symmetry. apply withoutFirst_absent.
      intros H. by apply Hpl in H. }
  assert (Hdup : forall p, NoDup (refs s p)).
  { intros p. unfold refs. destruct (cellAt s p) as [a|] eqn:E; simpl.
    - by apply (Hnd p).
    - constructor. }
  exists s'. split; [exact Hrun|]. split; [exact Hobj|].
  split; [exact Hrefs|]. split.
  - intros p. rewrite Hrefs. by apply withoutFirst_gone.
  - intros x Hne. apply placed_other with (obj := obj); [done| |].
    + by rewrite Hobj.
    + intros p. left. apply Hrefs.
Qed.


Lemma arrangeObjLocation_moved s obj pos :
  let o := objects s obj in
  let target := footprint pos (ObjectView.columnSpan o) (ObjectView.rowSpan o) in
  noDuplicates s -> placed s obj -> is_Some (pathFinding s) ->
  (forall p, p ∈ target -> is_Some (rowAt s (pos_r p))) ->
  exists s',
    arrangeObjLocation obj pos s = (Val tt, s') /\
    objects s' = <[obj := ObjectView.set_mapPos pos o]> (objects s) /\
    (forall p, refs s' p
               = withoutFirst obj (refs s p)
                   ++ (if bool_decide (p ∈ target) then [obj] else [])) /\
    placed s' obj /\
    (forall x, x <> obj -> placed s x -> placed s' x) /\
    mapSizeR s' = mapSizeR s /\
    (forall r, is_Some (rowAt s' r) <-> is_Some (rowAt s r)).
Proof.
  intros o target Hnd Hpl Hpf Hrows. unfold arrangeObjLocation.
  erewrite bind_val by reflexivity. fold o.
  destruct (removeObjRefFromLocation_run obj (ObjectView.mapPos o) s)
    as (s1 & Hrun1 & Hsame1 & Hin1 & Hout1 & Hr1).
  { intros p. by apply placed_rows. }
  { done. }
  erewrite bind_val by exact Hrun1.
  assert (Hobj1 : objects s1 = objects s) by apply Hsame1.
  destruct (addObjRefToLocation_run obj pos s1)
    as (s2 & Hrun2 & Hsame2 & Hin2 & Hout2 & Hr2).
  { rewrite Hobj1. intros p Hp. apply Hr1. by apply Hrows. }
  { replace (pathFinding s1) with (pathFinding s); [done|].
    symmetry. apply Hsame1. }
  rewrite Hobj1 in Hin2, Hout2. fold o in Hin2, Hout2. fold target in Hin2, Hout2.
  erewrite bind_val by exact Hrun2.
  rewrite updateObj_run, mkPos_eta.
  assert (Hobj2 : objects s2 = objects s).
  { rewrite <- Hobj1. apply Hsame2. }
  rewrite Hobj2. fold o.
  set (s' := set_objects _ _ s2).
  assert (Hdup : forall p, NoDup (refs s p)).
  { intros p. unfold refs. destruct (cellAt s p) as [a|] eqn:E; simpl.
    - by apply (Hnd p).
    - constructor. }
  assert (Hrefs1 : forall p, refs s1 p = withoutFirst obj (refs s p)).
  { intros p. unfold refs.
    destruct (decide (p ∈ footprintOf s obj)) as [Hp|Hp].
    - by rewrite (Hin1 p Hp), refs_removedFrom.
    - rewrite (Hout1 p Hp). symmetry. apply withoutFirst_absent.
      intros H. by apply Hpl in H. }
  assert (Hrefs : forall p,
             refs s' p
             = withoutFirst obj (refs s p)
                 ++ (if bool_decide (p ∈ target) then [obj] else [])).
  { intros p. change (refs s' p) with (refs s2 p). unfold refs at 1.
    case_bool_decide as Hp.
    - rewrite (Hin2 p Hp), refs_addedTo. fold (refs s1 p). rewrite Hrefs1.
      rewrite bool_decide_eq_false_2; [done|]. by apply withoutFirst_gone.
    - rewrite (Hout2 p Hp). fold (refs s1 p). by rewrite Hrefs1, app_nil_r. }
  exists s'. split; [reflexivity|]. split; [reflexivity|].
  split; [exact Hrefs|]. split.
  - intros p. unfold footprintOf. simpl. rewrite fn_lookup_insert. simpl.
    fold o. fold target. rewrite Hrefs, elem_of_app. case_bool_decide as Hp.
    + rewrite list_elem_of_singleton. split; auto.
    + split; [|done]. intros [H|H].
      * by apply withoutFirst_gone in H.
      * by apply elem_of_nil in H.
  - split; [|split].
    + intros x Hne. apply placed_other with (obj := obj); [done| |].
      * simpl. by apply fn_lookup_insert_ne.
      * intros p. rewrite Hrefs.
        case_bool_decide; [by right|left; by rewrite app_nil_r].
    + change (mapSizeR s') with (mapSizeR s2).
      replace (mapSizeR s2) with (mapSizeR s1) by (symmetry; apply Hsame2).
      apply Hsame1.
    + intros r. change (rowAt s' r) with (rowAt s2 r). by rewrite Hr2, Hr1.
Qed.

(** X5. [arrangeObjLocation] moves the references with the object: when no
    cell holds a reference twice and the object is referenced exactly on
    the cells it covers, it is afterwards referenced exactly on the cells it
    covers at its new place, where its reference is the last one; the
    other references keep their order, and the other objects stay placed. *)
Theorem arrangeObjLocation_moves_references s obj pos :
  let o := objects s obj in
  let target := footprint pos (ObjectView.columnSpan o) (ObjectView.rowSpan o) in
  noDuplicates s -> placed s obj -> is_Some (pathFinding s) ->
  (forall p, p ∈ target -> is_Some (rowAt s (pos_r p))) ->
  exists s',
    arrangeObjLocation obj pos s = (Val tt, s') /\
    objects s' = <[obj := ObjectView.set_mapPos pos o]> (objects s) /\
    (forall p, refs s' p
               = withoutFirst obj (refs s p)
                   ++ (if bool_decide (p ∈ target) then [obj] else [])) /\
    placed s' obj /\
    (forall x, x <> obj -> placed s x -> placed s' x).
Proof.
  intros o target Hnd Hpl Hpf Hrows.
  destruct (arrangeObjLocation_moved s obj pos Hnd Hpl Hpf Hrows)
    as (s' & Hrun & Hobj & Hrefs & Hpl' & Hothers & _).
  exists s'. done.
Qed.

(** ** How the single-cell methods end *)

Lemma objCell_missing pos s :
  rowAt s (pos_r pos) = None -> exists e, objCell pos s = (Throw e, s).
Proof.
  unfold rowAt, objCell, bind, get, deref. simpl.
  destruct (objArray s) as [rows|]; simpl; [|eauto].
  intros ->. simpl. eauto.
Qed.

Lemma addObjRefToSingleLocation_cases obj pos s :
  is_Some (pathFinding s) ->
  (exists e, addObjRefToSingleLocation obj pos s = (Throw e, s)) \/
  (exists s',
     addObjRefToSingleLocation obj pos s = (Val tt, s') /\
     log s' = log s ++
       (if ObjectView.isMovableTo (objects s obj) then []
        else [PF_setDynamicCell (pos_c pos) (pos_r pos) 0]) /\
     sameButRefs s s' /\
     cellSetTo s s' pos (addedTo obj (cellAt s pos))).
Proof.
  intros [pf Hpf]. destruct (rowAt s (pos_r pos)) as [row|] eqn:Hrow.
  - right. apply (addObjRefToSingleLocation_spec s obj pos row pf Hrow Hpf).
  - left. destruct (objCell_missing pos s Hrow) as [e He]. exists e.
    unfold addObjRefToSingleLocation. by apply bind_throw.
Qed.

Lemma removeObjRefFromSingleLocation_cases obj pos s :
  is_Some (pathFinding s) ->
  (exists e, removeObjRefFromSingleLocation obj pos s = (Throw e, s)) \/
  (removeObjRefFromSingleLocation obj pos s = (Val tt, s) /\
   cellAt s pos = None) \/
  (exists s',
     removeObjRefFromSingleLocation obj pos s = (Val tt, s') /\
     log s' = log s ++
       [PF_setDynamicCell (pos_c pos) (pos_r pos)
          (if allMovableTo s (withoutFirst obj (refs s pos)) then 1 else 0)] /\
     sameButRefs s s' /\
     cellSetTo s s' pos (removedFrom obj (cellAt s pos))).
Proof.
  intros [pf Hpf]. destruct (rowAt s (pos_r pos)) as [row|] eqn:Hrow.
  - destruct (row !! pos_c pos) as [a0|] eqn:Hcell.
    + right. right.
      destruct (removeObjRefFromSingleLocation_spec s obj pos row a0 pf
                  Hrow Hcell Hpf) as (s' & H1 & H2 & H3 & H4).
      assert (Hc : cellAt s pos = Some a0).
      { unfold cellAt. by rewrite Hrow. }
      exists s'. split; [exact H1|]. unfold refs. rewrite Hc. simpl.
      split; [exact H2|]. split; [exact H3|].
      unfold removedFrom. simpl.
      by destruct (withoutFirst obj a0).
    + right. left. split.
      * by apply (removeObjRefFromSingleLocation_empty s obj pos row).
      * unfold cellAt. by rewrite Hrow.
  - left. destruct (objCell_missing pos s Hrow) as [e He]. exists e.
    unfold removeObjRefFromSingleLocation. by apply bind_throw.
Qed.

Lemma removeAllObjectRefsFromLocation_cases pos s :
  is_Some (pathFinding s) ->
  (exists e, removeAllObjectRefsFromLocation pos s = (Throw e, s)) \/
  (removeAllObjectRefsFromLocation pos s = (Val tt, s) /\
   cellAt s pos = None) \/
  (exists s',
     removeAllObjectRefsFromLocation pos s = (Val tt, s') /\
     log s' = log s ++ [PF_setDynamicCell (pos_c pos) (pos_r pos) 1] /\
     sameButRefs s s' /\
     cellSetTo s s' pos None).
Proof.
  intros [pf Hpf]. destruct (rowAt s (pos_r pos)) as [row|] eqn:Hrow.
  - destruct (rowAt_cases _ _ _ Hrow) as (rows & Ha & Hr).
    unfold removeAllObjectRefsFromLocation.
    erewrite bind_val by (eapply objCell_run; eauto).
    destruct (row !! pos_c pos) as [a0|] eqn:Hcell.
    + right. right.
      erewrite bind_val by (eapply setDynamicCell_run; eauto).
      set (s1 := set_log _ s).
      erewrite (setObjCell_run s1 pos None rows row) by done.
      eexists. split; [reflexivity|]. split; [reflexivity|].
      split; [done|].
      eapply (cellSetTo_ext s1 s); [done|reflexivity|].
      by apply (cellAt_insert_row s1 rows row pos None).
    + right. left. split; [done|]. unfold cellAt. by rewrite Hrow.
  - left. destruct (objCell_missing pos s Hrow) as [e He]. exists e.
    unfold removeAllObjectRefsFromLocation. by apply bind_throw.
Qed.

(** ** The dynamic layer and the references *)

Lemma dynamicValue_same l p e :
  match e with
  | PF_new _ | PF_destroy | PF_setDynamicCell _ _ _ => False
  | _ => True
  end ->
  dynamicValue (l ++ [e]) p = dynamicValue l p.
Proof.
  unfold dynamicValue, lastDynamic. rewrite foldl_app. simpl.
  by destruct e.
Qed.

Lemma dynamicValue_set l p c r w :
  dynamicValue (l ++ [PF_setDynamicCell c r w]) p
  = if bool_decide (p = mkPos c r) then w else dynamicValue l p.
Proof.
  unfold dynamicValue, lastDynamic. rewrite foldl_app. simpl.
  destruct p as [pc pr]. simpl.
  destruct (decide (c = pc /\ r = pr)) as [[-> ->]|Hne].
  - rewrite !bool_decide_eq_true_2 by done. done.
  - rewrite !bool_decide_eq_false_2; [done| |done].
    intros [= -> ->]. by apply Hne.
Qed.

Lemma allMovableTo_objects s s' a :
  (forall x, x ∈ a ->
     ObjectView.isMovableTo (objects s' x)
     = ObjectView.isMovableTo (objects s x)) ->
  allMovableTo s' a = allMovableTo s a.
Proof.
  intros H. unfold allMovableTo. induction a as [|x a IH]; simpl; [done|].
  rewrite H by left. rewrite IH; [done|]. intros y Hy. apply H. by right.
Qed.

Lemma allMovableTo_false s a x :
  x ∈ a -> ObjectView.isMovableTo (objects s x) = false ->
  allMovableTo s a = false.
Proof.
  intros Hx Hm. unfold allMovableTo. apply not_true_is_false. intros H.
  rewrite List.forallb_forall in H. specialize (H x).
  rewrite Hm in H. assert (false = true); [|done].
  apply H. by apply list_elem_of_In.
Qed.

Lemma allMovableTo_app s a b :
  allMovableTo s (a ++ b) = allMovableTo s a && allMovableTo s b.
Proof. apply forallb_app. Qed.

(** One cell changes, and the pathfinder is told what the cell then asks
    for, or is told nothing when the cell asks for what it asked before. *)
Lemma mirrors_cell s s' pos v evs :
  mirrors s -> sameButRefs s s' -> cellSetTo s s' pos v ->
  log s' = log s ++ evs ->
  (evs = [] /\ allMovableTo s (default [] v) = allMovableTo s (refs s pos)) \/
  evs = [PF_setDynamicCell (pos_c pos) (pos_r pos)
           (if allMovableTo s (default [] v) then 1 else 0)] ->
  mirrors s'.
Proof.
  intros Hm Hsame (Hc1 & Hc2 & _) Hlog Hevs p.
  assert (Hobj : objects s' = objects s) by apply Hsame.
  assert (Hall : forall a, allMovableTo s' a = allMovableTo s a).
  { intros a. apply allMovableTo_objects. intros x _. by rewrite Hobj. }
  unfold wanted. rewrite Hall, Hlog.
  destruct (decide (p = pos)) as [->|Hne].
  - unfold refs at 1. rewrite Hc1.
    destruct Hevs as [[-> Heq] | ->].
    + rewrite app_nil_r, Heq. apply Hm.
    + rewrite dynamicValue_set, mkPos_eta.
      by rewrite bool_decide_eq_true_2.
  - unfold refs at 1. rewrite (Hc2 p Hne). fold (refs s p).
    destruct Hevs as [[-> _] | ->].
    + rewrite app_nil_r. apply Hm.
    + rewrite dynamicValue_set, mkPos_eta.
      rewrite bool_decide_eq_false_2 by done. apply Hm.
Qed.

Lemma served_addObjRefToSingleLocation obj pos :
  preserves (@served TileData ObjData) (addObjRefToSingleLocation obj pos).
Proof.
  intros s [Hm Hpf].
  destruct (addObjRefToSingleLocation_cases obj pos s Hpf)
    as [[e ->] | (s' & -> & Hlog & Hsame & Hcell)]; [done|].
  split.
  - apply (mirrors_cell s s' pos _ _ Hm Hsame Hcell Hlog).
    rewrite refs_addedTo. fold (refs s pos).
    destruct (ObjectView.isMovableTo (objects s obj)) eqn:Hmov.
    + left. split; [done|]. case_bool_decide; [done|].
      rewrite allMovableTo_app. unfold allMovableTo at 2. simpl.
      by rewrite Hmov, !andb_true_r.
    + right. case_bool_decide as Hin.
      * by rewrite (allMovableTo_false s _ obj Hin Hmov).
      * rewrite allMovableTo_app. unfold allMovableTo at 2. simpl.
        by rewrite Hmov, andb_false_r.
  - replace (pathFinding s') with (pathFinding s); [done|].
    symmetry. apply Hsame.
Qed.

Lemma served_removeObjRefFromSingleLocation obj pos :
  preserves (@served TileData ObjData)
    (removeObjRefFromSingleLocation obj pos).
Proof.
  intros s [Hm Hpf].
  destruct (removeObjRefFromSingleLocation_cases obj pos s Hpf)
    as [[e ->] | [[-> _] | (s' & -> & Hlog & Hsame & Hcell)]];
    [done|done|].
  split.
  - apply (mirrors_cell s s' pos _ _ Hm Hsame Hcell Hlog).
    right. by rewrite refs_removedFrom.
  - replace (pathFinding s') with (pathFinding s); [done|].
    symmetry. apply Hsame.
Qed.

Lemma served_removeAllObjectRefsFromLocation pos :
  preserves (@served TileData ObjData) (removeAllObjectRefsFromLocation pos).
Proof.
  intros s [Hm Hpf].
  destruct (removeAllObjectRefsFromLocation_cases pos s Hpf)
    as [[e ->] | [[-> _] | (s' & -> & Hlog & Hsame & Hcell)]];
    [done|done|].
  split.
  - apply (mirrors_cell s s' pos _ _ Hm Hsame Hcell Hlog). by right.
  - replace (pathFinding s') with (pathFinding s); [done|].
    symmetry. apply Hsame.
Qed.

(** ** Walking through the movement methods

    A property is kept by the movement of the objects in [touches] when it
    is kept by the calls they make on their own, by the changes they make
    to the record of such an object, and by [arrangeObjLocation] on such an
    object. *)

Lemma preserves_idle {A} (P : EngineView -> Prop) (m : M A) :
  (forall s, (m s).2 = s) -> preserves P m.
Proof.
  intros H s HP. specialize (H s).
  destruct (m s) as [[a|e|] s']; simpl in H; by subst.
Qed.

Lemma preserves_never {A B} (P : EngineView -> Prop) (m : M A)
    (k : A -> M B) :
  (forall s, exists e, m s = (Throw e, s)) -> preserves P (bind m k).
Proof.
  intros H s HP. destruct (H s) as [e He].
  by rewrite (bind_throw m k s e s He).
Qed.

Lemma deref_idle {A} what (x : option A) (s : EngineView) :
  (deref what x s).2 = s.
Proof. by destruct x. Qed.

Lemma tileCell_idle r c (s : EngineView) : (tileCell r c s).2 = s.
Proof.
  unfold tileCell, bind, get, deref, ret, throw. simpl.
  destruct (tileArray s) as [rows|]; simpl; [|done].
  by destruct (rows !! r).
Qed.

Lemma objCell_idle pos (s : EngineView) : (objCell pos s).2 = s.
Proof.
  unfold objCell, bind, get, deref, ret, throw. simpl.
  destruct (objArray s) as [rows|]; simpl; [|done].
  by destruct (rows !! pos_r pos).
Qed.

Lemma preserves_under {A} (P Q : EngineView -> Prop) (m : M A) :
  preserves P m -> triple (fun t => P t /\ Q t) m (fun _ => P) P.
Proof.
  intros Hm. apply (triple_weaken P _ _ (fun _ => P) (fun _ => P) P P);
    [by intros t [HPt _]|done|done|exact Hm].
Qed.

Section Walk.

Context (P : EngineView -> Prop) (touches : nat -> Prop).
Context (Hemit : forall e, movementEvent e -> preserves P (emit e)).
Context (Hupd : forall obj g, touches obj -> movementUpdate X g ->
                  preserves P (updateObj obj g)).
Context (Harr : forall obj pos, touches obj ->
                  preserves P (arrangeObjLocation obj pos)).
Context (Htrans : forall obj prevPos pos cfg, touches obj ->
                    instantObjectRelocation cfg = true ->
                    triple (fun t => P t /\ config t = Some cfg)
                      (arrangeObjTransperancies obj prevPos pos)
                      (fun _ => P) P).

Ltac walk_step :=
  lazymatch goal with
  | |- preserves _ (ret _) => apply preserves_ret
  | |- preserves _ get => apply preserves_get
  | |- preserves _ (throw _) => apply preserves_throw
  | |- preserves _ diverge => apply preserves_diverge
  | |- preserves _ (deref _ _) => apply preserves_deref
  | |- preserves _ (emit _) => apply Hemit; exact I
  | |- preserves _ (updateObj _ _) =>
      apply Hupd; [assumption|constructor]
  | |- preserves _ (readObj _) => unfold readObj
  | |- preserves _ thePathFinding => unfold thePathFinding
  | |- preserves _ theMoveEngine => unfold theMoveEngine
  | |- preserves _ theConfig => unfold theConfig
  | |- preserves _ (objCell _) => unfold objCell
  | |- preserves _ (tileCell _ _) => unfold tileCell
  | |- preserves _ (when _ _) => apply preserves_when
  | |- preserves _ (forUp _ _ _) => apply preserves_forUp; intros ?
  | |- preserves _ (forDown _ _ _) => apply preserves_forDown; intros ?
  | |- preserves _ (forEach _ _) => apply preserves_forEach; intros ?
  | |- preserves _ (stopObject _) => apply preserves_throw
  | |- preserves _ (bind (stopObject _) _) =>
      apply preserves_never; intros ?; eexists; reflexivity
  | |- preserves _ (bind _ _) => apply preserves_bind; [|intros ?]
  | |- preserves _ (match ?x with _ => _ end) => destruct x
  end.

Ltac walk := repeat walk_step.

Lemma walk_isCellFilled c r : preserves P (pathFinding_isCellFilled X c r).
Proof. unfold pathFinding_isCellFilled. walk. Qed.

Lemma walk_solve a1 a2 a3 a4 : preserves P (pathFinding_solve X a1 a2 a3 a4).
Proof. unfold pathFinding_solve. walk. Qed.

Lemma walk_getAdjacentOpenCells c r cs rs :
  preserves P (pathFinding_getAdjacentOpenCells X c r cs rs).
Proof. unfold pathFinding_getAdjacentOpenCells. walk. Qed.

Lemma walk_getPath from to : preserves P (getPath X from to).
Proof. unfold getPath. walk. apply walk_solve. Qed.

Lemma walk_removeMovable obj : preserves P (moveEngine_removeMovable obj).
Proof. unfold moveEngine_removeMovable. walk. Qed.

Lemma walk_addMovable obj : preserves P (moveEngine_addMovable obj).
Proof. unfold moveEngine_addMovable. walk. Qed.

Lemma walk_prepareForMove obj path speed :
  touches obj -> preserves P (moveEngine_prepareForMove X obj path speed).
Proof. intros Ht. unfold moveEngine_prepareForMove. walk. Qed.

Lemma walk_setMoveParameters obj pos :
  touches obj -> preserves P (moveEngine_setMoveParameters X obj pos).
Proof. intros Ht. unfold moveEngine_setMoveParameters. walk. Qed.

Lemma walk_arrangeDepthsFromLocation pos :
  preserves P (arrangeDepthsFromLocation pos).
Proof. unfold arrangeDepthsFromLocation. walk. Qed.

Lemma walk_arrangePathHighlight cp np :
  preserves P (arrangePathHighlight cp np).
Proof. unfold arrangePathHighlight, setHighlighted. walk. Qed.

Lemma walk_f obj : touches obj -> preserves P (f obj).
Proof. intros Ht. unfold f. walk. apply walk_removeMovable. Qed.

Lemma walk_checkAndMove_body move obj pos speed :
  (forall p sp, preserves P (move obj p sp)) ->
  preserves P (checkAndMoveObjectToLocation_body X move obj pos speed).
Proof.
  intros Hm. unfold checkAndMoveObjectToLocation_body.
  walk; try apply walk_getPath. apply Hm.
Qed.

Lemma walk_stepBegin_body check obj pos :
  touches obj ->
  (forall p sp, preserves P (check obj p sp)) ->
  preserves P (onObjMoveStepBegin_body X check obj pos).
Proof.
  intros Ht Hc. unfold onObjMoveStepBegin_body.
  walk; first [ apply walk_isCellFilled
              | by apply walk_setMoveParameters
              | apply walk_addMovable
              | apply walk_removeMovable
              | apply Hc ].
Qed.

Lemma walk_moveObjThrough_body begin obj path speed :
  touches obj ->
  (forall p, preserves P (begin obj p)) ->
  preserves P (moveObjThrough_body X begin obj path speed).
Proof.
  intros Ht Hb. unfold moveObjThrough_body.
  apply (triple_bind _ _ (fun cfg t => P t /\ config t = Some cfg)).
  { intros t HPt. unfold theConfig, bind, get, deref. simpl.
    destruct (config t) eqn:E; simpl; done. }
  intros cfg. destruct (instantObjectRelocation cfg) eqn:Hinstant.
  - pose (Q := fun t : EngineView => P t /\ config t = Some cfg).
    assert (Hout : forall A (m : M A),
              triple Q m (fun _ => Q) Q -> triple Q m (fun _ => Q) P).
    { intros A m Hm. eapply triple_weaken; [| | |exact Hm]; try done.
      by intros t [HPt _]. }
    assert (Hidle : forall A (m : M A),
              (forall t, (m t).2 = t) -> triple Q m (fun _ => Q) P).
    { intros A m Hm. by apply Hout, preserves_idle. }
    eapply triple_bind; [apply Hidle, deref_idle|].
    intros first. eapply triple_bind; [apply Hidle, tileCell_idle|].
    intros cell. eapply triple_bind; [apply Hidle, deref_idle|].
    intros tile. eapply triple_bind; [by apply Hidle|].
    intros o. eapply triple_bind; [by apply Htrans|].
    intros u. apply preserves_bind; [by apply Harr|].
    intros _. apply walk_arrangeDepthsFromLocation.
  - apply preserves_under.
    walk; first [ apply walk_arrangePathHighlight
                | by apply walk_prepareForMove
                | apply Hb ].
Qed.

Lemma walk_moveObjThrough fuel obj path speed :
  touches obj -> preserves P (moveObjThrough X fuel obj path speed).
Proof.
  intros Ht. revert path speed.
  induction fuel as [|fuel IH]; intros path speed.
  - apply preserves_diverge.
  - simpl. apply walk_moveObjThrough_body; [done|]. intros p.
    apply walk_stepBegin_body; [done|]. intros p' sp.
    apply walk_checkAndMove_body. exact IH.
Qed.

Lemma walk_checkAndMoveObjectToLocation fuel obj pos speed :
  touches obj ->
  preserves P (checkAndMoveObjectToLocation X fuel obj pos speed).
Proof.
  intros Ht. apply walk_checkAndMove_body. intros.
  by apply walk_moveObjThrough.
Qed.

Lemma walk_onObjMoveStepBegin fuel obj pos :
  touches obj -> preserves P (onObjMoveStepBegin X fuel obj pos).
Proof.
  intros Ht. apply walk_stepBegin_body; [done|]. intros.
  by apply walk_checkAndMoveObjectToLocation.
Qed.

Lemma walk_onObjMoveStepEnd fuel obj :
  touches obj -> preserves P (onObjMoveStepEnd X fuel obj).
Proof.
  intros Ht. unfold onObjMoveStepEnd, continueAlongPath, closeStep.
  walk; first [ apply walk_removeMovable
              | by apply walk_checkAndMoveObjectToLocation
              | by apply walk_moveObjThrough ].
Qed.

Lemma walk_checkAndMoveObjectToTile fuel obj tile speed :
  touches obj ->
  preserves P (checkAndMoveObjectToTile X fuel obj tile speed).
Proof.
  intros Ht. unfold checkAndMoveObjectToTile. walk.
  by apply walk_checkAndMoveObjectToLocation.
Qed.

(** The methods that move the controllable, whichever object it is. *)
Section Controllable.

Context (Hall : forall obj, touches obj).

Lemma walk_moveCurrentControllableToLocation fuel pos speed :
  preserves P (moveCurrentControllableToLocation X fuel pos speed).
Proof.
  unfold moveCurrentControllableToLocation. walk.
  by apply walk_checkAndMoveObjectToLocation.
Qed.

Lemma walk_approachLoop fuel cells minLength minPath :
  preserves P (approachLoop X fuel cells minLength minPath).
Proof.
  revert minLength minPath.
  induction cells as [|cell rest IH]; intros minLength minPath;
    cbn [approachLoop].
  - apply preserves_ret.
  - walk; first [ apply IH | apply walk_getPath
                | apply walk_arrangePathHighlight ].
Qed.

Lemma walk_moveCurrentControllableToObj fuel obj speed :
  preserves P (moveCurrentControllableToObj X fuel obj speed).
Proof.
  unfold moveCurrentControllableToObj, approachAdjacentCell.
  walk; first [ by apply walk_checkAndMoveObjectToLocation
              | apply walk_getAdjacentOpenCells
              | apply walk_approachLoop
              | by apply walk_moveObjThrough ].
Qed.

End Controllable.

End Walk.

(** A property is kept by the arrangement of the transparencies around
    [obj] when it is kept by the change of the alpha of an object that is
    neither a floor object nor marked [noTransparency] to 1 or to 0.7, and
    by setting the alpha of [obj] to 1. *)
Section Fading.

Context (P : EngineView -> Prop).
Context (Hfade : forall x value, value = 1%Q \/ value = 0.7%Q ->
           preserves P
             (bind (readObj x) (fun o =>
                when (negb (ObjectView.isFloorObject o)
                      && negb (ObjectView.noTransparency o))
                  (updateObj x (ObjectView.set_alpha value))))).
Context (obj : nat).
Context (Hself : preserves P (updateObj obj (ObjectView.set_alpha 1))).

Lemma fading_changeObjAlphasInLocation value pos :
  value = 1%Q \/ value = 0.7%Q ->
  preserves P (changeObjAlphasInLocation value pos).
Proof.
  intros Hv. unfold changeObjAlphasInLocation.
  apply preserves_bind; [apply preserves_idle, objCell_idle|].
  intros [a|]; [|apply preserves_ret].
  apply preserves_forEach. intros x. by apply Hfade.
Qed.

Lemma fading_arrangeObjTransperancies prevPos pos :
  preserves P (arrangeObjTransperancies obj prevPos pos).
Proof.
  unfold arrangeObjTransperancies.
  apply preserves_bind.
  { apply preserves_idle. intros t. unfold theConfig, bind, get, deref.
    simpl. by destruct (config t). }
  intros cfg. apply preserves_when.
  apply preserves_bind; [apply preserves_get|]. intros t.
  apply preserves_bind; [|intros _; exact Hself].
  apply preserves_when.
  repeat (apply preserves_bind;
          [apply preserves_when, fading_changeObjAlphasInLocation; auto
          |intros _]).
  apply preserves_when, fading_changeObjAlphasInLocation; auto.
Qed.

End Fading.

Lemma preserves_overFootprint_any (P : EngineView -> Prop) obj pos body :
  (forall p, preserves P (body p)) -> preserves P (overFootprint obj pos body).
Proof.
  intros Hb. unfold overFootprint.
  apply preserves_bind; [by apply preserves_idle|]. intros o.
  apply preserves_forUp. intros k. apply preserves_forDown. intros m.
  apply Hb.
Qed.

Lemma preserves_loops_idle lo hi lo' hi' (body : Z -> Z -> M unit) s :
  (forall i j t, (body i j t).2 = t) ->
  (forUp lo hi (fun i => forDown hi' lo' (fun j => body i j)) s).2 = s.
Proof.
  intros Hb.
  assert (Hdown : forall n m i t,
            (forDownFrom n m (fun j => body i j) t).2 = t).
  { induction n as [|n IH]; intros m i t; simpl; [done|].
    unfold bind at 1. specialize (Hb i m t).
    destruct (body i m t) as [[[]|e|] t']; simpl in Hb; subst; [|done|done].
    apply IH. }
  unfold forUp. generalize (Z.to_nat (hi - lo)). intros n. revert lo s.
  induction n as [|n IH]; intros lo s; simpl; [done|].
  unfold bind at 1. unfold forDown. specialize (Hdown (Z.to_nat (hi' - lo')) hi' lo s).
  destruct (forDownFrom _ _ _ s) as [[[]|e|] t']; simpl in Hdown; subst;
    [|done|done].
  apply IH.
Qed.

(** ** The dynamic layer mirrors the references *)

Lemma served_emit e :
  movementEvent e -> preserves (@served TileData ObjData) (emit e).
Proof.
  intros He s [Hm Hpf]. simpl. split; [|done].
  intros p. simpl. rewrite dynamicValue_same; [apply Hm|].
  by destruct e.
Qed.

Lemma served_updateObj obj g :
  (forall o, ObjectView.isMovableTo (g o) = ObjectView.isMovableTo o) ->
  preserves (@served TileData ObjData) (updateObj obj g).
Proof.
  intros Hg s [Hm Hpf]. simpl. split; [|done].
  intros p. unfold wanted. simpl.
  change (refs (set_objects _ _ s) p) with (refs s p).
  rewrite (allMovableTo_objects s); [apply Hm|].
  intros x _. simpl. destruct (decide (x = obj)) as [->|Hne].
  - by rewrite fn_lookup_insert, Hg.
  - by rewrite fn_lookup_insert_ne.
Qed.

Lemma served_arrangeObjTransperancies obj prevPos pos :
  preserves (@served TileData ObjData)
    (arrangeObjTransperancies obj prevPos pos).
Proof.
  apply fading_arrangeObjTransperancies.
  - intros x value _. apply preserves_bind; [by apply preserves_idle|].
    intros o. apply preserves_when. by apply served_updateObj.
  - by apply served_updateObj.
Qed.

Lemma served_addObjRefToLocation obj pos :
  preserves (@served TileData ObjData) (addObjRefToLocation obj pos).
Proof.
  apply preserves_overFootprint_any. intros p.
  apply served_addObjRefToSingleLocation.
Qed.

Lemma served_removeObjRefFromLocation obj pos :
  preserves (@served TileData ObjData) (removeObjRefFromLocation obj pos).
Proof.
  apply preserves_overFootprint_any. intros p.
  apply served_removeObjRefFromSingleLocation.
Qed.

Lemma served_arrangeObjLocation obj pos :
  preserves (@served TileData ObjData) (arrangeObjLocation obj pos).
Proof.
  unfold arrangeObjLocation.
  apply preserves_bind; [by apply preserves_idle|]. intros o.
  apply preserves_bind; [apply served_removeObjRefFromLocation|]. intros _.
  apply preserves_bind; [apply served_addObjRefToLocation|]. intros _.
  by apply served_updateObj.
Qed.

Lemma arrangeDepthsFromLocation_idle pos s :
  (arrangeDepthsFromLocation pos s).2 = s.
Proof.
  unfold arrangeDepthsFromLocation. unfold bind at 1, get. cbv beta iota.
  apply preserves_loops_idle. intros i j t.
  unfold objCell. unfold bind, get, deref, ret, throw. simpl.
  destruct (objArray t) as [rows|]; simpl; [|done].
  by destruct (rows !! i).
Qed.

Lemma served_addObjectToLocation obj pos :
  preserves (@served TileData ObjData) (addObjectToLocation obj pos).
Proof.
  unfold addObjectToLocation.
  apply preserves_bind; [by apply served_updateObj|]. intros _.
  apply preserves_bind; [by apply preserves_idle|]. intros o.
  apply preserves_bind; [apply served_addObjRefToLocation|]. intros _.
  apply preserves_bind; [apply preserves_get|]. intros t.
  apply preserves_bind; [by apply preserves_idle|]. intros o'.
  apply preserves_bind; [|intros _; apply preserves_ret].
  apply preserves_idle. intros t'. apply arrangeDepthsFromLocation_idle.
Qed.

Lemma served_removeObjectFromLocation obj pos :
  preserves (@served TileData ObjData) (removeObjectFromLocation obj pos).
Proof.
  unfold removeObjectFromLocation.
  apply preserves_bind; [by apply preserves_idle|]. intros o.
  apply served_removeObjRefFromLocation.
Qed.

(** X6. The dynamic layer mirrors the references: when the value last
    passed to [setDynamicCell] for every cell (1 for a cell never written
    since the pathfinder was made) is 0 exactly where the cell references an
    object that cannot be moved onto, this is so again after every method
    that adds, removes or moves references, however the method ends. *)
Theorem dynamic_layer_mirrors_references s :
  mirrors s -> is_Some (pathFinding s) ->
  (forall obj pos,
     mirrors (addObjRefToSingleLocation obj pos s).2 /\
     mirrors (removeObjRefFromSingleLocation obj pos s).2 /\
     mirrors (addObjRefToLocation obj pos s).2 /\
     mirrors (removeObjRefFromLocation obj pos s).2 /\
     mirrors (arrangeObjLocation obj pos s).2 /\
     mirrors (addObjectToLocation obj pos s).2) /\
  (forall obj pos, mirrors (removeObjectFromLocation obj pos s).2) /\
  (forall pos, mirrors (removeAllObjectRefsFromLocation pos s).2).
Proof.
  intros Hm Hpf.
  assert (Hs : served s) by done.
  assert (Hrun : forall A (m : M A), preserves served m -> mirrors (m s).2).
  { intros A m Hp. by apply (preserves_run served m s Hp). }
  split; [|split].
  - intros obj pos. repeat split; apply Hrun.
    + apply served_addObjRefToSingleLocation.
    + apply served_removeObjRefFromSingleLocation.
    + apply served_addObjRefToLocation.
    + apply served_removeObjRefFromLocation.
    + apply served_arrangeObjLocation.
    + apply served_addObjectToLocation.
  - intros obj pos. apply Hrun, served_removeObjectFromLocation.
  - intros pos. apply Hrun, served_removeAllObjectRefsFromLocation.
Qed.

(** The same for the movement methods, which move references when objects
    are relocated at once, when the move engine leaves [isMovableTo] as it
    is. *)
Section Gentle.

Context (Hprepare : forall o path speed,
           ObjectView.isMovableTo (prepareForMove_effect X o path speed)
           = ObjectView.isMovableTo o).
Context (Hparameters : forall o pos,
           ObjectView.isMovableTo (setMoveParameters_effect X o pos)
           = ObjectView.isMovableTo o).

Lemma served_movementUpdate obj g :
  movementUpdate X g -> preserves (@served TileData ObjData) (updateObj obj g).
Proof.
  intros Hg. apply served_updateObj. intros o.
  destruct Hg; simpl; auto.
Qed.

(** X7. The movement methods keep the dynamic layer mirroring the
    references too, provided the move engine does not change whether an
    object can be moved onto. *)
Theorem movement_keeps_dynamic_layer fuel s :
  mirrors s -> is_Some (pathFinding s) ->
  (forall obj path speed, mirrors (moveObjThrough X fuel obj path speed s).2) /\
  (forall obj pos speed,
     mirrors (checkAndMoveObjectToLocation X fuel obj pos speed s).2) /\
  (forall obj pos, mirrors (onObjMoveStepBegin X fuel obj pos s).2) /\
  (forall obj, mirrors (onObjMoveStepEnd X fuel obj s).2) /\
  (forall obj tile speed,
     mirrors (checkAndMoveObjectToTile X fuel obj tile speed s).2) /\
  (forall pos speed,
     mirrors (moveCurrentControllableToLocation X fuel pos speed s).2) /\
  (forall obj speed,
     mirrors (moveCurrentControllableToObj X fuel obj speed s).2).
Proof.
  intros Hm Hpf.
  assert (Hs : served s) by done.
  assert (Hrun : forall A (m : M A), preserves served m -> mirrors (m s).2).
  { intros A m Hp. by apply (preserves_run served m s Hp). }
  pose proof served_emit as He.
  assert (Hu : forall obj g, True -> movementUpdate X g ->
                 preserves (@served TileData ObjData) (updateObj obj g))
    by (intros obj g _; apply served_movementUpdate).
  assert (Ha : forall obj pos, True ->
                 preserves (@served TileData ObjData)
                   (arrangeObjLocation obj pos))
    by (intros obj pos _; apply served_arrangeObjLocation).
  assert (Ht : forall obj prevPos pos cfg, True ->
                 instantObjectRelocation cfg = true ->
                 triple (fun t => served t /\ config t = Some cfg)
                   (arrangeObjTransperancies obj prevPos pos)
                   (fun _ => @served TileData ObjData) served)
    by (intros obj prevPos pos cfg _ _;
        apply preserves_under, served_arrangeObjTransperancies).
  repeat split; intros; apply Hrun.
  - by apply (walk_moveObjThrough served (fun _ => True)).
  - by apply (walk_checkAndMoveObjectToLocation served (fun _ => True)).
  - by apply (walk_onObjMoveStepBegin served (fun _ => True)).
  - by apply (walk_onObjMoveStepEnd served (fun _ => True)).
  - by apply (walk_checkAndMoveObjectToTile served (fun _ => True)).
  - by apply (walk_moveCurrentControllableToLocation served (fun _ => True)).
  - by apply (walk_moveCurrentControllableToObj served (fun _ => True)).
Qed.

End Gentle.

(** ** Moving one object leaves the others alone *)

Lemma fadedOnly_refl o : fadedOnly o o.
Proof. by left. Qed.

Lemma fadedOnly_fade o o' value :
  value = 1%Q \/ value = 0.7%Q ->
  ObjectView.isFloorObject o' = false ->
  ObjectView.noTransparency o' = false ->
  fadedOnly o o' -> fadedOnly o (ObjectView.set_alpha value o').
Proof.
  intros Hv Hfloor Hnt [-> | (H1 & H2 & [-> | ->])]; right;
    (split; [done|split; [done|]]); destruct Hv as [-> | ->]; auto.
Qed.

Lemma movedOnly_refl obj s : movedOnly obj s s.
Proof.
  unfold movedOnly. split_and!; try done.
  - intros x _. apply fadedOnly_refl.
  - exists []. by rewrite app_nil_r.
Qed.

Section Frame.

Context (s0 : EngineView) (obj0 : nat).
Context (Hlive : is_Some (pathFinding s0)).

Lemma movedOnly_emit e :
  quietEvent e -> preserves (movedOnly obj0 s0) (emit e).
Proof.
  intros He t Ht. simpl.
  destruct Ht as (H1 & H2 & H3 & H4 & H5 & H6 & H7 & H8 & H9 & [H10 H10']
                  & H11 & evs & Hlog & Hq).
  unfold movedOnly. split_and!; try done.
  exists (evs ++ [e]). simpl. rewrite Hlog, app_assoc. split; [done|].
  apply Forall_app. split; [done|]. by apply Forall_singleton.
Qed.

Lemma movedOnly_updateObj g :
  preserves (movedOnly obj0 s0) (updateObj obj0 g).
Proof.
  intros t Ht. simpl.
  destruct Ht as (H1 & H2 & H3 & H4 & H5 & H6 & H7 & H8 & H9 & [H10 H10']
                  & H11 & Hlog).
  unfold movedOnly. split_and!; try done.
  - intros x Hx. simpl. rewrite fn_lookup_insert_ne by done. by apply H10.
  - intros Hcalm x Hx. simpl. rewrite fn_lookup_insert_ne by done.
    by apply H10'.
Qed.

(** Where the transparencies are arranged around [obj0], the alpha of
    another object may change. *)
Lemma movedOnly_fade x value :
  relocatesWithTransparency s0 obj0 = true ->
  value = 1%Q \/ value = 0.7%Q ->
  preserves (movedOnly obj0 s0)
    (bind (readObj x) (fun o =>
       when (negb (ObjectView.isFloorObject o)
             && negb (ObjectView.noTransparency o))
         (updateObj x (ObjectView.set_alpha value)))).
Proof.
  intros Hrel Hv. destruct (decide (x = obj0)) as [->|Hne].
  { apply preserves_bind; [by apply preserves_idle|]. intros o.
    apply preserves_when, movedOnly_updateObj. }
  intros t Ht. unfold bind at 1, readObj, bind at 1, get, ret. cbv beta iota.
  destruct (negb (ObjectView.isFloorObject (objects t x))
            && negb (ObjectView.noTransparency (objects t x))) eqn:Hguard;
    [|exact Ht].
  apply andb_true_iff in Hguard as [Hfloor Hnt].
  apply negb_true_iff in Hfloor, Hnt. simpl.
  destruct Ht as (H1 & H2 & H3 & H4 & H5 & H6 & H7 & H8 & H9 & [H10 H10']
                  & H11 & Hlog).
  unfold movedOnly. split_and!; try done.
  - intros y Hy. simpl. destruct (decide (y = x)) as [->|Hyx].
    + rewrite fn_lookup_insert. apply fadedOnly_fade; auto.
    + rewrite fn_lookup_insert_ne by done. by apply H10.
  - intros Hcalm. congruence.
Qed.

(** Elsewhere it does not. *)
Lemma movedOnly_arrangeObjTransperancies prevPos pos cfg :
  instantObjectRelocation cfg = true ->
  triple (fun t => movedOnly obj0 s0 t /\ config t = Some cfg)
    (arrangeObjTransperancies obj0 prevPos pos)
    (fun _ => movedOnly obj0 s0) (movedOnly obj0 s0).
Proof.
  intros Hi. destruct (relocatesWithTransparency s0 obj0) eqn:Hrel.
  { apply preserves_under, fading_arrangeObjTransperancies.
    - intros x value Hv. by apply movedOnly_fade.
    - apply movedOnly_updateObj. }
  intros t [Ht Hcfg].
  assert (Hquiet : changeTransperancies cfg = true ->
                   currentControllable t <> Some obj0).
  { intros Hc Hcc. unfold relocatesWithTransparency in Hrel.
    destruct Ht as (H1 & _ & _ & _ & _ & _ & _ & H8 & _).
    rewrite <- H1, Hcfg, Hi, Hc, <- H8 in Hrel. simpl in Hrel.
    by rewrite bool_decide_eq_true_2 in Hrel. }
  unfold arrangeObjTransperancies.
  erewrite bind_val by (by apply theConfig_run).
  destruct (changeTransperancies cfg) eqn:Hc; [|exact Ht].
  cbn [when]. unfold bind at 1, get. cbv beta iota.
  rewrite bool_decide_eq_false_2 by auto. cbn [when].
  erewrite bind_val by reflexivity.
  by apply (movedOnly_updateObj (ObjectView.set_alpha 1) t).
Qed.


Lemma movedOnly_cell t t' pos v evs :
  movedOnly obj0 s0 t -> sameButRefs t t' -> cellSetTo t t' pos v ->
  (forall x, x <> obj0 -> x ∈ default [] v <-> x ∈ refs t pos) ->
  log t' = log t ++ evs -> Forall quietEvent evs ->
  movedOnly obj0 s0 t'.
Proof.
  intros (H1 & H2 & H3 & H4 & H5 & H6 & H7 & H8 & H9 & [H10 H10'] & H11
          & evs0 & Hlog0 & Hq0)
         (S1 & S2 & S3 & S4 & S5 & S6 & S7 & S8 & S9 & S10)
         (Hc1 & Hc2 & _) Hv Hlog Hq.
  unfold movedOnly. split_and!; try congruence.
  - intros x Hx. rewrite S9. by apply H10.
  - intros Hcalm x Hx. rewrite S9. by apply H10'.
  - intros x p Hx. rewrite <- (H11 x p Hx). unfold refs at 1.
    destruct (decide (p = pos)) as [->|Hne].
    + rewrite Hc1. by apply Hv.
    + by rewrite (Hc2 p Hne).
  - exists (evs0 ++ evs). rewrite Hlog, Hlog0, app_assoc. split; [done|].
    by apply Forall_app.
Qed.

Lemma movedOnly_live t : movedOnly obj0 s0 t -> is_Some (pathFinding t).
Proof.
  intros (_ & _ & _ & _ & _ & H6 & _). by rewrite H6.
Qed.

Lemma movedOnly_addObjRefToSingleLocation pos :
  preserves (movedOnly obj0 s0) (addObjRefToSingleLocation obj0 pos).
Proof.
  intros t Ht.
  destruct (addObjRefToSingleLocation_cases obj0 pos t (movedOnly_live t Ht))
    as [[e ->] | (t' & -> & Hlog & Hsame & Hcell)]; [done|].
  eapply movedOnly_cell; [exact Ht|exact Hsame|exact Hcell| |exact Hlog|].
  - intros x Hx. rewrite refs_addedTo. fold (refs t pos).
    case_bool_decide; [done|].
    rewrite elem_of_app, list_elem_of_singleton. split; [|auto].
    intros [H'|H']; [done|congruence].
  - destruct (ObjectView.isMovableTo (objects t obj0)); [constructor|].
    by apply Forall_singleton.
Qed.

Lemma movedOnly_removeObjRefFromSingleLocation pos :
  preserves (movedOnly obj0 s0) (removeObjRefFromSingleLocation obj0 pos).
Proof.
  intros t Ht.
  destruct (removeObjRefFromSingleLocation_cases obj0 pos t
              (movedOnly_live t Ht))
    as [[e ->] | [[-> _] | (t' & -> & Hlog & Hsame & Hcell)]];
    [done|done|].
  eapply movedOnly_cell; [exact Ht|exact Hsame|exact Hcell| |exact Hlog|].
  - intros x Hx. rewrite refs_removedFrom. fold (refs t pos).
    by apply withoutFirst_other.
  - by apply Forall_singleton.
Qed.

Lemma movedOnly_arrangeObjLocation pos :
  preserves (movedOnly obj0 s0) (arrangeObjLocation obj0 pos).
Proof.
  unfold arrangeObjLocation, addObjRefToLocation, removeObjRefFromLocation.
  apply preserves_bind; [by apply preserves_idle|]. intros o.
  apply preserves_bind.
  { apply preserves_overFootprint_any. intros p.
    apply movedOnly_removeObjRefFromSingleLocation. }
  intros _. apply preserves_bind.
  { apply preserves_overFootprint_any. intros p.
    apply movedOnly_addObjRefToSingleLocation. }
  intros _. apply movedOnly_updateObj.
Qed.

Lemma movedOnly_movementEvent e :
  movementEvent e -> preserves (movedOnly obj0 s0) (emit e).
Proof. intros He. apply movedOnly_emit. by destruct e. Qed.

Lemma movedOnly_touched obj g :
  obj = obj0 -> movementUpdate X g ->
  preserves (movedOnly obj0 s0) (updateObj obj g).
Proof. intros -> _. apply movedOnly_updateObj. Qed.

Lemma movedOnly_arranged obj pos :
  obj = obj0 -> preserves (movedOnly obj0 s0) (arrangeObjLocation obj pos).
Proof. intros ->. apply movedOnly_arrangeObjLocation. Qed.

Lemma movedOnly_transparencies obj prevPos pos cfg :
  obj = obj0 -> instantObjectRelocation cfg = true ->
  triple (fun t => movedOnly obj0 s0 t /\ config t = Some cfg)
    (arrangeObjTransperancies obj prevPos pos)
    (fun _ => movedOnly obj0 s0) (movedOnly obj0 s0).
Proof. intros ->. apply movedOnly_arrangeObjTransperancies. Qed.

Lemma standing_never {A} (P : EngineView -> Prop) (m : M unit) obj
    (k : unit -> M A) :
  preserves P m -> preserves P (bind m (fun _ => bind (stopObject obj) k)).
Proof.
  intros Hm. apply preserves_bind; [exact Hm|]. intros _.
  apply preserves_never. intros u. eexists. reflexivity.
Qed.

(** The loop over the adjacent cells moves the controllable. *)
Lemma movedOnly_approachLoop fuel cells :
  currentControllable s0 = Some obj0 ->
  forall minLength minPath,
    preserves (movedOnly obj0 s0) (approachLoop X fuel cells minLength minPath).
Proof.
  intros Hcc. induction cells as [|cell rest IH]; intros minLength minPath;
    cbn [approachLoop].
  - apply preserves_ret.
  - apply preserves_bind; [by apply preserves_idle; intros t; unfold tileCell,
      bind, get, deref, ret, throw; simpl; destruct (tileArray t) as [rows|];
      simpl; [destruct (rows !! _)|]|].
    intros [tile|]; [|apply IH].
    intros t Ht. unfold bind at 1, get. cbv beta iota.
    assert (Hct : currentControllable t = Some obj0).
    { destruct Ht as (_ & _ & _ & _ & _ & _ & _ & H8 & _). by rewrite H8. }
    rewrite Hct. simpl deref. erewrite bind_val by reflexivity.
    erewrite bind_val by reflexivity.
    destruct (bool_decide _ && bool_decide _).
    + refine (standing_never (movedOnly obj0 s0) _ _ _ _ t Ht).
      apply (walk_arrangePathHighlight (movedOnly obj0 s0)
               movedOnly_movementEvent).
    + pose proof (walk_getPath (movedOnly obj0 s0)
                    movedOnly_movementEvent
                    (ObjectView.mapPos (objects t obj0))
                    (TileView.mapPos tile) t Ht) as Hp.
      unfold bind at 1.
      destruct (getPath X _ _ t) as [[[p|]|e|] t1]; [| |exact Hp|exact Hp].
      * destruct (Z.of_nat (length p) <? minLength); by apply IH.
      * by apply IH.
Qed.

Lemma movedOnly_controllable {A} what (k : nat -> M A) :
  currentControllable s0 = Some obj0 ->
  preserves (movedOnly obj0 s0) (k obj0) ->
  preserves (movedOnly obj0 s0)
    (bind get (fun s => bind (deref what (currentControllable s)) k)).
Proof.
  intros Hcc Hk t Ht. unfold bind at 1, get. cbv beta iota.
  assert (Hct : currentControllable t = Some obj0).
  { destruct Ht as (_ & _ & _ & _ & _ & _ & _ & H8 & _). by rewrite H8. }
  rewrite Hct. simpl deref. erewrite bind_val by reflexivity.
  by apply Hk.
Qed.

Lemma movedOnly_moveObjThrough fuel path speed :
  preserves (movedOnly obj0 s0) (moveObjThrough X fuel obj0 path speed).
Proof.
  by apply (walk_moveObjThrough (movedOnly obj0 s0) (eq obj0)
              movedOnly_movementEvent
              (fun obj g H => movedOnly_touched obj g (eq_sym H))
              (fun obj pos H => movedOnly_arranged obj pos (eq_sym H))
              (fun obj prevPos pos cfg H =>
                 movedOnly_transparencies obj prevPos pos cfg (eq_sym H))).
Qed.

Lemma movedOnly_checkAndMoveObjectToLocation fuel pos speed :
  preserves (movedOnly obj0 s0)
    (checkAndMoveObjectToLocation X fuel obj0 pos speed).
Proof.
  by apply (walk_checkAndMoveObjectToLocation (movedOnly obj0 s0) (eq obj0)
              movedOnly_movementEvent
              (fun obj g H => movedOnly_touched obj g (eq_sym H))
              (fun obj pos H => movedOnly_arranged obj pos (eq_sym H))
              (fun obj prevPos pos cfg H =>
                 movedOnly_transparencies obj prevPos pos cfg (eq_sym H))).
Qed.

Lemma movedOnly_approachAdjacentCell fuel target speed :
  currentControllable s0 = Some obj0 ->
  preserves (movedOnly obj0 s0) (approachAdjacentCell X fuel target speed).
Proof.
  intros Hcc. unfold approachAdjacentCell.
  apply preserves_bind; [by apply preserves_idle|]. intros o.
  apply preserves_bind.
  { apply (walk_getAdjacentOpenCells (movedOnly obj0 s0)
             movedOnly_movementEvent). }
  intros cells. apply preserves_bind; [by apply movedOnly_approachLoop|].
  intros [b|[minPath|]]; [apply preserves_ret| |apply preserves_ret].
  apply movedOnly_controllable; [done|].
  apply preserves_bind; [apply movedOnly_moveObjThrough|]. intros _.
  apply preserves_ret.
Qed.

Lemma movedOnly_moveCurrentControllableToObj fuel target speed :
  currentControllable s0 = Some obj0 ->
  preserves (movedOnly obj0 s0)
    (moveCurrentControllableToObj X fuel target speed).
Proof.
  intros Hcc t Ht. unfold moveCurrentControllableToObj.
  unfold bind at 1, get. cbv beta iota.
  assert (Hct : currentControllable t = Some obj0).
  { destruct Ht as (_ & _ & _ & _ & _ & _ & _ & H8 & _). by rewrite H8. }
  rewrite Hct. erewrite bind_val by reflexivity.
  clear Hct. revert t Ht.
  change (preserves (movedOnly obj0 s0)
            (bind (readObj target) (fun o =>
               bind match ObjectView.currentInteractionOffset o with
                    | Some offset =>
                        bind (checkAndMoveObjectToLocation X fuel obj0
                                (interactionPoint o offset) speed)
                          (fun v => ret (truthy v))
                    | None => ret false
                    end
                 (fun moved : bool =>
                    if moved then ret true
                    else approachAdjacentCell X fuel target speed)))).
  apply preserves_bind; [by apply preserves_idle|]. intros o.
  apply preserves_bind.
  - destruct (ObjectView.currentInteractionOffset o); [|apply preserves_ret].
    apply preserves_bind; [apply movedOnly_checkAndMoveObjectToLocation|].
    intros v. apply preserves_ret.
  - intros [|]; [apply preserves_ret|].
    by apply movedOnly_approachAdjacentCell.
Qed.

End Frame.

(** X8. Moving an object leaves the rest of the engine alone: whatever
    [moveObjThrough], [checkAndMoveObjectToLocation], [onObjMoveStepBegin],
    [onObjMoveStepEnd] and [checkAndMoveObjectToTile] do for an object, and
    the two methods that move the controllable for the controllable, and
    however they end, they change neither the references to another object,
    nor the tiles, the configuration or the controllable; the log only
    grows, and by no construction, no destruction and no write of the static
    layer.  Of the record of another object they change at most the alpha,
    to 1 or to 0.7 and only for an object that is neither a floor object nor
    marked [noTransparency]; and they do not change it at all unless the
    object moved is the controllable, objects are relocated at once and
    [changeTransperancies] is set. *)
Theorem movement_touches_only_the_moved_object fuel s obj :
  is_Some (pathFinding s) ->
  (forall path speed,
     movedOnly obj s (moveObjThrough X fuel obj path speed s).2) /\
  (forall pos speed,
     movedOnly obj s (checkAndMoveObjectToLocation X fuel obj pos speed s).2) /\
  (forall pos, movedOnly obj s (onObjMoveStepBegin X fuel obj pos s).2) /\
  movedOnly obj s (onObjMoveStepEnd X fuel obj s).2 /\
  (forall tile speed,
     movedOnly obj s (checkAndMoveObjectToTile X fuel obj tile speed s).2) /\
  (currentControllable s = Some obj ->
   (forall pos speed,
      movedOnly obj s
        (moveCurrentControllableToLocation X fuel pos speed s).2) /\
   (forall target speed,
      movedOnly obj s
        (moveCurrentControllableToObj X fuel target speed s).2)).
Proof.
  intros Hlive.
  assert (Hrun : forall A (m : M A),
            preserves (movedOnly obj s) m -> movedOnly obj s (m s).2).
  { intros A m Hp. apply (preserves_run _ m s Hp), movedOnly_refl. }
  pose proof (movedOnly_movementEvent s obj) as He.
  assert (Hu : forall o g, obj = o -> movementUpdate X g ->
                 preserves (movedOnly obj s) (updateObj o g)).
  { intros o g H. by apply movedOnly_touched. }
  assert (Ha : forall o pos, obj = o ->
                 preserves (movedOnly obj s) (arrangeObjLocation o pos)).
  { intros o pos H. by apply movedOnly_arranged. }
  assert (Ht : forall o prevPos pos cfg, obj = o ->
                 instantObjectRelocation cfg = true ->
                 triple (fun t => movedOnly obj s t /\ config t = Some cfg)
                   (arrangeObjTransperancies o prevPos pos)
                   (fun _ => movedOnly obj s) (movedOnly obj s)).
  { intros o prevPos pos cfg H. by apply movedOnly_transparencies. }
  split_and!.
  - intros. by apply Hrun, movedOnly_moveObjThrough.
  - intros. by apply Hrun, movedOnly_checkAndMoveObjectToLocation.
  - intros. apply Hrun.
    by apply (walk_onObjMoveStepBegin (movedOnly obj s) (eq obj)).
  - apply Hrun. by apply (walk_onObjMoveStepEnd (movedOnly obj s) (eq obj)).
  - intros. apply Hrun.
    by apply (walk_checkAndMoveObjectToTile (movedOnly obj s) (eq obj)).
  - intros Hcc. split.
    + intros pos speed. unfold moveCurrentControllableToLocation.
      unfold bind at 1, get. cbv beta iota. rewrite Hcc.
      by apply Hrun, movedOnly_checkAndMoveObjectToLocation.
    + intros target speed.
      by apply Hrun, movedOnly_moveCurrentControllableToObj.
Qed.

End Bookkeeping.

(** * The life of a map

    What [createMap] builds, what can be read back from it, what [destroy]
    releases, and the methods that work on a map between the two. *)

Section Building.

Context {TileData ObjData : Type} (X : @Externals TileData ObjData).

Abbreviation M := (@M TileData ObjData).
Abbreviation EngineView := (@EngineView TileData ObjData).

Implicit Types s t : EngineView.

(** ** Reading the arrays *)

Lemma jsIndex_is_Some {A} (l : list A) i :
  0 <= i < Z.of_nat (length l) -> is_Some (jsIndex l i).
Proof.
  intros Hi. unfold jsIndex.
  replace (i <? 0) with false by (symmetry; apply Z.ltb_ge; lia).
  apply lookup_lt_is_Some. lia.
Qed.

Lemma tileRowAt_cases s r row :
  tileRowAt s r = Some row ->
  exists rows, tileArray s = Some rows /\ rows !! r = Some row.
Proof. unfold tileRowAt. destruct (tileArray s); [eauto|discriminate]. Qed.

(** ** The order of the cells *)

Lemma visitedBefore_irrefl p : ~ visitedBefore p p.
Proof. unfold visitedBefore. lia. Qed.

Lemma StronglySorted_row i n m :
  StronglySorted visitedBefore ((fun j => mkPos j i) <$> downFrom n m).
Proof.
  revert m. induction n as [|n IH]; intros m; simpl; constructor.
  - apply IH.
  - apply Forall_forall. intros p Hp.
    apply list_elem_of_fmap in Hp as (j & -> & Hj).
    apply elem_of_downFrom in Hj. unfold visitedBefore. simpl. lia.
Qed.

Lemma StronglySorted_cellsInOrder rows cols :
  StronglySorted visitedBefore (cellsInOrder rows cols).
Proof.
  unfold cellsInOrder. generalize (Z.to_nat rows) 0.
  induction n as [|n IH]; intros k; simpl; [constructor|].
  apply StronglySorted_app_2; [|apply StronglySorted_row|apply IH].
  intros p q Hp Hq.
  apply list_elem_of_fmap in Hp as (j & -> & _).
  apply list_elem_of_bind in Hq as (i & Hq & Hi).
  apply list_elem_of_fmap in Hq as (j' & -> & _).
  apply elem_of_upFrom in Hi. unfold visitedBefore. simpl. lia.
Qed.

(** A cell covered by an object is not visited after the cell the object
    stands on. *)
Lemma footprint_visited pos cs rs p q :
  p ∈ footprint pos cs rs -> visitedBefore pos q -> p <> q.
Proof.
  destruct p as [k m]. intros Hp Hq <-.
  apply elem_of_footprint in Hp. unfold visitedBefore in Hq. simpl in Hq.
  lia.
Qed.

Lemma footprint_below pos cs rs p :
  p ∈ footprint pos cs rs -> pos_r p <= pos_r pos.
Proof.
  destruct p as [k m]. intros Hp. apply elem_of_footprint in Hp. simpl. lia.
Qed.

(** ** What the pathfinder hears while the tiles are made *)

Lemma lastDynamic_tileCalls (ground : list (list (option TileData))) l cells p :
  lastDynamic (l ++ (cells ≫= tileCall X ground)) p = lastDynamic l p.
Proof.
  unfold lastDynamic. rewrite foldl_app.
  generalize (foldl (heard (pos_c p) (pos_r p)) None l).
  induction cells as [|q cells IH]; intros acc; simpl; [done|].
  rewrite foldl_app, IH. unfold tileCall.
  by destruct (closedByTile X ground (pos_r q) (pos_c q)).
Qed.

Lemma dynamicValue_new (ground : list (list (option TileData))) l pf cells p :
  dynamicValue ((l ++ [PF_new pf]) ++ (cells ≫= tileCall X ground)) p = 1.
Proof.
  unfold dynamicValue. rewrite lastDynamic_tileCalls.
  unfold lastDynamic. by rewrite foldl_app.
Qed.

(** ** One cell of the objects map *)

Lemma built_unvisited objs rows cols n0 q rest s :
  built X objs rows cols n0 (q :: rest) s -> refs s q = [].
Proof.
  intros (_ & _ & _ & _ & Hrange & Hobj & _).
  destruct (refs s q) as [|x l] eqn:E; [done|]. exfalso.
  assert (Hx : x ∈ refs s q) by (rewrite E; left).
  destruct (Hobj x (Hrange q x Hx)) as (Hpl & _ & Hv).
  apply Hpl in Hx. apply Forall_cons in Hv as [Hv _].
  by apply (footprint_visited _ _ _ _ _ Hx Hv).
Qed.

Lemma placeObject_built objs icl rows cols n0 q rest s :
  q ∈ cellsInOrder rows cols ->
  fitsAt X objs q ->
  Forall (visitedBefore q) rest ->
  built X objs rows cols n0 (q :: rest) s ->
  exists s',
    placeObject X objs icl (pos_r q) (pos_c q) s = (Val tt, s') /\
    built X objs rows cols n0 rest s' /\
    (forall c0,
       controllableSet X objs icl rows cols n0 c0 (q :: rest) s ->
       controllableSet X objs icl rows cols n0 c0 rest s') /\
    objectsAdded s s'.
Proof.
  intros Hq [[objRow HobjRow] Hfits] Hsorted Hb.
  assert (Hfirst : q ∉ rest).
  { intros Hin. apply (proj1 (Forall_forall _ _) Hsorted) in Hin.
    by apply visitedBefore_irrefl in Hin. }
  pose proof (built_unvisited _ _ _ _ _ _ _ Hb) as Hempty.
  destruct Hb as (Hpf & Hrows & Hm & Hn0 & Hrange & Hobj & Hall & Hord & Hfull).
  pose proof Hq as Hq'. apply elem_of_cellsInOrder in Hq' as [Hqr Hqc].
  destruct (proj2 (Hrows (pos_r q)) Hqr) as [row Hrow].
  destruct (rowAt_cases _ _ _ Hrow) as (rws & Ha & Hr).
  unfold placeObject. rewrite mkPos_eta.
  erewrite bind_val by (apply (setObjCell_run s q None rws row Ha Hr)).
  set (s1 := set_objArray _ s).
  pose proof (cellAt_insert_row s rws row q None Ha Hr) as (Hc1 & Hc2 & Hc3).
  fold s1 in Hc1, Hc2, Hc3.
  assert (Hrefs1 : forall p, refs s1 p = refs s p).
  { intros p. unfold refs. destruct (decide (p = q)) as [->|Hne].
    - rewrite Hc1. symmetry. exact Hempty.
    - by rewrite Hc2. }
  rewrite HobjRow. simpl deref. erewrite bind_val by reflexivity.
  assert (Hdata : entry objRow (pos_c q) = dataAt objs q).
  { unfold dataAt. by rewrite HobjRow. }
  rewrite Hdata.
  destruct (dataAt objs q) as [data|] eqn:Ed.
  - erewrite bind_val by reflexivity.
    change (nextObject s1) with (nextObject s).
    fold (objectAt X q data).
    set (obj := nextObject s). set (o := objectAt X q data).
    erewrite bind_val by reflexivity.
    set (s2 := set_objects _ _ s1).
    assert (Ho : objects s2 obj = o) by apply fn_lookup_insert.
    erewrite bind_val by reflexivity. rewrite Ho.
    change (ObjectView.mapPos o) with q.
    set (cells := footprint q (ObjectView.columnSpan o) (ObjectView.rowSpan o)).
    assert (Hcells : forall p, p ∈ cells -> 0 <= pos_r p <= pos_r q).
    { intros p Hp. split; [|by apply footprint_below in Hp].
      by apply (proj1 (Forall_forall _ _) Hfits). }
    assert (Hold : forall x, (x < obj)%nat -> objects s2 x = objects s x).
    { intros x Hx. simpl. apply fn_lookup_insert_ne. lia. }
    destruct (addObjRefToLocation_run obj q s2)
      as (s3 & Hrun & Hsame & Hin & Hout & Hr3).
    { rewrite Ho. intros p Hp. apply Hc3, Hrows. apply Hcells in Hp. lia. }
    { exact Hpf. }
    rewrite Ho in Hin, Hout. fold cells in Hin, Hout.
    erewrite bind_val by exact Hrun.
    assert (Hs3 : served s3).
    { pose proof (preserves_run served (addObjRefToLocation obj q) s2
                    (served_addObjRefToLocation obj q)) as H.
      rewrite Hrun in H. apply H. split; [|exact Hpf]. intros p.
      change (dynamicValue (log s) p = wanted s2 p). rewrite Hm.
      unfold wanted. change (refs s2 p) with (refs s1 p). rewrite Hrefs1.
      rewrite (allMovableTo_objects s s2); [done|].
      intros x Hx. rewrite Hold; [done|]. apply Hrange in Hx. lia. }
    assert (Hobj3 : objects s3 = objects s2) by apply Hsame.
    assert (Hnext3 : nextObject s3 = S obj) by apply Hsame.
    assert (Hfresh : forall p, obj ∉ refs s p).
    { intros p Hp. apply Hrange in Hp. lia. }
    assert (Hrefs3 : forall p,
               refs s3 p
               = refs s p ++ (if bool_decide (p ∈ cells) then [obj] else [])).
    { intros p. unfold refs at 1. case_bool_decide as Hp.
      - rewrite (Hin p Hp), refs_addedTo.
        change (default [] (cellAt s2 p)) with (refs s1 p). rewrite Hrefs1.
        by rewrite bool_decide_eq_false_2.
      - rewrite (Hout p Hp).
        change (default [] (cellAt s2 p)) with (refs s1 p).
        by rewrite Hrefs1, app_nil_r. }
    assert (Hb3 : built X objs rows cols n0 rest s3).
    { split; [|split; [|split; [|split; [|split; [|split; [|split; [|split]]]]]]].
      - replace (pathFinding s3) with (pathFinding s); [done|].
        symmetry. apply Hsame.
      - intros i. by rewrite Hr3, <- Hrows, <- Hc3.
      - apply Hs3.
      - lia.
      - intros p x. rewrite Hrefs3, elem_of_app. intros [Hx|Hx].
        + apply Hrange in Hx. lia.
        + case_bool_decide; [|by apply elem_of_nil in Hx].
          apply list_elem_of_singleton in Hx. lia.
      - intros x Hx. destruct (decide (x = obj)) as [->|Hne].
        + split; [|split].
          * intros p. unfold footprintOf. rewrite Hobj3, Ho. fold cells.
            change (ObjectView.mapPos o) with q. fold cells.
            rewrite Hrefs3, elem_of_app. case_bool_decide as Hp.
            -- rewrite list_elem_of_singleton. split; auto.
            -- split; [|done]. intros [H|H]; [by apply Hfresh in H|].
               by apply elem_of_nil in H.
          * exists q, data. rewrite Hobj3, Ho. done.
          * rewrite Hobj3, Ho. exact Hsorted.
        + assert (Hx' : (n0 <= x < obj)%nat) by lia.
          assert (Hox : objects s3 x = objects s x).
          { rewrite Hobj3. apply Hold. lia. }
          destruct (Hobj x Hx') as (Hpl & Hmade & Hv). split; [|split].
          * intros p. unfold footprintOf. rewrite Hox. rewrite <- (Hpl p).
            rewrite Hrefs3, elem_of_app. split; [|auto].
            intros [H|H]; [done|]. case_bool_decide.
            -- apply list_elem_of_singleton in H. done.
            -- by apply elem_of_nil in H.
          * destruct Hmade as (q' & d' & H1 & H2 & H3).
            exists q', d'. by rewrite Hox.
          * rewrite Hox. by apply Forall_cons in Hv as [_ Hv].
      - intros q' d' Hq' Hrest Hd'. destruct (decide (q' = q)) as [->|Hne].
        + exists obj. split; [lia|]. rewrite Hobj3, Ho.
          rewrite Ed in Hd'. by injection Hd' as <-.
        + destruct (Hall q' d' Hq') as (x & Hx & Hox); [|done|].
          { by apply not_elem_of_cons. }
          exists x. split; [lia|]. rewrite Hobj3, Hold; [done|lia].
      - intros x y Hx Hy. rewrite Hobj3, (Hold x) by lia.
        destruct (decide (y = obj)) as [->|Hne].
        + rewrite Ho. destruct (Hobj x) as (_ & _ & Hv); [lia|].
          by apply Forall_cons in Hv as [Hv _].
        + rewrite Hold by lia. apply Hord; lia.
      - intros p. destruct (decide (p ∈ cells)) as [Hp|Hp].
        + rewrite (Hin p Hp). unfold addedTo. case_bool_decide as Hx.
          * intros [= E]. rewrite E in Hx. by apply elem_of_nil in Hx.
          * intros [= E]. by apply app_nil in E as [_ ?].
        + rewrite (Hout p Hp). change (cellAt s2 p) with (cellAt s1 p).
          destruct (decide (p = q)) as [->|Hne].
          * by rewrite Hc1.
          * rewrite (Hc2 p Hne). apply Hfull. }
    assert (Hframe : objectsAdded s s3).
    { destruct Hsame as (H1 & H2 & H3 & H4 & H5 & H6 & H7 & _).
      unfold objectsAdded. split_and!; try done.
      - rewrite Hnext3. lia.
      - intros x Hx. rewrite Hobj3. by apply Hold. }
    destruct icl as [l|]; simpl controllableCell.
    + destruct (decide (columnIndex l = pos_c q /\ rowIndex l = pos_r q))
        as [[E1 E2]|Hne].
      * rewrite !bool_decide_eq_true_2 by done. simpl.
        eexists. split; [reflexivity|]. split; [exact Hb3|].
        split; [|exact Hframe].
        intros c0 _. split.
        -- intros p d [= <-] _ _ Hd. exists obj. split; [done|].
           split; [simpl; lia|]. simpl. rewrite Hobj3, Ho.
           rewrite E1, E2, mkPos_eta in Hd. rewrite Ed in Hd.
           injection Hd as <-. by rewrite E1, E2, mkPos_eta.
        -- intros Hlater. exfalso. apply Hfirst.
           apply (Hlater q data); [|done|done].
           simpl. by rewrite E1, E2, mkPos_eta.
      * replace (bool_decide (columnIndex l = pos_c q)
                 && bool_decide (rowIndex l = pos_r q)) with false.
        2:{ symmetry. apply andb_false_iff.
            destruct (decide (columnIndex l = pos_c q)) as [E1|E1].
            - right. apply bool_decide_eq_false_2. tauto.
            - left. by apply bool_decide_eq_false_2. }
        simpl. eexists. split; [reflexivity|]. split; [exact Hb3|].
        split; [|exact Hframe].
        intros c0 [Hcs Hkept]. split.
        -- intros p d [= <-] Hp Hrest Hd.
           destruct (Hcs _ d eq_refl Hp) as (x & Hcx & Hx & Hox); [|done|].
           { apply not_elem_of_cons. split; [|done]. intros <-.
             simpl in Hne. tauto. }
           exists x. split; [|split; [lia|]].
           ++ rewrite <- Hcx. apply Hsame.
           ++ rewrite Hobj3, Hold; [done|lia].
        -- intros Hlater. rewrite <- Hkept.
           ++ apply Hsame.
           ++ intros p d Hp Hp' Hd. right. by apply (Hlater p d).
    + simpl. eexists. split; [reflexivity|]. split; [exact Hb3|].
      split; [|exact Hframe]. intros c0 [_ Hkept]. split.
      * intros p d [=].
      * intros _. rewrite <- Hkept; [apply Hsame|]. intros p d [=].
  - eexists. split; [reflexivity|].
    assert (Hb1 : built X objs rows cols n0 rest s1).
    { split; [|split; [|split; [|split; [|split; [|split; [|split; [|split]]]]]]].
      - exact Hpf.
      - intros i. by rewrite Hc3.
      - intros p. change (dynamicValue (log s) p = wanted s1 p).
        rewrite Hm. unfold wanted. rewrite Hrefs1. done.
      - exact Hn0.
      - intros p x. rewrite Hrefs1. apply Hrange.
      - intros x Hx. destruct (Hobj x Hx) as (Hpl & Hmade & Hv).
        split; [|split].
        + intros p. rewrite Hrefs1. apply Hpl.
        + exact Hmade.
        + by apply Forall_cons in Hv as [_ Hv].
      - intros q' d' Hq' Hrest Hd'. apply (Hall q' d' Hq'); [|done].
        apply not_elem_of_cons. split; [|done]. intros ->.
        rewrite Ed in Hd'. done.
      - exact Hord.
      - intros p. destruct (decide (p = q)) as [->|Hne].
        + by rewrite Hc1.
        + rewrite (Hc2 p Hne). apply Hfull. }
    split; [exact Hb1|]. split; [|by unfold objectsAdded; split_and!].
    intros c0 [Hcs Hkept]. split.
    + intros p d Hp Hin Hrest Hd. apply (Hcs p d Hp Hin); [|done].
      apply not_elem_of_cons. split; [|done]. intros ->.
      rewrite Ed in Hd. done.
    + intros Hlater. apply Hkept. intros p d Hp Hp' Hd. right.
      by apply (Hlater p d).
Qed.

(** ** All the cells *)

Lemma objectsAdded_trans s0 s1 s2 :
  objectsAdded s0 s1 -> objectsAdded s1 s2 -> objectsAdded s0 s2.
Proof.
  intros (A1 & A2 & A3 & A4 & A5 & A6 & A7 & A8 & A9)
         (B1 & B2 & B3 & B4 & B5 & B6 & B7 & B8 & B9).
  unfold objectsAdded. split_and!; try congruence; [lia|].
  intros x Hx. rewrite B9 by lia. by apply A9.
Qed.

Lemma placeObjects_built objs icl rows cols n0 c0 cells s :
  (forall q, q ∈ cells -> q ∈ cellsInOrder rows cols /\ fitsAt X objs q) ->
  StronglySorted visitedBefore cells ->
  built X objs rows cols n0 cells s ->
  controllableSet X objs icl rows cols n0 c0 cells s ->
  exists s',
    forEach cells (fun p => placeObject X objs icl (pos_r p) (pos_c p)) s
    = (Val tt, s') /\
    built X objs rows cols n0 [] s' /\
    controllableSet X objs icl rows cols n0 c0 [] s' /\
    objectsAdded s s'.
Proof.
  revert s.
  induction cells as [|q rest IH]; intros s Hcells Hsorted Hb Hc; simpl.
  - exists s. split; [done|]. split; [done|]. split; [done|].
    by unfold objectsAdded; split_and!.
  - apply StronglySorted_inv in Hsorted as [Hrest Hq].
    destruct (Hcells q) as [Hin Hfit]; [left|].
    destruct (placeObject_built objs icl rows cols n0 q rest s
                Hin Hfit Hq Hb) as (s1 & Hrun1 & Hb1 & Hc1 & Hf1).
    erewrite bind_val by exact Hrun1.
    destruct (IH s1) as (s2 & Hrun2 & Hb2 & Hc2 & Hf2); [|done|done|by apply Hc1|].
    { intros q' Hq'. apply Hcells. by right. }
    exists s2. split; [done|]. split; [done|]. split; [done|].
    by apply objectsAdded_trans with s1.
Qed.

(** ** The rows and the tiles *)

Ltac primitive :=
  repeat first
    [ apply preserves_bind; [|intros ?]
    | apply preserves_get
    | apply preserves_deref
    | apply preserves_ret
    | apply preserves_when
    | apply preserves_forUp; intros ?
    | apply preserves_forDown; intros ?
    | apply preserves_forEach; intros ?
    | apply preserves_modify; intros ? H; exact H
    | match goal with
      | |- preserves _ (match ?x with _ => _ end) => destruct x
      end ].

Lemma createRows_sameButArrays s0 rows :
  preserves (sameButArrays s0) (createRows rows).
Proof. unfold createRows. primitive. Qed.

Lemma createTiles_sameButTiles s0 (ground : list (list (option TileData)))
    rows cols :
  preserves (sameButTiles s0) (createTiles X ground rows cols).
Proof.
  unfold createTiles, createTile, setTileCell, pathFinding_setCell,
    thePathFinding, emit.
  primitive.
Qed.

Lemma createRows_rows rows s :
  tileArray s = Some ∅ -> objArray s = Some ∅ ->
  forall i,
    tileRowAt (createRows rows s).2 i
    = (if bool_decide (0 <= i < rows) then Some ∅ else None) /\
    rowAt (createRows rows s).2 i
    = (if bool_decide (0 <= i < rows) then Some ∅ else None).
Proof.
  intros Hst Hs.
  assert (G : forall n k s tr0 o0,
    tileArray s = Some tr0 -> objArray s = Some o0 ->
    exists tr o,
      let s' := (forUpFrom n k (fun i =>
          bind (modify (fun s => set_tileArray
                  (Some (<[i := ∅]> (default ∅ (tileArray s)))) s))
            (fun _ => modify (fun s => set_objArray
                  (Some (<[i := ∅]> (default ∅ (objArray s)))) s))) s).2 in
      tileArray s' = Some tr /\ objArray s' = Some o /\
      forall i,
        tr !! i = (if bool_decide (k <= i < k + Z.of_nat n)
                  then Some ∅ else tr0 !! i) /\
        o !! i = (if bool_decide (k <= i < k + Z.of_nat n)
                  then Some ∅ else o0 !! i)).
  { clear. induction n as [|n IH]; intros k s tr0 o0 Ht Ho; simpl.
    - exists tr0, o0. split; [done|]. split; [done|]. intros i.
      rewrite bool_decide_eq_false_2; [done|lia].
    - set (s1 := set_objArray (Some (<[k := ∅]> o0))
                   (set_tileArray (Some (<[k := ∅]> tr0)) s)).
      destruct (IH (k + 1) s1 (<[k := ∅]> tr0) (<[k := ∅]> o0) eq_refl eq_refl)
        as (tr & o & H1 & H2 & H3).
      exists tr, o.
      assert (E : bind (modify (fun s => set_tileArray
                          (Some (<[k := ∅]> (default ∅ (tileArray s)))) s))
                    (fun _ => modify (fun s => set_objArray
                          (Some (<[k := ∅]> (default ∅ (objArray s)))) s)) s
                  = (Val tt, s1)).
      { unfold bind, modify. simpl. by rewrite Ht, Ho. }
      erewrite bind_val by exact E.
      split; [exact H1|]. split; [exact H2|].
      intros i. destruct (H3 i) as [H4 H5]. rewrite H4, H5.
      destruct (decide (i = k)) as [->|Hne].
      + rewrite !lookup_insert_eq.
        rewrite (bool_decide_eq_true_2 (k <= k < k + Z.of_nat (S n))) by lia.
        by case_bool_decide.
      + rewrite !lookup_insert_ne by done.
        repeat case_bool_decide; try done; lia. }
  intros i. unfold createRows, forUp.
  destruct (G (Z.to_nat (rows - 0)) 0 s ∅ ∅ Hst Hs) as (tr & o & H1 & H2 & H3).
  unfold tileRowAt, rowAt. rewrite H1, H2.
  destruct (H3 i) as [-> ->]. rewrite !lookup_empty.
  repeat case_bool_decide; try done; lia.
Qed.

(** ** One tile, one cell *)

Lemma setTileCell_cell s p v :
  is_Some (tileRowAt s (pos_r p)) ->
  exists s',
    setTileCell (pos_r p) (pos_c p) v s = (Val tt, s') /\
    tileOf s' p = v /\
    (forall q, q <> p -> tileOf s' q = tileOf s q) /\
    (forall r, is_Some (tileRowAt s' r) <-> is_Some (tileRowAt s r)) /\
    s' = set_tileArray (tileArray s') s.
Proof.
  intros [trow Htrow].
  destruct (tileRowAt_cases _ _ _ Htrow) as (tiles & Hta & Htr).
  rewrite (setTileCell_run s _ _ v tiles trow Hta Htr).
  eexists. split; [reflexivity|]. split; [|split; [|split]].
  - unfold tileOf, tileRowAt. simpl. rewrite lookup_insert_eq.
    destruct v; [apply lookup_insert_eq|apply lookup_delete_eq].
  - intros q Hq. unfold tileOf, tileRowAt. simpl. rewrite Hta.
    destruct (decide (pos_r q = pos_r p)) as [E|Hne].
    + rewrite E, lookup_insert_eq, Htr.
      assert (Hc : pos_c p <> pos_c q).
      { intros E'. apply Hq. destruct p, q; simpl in *; congruence. }
      destruct v; [by apply lookup_insert_ne|by apply lookup_delete_ne].
    + by rewrite lookup_insert_ne.
  - intros r. unfold tileRowAt. simpl. rewrite Hta.
    destruct (decide (r = pos_r p)) as [->|Hne].
    + rewrite lookup_insert_eq, Htr. split; eauto.
    + by rewrite lookup_insert_ne.
  - reflexivity.
Qed.

Lemma createTile_cell (ground : list (list (option TileData))) p s :
  0 <= pos_r p < Z.of_nat (length ground) ->
  is_Some (tileRowAt s (pos_r p)) -> is_Some (pathFinding s) ->
  exists s',
    createTile X ground (pos_r p) (pos_c p) s = (Val tt, s') /\
    tileOf s' p = tileFor X ground p /\
    (forall q, q <> p -> tileOf s' q = tileOf s q) /\
    (forall r, is_Some (tileRowAt s' r) <-> is_Some (tileRowAt s r)) /\
    pathFinding s' = pathFinding s.
Proof.
  intros Hr Hrow Hpf. unfold createTile.
  destruct (setTileCell_cell s p None Hrow)
    as (s1 & Hrun1 & Hp1 & Hq1 & Hr1 & Hs1).
  erewrite bind_val by exact Hrun1.
  assert (Hpf1 : pathFinding s1 = pathFinding s) by (by rewrite Hs1).
  destruct (jsIndex_is_Some ground (pos_r p) Hr) as [groundRow Hg].
  rewrite Hg. simpl deref. erewrite bind_val by reflexivity.
  assert (Htile : tileFor X ground p
                  = (fun data => TileView.mk p (TileView_isMovableTo X data))
                      <$> entry groundRow (pos_c p)).
  { unfold tileFor, groundAt. by rewrite Hg. }
  rewrite Htile. rewrite mkPos_eta.
  destruct (entry groundRow (pos_c p)) as [data|]; simpl.
  - destruct (setTileCell_cell s1 p
                (Some (TileView.mk p (TileView_isMovableTo X data))))
      as (s2 & Hrun2 & Hp2 & Hq2 & Hr2 & Hs2).
    { by apply Hr1. }
    erewrite bind_val by exact Hrun2.
    assert (Hpf2 : pathFinding s2 = pathFinding s).
    { rewrite Hs2. exact Hpf1. }
    assert (Hend : forall q, q <> p -> tileOf s2 q = tileOf s q).
    { intros q Hq. by rewrite Hq2, Hq1. }
    assert (Hrows : forall r,
              is_Some (tileRowAt s2 r) <-> is_Some (tileRowAt s r)).
    { intros r. by rewrite Hr2, Hr1. }
    destruct (TileView_isMovableTo X data); simpl.
    + exists s2. done.
    + rewrite setCell_run by (by rewrite Hpf2).
      eexists. split; [reflexivity|]. done.
  - rewrite setCell_run by (by rewrite Hpf1).
    eexists. split; [reflexivity|]. done.
Qed.

Lemma createTiles_tiles (ground : list (list (option TileData))) cells s :
  NoDup cells ->
  (forall p, p ∈ cells ->
     0 <= pos_r p < Z.of_nat (length ground) /\
     is_Some (tileRowAt s (pos_r p))) ->
  is_Some (pathFinding s) ->
  exists s',
    forEach cells (fun p => createTile X ground (pos_r p) (pos_c p)) s
    = (Val tt, s') /\
    (forall p, p ∈ cells -> tileOf s' p = tileFor X ground p) /\
    (forall p, p ∉ cells -> tileOf s' p = tileOf s p) /\
    (forall r, is_Some (tileRowAt s' r) <-> is_Some (tileRowAt s r)).
Proof.
  intros Hnd. revert s.
  induction Hnd as [|p cells Hp Hnd IH]; intros s Hcells Hpf.
  - exists s. split; [done|]. split; [|done].
    intros p Hp. by apply elem_of_nil in Hp.
  - cbn [forEach]. destruct (Hcells p) as [Hr Hrow]; [left|].
    destruct (createTile_cell ground p s Hr Hrow Hpf)
      as (s1 & Hrun1 & Hp1 & Hq1 & Hr1 & Hpf1).
    erewrite bind_val by exact Hrun1.
    destruct (IH s1) as (s2 & Hrun2 & Hin2 & Hout2 & Hr2).
    { intros q Hq. destruct (Hcells q) as [H1 H2]; [by right|].
      split; [done|]. by apply Hr1. }
    { by rewrite Hpf1. }
    exists s2. split; [exact Hrun2|]. split; [|split].
    + intros q Hq. apply elem_of_cons in Hq as [->|Hq].
      * by rewrite (Hout2 p Hp).
      * by apply Hin2.
    + intros q Hq. apply not_elem_of_cons in Hq as [Hne Hq].
      by rewrite (Hout2 q Hq), (Hq1 q Hne).
    + intros r. by rewrite Hr2, Hr1.
Qed.

Lemma createTiles_ready (ground : list (list (option TileData))) rows cols s :
  rows = Z.of_nat (length ground) ->
  readyForTiles rows s ->
  exists s', createTiles X ground rows cols s = (Val tt, s') /\
             readyForTiles rows s' /\
             log s' = log s ++ (cellsInOrder rows cols ≫= tileCall X ground).
Proof.
  intros Hrows Hready. unfold createTiles.
  rewrite (rowLoops_forEach (createTile X ground)).
  apply (forEach_emits
           (fun p => createTile X ground (pos_r p) (pos_c p))
           (tileCall X ground) (readyForTiles rows)
           (cellsInOrder rows cols)); [|done].
  intros p t Hp Ht. apply elem_of_cellsInOrder in Hp.
  eapply createTile_run; [done|lia|done].
Qed.

(** ** The whole of [createMap] *)


(** [createMap] up to the placing of the objects. *)
Lemma createMap_tiles s cfg md row0 :
  config s = Some cfg ->
  mapData s = Some md ->
  head (groundMapData md) = Some row0 ->
  let rows := Z.of_nat (length (groundMapData md)) in
  let cols := Z.of_nat (length row0) in
  let objs := objectsMapData md in
  let icl := initialControllableLocation md in
  exists s4,
    createMap X s
    = forEach (cellsInOrder rows cols)
        (fun p => placeObject X objs icl (pos_r p) (pos_c p)) s4 /\
    built X objs rows cols (nextObject s) (cellsInOrder rows cols) s4 /\
    controllableSet X objs icl rows cols (nextObject s)
      (currentControllable s) (cellsInOrder rows cols) s4 /\
    readyForTiles rows s4 /\
    config s4 = config s /\ mapData s4 = mapData s /\
    moveEngine s4 = moveEngine s /\
    mapSizeR s4 = rows /\ mapSizeC s4 = cols /\
    objects s4 = objects s /\ nextObject s4 = nextObject s /\
    (forall p, tileOf s4 p
               = if bool_decide (p ∈ cellsInOrder rows cols)
                 then tileFor X (groundMapData md) p else None) /\
    (forall i, is_Some (tileRowAt s4 i) <-> 0 <= i < rows).
Proof.
  intros Hcfg Hmd Hrow0 rows cols objs icl.
  unfold createMap.
  erewrite bind_val by (by apply theConfig_run).
  unfold bind at 1, get. rewrite Hmd. simpl deref.
  erewrite bind_val by reflexivity.
  rewrite Hrow0. simpl deref.
  erewrite bind_val by reflexivity.
  fold rows cols objs icl.
  erewrite bind_val by reflexivity.
  erewrite bind_val by reflexivity.
  erewrite bind_val by reflexivity.
  set (s1 := set_objArray _ _).
  destruct (createRows_run rows s1 ∅ eq_refl)
    as (s2 & Hrun2 & L2 & C2 & P2 & t & Ht & Hrows).
  assert (Hrows2 : forall i,
            rowAt (createRows rows s1).2 i
            = if bool_decide (0 <= i < rows) then Some ∅ else None).
  { intros i. by apply createRows_rows. }
  assert (Htrows2 : forall i,
            tileRowAt (createRows rows s1).2 i
            = if bool_decide (0 <= i < rows) then Some ∅ else None).
  { intros i. by apply createRows_rows. }
  pose proof (preserves_run (sameButArrays s1) (createRows rows) s1
                (createRows_sameButArrays s1 rows)) as Hframe2.
  rewrite Hrun2 in Hrows2, Htrows2, Hframe2.
  simpl in Hrows2, Htrows2, Hframe2.
  destruct Hframe2 as (A1 & A2 & A3 & A4 & A5 & A6 & A7 & A8 & A9).
  { by unfold sameButArrays; split_and!. }
  erewrite bind_val by exact Hrun2.
  erewrite bind_val by (apply theConfig_run; rewrite C2; exact Hcfg).
  set (pf := mkPathFinding cols rows _ _).
  erewrite bind_val by reflexivity.
  erewrite bind_val by reflexivity.
  set (s3 := set_pathFinding (Some pf) _).
  assert (R3 : readyForTiles rows s3).
  { split; [by eexists|]. exists t. split; [exact Ht|exact Hrows]. }
  destruct (createTiles_ready (groundMapData md) rows cols s3 eq_refl R3)
    as (s4 & Hrun4 & R4 & L4).
  pose proof (preserves_run (sameButTiles s3) _ s3
                (createTiles_sameButTiles s3 (groundMapData md) rows cols))
    as Hframe4.
  rewrite Hrun4 in Hframe4. simpl in Hframe4.
  destruct Hframe4
    as ((B1 & B2 & B3 & B4 & B5 & B6 & B7 & B8 & B9) & B10).
  { split; [by unfold sameButArrays; split_and!|done]. }
  erewrite bind_val by exact Hrun4.
  assert (Hrefs4 : forall p, refs s4 p = []).
  { intros p. unfold refs, cellAt, rowAt. rewrite B10.
    change (objArray s3) with (objArray s2).
    specialize (Hrows2 (pos_r p)). unfold rowAt in Hrows2.
    destruct (objArray s2) as [o|]; [|done]. rewrite Hrows2.
    by case_bool_decide. }
  exists s4. split.
  { unfold placeObjects. apply (rowLoops_forEach (placeObject X objs icl)). }
  split.
  { split; [|split; [|split; [|split; [|split; [|split; [|split; [|split]]]]]]].
    - rewrite B6. by eexists.
    - intros i. unfold rowAt. rewrite B10.
      change (objArray s3) with (objArray s2).
      specialize (Hrows2 i). unfold rowAt in Hrows2. rewrite Hrows2.
      case_bool_decide; split; try done.
    - intros p. unfold wanted. rewrite Hrefs4, L4. simpl.
      apply dynamicValue_new.
    - rewrite B8. simpl. rewrite A8. done.
    - intros p x. rewrite Hrefs4. intros H. by apply elem_of_nil in H.
    - intros x Hx. rewrite B8 in Hx. simpl in Hx. rewrite A8 in Hx.
      simpl in Hx. lia.
    - intros q data Hq Hq'. done.
    - intros x y Hx Hy. rewrite B8 in Hy. simpl in Hy. rewrite A8 in Hy.
      simpl in Hy. lia.
    - intros p. unfold cellAt, rowAt. rewrite B10.
      change (objArray s3) with (objArray s2).
      specialize (Hrows2 (pos_r p)). unfold rowAt in Hrows2.
      destruct (objArray s2) as [o|]; [|done]. rewrite Hrows2.
      by case_bool_decide. }
  split.
  { split; [intros p data _ Hp Hp'; done|]. intros _.
    rewrite B9. simpl. by rewrite A9. }
  split; [exact R4|].
  split; [rewrite B1; simpl; by rewrite A1|].
  split; [rewrite B2; simpl; by rewrite A2|].
  split; [rewrite B5; simpl; by rewrite A5|].
  split; [rewrite B3; simpl; by rewrite A3|].
  split; [rewrite B4; simpl; by rewrite A4|].
  split; [rewrite B7; simpl; by rewrite A7|].
  split; [rewrite B8; simpl; by rewrite A8|].
  destruct (createTiles_tiles (groundMapData md) (cellsInOrder rows cols) s3)
    as (s4' & Hrun4' & Hin & Hout & Htr4).
  { apply NoDup_cellsInOrder. }
  { intros p Hp. apply elem_of_cellsInOrder in Hp.
    split; [unfold rows in Hp; lia|].
    change (tileRowAt s3 (pos_r p)) with (tileRowAt s2 (pos_r p)).
    rewrite Htrows2. rewrite bool_decide_eq_true_2 by lia. eauto. }
  { by eexists. }
  assert (s4' = s4) as ->.
  { unfold createTiles in Hrun4.
    rewrite (rowLoops_forEach (createTile X (groundMapData md))) in Hrun4.
    congruence. }
  split.
  - intros p. case_bool_decide as Hp; [by apply Hin|].
    rewrite (Hout p Hp). unfold tileOf.
    change (tileRowAt s3 (pos_r p)) with (tileRowAt s2 (pos_r p)).
    rewrite Htrows2. by case_bool_decide.
  - intros i. rewrite Htr4.
    change (tileRowAt s3 i) with (tileRowAt s2 i). rewrite Htrows2.
    case_bool_decide; split; try done.
Qed.

Lemma fits_fitsAt (objs : list (list (option ObjData))) rows cols q :
  (rows <= Z.of_nat (length objs)) ->
  fits X objs rows cols -> q ∈ cellsInOrder rows cols -> fitsAt X objs q.
Proof.
  intros Hlen Hfits Hq. split.
  - apply jsIndex_is_Some. apply elem_of_cellsInOrder in Hq. lia.
  - destruct (dataAt objs q) as [data|] eqn:Ed; [|done].
    apply Forall_forall. intros p Hp. by apply (Hfits q data p).
Qed.

Lemma fits_cells (objs : list (list (option ObjData))) rows cols :
  Forall (fitsAt X objs) (cellsInOrder rows cols) -> fits X objs rows cols.
Proof.
  intros Hall q data p Hq Hd Hp.
  apply (proj1 (Forall_forall _ _) Hall) in Hq as [_ Hq].
  rewrite Hd in Hq. by apply (proj1 (Forall_forall _ _) Hq).
Qed.

Lemma createMap_built s cfg md row0 :
  config s = Some cfg ->
  mapData s = Some md ->
  head (groundMapData md) = Some row0 ->
  let rows := Z.of_nat (length (groundMapData md)) in
  let cols := Z.of_nat (length row0) in
  let objs := objectsMapData md in
  (length (groundMapData md) <= length objs)%nat ->
  fits X objs rows cols ->
  exists s',
    createMap X s = (Val tt, s') /\
    built X objs rows cols (nextObject s) [] s' /\
    controllableSet X objs (initialControllableLocation md) rows cols
      (nextObject s) (currentControllable s) [] s' /\
    readyForTiles rows s' /\
    config s' = config s /\ mapData s' = mapData s /\
    moveEngine s' = moveEngine s /\
    mapSizeR s' = rows /\ mapSizeC s' = cols /\
    (forall x, (x < nextObject s)%nat -> objects s' x = objects s x) /\
    (forall p, tileOf s' p
               = if bool_decide (p ∈ cellsInOrder rows cols)
                 then tileFor X (groundMapData md) p else None) /\
    (forall i, is_Some (tileRowAt s' i) <-> 0 <= i < rows).
Proof.
  intros Hcfg Hmd Hrow0 rows cols objs Hlen Hfits.
  destruct (createMap_tiles s cfg md row0 Hcfg Hmd Hrow0)
    as (s4 & Hrun4 & Hb4 & Hc4 & R4 & B1 & B2 & B5 & B3 & B4 & B7 & B8 & B9
        & B10).
  fold rows cols objs in Hrun4, Hb4, Hc4, R4, B3, B4.
  destruct (placeObjects_built objs (initialControllableLocation md) rows cols
              (nextObject s) (currentControllable s)
              (cellsInOrder rows cols) s4)
    as (s5 & Hrun5 & Hb5 & Hc5 & D1 & D2 & D3 & D4 & D5 & D6 & D7 & D8 & D9).
  { intros q Hq. split; [done|].
    apply (fits_fitsAt objs rows cols); [unfold rows; lia|done|done]. }
  { apply StronglySorted_cellsInOrder. }
  { exact Hb4. }
  { exact Hc4. }
  exists s5. split; [by rewrite Hrun4|]. split; [exact Hb5|].
  split; [exact Hc5|].
  split; [|split; [|split; [|split; [|split; [|split; [|split; [|split]]]]]]].
  - destruct R4 as (R4a & R4b). split; [by rewrite D6|]. by rewrite D7.
  - by rewrite D1.
  - by rewrite D2.
  - by rewrite D5.
  - by rewrite D3.
  - by rewrite D4.
  - intros x Hx. rewrite D9; [by rewrite B7|by rewrite B8].
  - intros p. rewrite <- B9. unfold tileOf, tileRowAt. by rewrite D7.
  - intros i. fold rows in B10. rewrite <- B10. unfold tileRowAt.
    by rewrite D7.
Qed.

(** X9. [createMap] makes one object for every cell of the objects map
    that has data, in the order of the cells, and gives it that cell as its
    place; no two of them stand on the same cell.  When every object fits
    the rows of the map, [createMap] returns, and a cell then references
    exactly the objects made that cover it. *)
Theorem createMap_places_the_objects s cfg md row0 :
  config s = Some cfg ->
  mapData s = Some md ->
  head (groundMapData md) = Some row0 ->
  let rows := Z.of_nat (length (groundMapData md)) in
  let cols := Z.of_nat (length row0) in
  let objs := objectsMapData md in
  (length (groundMapData md) <= length objs)%nat ->
  fits X objs rows cols ->
  exists s',
    createMap X s = (Val tt, s') /\
    (forall q data,
       q ∈ cellsInOrder rows cols -> dataAt objs q = Some data ->
       exists x, (nextObject s <= x < nextObject s')%nat /\
                 objects s' x = objectAt X q data) /\
    (forall x, (nextObject s <= x < nextObject s')%nat ->
       madeFrom X objs rows cols s' x) /\
    (forall x y, (nextObject s <= x < nextObject s')%nat ->
       (nextObject s <= y < nextObject s')%nat ->
       ObjectView.mapPos (objects s' x) = ObjectView.mapPos (objects s' y) ->
       x = y) /\
    (forall p x,
       x ∈ refs s' p <->
       (nextObject s <= x < nextObject s')%nat /\ p ∈ footprintOf s' x) /\
    (forall x, (x < nextObject s)%nat -> objects s' x = objects s x).
Proof.
  intros Hcfg Hmd Hrow0 rows cols objs Hlen Hfits.
  destruct (createMap_built s cfg md row0 Hcfg Hmd Hrow0 Hlen Hfits)
    as (s' & Hrun & Hb & _ & _ & _ & _ & _ & _ & _ & Hold & _ & _).
  destruct Hb as (_ & _ & _ & _ & Hrange & Hobj & Hall & Hord & _).
  exists s'. split; [exact Hrun|]. split; [|split; [|split; [|split]]].
  - intros q data Hq Hd. apply (Hall q data Hq); [|done].
    apply not_elem_of_nil.
  - intros x Hx. by destruct (Hobj x Hx) as (_ & Hmade & _).
  - intros x y Hx Hy Heq.
    destruct (lt_eq_lt_dec x y) as [[Hlt| ->]|Hlt]; [|done|].
    + exfalso. apply (visitedBefore_irrefl (ObjectView.mapPos (objects s' y))).
      rewrite <- Heq at 1. apply Hord; lia.
    + exfalso. apply (visitedBefore_irrefl (ObjectView.mapPos (objects s' y))).
      rewrite <- Heq at 2. apply Hord; lia.
  - intros p x. split.
    + intros Hx. pose proof (Hrange p x Hx) as Hr. split; [done|].
      destruct (Hobj x Hr) as (Hpl & _). by apply Hpl.
    + intros [Hr Hp]. destruct (Hobj x Hr) as (Hpl & _). by apply Hpl.
  - exact Hold.
Qed.

(** X10. After [createMap] the dynamic layer of the new pathfinder mirrors
    the references: it is closed exactly on the cells that reference an
    object that cannot be moved onto. *)
Theorem createMap_dynamic_layer s cfg md row0 :
  config s = Some cfg ->
  mapData s = Some md ->
  head (groundMapData md) = Some row0 ->
  let rows := Z.of_nat (length (groundMapData md)) in
  let cols := Z.of_nat (length row0) in
  let objs := objectsMapData md in
  (length (groundMapData md) <= length objs)%nat ->
  fits X objs rows cols ->
  exists s',
    createMap X s = (Val tt, s') /\
    is_Some (pathFinding s') /\
    forall p,
      dynamicValue (log s') p = 0 <->
      exists x, x ∈ refs s' p /\
                ObjectView.isMovableTo (objects s' x) = false.
Proof.
  intros Hcfg Hmd Hrow0 rows cols objs Hlen Hfits.
  destruct (createMap_built s cfg md row0 Hcfg Hmd Hrow0 Hlen Hfits)
    as (s' & Hrun & Hb & _).
  destruct Hb as (Hpf & _ & Hm & _).
  exists s'. split; [exact Hrun|]. split; [exact Hpf|].
  intros p. rewrite Hm. unfold wanted, allMovableTo.
  destruct (forallb _ (refs s' p)) eqn:E.
  - split; [done|]. intros (x & Hx & Hmov).
    rewrite forallb_forall in E. apply list_elem_of_In in Hx.
    apply E in Hx. congruence.
  - split; [|done]. intros _.
    apply not_true_iff_false in E. rewrite forallb_forall in E.
    destruct (decide (Exists (fun x =>
                ObjectView.isMovableTo (objects s' x) = false) (refs s' p)))
      as [Hex|Hno].
    + apply Exists_exists in Hex as (x & Hx & Hmov). by exists x.
    + exfalso. apply E. intros x Hx. apply list_elem_of_In in Hx.
      destruct (ObjectView.isMovableTo (objects s' x)) eqn:Ex; [done|].
      exfalso. apply Hno. apply Exists_exists. by exists x.
Qed.

(** X11. [createMap] makes the object of the cell named by
    [initialControllableLocation] the controllable, which
    [getCurrentControllable] then returns; when the location is missing, is
    outside of the map or names a cell without data, the controllable
    stays as it was. *)
Theorem createMap_sets_the_controllable s cfg md row0 :
  config s = Some cfg ->
  mapData s = Some md ->
  head (groundMapData md) = Some row0 ->
  let rows := Z.of_nat (length (groundMapData md)) in
  let cols := Z.of_nat (length row0) in
  let objs := objectsMapData md in
  let start := controllableCell (initialControllableLocation md) in
  (length (groundMapData md) <= length objs)%nat ->
  fits X objs rows cols ->
  exists s',
    createMap X s = (Val tt, s') /\
    (forall p data,
       start = Some p -> p ∈ cellsInOrder rows cols ->
       dataAt objs p = Some data ->
       exists x, getCurrentControllable s' = (Val (Some x), s') /\
                 (nextObject s <= x < nextObject s')%nat /\
                 objects s' x = objectAt X p data) /\
    ((forall p, start = Some p -> p ∈ cellsInOrder rows cols ->
                dataAt objs p = None) ->
     getCurrentControllable s' = (Val (currentControllable s), s')).
Proof.
  intros Hcfg Hmd Hrow0 rows cols objs start Hlen Hfits.
  destruct (createMap_built s cfg md row0 Hcfg Hmd Hrow0 Hlen Hfits)
    as (s' & Hrun & _ & [Hset Hkept] & _).
  unfold getCurrentControllable, bind, get, ret.
  exists s'. split; [exact Hrun|]. split.
  - intros p data Hp Hin Hd.
    destruct (Hset p data Hp Hin) as (x & Hx & Hr & Ho); [|done|].
    { apply not_elem_of_nil. }
    exists x. by rewrite Hx.
  - intros Hnone. rewrite Hkept; [done|]. intros p data Hp Hin Hd.
    pose proof (Hnone p Hp Hin) as Hd'. fold objs in Hd. congruence.
Qed.

Lemma tileCell_read s r c :
  is_Some (tileArray s) ->
  tileCell r c s
  = match tileRowAt s r with
    | Some row => (Val (row !! c), s)
    | None => (Throw (TypeError "this.tileArray[r]"), s)
    end.
Proof.
  intros [tiles Ht]. unfold tileCell, tileRowAt, bind, get, deref.
  rewrite Ht. simpl. by destruct (tiles !! r).
Qed.

Lemma objCell_read_or_throw s p :
  is_Some (objArray s) ->
  objCell p s
  = match rowAt s (pos_r p) with
    | Some row => (Val (row !! pos_c p), s)
    | None => (Throw (TypeError "this.objArray[pos.r]"), s)
    end.
Proof.
  intros [rows Hr]. unfold objCell, rowAt, bind, get, deref.
  rewrite Hr. simpl. by destruct (rows !! pos_r p).
Qed.

(** X12. The map can be read back after [createMap]:
    [getTileAtRowAndColumn] returns the tile made from the ground data of
    the cell, nothing where the ground map has no data or the column is
    outside of the map, and throws a TypeError for a row outside of the
    map; [getObjectsAtLocation] and [getObjectsAtRowAndColumn] return the
    objects made that cover the cell, never an empty list, and throw a
    TypeError for a row outside of the map. *)
Theorem createMap_can_be_read_back s cfg md row0 :
  config s = Some cfg ->
  mapData s = Some md ->
  head (groundMapData md) = Some row0 ->
  let rows := Z.of_nat (length (groundMapData md)) in
  let cols := Z.of_nat (length row0) in
  let objs := objectsMapData md in
  (length (groundMapData md) <= length objs)%nat ->
  fits X objs rows cols ->
  exists s',
    createMap X s = (Val tt, s') /\
    (forall r c,
       getTileAtRowAndColumn r c s'
       = if bool_decide (0 <= r < rows)
         then (Val (if bool_decide (0 <= c < cols)
                    then tileFor X (groundMapData md) (mkPos c r)
                    else None), s')
         else (Throw (TypeError "this.tileArray[r]"), s')) /\
    (forall r c,
       getObjectsAtRowAndColumn r c s' = getObjectsAtLocation (mkPos c r) s') /\
    (forall p,
       0 <= pos_r p < rows ->
       exists a,
         getObjectsAtLocation p s' = (Val a, s') /\ a <> Some [] /\
         forall x,
           x ∈ default [] a <->
           (nextObject s <= x < nextObject s')%nat /\ p ∈ footprintOf s' x) /\
    (forall p,
       ~ 0 <= pos_r p < rows ->
       getObjectsAtLocation p s'
       = (Throw (TypeError "this.objArray[pos.r]"), s')).
Proof.
  intros Hcfg Hmd Hrow0 rows cols objs Hlen Hfits.
  destruct (createMap_built s cfg md row0 Hcfg Hmd Hrow0 Hlen Hfits)
    as (s' & Hrun & Hb & _ & Hready & _ & _ & _ & _ & _ & _ & Htiles & Htrows).
  fold rows cols in Htiles, Htrows, Hready.
  destruct Hb as (_ & Hrows & _ & _ & Hrange & Hobj & _ & _ & Hfull).
  assert (Hta : is_Some (tileArray s')).
  { destruct Hready as (_ & t & -> & _). eauto. }
  assert (Hoa : is_Some (objArray s')).
  { destruct (proj2 (Hrows 0)) as [row Hrow].
    - unfold rows. destruct (groundMapData md); [done|]. simpl. lia.
    - unfold rowAt in Hrow. destruct (objArray s'); [eauto|done]. }
  exists s'. split; [exact Hrun|]. split; [|split; [|split]].
  - intros r c. unfold getTileAtRowAndColumn. rewrite tileCell_read by done.
    specialize (Htiles (mkPos c r)). specialize (Htrows r).
    unfold tileOf in Htiles. simpl in Htiles.
    destruct (tileRowAt s' r) as [row|].
    + rewrite bool_decide_eq_true_2 by (apply Htrows; eauto).
      rewrite Htiles. do 2 f_equal.
      repeat case_bool_decide; try done.
      * exfalso. rewrite elem_of_cellsInOrder in *. simpl in *. tauto.
      * exfalso. rewrite elem_of_cellsInOrder in *. simpl in *.
        pose proof (proj1 Htrows (mk_is_Some _ _ eq_refl)). tauto.
    + rewrite bool_decide_eq_false_2; [done|]. intros Hr.
      apply Htrows in Hr. by apply is_Some_None in Hr.
  - done.
  - intros p Hp. exists (cellAt s' p). split; [|split].
    + unfold getObjectsAtLocation. rewrite objCell_read_or_throw by done.
      unfold cellAt. destruct (proj2 (Hrows (pos_r p)) Hp) as [row ->]. done.
    + apply Hfull.
    + intros x. fold (refs s' p). split.
      * intros Hx. pose proof (Hrange p x Hx) as Hr. split; [done|].
        destruct (Hobj x Hr) as (Hpl & _). by apply Hpl.
      * intros [Hr Hin]. destruct (Hobj x Hr) as (Hpl & _). by apply Hpl.
  - intros p Hp. unfold getObjectsAtLocation.
    rewrite objCell_read_or_throw by done.
    destruct (rowAt s' (pos_r p)) as [row|] eqn:E; [|done].
    exfalso. apply Hp, Hrows. by rewrite E.
Qed.

(** ** [destroy] *)

Lemma forEach_Obj_destroy (a : list nat) t :
  exists t',
    forEach a (fun o => emit (Obj_destroy o)) t = (Val tt, t') /\
    log t' = log t ++ (Obj_destroy <$> a) /\
    t' = set_log (log t') t.
Proof.
  revert t. induction a as [|x a IH]; intros t; simpl.
  - exists t. split; [done|]. split; [by rewrite app_nil_r|]. by destruct t.
  - erewrite bind_val by reflexivity.
    destruct (IH (set_log (log t ++ [Obj_destroy x]) t))
      as (t' & Hrun & Hlog & Hrest).
    exists t'. split; [exact Hrun|]. split.
    + rewrite Hlog. simpl. by rewrite <- app_assoc.
    + exact Hrest.
Qed.


(** One cell: the tile and the references are destroyed, and both cells
    are emptied. *)
Lemma destroyCell_run t p :
  is_Some (tileRowAt t (pos_r p)) -> is_Some (rowAt t (pos_r p)) ->
  exists t',
    destroyCell (pos_r p) (pos_c p) t = (Val tt, t') /\
    log t' = log t ++ destroyedAt t p /\
    sameButArrays t t' /\
    (forall r, is_Some (tileRowAt t' r) <-> is_Some (tileRowAt t r)) /\
    (forall r, is_Some (rowAt t' r) <-> is_Some (rowAt t r)) /\
    (forall q, q <> p -> tileOf t' q = tileOf t q) /\
    (forall q, q <> p -> cellAt t' q = cellAt t q).
Proof.
  intros [trow Htrow] [row Hrow].
  destruct (tileRowAt_cases _ _ _ Htrow) as (tiles & Hta & Htr).
  destruct (rowAt_cases _ _ _ Hrow) as (rows & Ha & Hr).
  unfold destroyCell. rewrite mkPos_eta.
  assert (Htile : tileOf t p = trow !! pos_c p).
  { unfold tileOf. by rewrite Htrow. }
  assert (Hrefs : refs t p = default [] (row !! pos_c p)).
  { unfold refs, cellAt. by rewrite Hrow. }
  erewrite bind_val.
  2:{ unfold tileCell, bind, get, deref, ret. rewrite Hta. simpl.
      rewrite Htr. reflexivity. }
  set (tileEvents := match tileOf t p with
                     | Some _ => [Tile_destroy (pos_r p) (pos_c p)]
                     | None => []
                     end).
  set (t1 := set_log (log t ++ tileEvents) t).
  assert (Hrun1 : when (bool_decide (trow !! pos_c p <> None))
                    (emit (Tile_destroy (pos_r p) (pos_c p))) t
                  = (Val tt, t1)).
  { unfold t1, tileEvents. rewrite Htile.
    destruct (trow !! pos_c p); simpl.
    - reflexivity.
    - rewrite app_nil_r. by destruct t. }
  erewrite bind_val by exact Hrun1.
  erewrite bind_val by (apply (setTileCell_run t1 _ _ None tiles trow Hta Htr)).
  set (t2 := set_tileArray _ t1).
  erewrite bind_val by (apply (objCell_run t2 p rows row Ha Hr)).
  destruct (forEach_Obj_destroy (default [] (row !! pos_c p)) t2)
    as (t3 & Hrun3 & Hlog3 & Hrest3).
  assert (Hrun3' : match row !! pos_c p with
                   | Some a => forEach a (fun o => emit (Obj_destroy o))
                   | None => ret tt
                   end t2 = (Val tt, t3)).
  { destruct (row !! pos_c p) as [a|]; exact Hrun3. }
  erewrite bind_val by exact Hrun3'.
  assert (Ha3 : objArray t3 = Some rows) by (by rewrite Hrest3).
  erewrite (setObjCell_run t3 p None rows row Ha3 Hr).
  eexists. split; [reflexivity|].
  pose proof (cellAt_insert_row t3 rows row p None Ha3 Hr) as (_ & Hc2 & Hc3).
  split; [|split; [|split; [|split; [|split]]]].
  - simpl. rewrite Hlog3. simpl. unfold destroyedAt. fold tileEvents.
    by rewrite Hrefs, <- app_assoc.
  - rewrite Hrest3. by unfold sameButArrays; split_and!.
  - intros r. rewrite Hrest3. unfold tileRowAt. simpl. rewrite Hta.
    destruct (decide (r = pos_r p)) as [->|Hne].
    + rewrite lookup_insert_eq, Htr. split; eauto.
    + by rewrite lookup_insert_ne.
  - intros r. rewrite Hc3. rewrite Hrest3. done.
  - intros q Hq. rewrite Hrest3. unfold tileOf, tileRowAt. simpl.
    rewrite Hta. destruct (decide (pos_r q = pos_r p)) as [E|Hne].
    + rewrite E, lookup_insert_eq, Htr. apply lookup_delete_ne.
      intros E'. apply Hq. destruct p, q; simpl in *; congruence.
    + by rewrite lookup_insert_ne.
  - intros q Hq. rewrite (Hc2 q Hq). rewrite Hrest3. done.
Qed.

Lemma destroyCells_run cells t :
  NoDup cells ->
  (forall p, p ∈ cells ->
     is_Some (tileRowAt t (pos_r p)) /\ is_Some (rowAt t (pos_r p))) ->
  exists t',
    forEach cells (fun p => destroyCell (pos_r p) (pos_c p)) t
    = (Val tt, t') /\
    log t' = log t ++ (cells ≫= destroyedAt t) /\
    sameButArrays t t'.
Proof.
  intros Hnd. revert t. induction Hnd as [|p cells Hp Hnd IH]; intros t Hrows.
  - exists t. split; [done|]. split; [by rewrite app_nil_r|].
    by unfold sameButArrays; split_and!.
  - cbn [forEach].
    destruct (destroyCell_run t p) as (t1 & Hrun1 & Hlog1 & Hsame1 & Htr1
                                        & Hr1 & Ht1 & Hc1).
    { apply Hrows. left. }
    { apply Hrows. left. }
    erewrite bind_val by exact Hrun1.
    destruct (IH t1) as (t2 & Hrun2 & Hlog2 & Hsame2).
    { intros q Hq. rewrite Htr1, Hr1. apply Hrows. by right. }
    exists t2. split; [exact Hrun2|]. split.
    + rewrite Hlog2, Hlog1. simpl. rewrite <- app_assoc. f_equal. f_equal.
      apply Forall_bind_ext, Forall_forall. intros q Hq.
      assert (Hne : q <> p) by (intros ->; done).
      unfold destroyedAt, refs. by rewrite (Ht1 q Hne), (Hc1 q Hne).
    + destruct Hsame1 as (A1 & A2 & A3 & A4 & A5 & A6 & A7 & A8 & A9).
      destruct Hsame2 as (B1 & B2 & B3 & B4 & B5 & B6 & B7 & B8 & B9).
      unfold sameButArrays. split_and!; congruence.
Qed.

Lemma destroy_run s :
  whole s ->
  exists s',
    destroy s = (Val tt, s') /\
    log s' = log s ++ [ME_destroy]
               ++ (cellsInOrder (mapSizeR s) (mapSizeC s) ≫= destroyedAt s)
               ++ [PF_destroy] /\
    gone s' /\
    objects s' = objects s /\ nextObject s' = nextObject s.
Proof.
  intros (Hme & [pf Hpf] & [md Hmd] & Hrows). unfold destroy.
  erewrite bind_val.
  2:{ unfold theMoveEngine, bind, get. rewrite Hme. reflexivity. }
  erewrite bind_val by reflexivity.
  erewrite bind_val by reflexivity.
  erewrite bind_val by reflexivity.
  set (s1 := set_moveEngine false _).
  change (mapSizeR s1) with (mapSizeR s). change (mapSizeC s1) with (mapSizeC s).
  destruct (destroyCells_run (cellsInOrder (mapSizeR s) (mapSizeC s)) s1)
    as (s2 & Hrun2 & Hlog2 & A1 & A2 & A3 & A4 & A5 & A6 & A7 & A8 & A9).
  { apply NoDup_cellsInOrder. }
  { exact Hrows. }
  erewrite bind_val.
  2:{ etransitivity; [apply (rowLoops_forEach destroyCell)|exact Hrun2]. }
  erewrite bind_val.
  2:{ unfold thePathFinding, bind, get, deref. rewrite A6. simpl.
      rewrite Hpf. reflexivity. }
  erewrite bind_val by reflexivity.
  erewrite bind_val by reflexivity.
  erewrite bind_val by reflexivity.
  erewrite bind_val by reflexivity.
  erewrite bind_val by reflexivity.
  erewrite bind_val by reflexivity.
  erewrite bind_val by reflexivity.
  erewrite bind_val.
  2:{ simpl. rewrite A2. simpl. rewrite Hmd. reflexivity. }
  eexists. split; [reflexivity|]. simpl. split; [|split; [|split]].
  - rewrite Hlog2. simpl. rewrite <- !app_assoc. reflexivity.
  - by unfold gone; split_and!.
  - by rewrite A7.
  - by rewrite A8.
Qed.

Lemma destroyCells_moveEngine rows cols :
  preserves (fun t : EngineView => moveEngine t = false)
    (forUp 0 rows (fun i =>
       forDown (cols - 1) (-1) (fun j => destroyCell i j))).
Proof.
  unfold destroyCell, tileCell, setTileCell, objCell, setObjCell, emit.
  primitive.
Qed.

Lemma destroy_gone s s' : destroy s = (Val tt, s') -> gone s'.
Proof.
  unfold destroy. intros H.
  apply bind_inv in H as (? & s0 & _ & H).
  apply bind_inv in H as (? & s1 & _ & H).
  apply bind_inv in H as (? & s2 & H2 & H).
  apply bind_inv in H as (? & s2' & Hg & H).
  apply bind_inv in H as (u & s3 & Hloop & H).
  injection H2 as _ <-. injection Hg as <- <-.
  assert (H3 : moveEngine s3 = false).
  { change s3 with (Val u, s3).2. rewrite <- Hloop.
    by apply (preserves_run _ _ _ (destroyCells_moveEngine _ _)). }
  clear Hloop.
  repeat (apply bind_inv in H as (? & ? & ? & H)).
  unfold thePathFinding, emit, modify, get, deref, bind, ret in *.
  repeat match goal with
         | E : match ?x with _ => _ end _ = (Val _, _) |- _ =>
             destruct x; [|discriminate]
         | E : (_, _) = (Val _, _) |- _ => injection E as ? ?; subst
         end.
  injection H as <-. by unfold gone; split_and!.
Qed.

Lemma elem_of_destroyedAt s cells e :
  e ∈ cells ≫= destroyedAt s <->
  exists p, p ∈ cells /\
    ((e = Tile_destroy (pos_r p) (pos_c p) /\ is_Some (tileOf s p)) \/
     (exists x, e = Obj_destroy x /\ x ∈ refs s p)).
Proof.
  rewrite list_elem_of_bind. unfold destroyedAt. split.
  - intros (p & He & Hp). exists p. split; [done|].
    apply elem_of_app in He as [He|He].
    + left. destruct (tileOf s p); [|by apply elem_of_nil in He].
      apply list_elem_of_singleton in He. eauto.
    + right. apply list_elem_of_fmap in He as (x & -> & Hx). eauto.
  - intros (p & Hp & [[-> [tile Ht]]|(x & -> & Hx)]); exists p;
      (split; [|done]); apply elem_of_app.
    + left. rewrite Ht. apply list_elem_of_singleton. done.
    + right. apply list_elem_of_fmap. eauto.
Qed.

(** X13. [destroy], on an engine that has its move engine, its pathfinder,
    its map data and the rows of both arrays, returns and leaves nothing:
    it destroys the move engine, then cell by cell, in the order of
    [createMap], the tile of the cell and every reference the cell holds,
    then the pathfinder.  An object is destroyed once for every cell of the
    map that references it, and not at all when it is referenced only
    beyond the last column. *)
Theorem destroy_releases_the_map s :
  whole s ->
  exists s',
    destroy s = (Val tt, s') /\
    gone s' /\
    log s' = log s ++ [ME_destroy]
               ++ (cellsInOrder (mapSizeR s) (mapSizeC s) ≫= destroyedAt s)
               ++ [PF_destroy] /\
    forall x,
      Obj_destroy x ∈ cellsInOrder (mapSizeR s) (mapSizeC s) ≫= destroyedAt s
      <-> exists p, 0 <= pos_r p < mapSizeR s /\ 0 <= pos_c p < mapSizeC s /\
                    x ∈ refs s p.
Proof.
  intros Hs. destruct (destroy_run s Hs) as (s' & Hrun & Hlog & Hgone & _).
  exists s'. split; [exact Hrun|]. split; [exact Hgone|].
  split; [exact Hlog|]. intros x. rewrite elem_of_destroyedAt. split.
  - intros (p & Hp & [[[=] _]|(y & [= <-] & Hy)]).
    apply elem_of_cellsInOrder in Hp. exists p. tauto.
  - intros (p & Hr & Hc & Hx). exists p. split.
    + by apply elem_of_cellsInOrder.
    + right. eauto.
Qed.

(** X14. Once [destroy] has returned, the engine is of no use: the methods
    that read the arrays throw a TypeError, as do [createMap] and a second
    [destroy]; there is no controllable, and the methods that move it
    throw the error for a missing controllable.  None of these calls
    changes anything. *)
Theorem after_destroy_every_method_throws s s' :
  destroy s = (Val tt, s') ->
  (forall r c,
     getTileAtRowAndColumn r c s' = (Throw (TypeError "this.tileArray"), s') /\
     getObjectsAtRowAndColumn r c s'
     = (Throw (TypeError "this.objArray"), s')) /\
  (forall pos,
     getObjectsAtLocation pos s' = (Throw (TypeError "this.objArray"), s') /\
     removeAllObjectRefsFromLocation pos s'
     = (Throw (TypeError "this.objArray"), s')) /\
  (forall obj pos,
     addObjRefToSingleLocation obj pos s'
     = (Throw (TypeError "this.objArray"), s') /\
     removeObjRefFromSingleLocation obj pos s'
     = (Throw (TypeError "this.objArray"), s')) /\
  createMap X s' = (Throw (TypeError "this.config"), s') /\
  destroy s' = (Throw (TypeError "this.moveEngine"), s') /\
  getCurrentControllable s' = (Val None, s') /\
  (forall fuel pos speed,
     moveCurrentControllableToLocation X fuel pos speed s'
     = (Throw (Error "TRAVISO: currentControllable is not defined!"), s')) /\
  (forall fuel obj speed,
     moveCurrentControllableToObj X fuel obj speed s'
     = (Throw (Error "TRAVISO: currentControllable is not defined!"), s')).
Proof.
  intros H. apply destroy_gone in H as (Hme & Hpf & Hcc & Hta & Hoa & Hcfg & Hmd).
  assert (Hobj : forall pos,
            objCell pos s' = (Throw (TypeError "this.objArray"), s')).
  { intros pos. unfold objCell, bind, get, deref. by rewrite Hoa. }
  split; [|split; [|split; [|split; [|split; [|split; [|split]]]]]].
  - intros r c. split.
    + unfold getTileAtRowAndColumn, tileCell, bind, get, deref.
      by rewrite Hta.
    + apply Hobj.
  - intros pos. split; [apply Hobj|].
    unfold removeAllObjectRefsFromLocation. by apply bind_throw.
  - intros obj pos. split.
    + unfold addObjRefToSingleLocation. by apply bind_throw.
    + unfold removeObjRefFromSingleLocation. by apply bind_throw.
  - unfold createMap. apply bind_throw.
    unfold theConfig, bind, get, deref. by rewrite Hcfg.
  - unfold destroy. apply bind_throw.
    unfold theMoveEngine, bind, get. by rewrite Hme.
  - unfold getCurrentControllable, bind, get, ret. by rewrite Hcc.
  - intros fuel pos speed.
    unfold moveCurrentControllableToLocation, bind, get. by rewrite Hcc.
  - intros fuel obj speed.
    unfold moveCurrentControllableToObj. unfold bind at 1, get.
    rewrite Hcc. reflexivity.
Qed.

(** X15. A map made by [createMap] can be released: [destroy] returns and
    leaves nothing, and the objects it destroys are the objects that
    [createMap] made and that cover a cell of the map. *)
Theorem createMap_then_destroy s cfg md row0 :
  config s = Some cfg ->
  mapData s = Some md ->
  head (groundMapData md) = Some row0 ->
  moveEngine s = true ->
  let rows := Z.of_nat (length (groundMapData md)) in
  let cols := Z.of_nat (length row0) in
  let objs := objectsMapData md in
  (length (groundMapData md) <= length objs)%nat ->
  fits X objs rows cols ->
  exists s1 s2 calls,
    createMap X s = (Val tt, s1) /\
    destroy s1 = (Val tt, s2) /\
    gone s2 /\
    log s2 = log s1 ++ [ME_destroy] ++ calls ++ [PF_destroy] /\
    forall x,
      Obj_destroy x ∈ calls <->
      (nextObject s <= x < nextObject s1)%nat /\
      exists p, p ∈ cellsInOrder rows cols /\ p ∈ footprintOf s1 x.
Proof.
  intros Hcfg Hmd Hrow0 Hme rows cols objs Hlen Hfits.
  destruct (createMap_built s cfg md row0 Hcfg Hmd Hrow0 Hlen Hfits)
    as (s1 & Hrun1 & Hb & _ & Hready & C1 & C2 & C3 & C4 & C5 & _).
  fold rows cols in Hb, Hready, C4, C5.
  destruct Hb as (Hpf & Hrows & _ & _ & Hrange & Hobj & _).
  assert (Hwhole : whole s1).
  { split; [congruence|]. split; [done|]. split; [rewrite C2, Hmd; eauto|].
    rewrite C4, C5. intros p Hp. apply elem_of_cellsInOrder in Hp.
    split; [|apply Hrows; lia].
    destruct Hready as (_ & t & Ht & Htrows). unfold tileRowAt. rewrite Ht.
    apply Htrows. lia. }
  destruct (destroy_run s1 Hwhole) as (s2 & Hrun2 & Hlog & Hgone & _).
  rewrite C4, C5 in Hlog.
  exists s1, s2, (cellsInOrder rows cols ≫= destroyedAt s1).
  split; [exact Hrun1|]. split; [exact Hrun2|]. split; [exact Hgone|].
  split; [exact Hlog|]. intros x. rewrite elem_of_destroyedAt. split.
  - intros (p & Hp & [[[=] _]|(y & [= <-] & Hy)]).
    pose proof (Hrange p x Hy) as Hr. split; [done|]. exists p.
    split; [done|]. destruct (Hobj x Hr) as (Hpl & _). by apply Hpl.
  - intros (Hr & p & Hp & Hfp). exists p. split; [done|]. right.
    exists x. split; [done|]. destruct (Hobj x Hr) as (Hpl & _).
    by apply Hpl.
Qed.

(** ** Objects that do not fit *)

Lemma objCell_missing_row pos s :
  rowAt s (pos_r pos) = None ->
  exists what, objCell pos s = (Throw (TypeError what), s).
Proof.
  unfold rowAt, objCell, bind, get, deref. simpl.
  destruct (objArray s) as [rows|]; simpl; [|eauto].
  intros ->. simpl. eauto.
Qed.

Lemma addObjRefToLocation_throws obj pos s :
  is_Some (pathFinding s) ->
  Exists (fun p => rowAt s (pos_r p) = None)
    (footprint pos (ObjectView.columnSpan (objects s obj))
       (ObjectView.rowSpan (objects s obj))) ->
  exists what s',
    addObjRefToLocation obj pos s = (Throw (TypeError what), s').
Proof.
  unfold addObjRefToLocation. rewrite overFootprint_forEach.
  generalize (footprint pos (ObjectView.columnSpan (objects s obj))
                (ObjectView.rowSpan (objects s obj))).
  intros cells. revert s.
  induction cells as [|p cells IH]; intros s Hpf Hex.
  - by apply Exists_nil in Hex.
  - cbn [forEach]. destruct (rowAt s (pos_r p)) as [row|] eqn:Hrow.
    + destruct Hpf as [pf Hpf].
      destruct (addObjRefToSingleLocation_spec s obj p row pf Hrow Hpf)
        as (s1 & Hrun & _ & Hsame & _ & _ & Hrows).
      erewrite bind_val by exact Hrun. apply IH.
      * replace (pathFinding s1) with (pathFinding s); [by eexists|].
        symmetry. apply Hsame.
      * apply Exists_cons in Hex as [Hex|Hex]; [congruence|].
        eapply Exists_impl; [exact Hex|]. intros q Hq. simpl in Hq.
        specialize (Hrows (pos_r q)). rewrite Hq in Hrows.
        destruct (rowAt s1 (pos_r q)); [|done].
        exfalso. by apply (is_Some_None (A := gmap Z (list nat))), Hrows.
    + destruct (objCell_missing_row p s Hrow) as [what Hthrow].
      exists what, s. apply bind_throw.
      unfold addObjRefToSingleLocation. by apply bind_throw.
Qed.

Lemma placeObject_throws objs icl rows cols n0 q rest s :
  q ∈ cellsInOrder rows cols ->
  ~ fitsAt X objs q ->
  built X objs rows cols n0 (q :: rest) s ->
  exists what s',
    placeObject X objs icl (pos_r q) (pos_c q) s
    = (Throw (TypeError what), s').
Proof.
  intros Hq Hbad Hb.
  pose proof (built_unvisited _ _ _ _ _ _ _ Hb) as Hempty.
  destruct Hb as (Hpf & Hrows & _).
  pose proof Hq as Hq'. apply elem_of_cellsInOrder in Hq' as [Hqr Hqc].
  destruct (proj2 (Hrows (pos_r q)) Hqr) as [row Hrow].
  destruct (rowAt_cases _ _ _ Hrow) as (rws & Ha & Hr).
  unfold placeObject. rewrite mkPos_eta.
  erewrite bind_val by (apply (setObjCell_run s q None rws row Ha Hr)).
  set (s1 := set_objArray _ s).
  pose proof (cellAt_insert_row s rws row q None Ha Hr) as (_ & _ & Hc3).
  fold s1 in Hc3.
  destruct (jsIndex objs (pos_r q)) as [objRow|] eqn:HobjRow.
  2:{ eexists _, _. reflexivity. }
  simpl deref. erewrite bind_val by reflexivity.
  assert (Hdata : entry objRow (pos_c q) = dataAt objs q).
  { unfold dataAt. by rewrite HobjRow. }
  rewrite Hdata.
  destruct (dataAt objs q) as [data|] eqn:Ed.
  2:{ exfalso. apply Hbad. split; [by rewrite HobjRow|]. by rewrite Ed. }
  erewrite bind_val by reflexivity.
  change (nextObject s1) with (nextObject s).
  fold (objectAt X q data).
  set (obj := nextObject s). set (o := objectAt X q data).
  erewrite bind_val by reflexivity.
  set (s2 := set_objects _ _ s1).
  assert (Ho : objects s2 obj = o) by apply fn_lookup_insert.
  erewrite bind_val by reflexivity. rewrite Ho.
  change (ObjectView.mapPos o) with q.
  destruct (addObjRefToLocation_throws obj q s2) as (what & s' & Hthrow).
  { exact Hpf. }
  { rewrite Ho.
    assert (Hno : ~ Forall (fun p => 0 <= pos_r p)
                     (footprint q (ObjectView.columnSpan o)
                        (ObjectView.rowSpan o))).
    { intros Hall. apply Hbad. split; [by rewrite HobjRow|]. by rewrite Ed. }
    apply not_Forall_Exists in Hno; [|apply _].
    eapply Exists_impl; [exact Hno|]. intros p Hp. simpl in Hp.
    destruct (rowAt s2 (pos_r p)) eqn:E; [|done]. exfalso. apply Hp.
    assert (His : is_Some (rowAt s2 (pos_r p))) by (by rewrite E).
    apply Hc3, Hrows in His. lia. }
  exists what, s'. by apply bind_throw.
Qed.

Lemma placeObjects_throw objs icl rows cols n0 cells s :
  (forall q, q ∈ cells -> q ∈ cellsInOrder rows cols) ->
  StronglySorted visitedBefore cells ->
  built X objs rows cols n0 cells s ->
  Exists (fun q => ~ fitsAt X objs q) cells ->
  exists what s',
    forEach cells (fun p => placeObject X objs icl (pos_r p) (pos_c p)) s
    = (Throw (TypeError what), s').
Proof.
  revert s.
  induction cells as [|q rest IH]; intros s Hcells Hsorted Hb Hex.
  - by apply Exists_nil in Hex.
  - cbn [forEach]. apply StronglySorted_inv in Hsorted as [Hrest Hq].
    assert (Hin : q ∈ cellsInOrder rows cols) by (apply Hcells; left).
    destruct (decide (fitsAt X objs q)) as [Hfit|Hbad].
    + destruct (placeObject_built objs icl rows cols n0 q rest s
                  Hin Hfit Hq Hb) as (s1 & Hrun1 & Hb1 & _).
      erewrite bind_val by exact Hrun1. apply IH; [|done|done|].
      * intros q' Hq'. apply Hcells. by right.
      * by apply Exists_cons in Hex as [Hex|Hex].
    + destruct (placeObject_throws objs icl rows cols n0 q rest s
                  Hin Hbad Hb) as (what & s' & Hthrow).
      exists what, s'. by apply bind_throw.
Qed.

(** X16. [createMap] throws a TypeError when the objects map lacks the row
    of a cell of the map, and when an object of the objects map would
    cover a cell in a row above the first. *)
Theorem createMap_throws_where_an_object_does_not_fit s cfg md row0 q :
  config s = Some cfg ->
  mapData s = Some md ->
  head (groundMapData md) = Some row0 ->
  let rows := Z.of_nat (length (groundMapData md)) in
  let cols := Z.of_nat (length row0) in
  let objs := objectsMapData md in
  q ∈ cellsInOrder rows cols ->
  (jsIndex objs (pos_r q) = None \/
   exists data p,
     dataAt objs q = Some data /\
     p ∈ footprint q (ObjectView.columnSpan (ObjectView_new X data))
           (ObjectView.rowSpan (ObjectView_new X data)) /\
     pos_r p < 0) ->
  exists what, (createMap X s).1 = Throw (TypeError what).
Proof.
  intros Hcfg Hmd Hrow0 rows cols objs Hq Hbad.
  destruct (createMap_tiles s cfg md row0 Hcfg Hmd Hrow0)
    as (s4 & Hrun4 & Hb4 & _).
  fold rows cols objs in Hrun4, Hb4.
  destruct (placeObjects_throw objs (initialControllableLocation md)
              rows cols (nextObject s) (cellsInOrder rows cols) s4)
    as (what & s' & Hthrow).
  { done. }
  { apply StronglySorted_cellsInOrder. }
  { exact Hb4. }
  { apply Exists_exists. exists q. split; [done|]. intros [Hrow Hfit].
    destruct Hbad as [Hnone|(data & p & Hd & Hp & Hneg)].
    - rewrite Hnone in Hrow. by apply is_Some_None in Hrow.
    - rewrite Hd in Hfit.
      apply (proj1 (Forall_forall _ _) Hfit) in Hp. lia. }
  exists what. by rewrite Hrun4, Hthrow.
Qed.

(** ** Relocation at once *)

Lemma when_idle (b : bool) (m : M unit) s :
  (b = true -> m s = (Val tt, s)) -> when b m s = (Val tt, s).
Proof. destruct b; simpl; [auto|done]. Qed.



Lemma fadedFrom_rowAt s t r : fadedFrom s t -> rowAt t r = rowAt s r.
Proof.
  intros [(_ & _ & _ & _ & _ & Ha & _) _]. unfold rowAt. by rewrite Ha.
Qed.

Lemma fadedFrom_cellAt s t p : fadedFrom s t -> cellAt t p = cellAt s p.
Proof. intros H. unfold cellAt. by rewrite (fadedFrom_rowAt s t _ H). Qed.




Lemma tileCell_tileOf s p tile :
  tileOf s p = Some tile ->
  tileCell (pos_r p) (pos_c p) s = (Val (Some tile), s).
Proof.
  unfold tileOf. destruct (tileRowAt s (pos_r p)) as [row|] eqn:Hrow; [|done].
  destruct (tileRowAt_cases _ _ _ Hrow) as (tiles & Ht & Hr). intros Hc.
  unfold tileCell, bind, get, deref, ret. rewrite Ht. simpl. rewrite Hr.
  simpl. by rewrite Hc.
Qed.


(** ** All the references of a cell *)

(** X18. [removeAllObjectRefsFromLocation] empties the cell and, when it
    held a list, opens it in the dynamic layer; called again it does
    nothing.  It leaves the other cells and the objects alone: an object
    it has taken from the cell keeps its place and its references on the
    other cells it covers, and is no longer referenced exactly where it
    stands. *)
Theorem removeAllObjectRefsFromLocation_empties_one_cell s pos :
  is_Some (pathFinding s) -> is_Some (rowAt s (pos_r pos)) ->
  exists s',
    removeAllObjectRefsFromLocation pos s = (Val tt, s') /\
    cellAt s' pos = None /\
    (forall p, p <> pos -> cellAt s' p = cellAt s p) /\
    objects s' = objects s /\
    log s' = log s ++
      match cellAt s pos with
      | Some _ => [PF_setDynamicCell (pos_c pos) (pos_r pos) 1]
      | None => []
      end /\
    removeAllObjectRefsFromLocation pos s' = (Val tt, s') /\
    (forall x, x ∈ refs s pos -> placed s x -> ~ placed s' x).
Proof.
  intros [pf Hpf] [row Hrow].
  destruct (rowAt_cases _ _ _ Hrow) as (rows & Ha & Hr).
  assert (Hcell : cellAt s pos = row !! pos_c pos).
  { unfold cellAt. by rewrite Hrow. }
  assert (Hend : forall s',
            cellAt s' pos = None -> is_Some (rowAt s' (pos_r pos)) ->
            removeAllObjectRefsFromLocation pos s' = (Val tt, s')).
  { intros s' Hnone Hrow'. unfold removeAllObjectRefsFromLocation.
    erewrite bind_val by (by apply objCell_read). by rewrite Hnone. }
  assert (Hlost : forall s',
            cellAt s' pos = None -> objects s' = objects s ->
            forall x, x ∈ refs s pos -> placed s x -> ~ placed s' x).
  { intros s' Hnone Hobj x Hx Hpl Hpl'.
    apply Hpl in Hx. unfold footprintOf in Hx. rewrite <- Hobj in Hx.
    apply Hpl' in Hx. unfold refs in Hx. rewrite Hnone in Hx.
    by apply elem_of_nil in Hx. }
  unfold removeAllObjectRefsFromLocation at 1.
  erewrite bind_val by (eapply objCell_run; eauto).
  rewrite Hcell. destruct (row !! pos_c pos) as [a|] eqn:Ecell.
  - erewrite bind_val by (apply (setDynamicCell_run s _ _ _ pf Hpf)).
    set (s1 := set_log _ s).
    erewrite (setObjCell_run s1 pos None rows row) by done.
    set (s' := set_objArray _ s1).
    pose proof (cellAt_insert_row s1 rows row pos None Ha Hr)
      as (Hc1 & Hc2 & Hc3).
    fold s' in Hc1, Hc2, Hc3.
    exists s'. split; [reflexivity|]. split; [exact Hc1|].
    split; [exact Hc2|]. split; [reflexivity|]. split; [reflexivity|].
    split.
    + apply Hend; [exact Hc1|]. apply Hc3. by eexists.
    + by apply Hlost.
  - exists s. split; [reflexivity|]. split; [by rewrite Hcell|].
    split; [done|]. split; [done|]. split; [by rewrite app_nil_r|]. split.
    + apply Hend; [by rewrite Hcell|by eexists].
    + apply Hlost; [by rewrite Hcell|done].
Qed.

(** ** An object under way *)

Lemma setHighlighted_ends item on s :
  (exists s', setHighlighted item on s = (Val tt, s')) \/
  (exists what s', setHighlighted item on s = (Throw (TypeError what), s')).
Proof.
  unfold setHighlighted, tileCell, bind, get, deref, emit, modify, ret, throw.
  destruct (tileArray s) as [tiles|]; simpl; [|eauto].
  destruct (tiles !! pos_r (item_mapPos item)) as [row|]; simpl; [|eauto].
  destruct (row !! pos_c (item_mapPos item)); simpl; eauto.
Qed.

Lemma forEach_ends {A} (xs : list A) (body : A -> M unit) s :
  (forall x t,
     (exists t', body x t = (Val tt, t')) \/
     (exists what t', body x t = (Throw (TypeError what), t'))) ->
  (exists s', forEach xs body s = (Val tt, s')) \/
  (exists what s', forEach xs body s = (Throw (TypeError what), s')).
Proof.
  intros Hbody. revert s. induction xs as [|x xs IH]; intros s; simpl.
  - left. by exists s.
  - destruct (Hbody x s) as [[t' Hrun]|(what & t' & Hrun)].
    + erewrite bind_val by exact Hrun. apply IH.
    + right. exists what, t'. by apply bind_throw.
Qed.

Lemma arrangePathHighlight_ends cp np s :
  (exists s', arrangePathHighlight cp np s = (Val tt, s')) \/
  (exists what s',
     arrangePathHighlight cp np s = (Throw (TypeError what), s')).
Proof.
  assert (Hstep : forall (b : bool) item on t,
            (exists t', when b (setHighlighted item on) t = (Val tt, t')) \/
            (exists what t',
               when b (setHighlighted item on) t
               = (Throw (TypeError what), t'))).
  { intros [|] item on t; simpl; [apply setHighlighted_ends|].
    left. by exists t. }
  assert (Hpart : forall (p q : option (list PathItem)) on t,
            (exists t',
               match p with
               | Some l =>
                   forEach l (fun pathItem =>
                     when (notIn pathItem q) (setHighlighted pathItem on))
               | None => ret tt
               end t = (Val tt, t')) \/
            (exists what t',
               match p with
               | Some l =>
                   forEach l (fun pathItem =>
                     when (notIn pathItem q) (setHighlighted pathItem on))
               | None => ret tt
               end t = (Throw (TypeError what), t'))).
  { intros [l|] q on t; [|left; by exists t].
    apply forEach_ends. intros x t0. apply Hstep. }
  unfold arrangePathHighlight.
  destruct (Hpart cp np false s) as [[s1 Hrun1]|(what & s1 & Hrun1)].
  - erewrite bind_val by exact Hrun1. apply Hpart.
  - right. exists what, s1. by apply bind_throw.
Qed.

Lemma arrangePathHighlight_objects s0 cp np :
  preserves (fun t : EngineView =>
               objects t = objects s0 /\ config t = config s0)
    (arrangePathHighlight cp np).
Proof.
  unfold arrangePathHighlight, setHighlighted, tileCell, emit. primitive.
Qed.

(** An object that has a [currentTarget] is under way, and
    [moveObjThrough] then calls [this.stopObject]. *)
Lemma moveObjThrough_under_way fuel s cfg obj path speed :
  config s = Some cfg -> instantObjectRelocation cfg = false ->
  ObjectView.currentTarget (objects s obj) <> None ->
  (exists what s',
     moveObjThrough X (S fuel) obj path speed s
     = (Throw (TypeError what), s')) /\
  (highlightPath cfg = false \/ currentControllable s <> Some obj ->
   moveObjThrough X (S fuel) obj path speed s
   = (Throw (TypeError "this.stopObject is not a function"), s)).
Proof.
  intros Hcfg Hinstant Htarget. simpl. unfold moveObjThrough_body.
  erewrite bind_val by (by apply theConfig_run). rewrite Hinstant.
  erewrite bind_val by reflexivity. erewrite bind_val by reflexivity.
  assert (Hstop : forall t,
            objects t = objects s ->
            bind (readObj obj) (fun o =>
              bind (when (bool_decide (ObjectView.currentTarget o <> None))
                      (stopObject obj))
                (fun _ =>
                   bind (moveEngine_prepareForMove X obj path speed)
                     (fun _ =>
                        bind (readObj obj) (fun o =>
                          bind (deref "obj.currentPath"
                                  (ObjectView.currentPath o)) (fun cp =>
                            bind (updateObj obj
                                    (ObjectView.set_currentTargetTile
                                       (jsIndex cp
                                          (ObjectView.currentPathStep o))))
                              (fun _ =>
                                 bind (readObj obj) (fun o =>
                                   bind (deref "obj.currentPath"
                                           (ObjectView.currentPath o))
                                     (fun cp =>
                                        bind (deref
                                                "obj.currentPath[obj.currentPathStep]"
                                                (jsIndex cp
                                                   (ObjectView.currentPathStep
                                                      o)))
                                          (fun next =>
                                             bind (onObjMoveStepBegin_body X
                                                     (checkAndMoveObjectToLocation_body
                                                        X
                                                        (moveObjThrough X fuel))
                                                     obj (item_mapPos next))
                                               (fun _ => ret tt))))))))))
              t
            = (Throw (TypeError "this.stopObject is not a function"), t)).
  { intros t Hobj. erewrite bind_val by reflexivity. rewrite Hobj.
    rewrite bool_decide_eq_true_2 by done. reflexivity. }
  split.
  - destruct (highlightPath cfg
              && bool_decide (currentControllable s = Some obj)); simpl.
    + destruct (arrangePathHighlight_ends
                  (ObjectView.currentPath (objects s obj)) (Some path) s)
        as [[s1 Hrun1]|(what & s1 & Hrun1)].
      * erewrite bind_val by exact Hrun1.
        pose proof (preserves_run _ _ s
                      (arrangePathHighlight_objects s
                         (ObjectView.currentPath (objects s obj))
                         (Some path)) (conj eq_refl eq_refl)) as [Hobj _].
        rewrite Hrun1 in Hobj. simpl in Hobj.
        eexists _, _. by apply Hstop.
      * exists what, s1. by apply bind_throw.
    + erewrite bind_val by reflexivity. eexists _, _. by apply Hstop.
  - intros Hquiet.
    replace (highlightPath cfg
             && bool_decide (currentControllable s = Some obj)) with false.
    + simpl. erewrite bind_val by reflexivity. by apply Hstop.
    + symmetry. destruct Hquiet as [-> | Hne]; [done|].
      rewrite bool_decide_eq_false_2 by done. apply andb_false_r.
Qed.

(** X19. Without [instantObjectRelocation], an object under way cannot be
    given another path: [moveObjThrough] finds its [currentTarget] set and
    calls [this.stopObject], a name the prototype does not define, so that
    it throws a TypeError before the move engine hears of the new path;
    and so does [checkAndMoveObjectToLocation] when a path is found.
    Nothing has changed by then but the highlight of the controllable's
    path and the log. *)
Theorem moveObjThrough_throws_for_an_object_under_way fuel s cfg obj :
  config s = Some cfg -> instantObjectRelocation cfg = false ->
  ObjectView.currentTarget (objects s obj) <> None ->
  (forall path speed,
     exists what s',
       moveObjThrough X (S fuel) obj path speed s
       = (Throw (TypeError what), s')) /\
  (highlightPath cfg = false \/ currentControllable s <> Some obj ->
   (forall path speed,
      moveObjThrough X (S fuel) obj path speed s
      = (Throw (TypeError "this.stopObject is not a function"), s)) /\
   (forall pos speed path,
      is_Some (pathFinding s) ->
      pathFound X s obj pos = Some path ->
      checkAndMoveObjectToLocation X (S fuel) obj pos speed s
      = (Throw (TypeError "this.stopObject is not a function"),
         solved s obj pos))).
Proof.
  intros Hcfg Hinstant Htarget. split.
  - intros path speed.
    by apply (moveObjThrough_under_way fuel s cfg obj path speed).
  - intros Hquiet. split.
    + intros path speed.
      by apply (moveObjThrough_under_way fuel s cfg obj path speed).
    + intros pos speed path [pf Hpf] Hfound.
      rewrite (checkAndMoveObjectToLocation_run X (S fuel) s obj pos speed pf)
        by done.
      rewrite Hfound. apply bind_throw.
      by apply (moveObjThrough_under_way fuel (solved s obj pos) cfg obj
                  path speed).
Qed.

(** ** The highlight of a path *)

Lemma notIn_absent (item : PathItem) q :
  notIn item q = true <-> item ∉ default [] q.
Proof.
  unfold notIn. destruct q as [p|]; simpl.
  - rewrite Z.eqb_eq, <- indexOf_absent.
    pose proof (indexOf_bounds item p). lia.
  - split; [intros _; apply not_elem_of_nil|done].
Qed.

Lemma setHighlighted_run item on s :
  is_Some (tileOf s (item_mapPos item)) ->
  setHighlighted item on s
  = (Val tt,
     set_log (log s ++ [Tile_setHighlighted (pos_r (item_mapPos item))
                          (pos_c (item_mapPos item)) on]) s).
Proof.
  intros [tile Htile]. unfold setHighlighted.
  erewrite bind_val by (by apply tileCell_tileOf). reflexivity.
Qed.

Lemma highlight_run (l : list PathItem) q on s :
  (forall item, item ∈ filter (fun item => item ∉ default [] q) l ->
                is_Some (tileOf s (item_mapPos item))) ->
  exists s',
    forEach l (fun pathItem =>
      when (notIn pathItem q) (setHighlighted pathItem on)) s = (Val tt, s') /\
    s' = set_log (log s') s /\
    log s' = log s
             ++ highlightCalls on (filter (fun item => item ∉ default [] q) l).
Proof.
  revert s. induction l as [|x l IH]; intros s Htiles.
  - exists s. split; [done|]. split; [by destruct s|].
    by rewrite app_nil_r.
  - cbn [forEach]. destruct (decide (x ∉ default [] q)) as [Hx|Hx].
    + rewrite filter_cons_True in Htiles |- * by done.
      rewrite (proj2 (notIn_absent x q) Hx). simpl when.
      erewrite bind_val by (apply setHighlighted_run, Htiles; left).
      set (s1 := set_log _ s).
      destruct (IH s1) as (s' & Hrun & Hrest & Hlog).
      { intros item Hitem. apply (Htiles item). by right. }
      exists s'. split; [exact Hrun|]. split.
      * rewrite Hrest. reflexivity.
      * rewrite Hlog. simpl. by rewrite <- app_assoc.
    + rewrite filter_cons_False in Htiles |- * by done.
      replace (notIn x q) with false.
      2:{ symmetry. apply not_true_is_false. intros E.
          by apply notIn_absent in E. }
      simpl when. erewrite bind_val by reflexivity. by apply IH.
Qed.

(** X20. [arrangePathHighlight] switches the highlight off on the tiles of
    the items of the old path that are not in the new one, then on for the
    items of the new path that are not in the old one, each in the order
    of its path; the items of both paths are not touched, and nothing
    else changes.  Only the tiles it switches need to exist. *)
Theorem arrangePathHighlight_switches cp np s :
  (forall item, item ∈ onlyIn cp np ++ onlyIn np cp ->
                is_Some (tileOf s (item_mapPos item))) ->
  exists s',
    arrangePathHighlight cp np s = (Val tt, s') /\
    s' = set_log (log s') s /\
    log s' = log s ++ highlightCalls false (onlyIn cp np)
               ++ highlightCalls true (onlyIn np cp).
Proof.
  intros Htiles.
  assert (Hpart : forall (p q : option (list PathItem)) on t,
            (forall item, item ∈ onlyIn p q ->
                          is_Some (tileOf t (item_mapPos item))) ->
            exists t',
              match p with
              | Some l =>
                  forEach l (fun pathItem =>
                    when (notIn pathItem q) (setHighlighted pathItem on))
              | None => ret tt
              end t = (Val tt, t') /\
              t' = set_log (log t') t /\
              log t' = log t ++ highlightCalls on (onlyIn p q)).
  { intros [l|] q on t Ht.
    - by apply highlight_run.
    - exists t. split; [done|]. split; [by destruct t|].
      by rewrite app_nil_r. }
  unfold arrangePathHighlight.
  destruct (Hpart cp np false s) as (s1 & Hrun1 & Hrest1 & Hlog1).
  { intros item Hitem. apply Htiles, elem_of_app. by left. }
  erewrite bind_val by exact Hrun1.
  destruct (Hpart np cp true s1) as (s2 & Hrun2 & Hrest2 & Hlog2).
  { intros item Hitem. rewrite Hrest1.
    apply Htiles, elem_of_app. by right. }
  exists s2. split; [exact Hrun2|]. split.
  - rewrite Hrest2, Hrest1. reflexivity.
  - rewrite Hlog2, Hlog1. by rewrite <- app_assoc.
Qed.

End Building.

(** * The steps of a walk

    What [onObjMoveStepBegin] and [onObjMoveStepEnd] do at the two ends of
    a step, and how [moveObjThrough] sets an object out between them. *)

Section Steps.

Context {TileData ObjData : Type} (X : @Externals TileData ObjData).

Abbreviation M := (@M TileData ObjData).
Abbreviation EngineView := (@EngineView TileData ObjData).

Implicit Types s t : EngineView.

Lemma closeStep_run b obj s cfg :
  config s = Some cfg -> onATile s obj ->
  closeStep b obj s
  = (Val tt,
     set_log (log s ++ unhighlight s obj
                ++ (if b then reached cfg obj else [])) s).
Proof.
  intros Hcfg Htile. unfold closeStep, unhighlight, reached.
  unfold bind at 1, get at 1. cbv beta iota.
  assert (Hend : forall t,
            config t = Some cfg ->
            when b (bind theConfig (fun cfg =>
                      when (objectReachedDestinationCallback cfg)
                        (emit (Callback_objectReachedDestination obj)))) t
            = (Val tt,
               set_log (log t ++ (if b
                                  then if objectReachedDestinationCallback cfg
                                       then [Callback_objectReachedDestination
                                               obj]
                                       else []
                                  else [])) t)).
  { intros t Ht. destruct b; cbn [when].
    - erewrite bind_val by (by apply theConfig_run).
      destruct (objectReachedDestinationCallback cfg); cbn [when].
      + reflexivity.
      + rewrite app_nil_r. by destruct t.
    - rewrite app_nil_r. by destruct t. }
  destruct (decide (currentControllable s = Some obj)) as [Hcc|Hcc].
  - rewrite bool_decide_eq_true_2 by done. cbn [when].
    destruct (Htile Hcc) as [tile Ht].
    erewrite bind_val.
    2:{ erewrite bind_val by reflexivity.
        erewrite bind_val by (by apply tileCell_tileOf).
        simpl deref. erewrite bind_val by reflexivity.
        erewrite bind_val by (by apply theConfig_run). reflexivity. }
    rewrite Hend by done. simpl. by rewrite <- app_assoc.
  - rewrite bool_decide_eq_false_2 by done. cbn [when].
    erewrite bind_val by reflexivity. rewrite Hend by done. reflexivity.
Qed.

Lemma highlightPart_run (p q : option (list PathItem)) on s :
  (forall item, item ∈ onlyIn p q -> is_Some (tileOf s (item_mapPos item))) ->
  match p with
  | Some l =>
      forEach l (fun pathItem =>
        when (notIn pathItem q) (setHighlighted pathItem on))
  | None => ret tt
  end s
  = (Val tt, set_log (log s ++ highlightCalls on (onlyIn p q)) s).
Proof.
  intros Htiles. destruct p as [l|].
  - destruct (highlight_run l q on s Htiles) as (s' & Hrun & Hs' & Hlog).
    rewrite Hrun, Hs', Hlog. reflexivity.
  - unfold onlyIn. simpl. rewrite app_nil_r. by destruct s.
Qed.

Lemma arrangePathHighlight_run cp np s :
  (forall item, item ∈ onlyIn cp np ++ onlyIn np cp ->
                is_Some (tileOf s (item_mapPos item))) ->
  arrangePathHighlight cp np s
  = (Val tt,
     set_log (log s ++ highlightCalls false (onlyIn cp np)
                ++ highlightCalls true (onlyIn np cp)) s).
Proof.
  intros Htiles. unfold arrangePathHighlight.
  erewrite bind_val.
  2:{ apply highlightPart_run. intros item Hi. apply Htiles, elem_of_app.
      by left. }
  rewrite highlightPart_run.
  - simpl. by rewrite <- app_assoc.
  - intros item Hi. apply (Htiles item), elem_of_app. by right.
Qed.

(** [moveObjThrough] without relocation at once: the highlight is switched,
    the move engine prepares the object, and the step toward the item at the
    object's step begins. *)
Lemma moveObjThrough_sets_out fuel s obj path speed next :
  setsOutToward X s obj path speed next ->
  let s1 := setOut X s obj path speed in
  let pos := item_mapPos next in
  exists t,
    moveObjThrough X (S fuel) obj path speed s = (Val tt, t) /\
    log t = stepBegun X s1 obj pos /\
    objects t obj
    = setMoveParameters_effect X (objects (asked X s1 obj pos) obj) pos.
Proof.
  intros ((cfg & Hcfg & Hinstant) & Hme & [pf Hpf] & Htiles & Htarget
          & Hnext & Hopen) s1 pos.
  change (moveObjThrough X (S fuel) obj path speed)
    with (moveObjThrough_body X (onObjMoveStepBegin X fuel) obj path speed).
  unfold moveObjThrough_body.
  erewrite bind_val by (by apply theConfig_run).
  rewrite Hinstant.
  unfold bind at 1, get at 1. cbv beta.
  unfold bind at 1, readObj at 1, bind at 1, get at 1, ret at 1. cbv beta.
  assert (Hswitch :
    when (highlightPath cfg && bool_decide (currentControllable s = Some obj))
      (arrangePathHighlight (ObjectView.currentPath (objects s obj))
         (Some path)) s
    = (Val tt, set_log (log s ++ pathSwitch s obj path) s)).
  { unfold pathSwitch in *. rewrite Hcfg in *.
    destruct (highlightPath cfg
              && bool_decide (currentControllable s = Some obj)); cbn [when].
    - apply arrangePathHighlight_run. intros item Hi.
      rewrite <- (mkPos_eta (item_mapPos item)).
      apply elem_of_app in Hi as [Hi|Hi].
      + apply (Htiles _ _ false), elem_of_app. left.
        apply list_elem_of_fmap. by exists item.
      + apply (Htiles _ _ true), elem_of_app. right.
        apply list_elem_of_fmap. by exists item.
    - rewrite app_nil_r. by destruct s. }
  erewrite bind_val by exact Hswitch.
  set (sh := set_log (log s ++ pathSwitch s obj path) s).
  unfold bind at 1, readObj at 1, bind at 1, get at 1, ret at 1. cbv beta.
  change (objects sh) with (objects s). rewrite Htarget.
  rewrite bool_decide_eq_false_2 by (intros H; by apply H). cbn [when].
  erewrite bind_val by reflexivity.
  assert (Hprep : moveEngine_prepareForMove X obj path speed sh
    = (Val tt,
       set_objects
         (<[obj := prepareForMove_effect X (objects s obj) path speed]>
            (objects s))
         (nextObject s)
         (set_log (log sh ++ [ME_prepareForMove obj path speed]) sh))).
  { unfold moveEngine_prepareForMove, theMoveEngine, bind, get, emit, modify,
      updateObj. simpl. rewrite Hme. reflexivity. }
  erewrite bind_val by exact Hprep.
  unfold bind at 1, readObj at 1, bind at 1, get at 1, ret at 1. cbv beta.
  set (o1 := prepareForMove_effect X (objects s obj) path speed) in *.
  cbn [objects set_objects]. rewrite fn_lookup_insert.
  unfold nextItem in Hnext.
  destruct (ObjectView.currentPath o1) as [cp1|] eqn:Hcp1; [|done].
  cbn [deref]. erewrite bind_val by reflexivity.
  erewrite bind_val by apply updateObj_run.
  cbn [objects set_objects nextObject set_log]. rewrite fn_lookup_insert.
  match goal with
  | |- exists t, bind _ _ ?st = _ /\ _ =>
      assert (Hstate : st = s1);
        [|rewrite Hstate; clear Hstate]
  end.
  { unfold s1, setOut, preparedFor, nextItem. fold o1. rewrite Hcp1.
    unfold set_objects, set_log. simpl. by rewrite <- app_assoc. }
  assert (Ho1 : objects s1 obj
                = ObjectView.set_currentTargetTile
                    (jsIndex cp1 (ObjectView.currentPathStep o1)) o1).
  { unfold s1, setOut, preparedFor, nextItem. fold o1. rewrite Hcp1.
    simpl. by rewrite fn_lookup_insert. }
  unfold bind at 1, readObj at 1, bind at 1, get at 1, ret at 1. cbv beta.
  rewrite Ho1. cbn [ObjectView.currentPath ObjectView.set_currentTargetTile
                    ObjectView.currentPathStep].
  rewrite Hcp1. cbn [deref]. erewrite bind_val by reflexivity.
  rewrite Hnext. cbn [deref]. erewrite bind_val by reflexivity.
  destruct (onObjMoveStepBegin_open X fuel s1 obj pos pf)
    as (t & Hrun & Hlog & Hobj); [done|done|exact Hopen|].
  erewrite bind_val by exact Hrun.
  exists t. split; [reflexivity|]. split; [exact Hlog|exact Hobj].
Qed.

(** ** The beginning of a step *)


(** ** The end of a step *)

Lemma stopped_facts s obj :
  config (stopped s obj) = config s /\
  (onATile s obj -> onATile (stopped s obj) obj) /\
  unhighlight (stopped s obj) obj = unhighlight s obj.
Proof.
  split; [reflexivity|]. unfold onATile, unhighlight.
  change (currentControllable (stopped s obj)) with (currentControllable s).
  change (objects (stopped s obj)) with (objects (stepEnded s obj)).
  rewrite stepEnded_object. done.
Qed.

(** C4. A path is walked from its last element toward its first, and its
    first element is the goal.  [onObjMoveStepEnd] counts the step down,
    clears the target of the object and takes the object from the move
    engine.  The path has ended exactly when the count has dropped below 0:
    then the object is stopped, the tile under the controllable loses its
    highlight, the game is told that the object has arrived, and neither a
    search nor a move follows.  Otherwise the game is not told; when
    [checkPathOnEachTile] is set, a path is sought again from the object's
    place to [currentPath[0].mapPos], and the object sets out along the
    path found; when it is not set, the last element of [currentPath] is
    removed and the object sets out along what is left. *)
Theorem C4_path_consumed_from_the_end fuel s obj cfg :
  moveEngine s = true -> config s = Some cfg ->
  let o := objects s obj in
  let here := ObjectView.mapPos o in
  let step := ObjectView.currentPathStep o - 1 in
  let s1 := stepEnded s obj in
  let run := onObjMoveStepEnd X (S fuel) obj s in
  let halt := Obj_changeVisualToDirection obj (ObjectView.currentDirection o)
                false in
  (ObjectView.currentPathStep (objects s1 obj) = step /\
   ObjectView.currentPath (objects s1 obj) = ObjectView.currentPath o /\
   ObjectView.currentTarget (objects s1 obj) = None /\
   log s1 = log s ++ [ME_removeMovable obj]) /\
  (step < 0 ->
     objects run.2 = objects s1 /\
     extends (log s ++ [ME_removeMovable obj; halt]) run.2 /\
     (onATile s obj ->
      run = (Val tt,
             set_log (log s ++ [ME_removeMovable obj; halt]
                        ++ unhighlight s obj ++ reached cfg obj) s1))) /\
  (0 <= step ->
     (forall t, continueAlongPath X (S fuel) obj s1 = (Val tt, t) ->
        is_Some (config t) -> onATile t obj ->
        run = (Val tt, set_log (log t ++ unhighlight t obj) t)) /\
     (forall e t, continueAlongPath X (S fuel) obj s1 = (Throw e, t) ->
        run = (Throw e, t)) /\
     forall cp, ObjectView.currentPath o = Some cp ->
       (checkPathOnEachTile cfg = true ->
          forall goal rest pf,
            cp = goal :: rest -> pathFinding s = Some pf ->
            let to := item_mapPos goal in
            continueAlongPath X (S fuel) obj s1
            = andThen tt
                (checkAndMoveObjectToLocation X (S fuel) obj to None s1) /\
            extends (log s ++ [ME_removeMovable obj;
                               PF_solve (pos_c here) (pos_r here)
                                 (pos_c to) (pos_r to)]) run.2 /\
            (pathFound X s1 obj to = None ->
             continueAlongPath X (S fuel) obj s1
             = (Val tt, solved s1 obj to)) /\
            (forall p next,
               pathFound X s1 obj to = Some p ->
               setsOutToward X (solved s1 obj to) obj p None next ->
               exists t,
                 continueAlongPath X (S fuel) obj s1 = (Val tt, t) /\
                 log t = stepBegun X (setOut X (solved s1 obj to) obj p None)
                           obj (item_mapPos next))) /\
       (checkPathOnEachTile cfg = false ->
          let s2 := shortened s obj (removelast cp) in
          continueAlongPath X (S fuel) obj s1
          = moveObjThrough X (S fuel) obj (removelast cp) None s2 /\
          ObjectView.currentPath (objects s2 obj) = Some (removelast cp) /\
          (instantObjectRelocation cfg = false ->
             extends (log s ++ [ME_removeMovable obj;
                                ME_prepareForMove obj (removelast cp) None])
               run.2) /\
          (forall next,
             setsOutToward X s2 obj (removelast cp) None next ->
             exists t,
               continueAlongPath X (S fuel) obj s1 = (Val tt, t) /\
               log t = stepBegun X (setOut X s2 obj (removelast cp) None)
                         obj (item_mapPos next)))).
Proof.
  intros Hme Hcfg o here step s1 run halt. subst s1.
  destruct (stepEnded_facts s obj) as (F1 & F2 & F3 & F4 & F5 & F6).
  assert (Hrun := onObjMoveStepEnd_run X (S fuel) s obj Hme).
  fold o step run in Hrun.
  split; [done|]. split.
  - intros Hneg. replace (step <? 0) with true in Hrun
      by (symmetry; apply Z.ltb_lt; lia).
    rewrite Hrun. split; [|split].
    + rewrite closeStep_objects. reflexivity.
    + apply preserves_run; [apply closeStep_extends|].
      exists []. unfold stopped. rewrite log_set_log, F6, app_nil_r.
      rewrite <- app_assoc. reflexivity.
    + intros Htile. destruct (stopped_facts s obj) as (S1 & S2 & S3).
      rewrite (closeStep_run true obj (stopped s obj) cfg);
        [|by rewrite S1|by apply S2].
      rewrite S3. unfold stopped. rewrite log_set_log, F6.
      fold o. fold halt. by rewrite <- !app_assoc.
  - intros Hpos. replace (step <? 0) with false in Hrun
      by (symmetry; apply Z.ltb_ge; lia).
    split; [|split].
    { intros t Ht [cfg' Hcfg'] Htile. rewrite Hrun.
      erewrite bind_val by exact Ht.
      rewrite (closeStep_run false obj t cfg') by done.
      by rewrite app_nil_r. }
    { intros e t Ht. rewrite Hrun. by apply bind_throw. }
    intros cp Hcp.
    assert (Hcp1 : ObjectView.currentPath (objects (stepEnded s obj) obj)
                   = Some cp)
      by (rewrite F2; exact Hcp).
    pose proof (continueAlongPath_run X (S fuel) (stepEnded s obj) obj cfg cp
                  Hcfg Hcp1) as Hc.
    split.
    + intros Hcheck goal rest pf -> Hpf to. rewrite Hcheck in Hc.
      fold to in Hc.
      pose proof (checkAndMoveObjectToLocation_run X (S fuel)
                    (stepEnded s obj) obj to None pf Hpf) as Hsearch.
      split; [exact Hc|]. split; [|split].
      * rewrite Hrun.
        apply bind_extends; [|intros; apply closeStep_extends].
        rewrite Hc, andThen_snd.
        pose proof (checkAndMoveObjectToLocation_log X (S fuel)
                      (stepEnded s obj) obj to None pf Hpf) as Hlog.
        unfold solved in Hlog. rewrite F5, log_set_log, F6 in Hlog.
        rewrite <- app_assoc in Hlog. exact Hlog.
      * intros Hnone. rewrite Hnone in Hsearch. by rewrite Hc, Hsearch.
      * intros p next Hsome Hout. rewrite Hsome in Hsearch.
        destruct (moveObjThrough_sets_out fuel (solved (stepEnded s obj) obj to)
                    obj p None next Hout) as (t & Ht & Hlog & _).
        erewrite bind_val in Hsearch by exact Ht.
        exists t. split; [by rewrite Hc, Hsearch|exact Hlog].
    + intros Hcheck s2. rewrite Hcheck in Hc.
      split; [exact Hc|]. split; [|split].
      { unfold s2, shortened. simpl. rewrite fn_lookup_insert. reflexivity. }
      * intros Hinst. rewrite Hrun.
        apply bind_extends; [|intros; apply closeStep_extends].
        rewrite Hc.
        pose proof (moveObjThrough_walk_log X fuel s2 obj (removelast cp) None
                      cfg) as Hlog.
        replace (log s ++ [ME_removeMovable obj;
                           ME_prepareForMove obj (removelast cp) None])
          with (log s2 ++ [ME_prepareForMove obj (removelast cp) None]).
        -- apply Hlog; try done.
           ++ unfold s2, shortened. simpl. rewrite fn_lookup_insert.
              reflexivity.
           ++ unfold s2, shortened. simpl. rewrite fn_lookup_insert.
              exact F3.
        -- change (log s2) with (log (stepEnded s obj)).
           rewrite F6, <- app_assoc. reflexivity.
      * intros next Hout.
        destruct (moveObjThrough_sets_out fuel s2 obj (removelast cp) None
                    next Hout) as (t & Ht & Hlog & _).
        exists t. split; [by rewrite Hc|exact Hlog].
Qed.

End Steps.


(** * The transparency of the objects in front of the controllable *)

Section Transparency.

Context {TileData ObjData : Type}.

Abbreviation M := (@M TileData ObjData).
Abbreviation EngineView := (@EngineView TileData ObjData).

Implicit Types s t u : EngineView.

Lemma sameButObjects_refl s : sameButObjects s s.
Proof. by repeat split. Qed.

Lemma sameButObjects_trans s t u :
  sameButObjects s t -> sameButObjects t u -> sameButObjects s u.
Proof.
  intros (A1 & A2 & A3 & A4 & A5 & A6 & A7 & A8 & A9 & A10 & A11)
         (B1 & B2 & B3 & B4 & B5 & B6 & B7 & B8 & B9 & B10 & B11).
  unfold sameButObjects. split_and!; congruence.
Qed.

Lemma sameButObjects_refs s t p : sameButObjects s t -> refs t p = refs s p.
Proof.
  intros (_ & _ & _ & _ & _ & Ha & _). unfold refs, cellAt, rowAt.
  by rewrite Ha.
Qed.

Lemma sameButObjects_rowAt s t r : sameButObjects s t -> rowAt t r = rowAt s r.
Proof. intros (_ & _ & _ & _ & _ & Ha & _). unfold rowAt. by rewrite Ha. Qed.

Lemma fades_set_alpha value o : fades (ObjectView.set_alpha value o) = fades o.
Proof. reflexivity. Qed.

(** The loop of [changeObjAlphasInLocation] over the references of a
    cell. *)
Lemma fadeEach_run value (a : list nat) :
  forall u, exists u',
    forEach a (fun x =>
      bind (readObj x) (fun o =>
        when (negb (ObjectView.isFloorObject o)
              && negb (ObjectView.noTransparency o))
          (updateObj x (ObjectView.set_alpha value)))) u
    = (Val tt, u') /\
    sameButObjects u u' /\
    forall x, objects u' x
              = if fades (objects u x) && bool_decide (x ∈ a)
                then ObjectView.set_alpha value (objects u x)
                else objects u x.
Proof.
  induction a as [|y a IH]; intros u.
  - exists u. split; [reflexivity|]. split; [apply sameButObjects_refl|].
    intros x. rewrite bool_decide_eq_false_2 by apply not_elem_of_nil.
    by rewrite andb_false_r.
  - cbn [forEach].
    unfold bind at 1, bind at 1, readObj at 1, bind at 1, get at 1, ret at 1.
    cbv beta iota. fold (fades (objects u y)).
    destruct (fades (objects u y)) eqn:Hy; cbn [when].
    + rewrite updateObj_run.
      set (u1 := set_objects _ _ u).
      destruct (IH u1) as (u' & Hrun & Hsame & Hobj).
      exists u'. split; [exact Hrun|]. split.
      { eapply sameButObjects_trans; [|exact Hsame]. by repeat split. }
      intros x. rewrite Hobj. unfold u1. simpl.
      destruct (decide (x = y)) as [->|Hxy].
      * rewrite fn_lookup_insert, fades_set_alpha, Hy.
        rewrite (bool_decide_eq_true_2 (y ∈ y :: a)) by left.
        by destruct (bool_decide (y ∈ a)).
      * rewrite fn_lookup_insert_ne by done.
        replace (bool_decide (x ∈ y :: a)) with (bool_decide (x ∈ a));
          [done|].
        apply bool_decide_ext. rewrite elem_of_cons.
        split; [by right|by intros [?|?]].
    + destruct (IH u) as (u' & Hrun & Hsame & Hobj).
      exists u'. split; [exact Hrun|]. split; [exact Hsame|].
      intros x. rewrite Hobj.
      destruct (decide (x = y)) as [->|Hxy].
      * by rewrite Hy.
      * replace (bool_decide (x ∈ y :: a)) with (bool_decide (x ∈ a));
          [done|].
        apply bool_decide_ext. rewrite elem_of_cons.
        split; [by right|by intros [?|?]].
Qed.

(** [changeObjAlphasInLocation] on a cell of an existing row. *)
Lemma changeObjAlphasInLocation_run value pos u :
  is_Some (rowAt u (pos_r pos)) ->
  exists u',
    changeObjAlphasInLocation value pos u = (Val tt, u') /\
    sameButObjects u u' /\
    forall x, objects u' x
              = if fades (objects u x) && bool_decide (x ∈ refs u pos)
                then ObjectView.set_alpha value (objects u x)
                else objects u x.
Proof.
  intros Hrow. unfold changeObjAlphasInLocation.
  erewrite bind_val by (by apply objCell_read).
  destruct (cellAt u pos) as [a|] eqn:Hcell.
  - destruct (fadeEach_run value a u) as (u' & Hrun & Hsame & Hobj).
    exists u'. split; [exact Hrun|]. split; [exact Hsame|].
    intros x. rewrite Hobj. unfold refs. by rewrite Hcell.
  - exists u. split; [reflexivity|]. split; [apply sameButObjects_refl|].
    intros x. unfold refs. rewrite Hcell.
    rewrite bool_decide_eq_false_2 by apply not_elem_of_nil.
    by rewrite andb_false_r.
Qed.

(** One of the six calls in [arrangeObjTransperancies], made under its
    test. *)
Lemma fadeWhen_run (b : bool) value pos s u :
  sameButObjects s u ->
  (b = true -> is_Some (rowAt s (pos_r pos))) ->
  exists u',
    when b (changeObjAlphasInLocation value pos) u = (Val tt, u') /\
    sameButObjects s u' /\
    forall x, objects u' x
              = if fades (objects u x) && (b && bool_decide (x ∈ refs s pos))
                then ObjectView.set_alpha value (objects u x)
                else objects u x.
Proof.
  intros Hsame Hrow. destruct b; cbn [when].
  - destruct (changeObjAlphasInLocation_run value pos u)
      as (u' & Hrun & Hsame' & Hobj).
    { rewrite (sameButObjects_rowAt s u) by done. by apply Hrow. }
    exists u'. split; [exact Hrun|]. split.
    { by eapply sameButObjects_trans. }
    intros x. by rewrite Hobj, (sameButObjects_refs s u).
  - exists u. split; [reflexivity|]. split; [exact Hsame|].
    intros x. by rewrite andb_false_r.
Qed.

Lemma referencedIn_cons (b : bool) s p cells x :
  referencedIn s ((if b then [p] else []) ++ cells) x
  = (b && bool_decide (x ∈ refs s p)) || referencedIn s cells x.
Proof. by destruct b. Qed.

(** X21. [arrangeObjTransperancies] on a map whose rows exist returns and
    changes nothing but the alpha of objects, and nothing at all unless
    [changeTransperancies] is set.  Where it is set, the alpha of the object
    itself is 1 afterwards.  When the object is the controllable, every other
    object that is neither a floor object nor marked [noTransparency] has
    alpha 0.7 when it is referenced in front of the new place (to the left,
    to the left and below, or below), else alpha 1 when it is referenced in
    front of the previous place, and else the alpha it had; when the object
    is not the controllable, no other object changes. *)
Theorem arrangeObjTransperancies_fades obj prevPos pos s cfg :
  config s = Some cfg ->
  (forall i, 0 <= i < mapSizeR s -> is_Some (rowAt s i)) ->
  0 <= pos_r prevPos < mapSizeR s -> 0 <= pos_r pos < mapSizeR s ->
  exists s',
    arrangeObjTransperancies obj prevPos pos s = (Val tt, s') /\
    sameButObjects s s' /\
    (changeTransperancies cfg = false -> s' = s) /\
    (changeTransperancies cfg = true ->
     objects s' obj = ObjectView.set_alpha 1 (objects s obj) /\
     forall x, x <> obj ->
       objects s' x
       = if bool_decide (currentControllable s = Some obj)
         then arranged s prevPos pos x
         else objects s x).
Proof.
  intros Hcfg Hrows Hprev Hpos. unfold arrangeObjTransperancies.
  erewrite bind_val by (by apply theConfig_run).
  destruct (changeTransperancies cfg) eqn:Hc; cbn [when].
  2:{ exists s. split; [reflexivity|]. split; [apply sameButObjects_refl|].
      done. }
  unfold bind at 1, get. cbv beta iota.
  destruct (bool_decide (currentControllable s = Some obj)) eqn:Hcc;
    cbn [when].
  2:{ erewrite bind_val by reflexivity. rewrite updateObj_run.
      eexists. split; [reflexivity|]. split; [by repeat split|].
      split; [done|]. intros _. simpl. split.
      - by rewrite fn_lookup_insert.
      - intros x Hx. by rewrite fn_lookup_insert_ne. }
  destruct (fadeWhen_run (0 <? pos_c prevPos) 1
              (mkPos (pos_c prevPos - 1) (pos_r prevPos)) s s)
    as (u1 & R1 & S1 & O1); [apply sameButObjects_refl|simpl; intros; apply Hrows; lia|].
  destruct (fadeWhen_run ((0 <? pos_c prevPos)
                          && (pos_r prevPos <? mapSizeR s - 1)) 1
              (mkPos (pos_c prevPos - 1) (pos_r prevPos + 1)) s u1)
    as (u2 & R2 & S2 & O2); [done| |].
  { simpl. intros Hb. apply andb_true_iff in Hb as [_ Hb].
    apply Z.ltb_lt in Hb. apply Hrows. lia. }
  destruct (fadeWhen_run (pos_r prevPos <? mapSizeR s - 1) 1
              (mkPos (pos_c prevPos) (pos_r prevPos + 1)) s u2)
    as (u3 & R3 & S3 & O3); [done| |].
  { simpl. intros Hb. apply Z.ltb_lt in Hb. apply Hrows. lia. }
  destruct (fadeWhen_run (0 <? pos_c pos) 0.7
              (mkPos (pos_c pos - 1) (pos_r pos)) s u3)
    as (u4 & R4 & S4 & O4); [done|simpl; intros; apply Hrows; lia|].
  destruct (fadeWhen_run ((0 <? pos_c pos) && (pos_r pos <? mapSizeR s - 1))
              0.7 (mkPos (pos_c pos - 1) (pos_r pos + 1)) s u4)
    as (u5 & R5 & S5 & O5); [done| |].
  { simpl. intros Hb. apply andb_true_iff in Hb as [_ Hb].
    apply Z.ltb_lt in Hb. apply Hrows. lia. }
  destruct (fadeWhen_run (pos_r pos <? mapSizeR s - 1) 0.7
              (mkPos (pos_c pos) (pos_r pos + 1)) s u5)
    as (u6 & R6 & S6 & O6); [done| |].
  { simpl. intros Hb. apply Z.ltb_lt in Hb. apply Hrows. lia. }
  erewrite bind_val.
  2:{ erewrite bind_val by exact R1. erewrite bind_val by exact R2.
      erewrite bind_val by exact R3. erewrite bind_val by exact R4.
      erewrite bind_val by exact R5. exact R6. }
  rewrite updateObj_run.
  eexists. split; [reflexivity|]. split.
  { destruct S6 as (A1 & A2 & A3 & A4 & A5 & A6 & A7 & A8 & A9 & A10 & A11).
    by repeat split. }
  split; [done|]. intros _. simpl.
  assert (Hall : forall x,
            objects u6 x
            = (if fades (objects s x)
               then if referencedIn s (inFrontOf s pos) x
                    then ObjectView.set_alpha 0.7 (objects s x)
                    else if referencedIn s (inFrontOf s prevPos) x
                         then ObjectView.set_alpha 1 (objects s x)
                         else objects s x
               else objects s x)).
  { intros x.
    pose (pick := fun (a : option Q) (o : ObjectView.t) =>
                    match a with
                    | Some w => ObjectView.set_alpha w o
                    | None => o
                    end).
    assert (Hstep : forall (o' o1 : ObjectView.t) a (b : bool) value,
              o1 = pick a (objects s x) ->
              o' = (if fades o1 && b
                    then ObjectView.set_alpha value o1 else o1) ->
              o' = pick (if fades (objects s x) && b then Some value else a)
                     (objects s x)).
    { intros o' o1 a b value -> ->.
      destruct a as [w|]; cbn [pick]; rewrite ?fades_set_alpha;
        by destruct (fades (objects s x) && b). }
    pose proof (Hstep _ _ None _ _ eq_refl (O1 x)) as H1.
    pose proof (Hstep _ _ _ _ _ H1 (O2 x)) as H2.
    pose proof (Hstep _ _ _ _ _ H2 (O3 x)) as H3.
    pose proof (Hstep _ _ _ _ _ H3 (O4 x)) as H4.
    pose proof (Hstep _ _ _ _ _ H4 (O5 x)) as H5.
    pose proof (Hstep _ _ _ _ _ H5 (O6 x)) as H6.
    rewrite H6. clear. unfold inFrontOf.
    rewrite !referencedIn_cons.
    rewrite <- (app_nil_r (if pos_r pos <? mapSizeR s - 1 then _ else _)).
    rewrite <- (app_nil_r (if pos_r prevPos <? mapSizeR s - 1 then _ else _)).
    rewrite !referencedIn_cons. cbn [referencedIn existsb].
    generalize ((0 <? pos_c prevPos)
                && bool_decide
                     (x ∈ refs s (mkPos (pos_c prevPos - 1) (pos_r prevPos)))).
    generalize ((0 <? pos_c prevPos) && (pos_r prevPos <? mapSizeR s - 1)
                && bool_decide
                     (x ∈ refs s (mkPos (pos_c prevPos - 1)
                                    (pos_r prevPos + 1)))).
    generalize ((pos_r prevPos <? mapSizeR s - 1)
                && bool_decide
                     (x ∈ refs s (mkPos (pos_c prevPos) (pos_r prevPos + 1)))).
    generalize ((0 <? pos_c pos)
                && bool_decide
                     (x ∈ refs s (mkPos (pos_c pos - 1) (pos_r pos)))).
    generalize ((0 <? pos_c pos) && (pos_r pos <? mapSizeR s - 1)
                && bool_decide
                     (x ∈ refs s (mkPos (pos_c pos - 1) (pos_r pos + 1)))).
    generalize ((pos_r pos <? mapSizeR s - 1)
                && bool_decide
                     (x ∈ refs s (mkPos (pos_c pos) (pos_r pos + 1)))).
    intros b6 b5 b4 b3 b2 b1.
    by destruct (fades (objects s x)), b1, b2, b3, b4, b5, b6. }
  split.
  - rewrite fn_lookup_insert, Hall.
    destruct (fades (objects s obj)); [|done].
    destruct (referencedIn s (inFrontOf s pos) obj); [done|].
    by destruct (referencedIn s (inFrontOf s prevPos) obj).
  - intros x Hx. rewrite fn_lookup_insert_ne by done. apply Hall.
Qed.

End Transparency.



(** * The theorems at work on the small map *)

Example ready_log :
  log Demo.ready
  = [PF_new (mkPathFinding 3 3 false false);
     PF_setCell 2 0 0; PF_setCell 1 1 0;
     PF_setDynamicCell 2 1 0; PF_setDynamicCell 2 0 0;
     PF_setDynamicCell 0 2 0].
Proof. vm_compute. reflexivity. Qed.

Example ready_controllable :
  currentControllable Demo.ready = Some Demo.controllable.
Proof. vm_compute. reflexivity. Qed.

Example ready_box_cells :
  cellAt Demo.ready (mkPos 2 1) = Some [Demo.box]
  /\ cellAt Demo.ready (mkPos 2 0) = Some [Demo.box]
  /\ cellAt Demo.ready (mkPos 0 2) = Some [Demo.controllable]
  /\ cellAt Demo.ready (mkPos 1 1) = None.
Proof. vm_compute. repeat split. Qed.

Lemma C1_witness :
  rowAt Demo.ready 1 = Some {[ 2 := [Demo.box] ]} /\
  pathFinding Demo.ready = Some (mkPathFinding 3 3 false false) /\
  exists s',
    removeObjRefFromSingleLocation Demo.box (mkPos 2 1) Demo.ready
    = (Val tt, s') /\
    log s' = log Demo.ready ++ [PF_setDynamicCell 2 1 1].
Proof.
  assert (Hrow : rowAt Demo.ready 1 = Some {[ 2 := [Demo.box] ]})
    by (vm_compute; reflexivity).
  assert (Hpf : pathFinding Demo.ready
                = Some (mkPathFinding 3 3 false false))
    by (vm_compute; reflexivity).
  split; [exact Hrow|]. split; [exact Hpf|].
  destruct (C1_dynamic_layer_follows_references Demo.ready Demo.box
              (mkPos 2 1) _ _ Hrow Hpf) as [Hrem _].
  destruct (Hrem [Demo.box]) as (s' & Hrun & Hempty & _);
    [vm_compute; reflexivity|].
  exists s'. split; [exact Hrun|]. apply Hempty. vm_compute. reflexivity.
Defined.

Lemma C2_counterexample :
  ~ delegatesRowFirst Demo.X Demo.ready (mkPos 0 2) (mkPos 2 1).
Proof. unfold delegatesRowFirst. vm_compute. discriminate. Qed.

Lemma C2_witness :
  pathFinding Demo.ready = Some (mkPathFinding 3 3 false false) /\
  (getPath Demo.X (mkPos 0 2) (mkPos 2 1) Demo.ready).1
  = Val (Demo.solve (log Demo.ready) 0 2 2 1).
Proof.
  assert (Hpf : pathFinding Demo.ready
                = Some (mkPathFinding 3 3 false false))
    by (vm_compute; reflexivity).
  split; [exact Hpf|].
  rewrite (C2_getPath_delegates_column_first Demo.X Demo.ready
             (mkPos 0 2) (mkPos 2 1) _ Hpf).
  reflexivity.
Defined.

Lemma C3_witness :
  config Demo.loaded = Some Demo.theConfig /\
  mapData Demo.loaded = Some Demo.theMapData /\
  head (groundMapData Demo.theMapData) = Some [Some true; Some true; None] /\
  exists pf calls rest,
    log Demo.ready = [PF_new pf] ++ calls ++ rest /\
    PF_setCell 2 0 0 ∈ calls /\ PF_setCell 1 1 0 ∈ calls /\
    PF_setCell 0 0 0 ∉ calls.
Proof.
  split; [reflexivity|]. split; [reflexivity|]. split; [reflexivity|].
  destruct (C3_static_layer_from_terrain Demo.X Demo.loaded Demo.theConfig
              Demo.theMapData [Some true; Some true; None]
              eq_refl eq_refl eq_refl)
    as (pf & calls & rest & Hlog & _ & _ & Hcalls & _).
  exists pf, calls, rest. split; [exact Hlog|]. split; [|split].
  - apply Hcalls. split; [reflexivity|]. split; [simpl; lia|].
    split; [simpl; lia|]. left. vm_compute. reflexivity.
  - apply Hcalls. split; [reflexivity|]. split; [simpl; lia|].
    split; [simpl; lia|]. right. exists false. vm_compute. split; reflexivity.
  - intros Hin. apply Hcalls in Hin as (_ & _ & _ & [Hnone|(d & Hd & Hmov)]).
    + vm_compute in Hnone. discriminate.
    + vm_compute in Hd. injection Hd as <-. vm_compute in Hmov. discriminate.
Defined.

(** The path of one cell is on the object, which is at its last step. *)
Example moving_path :
  ObjectView.currentPath (objects moving Demo.controllable)
  = Some [mkItem GridNode (mkPos 0 1)] /\
  ObjectView.currentPathStep (objects moving Demo.controllable) = 0.
Proof. vm_compute. split; reflexivity. Qed.

(** A concrete state from which an object sets out is checked by
    evaluation, one condition after the other. *)
Ltac sets_out cfg :=
  unfold setsOutToward; split_and!;
  [ exists cfg; split; vm_compute; reflexivity
  | vm_compute; reflexivity
  | vm_compute; eexists; reflexivity
  | let Hin := fresh in
    intros ? ? ? Hin; vm_compute in Hin;
    repeat (apply elem_of_cons in Hin as [Hin|Hin];
            [injection Hin as -> -> ->; vm_compute; eexists; reflexivity|]);
    apply elem_of_nil in Hin; destruct Hin
  | vm_compute; reflexivity
  | vm_compute; reflexivity
  | vm_compute; reflexivity ].

Lemma C4_witness :
  (moveEngine moving = true /\ config moving = Some Demo.theConfig) /\
  (moveEngine walking = true /\ config walking = Some Demo.theConfig) /\
  (moveEngine strolling = true /\
   config strolling = Some (set_checkPathOnEachTile false Demo.theConfig)) /\
  onObjMoveStepEnd Demo.X 1 Demo.controllable moving
  = (Val tt,
     set_log (log moving
                ++ [ME_removeMovable 1;
                    Obj_changeVisualToDirection 1 (-3) false;
                    Tile_setHighlighted 2 0 false;
                    Callback_objectReachedDestination 1])
       (stepEnded moving Demo.controllable)) /\
  (exists t,
     onObjMoveStepEnd Demo.X 1 Demo.controllable walking = (Val tt, t) /\
     log t = log walking
               ++ [ME_removeMovable 1; PF_solve 0 2 0 0;
                   Tile_setHighlighted 1 0 false;
                   ME_prepareForMove 1 [node 0 0] None;
                   Obj_changeVisualToDirection 1 (-6) true;
                   PF_isCellFilled 0 0;
                   ME_setMoveParameters 1 (mkPos 0 0); ME_addMovable 1;
                   Tile_setHighlighted 2 0 false]) /\
  (exists t,
     onObjMoveStepEnd Demo.X 1 Demo.controllable strolling = (Val tt, t) /\
     ObjectView.currentPath (objects t Demo.controllable)
     = Some [node 0 0] /\
     log t = log strolling
               ++ [ME_removeMovable 1;
                   ME_prepareForMove 1 [node 0 0] None;
                   Obj_changeVisualToDirection 1 (-6) true;
                   PF_isCellFilled 0 0;
                   ME_setMoveParameters 1 (mkPos 0 0); ME_addMovable 1;
                   Tile_setHighlighted 2 0 false]).
Proof.
  assert (Hme0 : moveEngine moving = true) by (vm_compute; reflexivity).
  assert (Hcfg0 : config moving = Some Demo.theConfig)
    by (vm_compute; reflexivity).
  assert (Hme1 : moveEngine walking = true) by (vm_compute; reflexivity).
  assert (Hcfg1 : config walking = Some Demo.theConfig)
    by (vm_compute; reflexivity).
  assert (Hme2 : moveEngine strolling = true) by (vm_compute; reflexivity).
  assert (Hcfg2 : config strolling
                  = Some (set_checkPathOnEachTile false Demo.theConfig))
    by (vm_compute; reflexivity).
  split; [exact (conj Hme0 Hcfg0)|]. split; [exact (conj Hme1 Hcfg1)|].
  split; [exact (conj Hme2 Hcfg2)|].
  split; [|split].
  - destruct (C4_path_consumed_from_the_end Demo.X 0 moving Demo.controllable
                Demo.theConfig Hme0 Hcfg0) as (_ & Hended & _).
    destruct Hended as (_ & _ & Hrun); [vm_compute; reflexivity|].
    rewrite Hrun; [|intros _; vm_compute; eexists; reflexivity].
    f_equal.
  - destruct (C4_path_consumed_from_the_end Demo.X 0 walking Demo.controllable
                Demo.theConfig Hme1 Hcfg1) as (_ & _ & Hgoes).
    destruct Hgoes as (Hend & _ & Hway); [vm_compute; discriminate|].
    destruct (Hway twoUp) as [Hcheck _]; [vm_compute; reflexivity|].
    destruct (Hcheck eq_refl (node 0 0) [node 0 1]
                (mkPathFinding 3 3 false false) eq_refl)
      as (_ & _ & _ & Hsome); [vm_compute; reflexivity|].
    destruct (Hsome [node 0 0] (node 0 0)) as (t & Ht & Hlog).
    { vm_compute. reflexivity. }
    { sets_out Demo.theConfig. }
    assert (Et : t = (continueAlongPath Demo.X 1 Demo.controllable
                        (stepEnded walking Demo.controllable)).2)
      by (rewrite Ht; reflexivity).
    exists (set_log (log t ++ unhighlight t Demo.controllable) t).
    split.
    + apply Hend; [exact Ht| |].
      * rewrite Et. vm_compute. eexists. reflexivity.
      * intros _. rewrite Et. vm_compute. eexists. reflexivity.
    + rewrite log_set_log, Hlog, Et. vm_compute. reflexivity.
  - destruct (C4_path_consumed_from_the_end Demo.X 0 strolling
                Demo.controllable
                (set_checkPathOnEachTile false Demo.theConfig) Hme2 Hcfg2)
      as (_ & _ & Hgoes).
    destruct Hgoes as (Hend & _ & Hway); [vm_compute; discriminate|].
    destruct (Hway twoUp) as [_ Hcut]; [vm_compute; reflexivity|].
    destruct (Hcut eq_refl) as (_ & _ & _ & Hsets).
    destruct (Hsets (node 0 0)) as (t & Ht & Hlog).
    { sets_out (set_checkPathOnEachTile false Demo.theConfig). }
    assert (Et : t = (continueAlongPath Demo.X 1 Demo.controllable
                        (stepEnded strolling Demo.controllable)).2)
      by (rewrite Ht; reflexivity).
    exists (set_log (log t ++ unhighlight t Demo.controllable) t).
    split; [|split].
    + apply Hend; [exact Ht| |].
      * rewrite Et. vm_compute. eexists. reflexivity.
      * intros _. rewrite Et. vm_compute. eexists. reflexivity.
    + rewrite Et. vm_compute. reflexivity.
    + rewrite log_set_log, Hlog, Et. vm_compute. reflexivity.
Defined.

Lemma C5_counterexample :
  ~ emptyPathMeansNoMovement Demo.X 1 Demo.ready Demo.controllable
      (mkPos 0 2) None.
Proof.
  intros H. destruct H as (v & Hrun & _); [vm_compute; reflexivity|].
  apply (f_equal fst) in Hrun. vm_compute in Hrun. discriminate.
Qed.

Lemma C5_witness :
  pathFinding Demo.ready = Some (mkPathFinding 3 3 false false) /\
  checkAndMoveObjectToLocation Demo.X 1 Demo.controllable (mkPos 1 1) None
    Demo.ready
  = (Val (JBool false), solved Demo.ready Demo.controllable (mkPos 1 1)).
Proof.
  assert (Hpf : pathFinding Demo.ready
                = Some (mkPathFinding 3 3 false false))
    by (vm_compute; reflexivity).
  split; [exact Hpf|].
  destruct (C5_path_or_no_path Demo.X 1 Demo.ready Demo.controllable
              (mkPos 1 1) None _ Hpf) as [Hnone _].
  apply Hnone. vm_compute. reflexivity.
Defined.

Lemma C6_witness :
  is_Some (pathFinding Demo.ready) /\
  exists s',
    addObjRefToLocation Demo.box (mkPos 2 1) Demo.ready = (Val tt, s') /\
    cellAt s' (mkPos 2 0) = Some [Demo.box] /\
    cellAt s' (mkPos 0 2) = Some [Demo.controllable].
Proof.
  assert (Hpf : is_Some (pathFinding Demo.ready))
    by (vm_compute; eexists; reflexivity).
  split; [exact Hpf|].
  assert (Hcs : ObjectView.columnSpan (objects Demo.ready Demo.box) = 1)
    by (vm_compute; reflexivity).
  assert (Hrs : ObjectView.rowSpan (objects Demo.ready Demo.box) = 2)
    by (vm_compute; reflexivity).
  destruct (C6_footprint_cells Demo.ready Demo.box (mkPos 2 1))
    as (Hcells & _ & _ & _ & Hruns).
  rewrite Hcs, Hrs in Hcells. simpl pos_c in Hcells. simpl pos_r in Hcells.
  destruct Hruns as [(s' & Hrun & Hin & Hout) _]; [|exact Hpf|].
  - intros [k m] Hp. apply Hcells in Hp.
    assert (m = 0 \/ m = 1) as [-> | ->] by lia;
      vm_compute; eexists; reflexivity.
  - exists s'. split; [exact Hrun|]. split.
    + rewrite Hin by (apply Hcells; lia).
      vm_compute. reflexivity.
    + rewrite Hout.
      * vm_compute. reflexivity.
      * intros Hp. apply Hcells in Hp. lia.
Defined.


(** In the corridor the pathfinder names one open cell next to the box,
    the one at column 3000, and the path to it has 3000 steps. *)
Example found_in_corridor :
  log Demo.corridor
  = [PF_new (mkPathFinding 3002 1 false false);
     PF_setDynamicCell 3001 0 0; PF_setDynamicCell 0 0 0] /\
  getAdjacentOpenCells_answer Demo.corridorX (log Demo.corridor) 3001 0 1 1
  = [mkItem GridNode (mkPos 3000 0)] /\
  length <$> foundAround Demo.corridorX Demo.corridor = [3000%nat].
Proof. vm_compute. repeat split. Qed.

(** C8. [moveCurrentControllableToObj] does not return [true] for a
    controllable that already stands next to the object.  In the state
    [standing] the controllable stands below the box, the pathfinder names
    that cell among the open cells next to the box, and the call ends in a
    TypeError, whatever the bound on nested calls and the speed: the branch
    calls [this.stopObject], a name the prototype does not define.  Nor is
    the result [false] only when no path is found.  In the corridor the one
    open cell next to the box is 3000 steps away; a path to it is found,
    and the result is [false], because a path is kept only when it is
    shorter than 3000. *)
Theorem C8_approach_fails_next_to_the_object_and_far_from_it :
  (currentControllable standing = Some Demo.controllable /\
   ObjectView.currentInteractionOffset (objects standing Demo.box) = None /\
   ObjectView.mapPos (objects standing Demo.box) = mkPos 2 1 /\
   ObjectView.mapPos (objects standing Demo.controllable) = mkPos 2 2 /\
   node 2 2 ∈ getAdjacentOpenCells_answer Demo.X (log standing) 2 1 1 2 /\
   is_Some (tileOf standing (mkPos 2 2)) /\
   forall fuel speed,
     (moveCurrentControllableToObj Demo.X fuel Demo.box speed standing).1
     = Throw (TypeError "this.stopObject is not a function")) /\
  (currentControllable Demo.corridor = Some Demo.controllable /\
   ObjectView.currentInteractionOffset (objects Demo.corridor Demo.box)
   = None /\
   getAdjacentOpenCells_answer Demo.corridorX (log Demo.corridor) 3001 0 1 1
   = [node 3000 0] /\
   length <$> foundAround Demo.corridorX Demo.corridor = [3000%nat] /\
   (moveCurrentControllableToObj Demo.corridorX 1 Demo.box None
      Demo.corridor).1 = Val false).
Proof.
  split.
  - split; [vm_compute; reflexivity|]. split; [vm_compute; reflexivity|].
    split; [vm_compute; reflexivity|]. split; [vm_compute; reflexivity|].
    split; [vm_compute; right; left|].
    split; [vm_compute; eexists; reflexivity|].
    intros fuel speed. vm_compute. reflexivity.
  - split; [vm_compute; reflexivity|]. split; [vm_compute; reflexivity|].
    split; [vm_compute; reflexivity|]. split; vm_compute; reflexivity.
Qed.

Lemma C9_witness :
  (destroy Demo.ready).1 = Val tt /\
  (getPath Demo.X (mkPos 0 2) (mkPos 2 1) (destroy Demo.ready).2).1
  = Throw (Error "Path finding hasn't been initialized yet!").
Proof.
  assert (Hrun : (destroy Demo.ready).1 = Val tt) by (vm_compute; reflexivity).
  split; [exact Hrun|].
  rewrite (C9_getPath_after_destroy Demo.X Demo.ready (destroy Demo.ready).2
             (mkPos 0 2) (mkPos 2 1)); [reflexivity|].
  destruct (destroy Demo.ready) as [r s']. simpl in *. by subst r.
Defined.

Lemma C10_witness :
  noDuplicates Demo.loaded /\
  noDuplicates Demo.ready /\
  noDuplicates
    (addObjRefToSingleLocation Demo.box (mkPos 2 1) Demo.loaded).2.
Proof.
  assert (H0 : noDuplicates (@Demo.loaded)).
  { intros pos a H. vm_compute in H. discriminate. }
  split; [exact H0|].
  destruct (C10_no_reference_twice Demo.X Demo.loaded H0)
    as (Hcell & _ & Hcreate & _).
  split; [exact Hcreate|]. apply Hcell.
Defined.

(** ** The small map as [createMap] leaves it *)

Lemma ready_fits :
  fits Demo.X (objectsMapData Demo.theMapData) 3 3.
Proof. apply fits_cells. apply (bool_decide_unpack _). vm_compute. exact I. Qed.

Lemma ready_built :
  createMap Demo.X Demo.loaded = (Val tt, Demo.ready) /\
  built Demo.X (objectsMapData Demo.theMapData) 3 3 0 [] Demo.ready /\
  forall i, is_Some (tileRowAt Demo.ready i) <-> 0 <= i < 3.
Proof.
  destruct (createMap_built Demo.X Demo.loaded Demo.theConfig Demo.theMapData
              [Some true; Some true; None] eq_refl eq_refl eq_refl)
    as (s' & Hrun & Hb & _ & _ & _ & _ & _ & _ & _ & _ & _ & Htiles).
  { simpl. lia. }
  { exact ready_fits. }
  assert (s' = Demo.ready) as -> by (unfold Demo.ready; by rewrite Hrun).
  split; [exact Hrun|]. split; [exact Hb|exact Htiles].
Qed.

Lemma ready_next : nextObject Demo.ready = 2%nat.
Proof. vm_compute. reflexivity. Qed.

Lemma ready_size : mapSizeR Demo.ready = 3 /\ mapSizeC Demo.ready = 3.
Proof. vm_compute. split; reflexivity. Qed.

Lemma ready_pathFinding : is_Some (pathFinding Demo.ready).
Proof. apply ready_built. Qed.

Lemma ready_rows i : is_Some (rowAt Demo.ready i) <-> 0 <= i < 3.
Proof. apply ready_built. Qed.

Lemma ready_mirrors : mirrors Demo.ready.
Proof. apply ready_built. Qed.

Lemma ready_refs p x : x ∈ refs Demo.ready p -> (x < 2)%nat.
Proof.
  destruct ready_built as (_ & (_ & _ & _ & _ & Hrange & _) & _).
  intros Hx. apply Hrange in Hx. rewrite ready_next in Hx. lia.
Qed.

Lemma ready_placed x : (x < 2)%nat -> placed Demo.ready x.
Proof.
  destruct ready_built as (_ & (_ & _ & _ & _ & _ & Hobj & _) & _).
  intros Hx. apply Hobj. rewrite ready_next. lia.
Qed.


Lemma ready_noDuplicates : noDuplicates Demo.ready.
Proof.
  apply (preserves_run noDuplicates (createMap Demo.X) Demo.loaded).
  - apply createMap_noDuplicates.
  - intros pos a H. vm_compute in H. discriminate.
Qed.

Lemma ready_spare p : spare ∉ refs Demo.ready p.
Proof. intros Hp. apply ready_refs in Hp. unfold spare in Hp. lia. Qed.

(** The cell of the first row and the first column, which no object
    covers, takes the spare object. *)
Lemma spare_cell p :
  p ∈ footprint (mkPos 0 0)
        (ObjectView.columnSpan (objects Demo.ready spare))
        (ObjectView.rowSpan (objects Demo.ready spare)) <->
  p = mkPos 0 0.
Proof.
  replace (ObjectView.columnSpan (objects Demo.ready spare)) with 1
    by (vm_compute; reflexivity).
  replace (ObjectView.rowSpan (objects Demo.ready spare)) with 1
    by (vm_compute; reflexivity).
  destruct p as [k m]. rewrite elem_of_footprint. simpl. split.
  - intros [Hk Hm]. f_equal; lia.
  - intros [= -> ->]. lia.
Qed.

Lemma ready_depth (i : Z) :
  (if ObjectView.isFloorObject (objects Demo.ready spare) then 0 else 0) <= i
  < mapSizeR Demo.ready ->
  is_Some (rowAt Demo.ready i).
Proof.
  destruct ready_size as [-> _]. intros Hi. apply ready_rows.
  destruct (ObjectView.isFloorObject _) in Hi; lia.
Qed.




Lemma pathFinding_set_config {TileData ObjData} cfg
    (s : @EngineView TileData ObjData) :
  is_Some (pathFinding s) -> is_Some (pathFinding (set_config cfg s)).
Proof. done. Qed.




(** ** The further theorems at work *)

Lemma addObjectToLocation_places_witness :
  is_Some (pathFinding Demo.ready) /\
  (forall p, spare ∉ refs Demo.ready p) /\
  exists s',
    addObjectToLocation spare (mkPos 0 0) Demo.ready = (Val spare, s') /\
    getObjectsAtLocation (mkPos 0 0) s' = (Val (Some [spare]), s') /\
    placed s' spare.
Proof.
  split; [exact ready_pathFinding|]. split; [exact ready_spare|].
  destruct (addObjectToLocation_places Demo.ready spare (mkPos 0 0)
              ready_pathFinding)
    as (s' & Hrun & _ & _ & Hread & Hpl & _).
  - intros p Hp. apply spare_cell in Hp as ->. apply ready_rows. simpl. lia.
  - exact ready_depth.
  - exact ready_spare.
  - exists s'. split; [exact Hrun|]. split; [|exact Hpl].
    rewrite (Hread (mkPos 0 0)) by (by apply spare_cell).
    replace (refs Demo.ready (mkPos 0 0)) with (@nil nat)
      by (vm_compute; reflexivity).
    reflexivity.
Defined.

Lemma createAndAddObjectToLocation_places_witness :
  is_Some (pathFinding Demo.ready) /\
  (forall p x, x ∈ refs Demo.ready p -> (x < nextObject Demo.ready)%nat) /\
  exists s',
    createAndAddObjectToLocation Demo.X (1, 1, true) (mkPos 0 0) Demo.ready
    = (Val spare, s') /\
    nextObject s' = 3%nat /\ placed s' spare /\ placed s' Demo.box.
Proof.
  assert (Hrange : forall p x,
            x ∈ refs Demo.ready p -> (x < nextObject Demo.ready)%nat).
  { intros p x Hx. rewrite ready_next. by apply ready_refs in Hx. }
  split; [exact ready_pathFinding|]. split; [exact Hrange|].
  destruct (createAndAddObjectToLocation_places Demo.X Demo.ready (1, 1, true)
              (mkPos 0 0) ready_pathFinding)
    as (s' & Hrun & Hnext & _ & _ & _ & _ & Hpl & Hothers).
  - intros p Hp. apply ready_rows.
    destruct p as [k m]. apply elem_of_footprint in Hp. simpl in *. lia.
  - intros i Hi. apply ready_rows. destruct ready_size as [E _].
    rewrite E in Hi. simpl in Hi. lia.
  - exact Hrange.
  - exists s'. rewrite ready_next in Hrun, Hnext, Hpl, Hothers.
    split; [exact Hrun|]. split; [exact Hnext|]. split; [exact Hpl|].
    apply Hothers; [done|]. apply ready_placed. unfold Demo.box. lia.
Defined.

Lemma removeObjectFromLocation_unplaces_witness :
  noDuplicates Demo.ready /\ placed Demo.ready Demo.box /\
  is_Some (pathFinding Demo.ready) /\
  exists s',
    removeObjectFromLocation Demo.box None Demo.ready = (Val tt, s') /\
    (forall p, Demo.box ∉ refs s' p) /\
    placed s' Demo.controllable.
Proof.
  assert (Hbox : placed Demo.ready Demo.box).
  { apply ready_placed. unfold Demo.box. lia. }
  split; [exact ready_noDuplicates|]. split; [exact Hbox|].
  split; [exact ready_pathFinding|].
  assert (Hpos : default (ObjectView.mapPos (objects Demo.ready Demo.box))
                    None
                  = ObjectView.mapPos (objects Demo.ready Demo.box)).
  { generalize (ObjectView.mapPos (objects Demo.ready Demo.box)).
    reflexivity. }
  destruct (removeObjectFromLocation_unplaces Demo.ready Demo.box None
              Hpos ready_noDuplicates Hbox ready_pathFinding)
    as (s' & Hrun & _ & _ & Hgone & Hothers).
  exists s'. split; [exact Hrun|]. split; [exact Hgone|].
  apply Hothers; [done|]. apply ready_placed. unfold Demo.controllable. lia.
Defined.


Lemma arrangeObjLocation_moves_references_witness :
  noDuplicates Demo.ready /\ placed Demo.ready Demo.controllable /\
  is_Some (pathFinding Demo.ready) /\
  exists s',
    arrangeObjLocation Demo.controllable (mkPos 0 1) Demo.ready
    = (Val tt, s') /\
    refs s' (mkPos 0 1) = [Demo.controllable] /\
    refs s' (mkPos 0 2) = [] /\
    placed s' Demo.controllable.
Proof.
  assert (Hc : placed Demo.ready Demo.controllable).
  { apply ready_placed. unfold Demo.controllable. lia. }
  split; [exact ready_noDuplicates|]. split; [exact Hc|].
  split; [exact ready_pathFinding|].
  destruct (arrangeObjLocation_moves_references Demo.ready Demo.controllable
              (mkPos 0 1) ready_noDuplicates Hc ready_pathFinding)
    as (s' & Hrun & _ & Hrefs & Hpl & _).
  - intros p Hp. apply ready_rows.
    replace (ObjectView.columnSpan (objects Demo.ready Demo.controllable))
      with 1 in Hp by (vm_compute; reflexivity).
    replace (ObjectView.rowSpan (objects Demo.ready Demo.controllable))
      with 1 in Hp by (vm_compute; reflexivity).
    destruct p as [k m]. apply elem_of_footprint in Hp. simpl in *. lia.
  - exists s'. split; [exact Hrun|]. rewrite !Hrefs.
    split; [|split; [|exact Hpl]]; vm_compute; reflexivity.
Defined.

Lemma dynamic_layer_mirrors_references_witness :
  mirrors Demo.ready /\ is_Some (pathFinding Demo.ready) /\
  mirrors (addObjectToLocation spare (mkPos 0 0) Demo.ready).2 /\
  mirrors (removeAllObjectRefsFromLocation (mkPos 2 1) Demo.ready).2.
Proof.
  split; [exact ready_mirrors|]. split; [exact ready_pathFinding|].
  destruct (dynamic_layer_mirrors_references Demo.ready ready_mirrors
              ready_pathFinding) as (Hadd & _ & Hall).
  split; [apply Hadd|apply Hall].
Defined.

Lemma movement_keeps_dynamic_layer_witness :
  (forall o path speed,
     ObjectView.isMovableTo (prepareForMove_effect Demo.X o path speed)
     = ObjectView.isMovableTo o) /\
  (forall o pos,
     ObjectView.isMovableTo (setMoveParameters_effect Demo.X o pos)
     = ObjectView.isMovableTo o) /\
  mirrors Demo.ready /\ is_Some (pathFinding Demo.ready) /\
  mirrors moving.
Proof.
  assert (H1 : forall o path speed,
            ObjectView.isMovableTo (prepareForMove_effect Demo.X o path speed)
            = ObjectView.isMovableTo o) by reflexivity.
  assert (H2 : forall o pos,
            ObjectView.isMovableTo (setMoveParameters_effect Demo.X o pos)
            = ObjectView.isMovableTo o) by reflexivity.
  split; [exact H1|]. split; [exact H2|].
  split; [exact ready_mirrors|]. split; [exact ready_pathFinding|].
  destruct (movement_keeps_dynamic_layer Demo.X H1 H2 2 Demo.ready
              ready_mirrors ready_pathFinding) as (_ & Hcheck & _).
  apply Hcheck.
Defined.

Lemma movement_touches_only_the_moved_object_witness :
  is_Some (pathFinding Demo.ready) /\ is_Some (pathFinding hasty) /\
  (movedOnly Demo.controllable Demo.ready moving /\
   objects moving Demo.box = objects Demo.ready Demo.box) /\
  fadedOnly (objects hasty Demo.box)
    (objects (moveObjThrough Demo.X 1 Demo.controllable [node 0 1] None
                hasty).2 Demo.box).
Proof.
  assert (Hpf : is_Some (pathFinding hasty)).
  { unfold hasty. apply pathFinding_set_config, ready_pathFinding. }
  split; [exact ready_pathFinding|]. split; [exact Hpf|]. split.
  - destruct (movement_touches_only_the_moved_object Demo.X 2 Demo.ready
                Demo.controllable ready_pathFinding) as (_ & Hcheck & _).
    pose proof (Hcheck (mkPos 0 1) None) as Hmoved.
    split; [exact Hmoved|].
    destruct Hmoved as (_ & _ & _ & _ & _ & _ & _ & _ & _ & [_ Hsame] & _).
    apply Hsame; [vm_compute; reflexivity|].
    unfold Demo.box, Demo.controllable. lia.
  - destruct (movement_touches_only_the_moved_object Demo.X 1 hasty
                Demo.controllable Hpf) as (Hmove & _).
    destruct (Hmove [node 0 1] None)
      as (_ & _ & _ & _ & _ & _ & _ & _ & _ & [Hfaded _] & _).
    apply Hfaded. unfold Demo.box, Demo.controllable. lia.
Defined.

Lemma createMap_places_the_objects_witness :
  config Demo.loaded = Some Demo.theConfig /\
  mapData Demo.loaded = Some Demo.theMapData /\
  head (groundMapData Demo.theMapData) = Some [Some true; Some true; None] /\
  (length (groundMapData Demo.theMapData)
   <= length (objectsMapData Demo.theMapData))%nat /\
  fits Demo.X (objectsMapData Demo.theMapData) 3 3 /\
  exists s',
    createMap Demo.X Demo.loaded = (Val tt, s') /\
    (exists x, (x < nextObject s')%nat /\
               objects s' x = objectAt Demo.X (mkPos 2 1) (1, 2, false)) /\
    forall p x, x ∈ refs s' p <->
                (x < nextObject s')%nat /\ p ∈ footprintOf s' x.
Proof.
  assert (Hlen : (length (groundMapData Demo.theMapData)
                  <= length (objectsMapData Demo.theMapData))%nat)
    by (simpl; lia).
  split; [reflexivity|]. split; [reflexivity|]. split; [reflexivity|].
  split; [exact Hlen|]. split; [exact ready_fits|].
  destruct (createMap_places_the_objects Demo.X Demo.loaded Demo.theConfig
              Demo.theMapData [Some true; Some true; None]
              eq_refl eq_refl eq_refl Hlen ready_fits)
    as (s' & Hrun & Hall & _ & _ & Hrefs & _).
  exists s'. split; [exact Hrun|]. split.
  - destruct (Hall (mkPos 2 1) (1, 2, false)) as (x & Hx & Ho).
    + apply elem_of_cellsInOrder. simpl. lia.
    + reflexivity.
    + exists x. split; [lia|exact Ho].
  - intros p x. rewrite Hrefs. simpl. split.
    + intros [H1 H2]. split; [lia|done].
    + intros [H1 H2]. split; [lia|done].
Defined.

Lemma createMap_dynamic_layer_witness :
  config Demo.loaded = Some Demo.theConfig /\
  mapData Demo.loaded = Some Demo.theMapData /\
  head (groundMapData Demo.theMapData) = Some [Some true; Some true; None] /\
  (length (groundMapData Demo.theMapData)
   <= length (objectsMapData Demo.theMapData))%nat /\
  fits Demo.X (objectsMapData Demo.theMapData) 3 3 /\
  exists x, x ∈ refs Demo.ready (mkPos 2 0) /\
            ObjectView.isMovableTo (objects Demo.ready x) = false.
Proof.
  assert (Hlen : (length (groundMapData Demo.theMapData)
                  <= length (objectsMapData Demo.theMapData))%nat)
    by (simpl; lia).
  split; [reflexivity|]. split; [reflexivity|]. split; [reflexivity|].
  split; [exact Hlen|]. split; [exact ready_fits|].
  destruct (createMap_dynamic_layer Demo.X Demo.loaded Demo.theConfig
              Demo.theMapData [Some true; Some true; None]
              eq_refl eq_refl eq_refl Hlen ready_fits)
    as (s' & Hrun & _ & Hlayer).
  assert (s' = Demo.ready) as -> by (unfold Demo.ready; by rewrite Hrun).
  apply Hlayer. vm_compute. reflexivity.
Defined.

Lemma createMap_sets_the_controllable_witness :
  config Demo.loaded = Some Demo.theConfig /\
  mapData Demo.loaded = Some Demo.theMapData /\
  head (groundMapData Demo.theMapData) = Some [Some true; Some true; None] /\
  (length (groundMapData Demo.theMapData)
   <= length (objectsMapData Demo.theMapData))%nat /\
  fits Demo.X (objectsMapData Demo.theMapData) 3 3 /\
  exists s' x,
    createMap Demo.X Demo.loaded = (Val tt, s') /\
    getCurrentControllable s' = (Val (Some x), s') /\
    objects s' x = objectAt Demo.X (mkPos 0 2) (1, 1, false).
Proof.
  assert (Hlen : (length (groundMapData Demo.theMapData)
                  <= length (objectsMapData Demo.theMapData))%nat)
    by (simpl; lia).
  split; [reflexivity|]. split; [reflexivity|]. split; [reflexivity|].
  split; [exact Hlen|]. split; [exact ready_fits|].
  destruct (createMap_sets_the_controllable Demo.X Demo.loaded Demo.theConfig
              Demo.theMapData [Some true; Some true; None]
              eq_refl eq_refl eq_refl Hlen ready_fits)
    as (s' & Hrun & Hset & _).
  destruct (Hset (mkPos 0 2) (1, 1, false)) as (x & Hx & _ & Ho).
  - reflexivity.
  - apply elem_of_cellsInOrder. simpl. lia.
  - reflexivity.
  - exists s', x. split; [exact Hrun|]. split; [exact Hx|exact Ho].
Defined.

Lemma createMap_can_be_read_back_witness :
  config Demo.loaded = Some Demo.theConfig /\
  mapData Demo.loaded = Some Demo.theMapData /\
  head (groundMapData Demo.theMapData) = Some [Some true; Some true; None] /\
  (length (groundMapData Demo.theMapData)
   <= length (objectsMapData Demo.theMapData))%nat /\
  fits Demo.X (objectsMapData Demo.theMapData) 3 3 /\
  exists s',
    createMap Demo.X Demo.loaded = (Val tt, s') /\
    getTileAtRowAndColumn 1 1 s'
    = (Val (Some (TileView.mk (mkPos 1 1) false)), s') /\
    getTileAtRowAndColumn 0 2 s' = (Val None, s') /\
    getTileAtRowAndColumn 3 0 s'
    = (Throw (TypeError "this.tileArray[r]"), s') /\
    getObjectsAtLocation (mkPos 0 (-1)) s'
    = (Throw (TypeError "this.objArray[pos.r]"), s').
Proof.
  assert (Hlen : (length (groundMapData Demo.theMapData)
                  <= length (objectsMapData Demo.theMapData))%nat)
    by (simpl; lia).
  split; [reflexivity|]. split; [reflexivity|]. split; [reflexivity|].
  split; [exact Hlen|]. split; [exact ready_fits|].
  destruct (createMap_can_be_read_back Demo.X Demo.loaded Demo.theConfig
              Demo.theMapData [Some true; Some true; None]
              eq_refl eq_refl eq_refl Hlen ready_fits)
    as (s' & Hrun & Htile & _ & _ & Hout).
  exists s'. split; [exact Hrun|]. rewrite !Htile.
  split; [reflexivity|]. split; [reflexivity|]. split; [reflexivity|].
  apply Hout. simpl. lia.
Defined.

Lemma ready_whole : whole Demo.ready.
Proof.
  split; [vm_compute; reflexivity|]. split; [exact ready_pathFinding|].
  split; [vm_compute; eauto|].
  destruct ready_size as [-> ->]. intros p Hp.
  apply elem_of_cellsInOrder in Hp. split.
  - apply ready_built. lia.
  - apply ready_rows. lia.
Qed.

Lemma destroy_releases_the_map_witness :
  whole Demo.ready /\
  exists s',
    destroy Demo.ready = (Val tt, s') /\ gone s' /\
    Obj_destroy Demo.box
    ∈ cellsInOrder 3 3 ≫= destroyedAt Demo.ready.
Proof.
  split; [exact ready_whole|].
  destruct (destroy_releases_the_map Demo.ready ready_whole)
    as (s' & Hrun & Hgone & _ & Hobj).
  exists s'. split; [exact Hrun|]. split; [exact Hgone|].
  destruct ready_size as [E1 E2]. rewrite E1, E2 in Hobj.
  apply Hobj. exists (mkPos 2 1). simpl.
  split; [lia|]. split; [lia|]. vm_compute. left.
Defined.

Lemma after_destroy_every_method_throws_witness :
  exists s',
    destroy Demo.ready = (Val tt, s') /\
    destroy s' = (Throw (TypeError "this.moveEngine"), s') /\
    getObjectsAtLocation (mkPos 2 1) s'
    = (Throw (TypeError "this.objArray"), s').
Proof.
  destruct (destroy_run Demo.ready ready_whole) as (s' & Hrun & _).
  exists s'. split; [exact Hrun|].
  destruct (after_destroy_every_method_throws Demo.X Demo.ready s' Hrun)
    as (_ & Hread & _ & _ & Hagain & _).
  split; [exact Hagain|]. apply Hread.
Defined.

Lemma createMap_then_destroy_witness :
  config Demo.loaded = Some Demo.theConfig /\
  mapData Demo.loaded = Some Demo.theMapData /\
  head (groundMapData Demo.theMapData) = Some [Some true; Some true; None] /\
  moveEngine Demo.loaded = true /\
  (length (groundMapData Demo.theMapData)
   <= length (objectsMapData Demo.theMapData))%nat /\
  fits Demo.X (objectsMapData Demo.theMapData) 3 3 /\
  exists s1 s2,
    createMap Demo.X Demo.loaded = (Val tt, s1) /\
    destroy s1 = (Val tt, s2) /\ gone s2.
Proof.
  assert (Hlen : (length (groundMapData Demo.theMapData)
                  <= length (objectsMapData Demo.theMapData))%nat)
    by (simpl; lia).
  split; [reflexivity|]. split; [reflexivity|]. split; [reflexivity|].
  split; [reflexivity|]. split; [exact Hlen|]. split; [exact ready_fits|].
  destruct (createMap_then_destroy Demo.X Demo.loaded Demo.theConfig
              Demo.theMapData [Some true; Some true; None]
              eq_refl eq_refl eq_refl eq_refl Hlen ready_fits)
    as (s1 & s2 & calls & Hrun1 & Hrun2 & Hgone & _).
  exists s1, s2. split; [exact Hrun1|]. split; [exact Hrun2|exact Hgone].
Defined.

Lemma createMap_throws_where_an_object_does_not_fit_witness :
  config crowded = Some Demo.theConfig /\
  mapData crowded = Some crowdedMapData /\
  head (groundMapData crowdedMapData) = Some [Some true; Some true; None] /\
  mkPos 2 0 ∈ cellsInOrder 3 3 /\
  dataAt (objectsMapData crowdedMapData) (mkPos 2 0) = Some (1, 2, false) /\
  mkPos 2 (-1) ∈ footprint (mkPos 2 0) 1 2 /\
  exists what, (createMap Demo.X crowded).1 = Throw (TypeError what).
Proof.
  assert (Hq : mkPos 2 0 ∈ cellsInOrder 3 3).
  { apply elem_of_cellsInOrder. simpl. lia. }
  assert (Hp : mkPos 2 (-1) ∈ footprint (mkPos 2 0) 1 2).
  { apply elem_of_footprint. simpl. lia. }
  split; [reflexivity|]. split; [reflexivity|]. split; [reflexivity|].
  split; [exact Hq|]. split; [reflexivity|]. split; [exact Hp|].
  apply (createMap_throws_where_an_object_does_not_fit Demo.X crowded
           Demo.theConfig crowdedMapData [Some true; Some true; None]
           (mkPos 2 0) eq_refl eq_refl eq_refl Hq).
  right. exists (1, 2, false), (mkPos 2 (-1)).
  split; [reflexivity|]. split; [exact Hp|]. simpl. lia.
Defined.


Lemma removeAllObjectRefsFromLocation_empties_one_cell_witness :
  is_Some (pathFinding Demo.ready) /\ is_Some (rowAt Demo.ready 1) /\
  exists s',
    removeAllObjectRefsFromLocation (mkPos 2 1) Demo.ready = (Val tt, s') /\
    cellAt s' (mkPos 2 1) = None /\
    cellAt s' (mkPos 2 0) = Some [Demo.box] /\
    ~ placed s' Demo.box.
Proof.
  assert (Hrow : is_Some (rowAt Demo.ready 1)) by (apply ready_rows; lia).
  split; [exact ready_pathFinding|]. split; [exact Hrow|].
  destruct (removeAllObjectRefsFromLocation_empties_one_cell Demo.ready
              (mkPos 2 1) ready_pathFinding Hrow)
    as (s' & Hrun & Hnone & Hothers & _ & _ & _ & Hlost).
  exists s'. split; [exact Hrun|]. split; [exact Hnone|]. split.
  - rewrite Hothers by done. vm_compute. reflexivity.
  - apply Hlost.
    + vm_compute. left.
    + apply ready_placed. unfold Demo.box. lia.
Defined.

Lemma moveObjThrough_throws_for_an_object_under_way_witness :
  config moving = Some Demo.theConfig /\
  instantObjectRelocation Demo.theConfig = false /\
  ObjectView.currentTarget (objects moving Demo.controllable) <> None /\
  exists what s',
    moveObjThrough Demo.X 1 Demo.controllable
      [mkItem GridNode (mkPos 0 0)] None moving
    = (Throw (TypeError what), s').
Proof.
  assert (Hcfg : config moving = Some Demo.theConfig)
    by (vm_compute; reflexivity).
  assert (Htarget : ObjectView.currentTarget (objects moving Demo.controllable)
                    <> None).
  { replace (ObjectView.currentTarget (objects moving Demo.controllable))
      with (Some (0, 1)) by (vm_compute; reflexivity).
    discriminate. }
  split; [exact Hcfg|]. split; [reflexivity|]. split; [exact Htarget|].
  destruct (moveObjThrough_throws_for_an_object_under_way Demo.X 0 moving
              Demo.theConfig Demo.controllable Hcfg eq_refl Htarget)
    as [Hthrows _].
  apply Hthrows.
Defined.

Lemma arrangePathHighlight_switches_witness :
  (forall item,
     item ∈ onlyIn (Some [mkItem GridNode (mkPos 0 1);
                          mkItem GridNode (mkPos 0 0)])
              (Some [mkItem GridNode (mkPos 0 0);
                     mkItem GridNode (mkPos 1 0)])
            ++ onlyIn (Some [mkItem GridNode (mkPos 0 0);
                             mkItem GridNode (mkPos 1 0)])
                 (Some [mkItem GridNode (mkPos 0 1);
                        mkItem GridNode (mkPos 0 0)]) ->
     is_Some (tileOf Demo.ready (item_mapPos item))) /\
  exists s',
    arrangePathHighlight
      (Some [mkItem GridNode (mkPos 0 1); mkItem GridNode (mkPos 0 0)])
      (Some [mkItem GridNode (mkPos 0 0); mkItem GridNode (mkPos 1 0)])
      Demo.ready = (Val tt, s') /\
    log s' = log Demo.ready
             ++ [Tile_setHighlighted 1 0 false; Tile_setHighlighted 0 1 true].
Proof.
  assert (Htiles : forall item,
            item ∈ onlyIn (Some [mkItem GridNode (mkPos 0 1);
                                 mkItem GridNode (mkPos 0 0)])
                     (Some [mkItem GridNode (mkPos 0 0);
                            mkItem GridNode (mkPos 1 0)])
                   ++ onlyIn (Some [mkItem GridNode (mkPos 0 0);
                                    mkItem GridNode (mkPos 1 0)])
                        (Some [mkItem GridNode (mkPos 0 1);
                               mkItem GridNode (mkPos 0 0)]) ->
            is_Some (tileOf Demo.ready (item_mapPos item))).
  { intros item Hitem.
    replace (onlyIn (Some [mkItem GridNode (mkPos 0 1);
                           mkItem GridNode (mkPos 0 0)])
               (Some [mkItem GridNode (mkPos 0 0);
                      mkItem GridNode (mkPos 1 0)])
             ++ onlyIn (Some [mkItem GridNode (mkPos 0 0);
                              mkItem GridNode (mkPos 1 0)])
                  (Some [mkItem GridNode (mkPos 0 1);
                         mkItem GridNode (mkPos 0 0)]))
      with [mkItem GridNode (mkPos 0 1); mkItem GridNode (mkPos 1 0)]
      in Hitem by (vm_compute; reflexivity).
    apply elem_of_cons in Hitem as [->|Hitem].
    { vm_compute. eauto. }
    apply list_elem_of_singleton in Hitem as ->. vm_compute. eauto. }
  split; [exact Htiles|].
  destruct (arrangePathHighlight_switches _ _ Demo.ready Htiles)
    as (s' & Hrun & _ & Hlog).
  exists s'. split; [exact Hrun|]. rewrite Hlog. f_equal.
Defined.

Lemma arrangeObjTransperancies_fades_witness :
  config Demo.ready = Some Demo.theConfig /\
  exists s',
    arrangeObjTransperancies Demo.controllable (mkPos 0 2) (mkPos 2 0)
      Demo.ready = (Val tt, s') /\
    ObjectView.alpha (objects s' Demo.controllable) = 1%Q /\
    ObjectView.alpha (objects s' Demo.box) = 0.7%Q /\
    refs s' (mkPos 2 1) = [Demo.box].
Proof.
  assert (Hcfg : config Demo.ready = Some Demo.theConfig)
    by (vm_compute; reflexivity).
  split; [exact Hcfg|].
  destruct ready_size as [Hsize _].
  destruct (arrangeObjTransperancies_fades Demo.controllable (mkPos 0 2)
              (mkPos 2 0) Demo.ready Demo.theConfig Hcfg)
    as (s' & Hrun & Hsame & _ & Hon).
  - intros i Hi. apply ready_rows. rewrite Hsize in Hi. exact Hi.
  - rewrite Hsize. simpl. lia.
  - rewrite Hsize. simpl. lia.
  - destruct (Hon eq_refl) as [Hself Hothers].
    exists s'. split; [exact Hrun|]. split; [|split].
    + rewrite Hself. reflexivity.
    + rewrite (Hothers Demo.box) by (unfold Demo.box, Demo.controllable; lia).
      vm_compute. reflexivity.
    + rewrite (sameButObjects_refs Demo.ready s' (mkPos 2 1) Hsame).
      vm_compute. reflexivity.
Defined.
